(** * Maritime safety platform: geometry-to-ventilation pipeline

    A shallow embedding of the analytical core of the platform
    (space detection, topology construction, ACH computation, result
    assembly and validation) together with the properties its
    specification states about it.

    Conventions of the embedding:
    - Python floats are idealised as rationals [Q]; a fractional power
      [x ** y] is not rational and is taken as a parameter [fpow].
    - Python exceptions are values of [PyError] carried by [Result].
    - [networkx.Graph] is an insertion-ordered adjacency structure, as
      the library keeps it (dict of dicts, iterated in insertion order).
    - unordered randomness ([numpy.random.shuffle], [uuid.uuid4]) is an
      explicit input of the functions that draw from it.
    - the dictionaries of the configuration are objects in a store,
      since instances share them. *)

From Stdlib Require Import QArith Qpower Qminmax Qabs Lqa ZArith List Permutation Sorted.
From Stdlib Require Import DecimalString DecimalNat.
From stdpp Require Import gmap strings list fin_maps sorting relations.
Import ListNotations.

Set Default Proof Using "Type".

(* ===================================================================== *)
(** ** Python basics *)
(* ===================================================================== *)

Module Py.

(** The exceptions the modelled code can raise. *)
Inductive PyError : Type :=
| TypeError          (* iterating over a non-iterable object *)
| KeyError (k : string)
| ZeroDivisionError
| AttributeError
| IndexError
| NodeNotFound (n : string).   (* networkx.NodeNotFound *)

Inductive Result (A : Type) : Type :=
| Ok (a : A)
| Raise (e : PyError).
Arguments Ok {A} a.
Arguments Raise {A} e.

#[export] Instance Result_ret : MRet Result := fun A a => Ok a.
#[export] Instance Result_bind : MBind Result := fun A B f m =>
  match m with
  | Ok a => f a
  | Raise e => Raise e
  end.

(** [for x in xs: acc = body(acc, x)] where the body may raise. *)
Fixpoint for_each {A S : Type} (body : S → A → Result S) (xs : list A) (acc : S)
  : Result S :=
  match xs with
  | [] => Ok acc
  | x :: xs' => acc' ← body acc x; for_each body xs' acc'
  end.

(** [dict.get(k)] on an insertion-ordered dictionary kept as a list. *)
Fixpoint assoc {V : Type} (k : string) (d : list (string * V)) : option V :=
  match d with
  | [] => None
  | (k', v) :: d' => if String.eqb k k' then Some v else assoc k d'
  end.

(** Float comparison and the two-argument builtins [min] and [max]:
    [min(a, b)] is [b] when [b < a] and [a] otherwise, [max(a, b)] is
    [b] when [b > a] and [a] otherwise. *)
Definition Qltb (a b : Q) : bool := negb (Qle_bool b a).

Definition py_min (a b : Q) : Q := if Qltb b a then b else a.
Definition py_max (a b : Q) : Q := if Qltb a b then b else a.

(** Float division: Python raises on a zero divisor. *)
Definition py_div (a b : Q) : Result Q :=
  if Qeq_bool b 0 then Raise ZeroDivisionError else Ok (a / b)%Q.

(** [sum(xs)], accumulating from 0 left to right. *)
Definition py_sum (xs : list Q) : Q := fold_left Qplus xs 0%Q.

(** [max(xs, default=d)]. *)
Definition py_max_default (xs : list Q) (d : Q) : Q :=
  match xs with
  | [] => d
  | x :: xs' => fold_left py_max xs' x
  end.

(** [f"{n}"] for a non-negative integer. *)
Definition str_of_nat (n : nat) : string :=
  DecimalString.NilZero.string_of_uint (Nat.to_uint n).

(** [enumerate(xs)]. *)
Definition enumerate {A : Type} (xs : list A) : list (nat * A) :=
  combine (seq 0 (length xs)) xs.

(** [sorted(xs, key=key, reverse=True)]: descending by key; the sort is
    stable, entries of equal key keep their order. *)
Fixpoint insert_desc {A : Type} (key : A → Q) (x : A) (l : list A) : list A :=
  match l with
  | [] => [x]
  | y :: l' =>
      if Qltb (key x) (key y) then y :: insert_desc key x l' else x :: y :: l'
  end.

Definition sorted_desc {A : Type} (key : A → Q) (l : list A) : list A :=
  fold_right (insert_desc key) [] l.

(** [xs.sort(key=key)]: ascending by key, stable. *)
Fixpoint insert_asc {A : Type} (key : A → Q) (x : A) (l : list A) : list A :=
  match l with
  | [] => [x]
  | y :: l' =>
      if Qle_bool (key x) (key y) then x :: y :: l' else y :: insert_asc key x l'
  end.

Definition sorted_asc {A : Type} (key : A → Q) (l : list A) : list A :=
  fold_right (insert_asc key) [] l.

End Py.
Import Py.

(* ===================================================================== *)
(** ** utils/geometry_utils.py *)
(* ===================================================================== *)

Module GeometryUtils.

Definition Vertex : Type := Q * Q * Q.

(** Values of the feature dictionary: floats, or float lists for the
    [normal] and [centroid] entries. *)
Inductive FeatVal : Type :=
| FNum (q : Q)
| FVec (v : list Q).

Definition Features : Type := list (string * FeatVal).

Section ComputeOpeningFeatures.
(** The planar analysis of three or more vertices (convex hulls, PCA
    on the covariance matrix, projected extents) is numerical library
    code ([scipy.spatial.ConvexHull], [numpy.linalg.eigh]); it may
    raise, and is a parameter here. *)
Variable planar_features : list Vertex → Result Features.

Definition compute_opening_features (vertices : list Vertex) : Result Features :=
  if (length vertices <? 3)%nat then
    Ok [ ("area", FNum 0); ("perimeter", FNum 0); ("width", FNum 0);
         ("height", FNum 0); ("aspect_ratio", FNum 0); ("circularity", FNum 0) ]
  else planar_features vertices.
End ComputeOpeningFeatures.

End GeometryUtils.

(* ===================================================================== *)
(** ** networkx.Graph, as far as the platform uses it *)
(* ===================================================================== *)

Module Nx.

Abbreviation Node := string (only parsing).

(** Edge attribute dictionary.  Every key is optional, as readers use
    [edge_data.get(key, default)]. *)
Record EdgeData : Type := mkEdgeData {
  e_openings : option (list string);
  e_count : option nat;
  e_weight : option Q;
  e_opening_types : option (list string);
  e_is_repair : option bool
}.

Definition no_attrs : EdgeData := mkEdgeData None None None None None.

(** [datadict.update(attr)]: keys present in [attr] win. *)
Definition or_else {A : Type} (new old : option A) : option A :=
  match new with Some _ => new | None => old end.

Definition update_attrs (old attr : EdgeData) : EdgeData :=
  mkEdgeData (or_else (e_openings attr) (e_openings old))
             (or_else (e_count attr) (e_count old))
             (or_else (e_weight attr) (e_weight old))
             (or_else (e_opening_types attr) (e_opening_types old))
             (or_else (e_is_repair attr) (e_is_repair old)).

(** Adjacency of one node and the whole graph, both insertion ordered. *)
Definition Adj : Type := list (Node * EdgeData).
Definition Graph : Type := list (Node * Adj).

Definition empty_graph : Graph := [].

Definition nodes (g : Graph) : list Node := map fst g.

Definition mem (n : Node) (l : list Node) : bool := existsb (String.eqb n) l.

Definition has_node (g : Graph) (n : Node) : bool := mem n (nodes g).

Definition neighbors (g : Graph) (u : Node) : Adj :=
  match assoc u g with Some a => a | None => [] end.

Definition get_edge_data (g : Graph) (u v : Node) : option EdgeData :=
  match assoc u g with
  | Some a => assoc v a
  | None => None
  end.

Definition has_edge (g : Graph) (u v : Node) : bool :=
  match get_edge_data g u v with Some _ => true | None => false end.

(** [d[k] = v] on an insertion-ordered dictionary: an existing key keeps
    its position, a new key goes last. *)
Fixpoint dict_set {V : Type} (k : string) (v : V) (d : list (string * V))
  : list (string * V) :=
  match d with
  | [] => [(k, v)]
  | (k', v') :: d' =>
      if String.eqb k k' then (k, v) :: d' else (k', v') :: dict_set k v d'
  end.

Definition add_node (g : Graph) (n : Node) : Graph :=
  if has_node g n then g else g ++ [(n, [])].

(** [_adj[u][v] = data]. *)
Definition set_half_edge (g : Graph) (u v : Node) (data : EdgeData) : Graph :=
  dict_set u (dict_set v data (neighbors g u)) g.

(** [G.add_edge(u, v, **attr)]: missing endpoints are created, the
    attributes update the edge's dictionary, which both directions
    share. *)
Definition add_edge (g : Graph) (u v : Node) (attr : EdgeData) : Graph :=
  let g := add_node (add_node g u) v in
  let data :=
    update_attrs (match get_edge_data g u v with Some d => d | None => no_attrs end)
                 attr in
  set_half_edge (set_half_edge g u v data) v u data.

(** [G.edges()]: every undirected edge once, from the endpoint that
    comes first in node order. *)
Fixpoint edges_from (seen : list Node) (g : Graph) : list (Node * Node) :=
  match g with
  | [] => []
  | (n, nbrs) :: g' =>
      map (λ vd, (n, fst vd)) (List.filter (λ vd, negb (mem (fst vd) seen)) nbrs)
      ++ edges_from (n :: seen) g'
  end.

Definition edges (g : Graph) : list (Node * Node) := edges_from [] g.

(** [dict(G.degree())]: a self-loop counts twice. *)
Definition degree (g : Graph) : list (Node * Q) :=
  map (λ na, (fst na,
              inject_Z (Z.of_nat (length (snd na)
                                  + (if mem (fst na) (map fst (snd na)) then 1 else 0)))))
      g.

(** One level of [_plain_bfs]: scan the adjacency of every node of the
    level, collecting the nodes not seen before. *)
Definition bfs_visit (acc : list Node * list Node) (w : Node) : list Node * list Node :=
  if mem w (fst acc) then acc else (fst acc ++ [w], snd acc ++ [w]).

Definition bfs_level (g : Graph) (seen thislevel : list Node) : list Node * list Node :=
  fold_left (λ acc v, fold_left bfs_visit (map fst (neighbors g v)) acc)
            thislevel (seen, []).

Fixpoint bfs_loop (fuel : nat) (g : Graph) (seen thislevel : list Node) : list Node :=
  match fuel with
  | O => seen
  | S fuel' =>
      match thislevel with
      | [] => seen
      | _ => let '(seen', nextlevel) := bfs_level g seen thislevel in
             bfs_loop fuel' g seen' nextlevel
      end
  end.

(** [_plain_bfs(G, source)]: the nodes reachable from [source], here in
    discovery order.  Every level but the last discovers a new node, so
    [length g] rounds after the first exhaust the graph. *)
Definition plain_bfs (g : Graph) (source : Node) : list Node :=
  bfs_loop (S (length g)) g [source] [source].

(** [nx.connected_components(G)]. *)
Fixpoint components_from (g : Graph) (vs seen : list Node) : list (list Node) :=
  match vs with
  | [] => []
  | v :: vs' =>
      if mem v seen then components_from g vs' seen
      else let c := plain_bfs g v in c :: components_from g vs' (seen ++ c)
  end.

Definition connected_components (g : Graph) : list (list Node) :=
  components_from g (nodes g) [].

(** [nx.has_path(G, source, target)]: a missing endpoint raises. *)
Definition has_path (g : Graph) (source target : Node) : Result bool :=
  if negb (has_node g source) then Raise (NodeNotFound source)
  else if negb (has_node g target) then Raise (NodeNotFound target)
  else Ok (mem target (plain_bfs g source)).

(** [nx.all_simple_paths(G, source, target, cutoff)]: depth-first, the
    neighbours of a node in adjacency order; [visited] is the current
    path, most recent node first. *)
Fixpoint simple_paths_from (g : Graph) (target : Node) (cutoff : nat)
    (visited : list Node) (u : Node) : list (list Node) :=
  match cutoff with
  | O => []
  | S cutoff' =>
      flat_map (λ vd,
        let v := fst vd in
        if mem v visited then []
        else if String.eqb v target then [rev (v :: visited)]
        else simple_paths_from g target cutoff' (v :: visited) v)
      (neighbors g u)
  end.

Definition all_simple_paths (g : Graph) (source target : Node) (cutoff : nat)
  : list (list Node) :=
  if String.eqb source target then []
  else simple_paths_from g target cutoff [source] source.

(** [G.copy()]: a new graph with the nodes in their order and every
    adjacency entry added again as an edge; the attribute dictionary of
    an edge is copied, one copy serving both directions. *)
Definition copy (g : Graph) : Graph :=
  fold_left (λ acc entry,
      fold_left (λ acc vd, add_edge acc (fst entry) (fst vd) (snd vd)) (snd entry) acc)
    g (fold_left add_node (nodes g) empty_graph).

(** [del d[k]]. *)
Definition dict_del {V : Type} (k : string) (d : list (string * V)) : list (string * V) :=
  List.filter (λ kv, negb (String.eqb (fst kv) k)) d.

(** [G.remove_edge(u, v)]; [None] when the edge is not in the graph,
    where [networkx] raises [NetworkXError]. *)
Definition remove_edge (g : Graph) (u v : Node) : option Graph :=
  if has_edge g u v then
    let g := dict_set u (dict_del v (neighbors g u)) g in
    if String.eqb u v then Some g
    else if has_edge g v u then Some (dict_set v (dict_del u (neighbors g v)) g)
    else None
  else None.

(** [nx.number_connected_components(G)]. *)
Definition number_connected_components (g : Graph) : nat :=
  length (connected_components g).

(** [networkx.NetworkXError] is not among the Python errors above; the
    code that can raise it returns an [Outcome]. *)
Inductive Outcome (A : Type) : Type :=
| Returns (a : A)
| NetworkXError
| Raises (e : PyError).
Arguments Returns {A} a.
Arguments NetworkXError {A}.
Arguments Raises {A} e.

#[export] Instance Outcome_ret : MRet Outcome := fun A a => Returns a.
#[export] Instance Outcome_bind : MBind Outcome := fun A B f m =>
  match m with
  | Returns a => f a
  | NetworkXError => NetworkXError
  | Raises e => Raises e
  end.

Definition lift {A : Type} (r : Result A) : Outcome A :=
  match r with Ok a => Returns a | Raise e => Raises e end.

(** A float that may be [float('inf')]. *)
Inductive Float : Type :=
| Finite (q : Q)
| Inf.

(** [try: x = f(G) except nx.NetworkXError: x = float('inf')]. *)
Definition or_inf (m : Outcome Q) : Outcome Float :=
  match m with
  | Returns q => Returns (Finite q)
  | NetworkXError => Returns Inf
  | Raises e => Raises e
  end.

End Nx.

(* ===================================================================== *)
(** ** The dictionaries passed between the stages *)
(* ===================================================================== *)

Module Data.

(** A space, as the topology builder, the ACH calculator and the data
    generator read it: [space["id"]] is required, the other keys are
    read with [space.get(key, default)]. *)
Record Space : Type := mkSpace {
  sp_id : string;
  sp_volume : option Q;
  sp_type : option string
}.

(** An opening: [opening["id"]] and [opening["type"]] are required,
    [connects], [area] and [state] are read with [get]. *)
Record Opening : Type := mkOpening {
  op_id : string;
  op_type : string;
  op_connects : option (list string);
  op_area : option Q;
  op_state : option string
}.

Definition exterior_id : string := "space_exterior".

End Data.
Import Data.

(* ===================================================================== *)
(** ** ventilation/topology_builder.py *)
(* ===================================================================== *)

Module TopologyBuilder.
Import Nx.

Record Builder : Type := mkBuilder {
  space_graph : Graph;
  exterior_nodes : list Node;                  (* a set *)
  space_properties : list (string * Space);    (* a dict *)
  centrality_score : list (Node * Q)           (* node attribute *)
}.

(** [TopologyBuilder.__init__]. *)
Definition new_builder : Builder := mkBuilder empty_graph [] [] [].

Record TopologyResult : Type := mkTopologyResult {
  r_space_graph : Graph;
  r_exterior_nodes : list Node;
  r_isolated_spaces : list Node
}.

Definition set_add (n : Node) (s : list Node) : list Node :=
  if mem n s then s else s ++ [n].

(** Opening weight from its area (lines 108-117). *)
Definition opening_weight (o : Opening) : Q :=
  match op_area o with
  | Some area => if Qltb 0 area then (1 / area)%Q else 10%Q
  | None => 1%Q
  end.

Definition get_or {A : Type} (o : option A) (d : A) : A :=
  match o with Some a => a | None => d end.

(** Body of the loop over the openings (lines 89-147).  The code also
    appends the exterior id to the [connects] list of a one-ended
    opening in place; that write to the caller's list is not kept. *)
Definition add_opening (g : Graph) (opening : Opening) : Graph :=
  let connected_spaces := get_or (op_connects opening) [] in
  let connected_spaces :=
    if (length connected_spaces =? 1)%nat then connected_spaces ++ [exterior_id]
    else connected_spaces in
  match connected_spaces with
  | [space1_id; space2_id] =>
      if negb (has_node g space1_id && has_node g space2_id) then g
      else
        let weight := opening_weight opening in
        match get_edge_data g space1_id space2_id with
        | Some edge_data =>
            let openings_list := get_or (e_openings edge_data) [] ++ [op_id opening] in
            let current_weight := get_or (e_weight edge_data) 1%Q in
            let new_weight := py_min current_weight weight in
            add_edge g space1_id space2_id
              (mkEdgeData (Some openings_list) (Some (length openings_list))
                          (Some new_weight)
                          (Some (get_or (e_opening_types edge_data) [] ++ [op_type opening]))
                          None)
        | None =>
            add_edge g space1_id space2_id
              (mkEdgeData (Some [op_id opening]) (Some 1%nat) (Some weight)
                          (Some [op_type opening]) None)
        end
  | _ => g
  end.

Section Centrality.
(** [networkx.betweenness_centrality(G, weight='weight')] and
    [networkx.closeness_centrality(G, distance='weight')]: library
    code, each returns a dictionary from node to score. *)
Variable betweenness_centrality : Graph → list (Node * Q).
Variable closeness_centrality : Graph → list (Node * Q).

(** [_calculate_topology_properties]: the combined score of every node;
    each quotient divides by the maximum over the graph, and Python
    raises when that maximum is zero. *)
Definition calculate_topology_properties (g : Graph) : Result (list (Node * Q)) :=
  let betweenness := betweenness_centrality g in
  let closeness := closeness_centrality g in
  let degree := Nx.degree g in
  for_each (λ scores node,
      b ← py_div (0.4 * get_or (assoc node betweenness) 0)%Q
                 (py_max_default (map snd betweenness) 1%Q);
      c ← py_div (0.4 * get_or (assoc node closeness) 0)%Q
                 (py_max_default (map snd closeness) 1%Q);
      d ← py_div (0.2 * get_or (assoc node degree) 0)%Q
                 (py_max_default (map snd degree) 1%Q);
      Ok (scores ++ [(node, (b + c + d)%Q)]))
    (nodes g) [].

(** Truth value of a string in a condition: empty is false. *)
Definition truthy (s : string) : bool := negb (String.eqb s "").

(** Lines 217-225: the space of largest volume in a component. *)
Definition largest_space_step (props : list (string * Space))
    (acc : option Node * Q) (node : Node) : option Node * Q :=
  match assoc node props with
  | Some sp =>
      let volume := get_or (sp_volume sp) 0%Q in
      if Qltb (snd acc) volume then (Some node, volume) else acc
  | None => acc
  end.

Definition largest_space (props : list (string * Space)) (component : list Node)
  : option Node :=
  fst (fold_left (largest_space_step props) component (None, 0%Q)).

(** Components are sets: two are equal when they have the same nodes. *)
Definition same_component (c1 c2 : list Node) : bool :=
  forallb (λ n, mem n c2) c1 && forallb (λ n, mem n c1) c2.

Definition repair_edge : EdgeData :=
  mkEdgeData (Some ["repair_opening"]) (Some 1%nat) (Some 2%Q)
             (Some ["repair"]) (Some true).

(** Lines 215-239: repair of one component. *)
Definition repair_component (self : Builder) (exterior_component : list Node)
    (g : Graph) (component : list Node) : Graph :=
  if same_component component exterior_component then g
  else
    match largest_space (space_properties self) component with
    | Some largest =>
        if truthy largest then
          match exterior_nodes self with
          | ext :: _ => if truthy ext then add_edge g largest ext repair_edge else g
          | [] => g
          end
        else g
    | None => g
    end.

(** [_validate_topology]. *)
Definition validate_topology (self : Builder) : Builder :=
  let components := connected_components (space_graph self) in
  if (1 <? length components)%nat then
    match List.find (λ c, existsb (λ n, mem n (exterior_nodes self)) c) components with
    | Some exterior_component =>
        mkBuilder
          (fold_left (repair_component self exterior_component) components
                     (space_graph self))
          (exterior_nodes self) (space_properties self) (centrality_score self)
    | None => self
    end
  else self.

(** [_find_isolated_spaces]. *)
Definition can_reach_exterior (self : Builder) (node : Node) : Result bool :=
  for_each (λ found ext,
      if found : bool then Ok true else has_path (space_graph self) node ext)
    (exterior_nodes self) false.

Definition find_isolated_spaces (self : Builder) : Result (list Node) :=
  for_each (λ isolated node,
      if mem node (exterior_nodes self) then Ok isolated
      else
        reach ← can_reach_exterior self node;
        Ok (if reach : bool then isolated else isolated ++ [node]))
    (nodes (space_graph self)) [].

(** [build_topology]. *)
Definition build_topology (self : Builder) (spaces : list Space)
    (openings : list Opening) : Result (TopologyResult * Builder) :=
  let g := fold_left (λ g space, add_node g (sp_id space)) spaces empty_graph in
  let props :=
    fold_left (λ p space, dict_set (sp_id space) space p) spaces (space_properties self) in
  let g := add_node g exterior_id in
  let exts := set_add exterior_id (exterior_nodes self) in
  let g := fold_left add_opening openings g in
  scores ← calculate_topology_properties g;
  let self := validate_topology (mkBuilder g exts props scores) in
  isolated ← find_isolated_spaces self;
  Ok (mkTopologyResult (space_graph self) (exterior_nodes self) isolated, self).

End Centrality.

(** [find_important_spaces]: the (at most) five spaces of highest
    centrality score. *)
Definition find_important_spaces (self : Builder) : list Node :=
  let scores :=
    fold_left (λ scores node,
        if mem node (exterior_nodes self) then scores
        else dict_set node (get_or (assoc node (centrality_score self)) 0%Q) scores)
      (nodes (space_graph self)) [] in
  let sorted_spaces :=
    sorted_desc (λ n, get_or (assoc n scores) 0%Q) (map fst scores) in
  let num_important := Nat.min 5 (length sorted_spaces) in
  firstn num_important sorted_spaces.

(** [status_graph[u][v]["weight"] *= 10]: the dictionary of the edge is
    the same object from both ends. *)
Definition scale_weight (g : Graph) (u v : Node) : Result Graph :=
  match get_edge_data g u v with
  | None => Raise (KeyError v)
  | Some data =>
      match e_weight data with
      | None => Raise (KeyError "weight")
      | Some w =>
          let data := mkEdgeData (e_openings data) (e_count data) (Some (w * 10)%Q)
                                 (e_opening_types data) (e_is_repair data) in
          Ok (set_half_edge (set_half_edge g u v data) v u data)
      end
  end.

(** Lines 492-500: one edge of [status_graph.edges(data=True)]. *)
Definition close_openings (opening_states : gmap string string)
    (status_graph : Graph) (uv : Node * Node) : Result Graph :=
  let data := get_or (get_edge_data status_graph (fst uv) (snd uv)) no_attrs in
  let openings := get_or (e_openings data) [] in
  for_each (λ g opening_id,
      if bool_decide (opening_states !! opening_id = Some "closed")
      then scale_weight g (fst uv) (snd uv)
      else Ok g)
    openings status_graph.

(** [get_opening_status_graph]. *)
Definition get_opening_status_graph (self : Builder)
    (opening_states : gmap string string) : Result Graph :=
  let status_graph := copy (space_graph self) in
  for_each (close_openings opening_states) (edges status_graph) status_graph.

Section Resilience.
(** Library code: [nx.edge_betweenness_centrality(G, weight='weight')],
    a dictionary from edge to score, and the three whole-graph
    measures. *)
Variable edge_betweenness_centrality : Graph → list ((Node * Node) * Q).
Variable average_shortest_path_length : Graph → Outcome Q.
Variable average_clustering : Graph → Outcome Q.
Variable diameter : Graph → Outcome Q.

Definition edge_eqb (e1 e2 : Node * Node) : bool :=
  String.eqb (fst e1) (fst e2) && String.eqb (snd e1) (snd e2).

(** [edge_betweenness[e]] for a key of the dictionary. *)
Definition edge_score (edge_betweenness : list ((Node * Node) * Q)) (e : Node * Node) : Q :=
  match List.find (λ kv, edge_eqb (fst kv) e) edge_betweenness with
  | Some kv => snd kv
  | None => 0%Q
  end.

(** [identify_critical_connections]. *)
Definition identify_critical_connections (self : Builder) : list (Node * Node) :=
  let edge_betweenness := edge_betweenness_centrality (space_graph self) in
  let sorted_edges := sorted_desc (edge_score edge_betweenness) (map fst edge_betweenness) in
  let num_critical := Nat.min 10 (length sorted_edges) in
  firstn num_critical sorted_edges.

Record Resilience : Type := mkResilience {
  avg_path_length : Float;
  clustering : Q;
  res_diameter : Float;
  resilience_score : Q;
  critical_connections : list (Node * Node)
}.

(** Lines 454-465: one of the tested edges is removed, the components
    are counted, and the edge is put back with the attributes
    [get_edge_data] finds for it at that point. *)
Definition probe_edge (original_components : nat) (acc : Z * Graph) (edge : Node * Node)
  : Outcome (Z * Graph) :=
  match remove_edge (snd acc) (fst edge) (snd edge) with
  | None => NetworkXError
  | Some g =>
      let new_components := number_connected_components g in
      let change := (Z.of_nat new_components - Z.of_nat original_components)%Z in
      let edge_data := get_or (get_edge_data g (fst edge) (snd edge)) no_attrs in
      Returns ((fst acc + change)%Z, add_edge g (fst edge) (snd edge) edge_data)
  end.

Fixpoint probe_edges (original_components : nat) (edges : list (Node * Node))
    (acc : Z * Graph) : Outcome (Z * Graph) :=
  match edges with
  | [] => Returns acc
  | edge :: edges' =>
      acc' ← probe_edge original_components acc edge;
      probe_edges original_components edges' acc'
  end.

(** [evaluate_topology_resilience]: the result and the builder after
    the call. *)
Definition evaluate_topology_resilience (self : Builder) : Outcome (Resilience * Builder) :=
  avg_path_length ← or_inf (average_shortest_path_length (space_graph self));
  clustering ← average_clustering (space_graph self);
  diameter ← or_inf (diameter (space_graph self));
  let critical_connections := identify_critical_connections self in
  let original_components := number_connected_components (space_graph self) in
  acc ← probe_edges original_components (firstn 3 critical_connections)
                    (0%Z, space_graph self);
  score ← lift (py_div 1 (1 + inject_Z (fst acc))%Q);
  Returns (mkResilience avg_path_length clustering diameter score critical_connections,
           mkBuilder (snd acc) (exterior_nodes self) (space_properties self)
                     (centrality_score self)).

End Resilience.

Section Connectivity.
(** Library code: [networkx.all_shortest_paths(G, source, target,
    weight='weight')], listed; [None] when it raises
    [NetworkXNoPath]. *)
Variable all_shortest_paths : Graph → Node → Node → option (list (list Node)).

(** A path object of [find_path_to_exterior] (lines 309-315). *)
Record ExteriorPath : Type := mkExteriorPath {
  ep_route : list Node;
  ep_via : list string;
  ep_weight : Q;
  ep_length : Z;
  ep_exterior : Node
}.

(** Lines 300-306: one edge of a path; [get_edge_data] gives [None]
    for a pair that is not an edge, and [None.get] raises. *)
Definition exterior_path_step (g : Graph) (acc : Q * list string) (uv : Node * Node)
  : Result (Q * list string) :=
  match get_edge_data g (fst uv) (snd uv) with
  | None => Raise AttributeError
  | Some edge_data =>
      Ok ((fst acc + get_or (e_weight edge_data) 1)%Q,
          snd acc ++ get_or (e_openings edge_data) [])
  end.

Definition exterior_path (g : Graph) (exterior_id : Node) (path : list Node)
  : Result ExteriorPath :=
  acc ← for_each (exterior_path_step g) (combine path (tl path)) (0%Q, []);
  Ok (mkExteriorPath path (snd acc) (fst acc) (Z.of_nat (length path) - 1) exterior_id).

(** Lines 288-319: the paths to one exterior node. *)
Definition paths_to_exterior (g : Graph) (space_id : Node) (max_paths : nat)
    (paths : list ExteriorPath) (exterior_id : Node) : Result (list ExteriorPath) :=
  reach ← has_path g space_id exterior_id;
  if negb reach then Ok paths
  else
    match all_shortest_paths g space_id exterior_id with
    | None => Ok paths
    | Some all_paths =>
        for_each (λ paths path,
            path_obj ← exterior_path g exterior_id path;
            Ok (paths ++ [path_obj]))
          (firstn max_paths all_paths) paths
    end.

(** [find_path_to_exterior]. *)
Definition find_path_to_exterior (self : Builder) (space_id : Node) (max_paths : nat)
  : Result (list ExteriorPath) :=
  if negb (has_node (space_graph self) space_id) then Ok []
  else
    paths ← for_each (paths_to_exterior (space_graph self) space_id max_paths)
                     (exterior_nodes self) [];
    Ok (sorted_asc ep_weight paths).

(** An entry of [calculate_space_connectivity]. *)
Record Connectivity : Type := mkConnectivity {
  min_weight : Float;
  avg_layers : Float;
  num_paths : nat;
  has_path_to_exterior : bool;
  paths : list ExteriorPath
}.

(** Lines 345-376: the entry of one node. *)
Definition space_connectivity (exterior_paths : list ExteriorPath) : Connectivity :=
  match exterior_paths with
  | first :: _ =>
      mkConnectivity
        (Finite (ep_weight first))
        (Finite (inject_Z (fold_left Z.add (map ep_length exterior_paths) 0%Z)
                 / inject_Z (Z.of_nat (length exterior_paths))))
        (length exterior_paths) true exterior_paths
  | [] => mkConnectivity Inf Inf 0 false []
  end.

(** [calculate_space_connectivity]; [find_path_to_exterior] is called
    with its default [max_paths=3]. *)
Definition calculate_space_connectivity (self : Builder)
  : Result (list (Node * Connectivity)) :=
  for_each (λ result node,
      if mem node (exterior_nodes self) then Ok result
      else
        exterior_paths ← find_path_to_exterior self node 3;
        Ok (dict_set node (space_connectivity exterior_paths) result))
    (nodes (space_graph self)) [].

End Connectivity.

End TopologyBuilder.

(* ===================================================================== *)
(** ** ventilation/ach_calculator.py *)
(* ===================================================================== *)

Module AchCalculator.
Import Nx.

(** The [ventilation] section of the configuration. *)
Record Config : Type := mkConfig {
  high_ach : Q;
  medium_ach_range : Q * Q;
  low_ach_range : Q * Q;
  opening_influence : Q;
  path_decay : Q
}.

Definition default_config : Config :=
  mkConfig 10%Q (5%Q, 8%Q) (1%Q, 4%Q) 0.7%Q 0.6%Q.

Record OpeningInfo : Type := mkOpeningInfo {
  oi_id : string;
  oi_type : string;
  oi_estimated_area : Q
}.

(** A ventilation path object (lines 176-185). *)
Record VentPath : Type := mkVentPath {
  route : list Node;
  via : list string;
  openings : list OpeningInfo;
  weight : Q;
  path_length : Z;
  decay_factor : Q;
  total_opening_area : Q;
  exterior : Node
}.

(** The two result dictionaries the calculator keeps. *)
Record Calculator : Type := mkCalculator {
  ach_rates : gmap string Q;
  ventilation_paths : gmap string (list VentPath)
}.

(** [np.mean] of a two-element range. *)
Definition mean (r : Q * Q) : Q := ((fst r + snd r) / 2)%Q.

(** Accumulators of the walk along one path (lines 141-143). *)
Record PathAcc : Type := mkPathAcc {
  acc_weight : Q;
  acc_openings : list OpeningInfo;
  acc_area : Q
}.

(** [next((t for t in types if t != "repair"), "unknown")]. *)
Definition first_real_type (types : list string) : string :=
  match List.find (λ t, negb (String.eqb t "repair")) types with
  | Some t => t
  | None => "unknown"
  end.

(** Lines 159-161: the area of an opening is estimated from the weight
    of the edge that carries it. *)
Definition estimated_area (edge_weight : Q) : Q :=
  if Qltb 0 edge_weight then (1 / edge_weight)%Q else 1%Q.

(** Lines 147-168: one edge [(u, v)] of the path. *)
Definition path_edge_step (g : Graph) (acc : PathAcc) (uv : Node * Node)
  : Result PathAcc :=
  match get_edge_data g (fst uv) (snd uv) with
  | None => Raise AttributeError
  | Some edge_data =>
      let edge_weight := TopologyBuilder.get_or (e_weight edge_data) 1%Q in
      let path_weight := (acc_weight acc + edge_weight)%Q in
      let opening_type :=
        first_real_type (TopologyBuilder.get_or (e_opening_types edge_data) []) in
      let opening_area := estimated_area edge_weight in
      Ok (fold_left (λ a opening_id,
            mkPathAcc (acc_weight a)
                      (acc_openings a
                       ++ [mkOpeningInfo opening_id opening_type opening_area])
                      (acc_area a + opening_area)%Q)
          (TopologyBuilder.get_or (e_openings edge_data) [])
          (mkPathAcc path_weight (acc_openings acc) (acc_area acc)))
  end.

(** The consecutive pairs [(path[i], path[i+1])]. *)
Definition hops (path : list Node) : list (Node * Node) :=
  combine path (tl path).

(** Python sorts stably: equal keys keep their order. *)
Fixpoint insert_by_weight (p : VentPath) (l : list VentPath) : list VentPath :=
  match l with
  | [] => [p]
  | q :: l' =>
      if Qle_bool (weight p) (weight q) then p :: q :: l'
      else q :: insert_by_weight p l'
  end.

Definition sort_by_weight (l : list VentPath) : list VentPath :=
  fold_right insert_by_weight [] l.

Definition max_paths : nat := 5.
Definition cutoff : nat := 6.

Section Calculator.
Variable cfg : Config.
(** Float power [x ** y] with a fractional exponent. *)
Variable fpow : Q → Q → Q.

(** Lines 139-187: the path object of one enumerated route. *)
Definition make_path (g : Graph) (ext_id : Node) (path : list Node)
  : Result VentPath :=
  acc ← for_each (path_edge_step g) (hops path) (mkPathAcc 0%Q [] 0%Q);
  let path_length := (Z.of_nat (length path) - 1)%Z in
  let decay_factor := Qpower (path_decay cfg) (path_length - 1) in
  Ok (mkVentPath path (map oi_id (acc_openings acc)) (acc_openings acc)
                 (acc_weight acc) path_length decay_factor (acc_area acc) ext_id).

(** Lines 139-187: a route becomes a path object at the end of the list. *)
Definition append_path (g : Graph) (ext_id : Node)
    (ventilation_paths : list VentPath) (path : list Node) : Result (list VentPath) :=
  path_obj ← make_path g ext_id path;
  Ok (ventilation_paths ++ [path_obj]).

(** Lines 120-190: the paths to one exterior node. *)
Definition paths_to (space_id : string) (g : Graph)
    (ventilation_paths : list VentPath) (ext_id : Node) : Result (list VentPath) :=
  reachable ← has_path g space_id ext_id;
  if negb reachable then Ok ventilation_paths
  else
    let all_paths := firstn max_paths (all_simple_paths g space_id ext_id cutoff) in
    for_each (append_path g ext_id) all_paths ventilation_paths.

(** [_find_ventilation_paths]. *)
Definition find_ventilation_paths (space_id : string) (g : Graph)
    (exterior_nodes : list Node) : Result (list VentPath) :=
  ventilation_paths ← for_each (paths_to space_id g) exterior_nodes [];
  Ok (sort_by_weight ventilation_paths).

(** Lines 221-247: the contribution of one path. *)
Definition path_contribution (path : VentPath) : Q :=
  let base_ach :=
    if (path_length path =? 1)%Z then high_ach cfg
    else if (path_length path =? 2)%Z then mean (medium_ach_range cfg)
    else mean (low_ach_range cfg) in
  let opening_area_factor := fpow (total_opening_area path) (opening_influence cfg) in
  (base_ach * opening_area_factor * decay_factor path)%Q.

(** [_calculate_space_ach]. *)
Definition calculate_space_ach (paths : list VentPath) : Q :=
  match paths with
  | [] => fst (low_ach_range cfg)
  | _ =>
      let path_contributions := map path_contribution paths in
      let weights := map (λ p, (1 / (weight p + 0.1))%Q) paths in
      let total := py_sum weights in
      let weights := map (λ w, (w / total)%Q) weights in
      let ach_rate := py_sum (map (λ cw, (fst cw * snd cw)%Q)
                                  (combine path_contributions weights)) in
      py_max (fst (low_ach_range cfg)) (py_min ach_rate (high_ach cfg))
  end.

Definition is_exterior (n : Node) : bool := String.prefix "space_exterior" n.

(** Lines 276-298: smoothing over one edge of the graph. *)
Definition smooth_edge (rates : gmap string Q) (e : Node * Node) : gmap string Q :=
  let space1_id := fst e in
  let space2_id := snd e in
  if is_exterior space1_id || is_exterior space2_id then rates
  else
    let ach1 := default 0%Q (rates !! space1_id) in
    let ach2 := default 0%Q (rates !! space2_id) in
    if Qltb 5 (Qabs (ach1 - ach2)) then
      let average := ((ach1 + ach2) / 2)%Q in
      let adjustment := 0.3%Q in
      if Qltb ach2 ach1 then
        <[space2_id := (ach2 + (average - ach2) * adjustment)%Q]>
          (<[space1_id := (ach1 - (ach1 - average) * adjustment)%Q]> rates)
      else
        <[space2_id := (ach2 - (ach2 - average) * adjustment)%Q]>
          (<[space1_id := (ach1 + (average - ach1) * adjustment)%Q]> rates)
    else rates.

(** [_validate_ach_rates]. *)
Definition validate_ach_rates (g : Graph) (rates : gmap string Q) : gmap string Q :=
  fold_left smooth_edge (edges g) rates.

(** Lines 70-89: the paths and the rate of one space. *)
Definition rate_space (g : Graph) (exterior_nodes : list Node)
    (self : Calculator) (space : Space) : Result Calculator :=
  let space_id := sp_id space in
  paths_to_exterior ← find_ventilation_paths space_id g exterior_nodes;
  let ach_rate := calculate_space_ach paths_to_exterior in
  Ok (mkCalculator (<[space_id := ach_rate]> (ach_rates self))
                   (<[space_id := paths_to_exterior]> (ventilation_paths self))).

(** [calculate_ach_rates]: the calculator after the call. *)
Definition calculate_ach_rates (spaces : list Space) (g : Graph)
    (exterior_nodes : list Node) : Result Calculator :=
  self ← for_each (rate_space g exterior_nodes) spaces (mkCalculator ∅ ∅);
  Ok (mkCalculator (validate_ach_rates g (ach_rates self)) (ventilation_paths self)).

End Calculator.

(** *** Opening-state override

    The rate dictionaries are objects: [self.ach_rates] is a reference
    into a store of dictionaries, [copy] allocates a new one, and the
    in-place product writes through a reference. *)
Record Store : Type := mkStore {
  next_ref : nat;
  dict_at : gmap nat (gmap string Q)
}.

Definition dict_copy (r : nat) (σ : Store) : nat * Store :=
  (next_ref σ,
   mkStore (S (next_ref σ)) (<[next_ref σ := default ∅ (dict_at σ !! r)]> (dict_at σ))).

(** [d[k] *= c]. *)
Definition dict_imul (r : nat) (k : string) (c : Q) (σ : Store) : Result Store :=
  match default ∅ (dict_at σ !! r) !! k with
  | Some v =>
      Ok (mkStore (next_ref σ)
                  (<[r := <[k := (v * c)%Q]> (default ∅ (dict_at σ !! r))]> (dict_at σ)))
  | None => Raise (KeyError k)
  end.

(** Lines 345-356: does some path of the list go through a closed opening? *)
Definition path_affected (opening_states : gmap string string)
    (paths : list VentPath) : bool :=
  existsb (λ path,
      existsb (λ opening_id,
          bool_decide (opening_states !! opening_id = Some "closed"))
        (via path))
    paths.

(** Lines 343-362: one entry of [self.ventilation_paths.items()]. *)
Definition update_space (opening_states : gmap string string) (updated_rates : nat)
    (σ : Store) (item : string * list VentPath) : Result Store :=
  if path_affected opening_states (snd item)
  then dict_imul updated_rates (fst item) 0.7%Q σ
  else Ok σ.

(** [update_ach_for_opening_state]: [self_ach_rates] is the reference
    held in [self.ach_rates]; the result is the reference returned. *)
Definition update_ach_for_opening_state (self_ach_rates : nat)
    (self_ventilation_paths : gmap string (list VentPath))
    (opening_states : gmap string string) (σ : Store) : Result (nat * Store) :=
  let copy := dict_copy self_ach_rates σ in
  let updated_rates := fst copy in
  σ' ← for_each (update_space opening_states updated_rates)
                (map_to_list self_ventilation_paths) (snd copy);
  Ok (updated_rates, σ').

(** [calculate_ventilation_contributions]: the share of each path of a
    space, keyed [path_1], [path_2], ... in the order of the path list. *)
Definition path_weights (paths : list VentPath) : Result (list Q) :=
  for_each (λ ws path, w ← py_div 1 (weight path + 0.1)%Q; Ok (ws ++ [w])) paths [].

Definition calculate_ventilation_contributions (self : Calculator) (space_id : string)
  : Result (list (string * Q)) :=
  match default [] (ventilation_paths self !! space_id) with
  | [] => Ok []
  | paths =>
      weights ← path_weights paths;
      let total_weight := py_sum weights in
      Ok (fold_left (λ contributions iw,
              let contribution :=
                if Qltb 0 total_weight then (snd iw / total_weight)%Q else 0%Q in
              dict_set (String.append "path_" (str_of_nat (fst iw + 1))) contribution
                       contributions)
            (enumerate weights) [])
  end.

(** [get_ach_category]. *)
Definition get_ach_category (cfg : Config) (ach_rate : Q) : string :=
  if Qle_bool (snd (medium_ach_range cfg)) ach_rate then "high"
  else if Qle_bool (snd (low_ach_range cfg)) ach_rate then "medium"
  else "low".

End AchCalculator.

(* ===================================================================== *)
(** ** space_analysis/space_detector.py *)
(* ===================================================================== *)

Module SpaceDetector.

Definition Voxel : Type := Z * Z * Z.
Definition Shape : Type := Z * Z * Z.

(** A boolean [numpy] array of a given shape, kept as the set of its
    [True] indices. *)
Record Grid : Type := mkGrid {
  shape : Shape;
  cells : gset Voxel
}.

Definition in_bounds (s : Shape) (v : Voxel) : bool :=
  let '(sx, sy, sz) := s in
  let '(x, y, z) := v in
  (0 <=? x)%Z && (x <? sx)%Z && (0 <=? y)%Z && (y <? sy)%Z
  && (0 <=? z)%Z && (z <? sz)%Z.

(** All indices of the array, in row-major order. *)
Definition range (n : Z) : list Z := map Z.of_nat (seq 0 (Z.to_nat n)).

Definition box (s : Shape) : list Voxel :=
  let '(sx, sy, sz) := s in
  x ← range sx; y ← range sy; z ← range sz; [(x, y, z)].

(** [~voxel_grid]. *)
Definition invert (g : Grid) : Grid :=
  mkGrid (shape g)
         (list_to_set (List.filter (λ v, bool_decide (v ∉ cells g)) (box (shape g)))).

(** The six face neighbours, in the order of the source, kept when they
    are inside the array and still set. *)
Definition neighbors : list Voxel :=
  [(1, 0, 0); (-1, 0, 0); (0, 1, 0); (0, -1, 0); (0, 0, 1); (0, 0, -1)]%Z.

Definition shift (v d : Voxel) : Voxel :=
  let '(x, y, z) := v in
  let '(dx, dy, dz) := d in
  (x + dx, y + dy, z + dz)%Z.

Definition set_neighbors (s : Shape) (grid : gset Voxel) (v : Voxel) : list Voxel :=
  List.filter (λ n, in_bounds s n && bool_decide (n ∈ grid)) (map (shift v) neighbors).

(** The loop of [_flood_fill_3d] (lines 220-237); one unit of fuel per
    dequeued voxel. *)
Fixpoint flood_loop (fuel : nat) (s : Shape) (grid : gset Voxel) (queue : list Voxel)
  : gset Voxel :=
  match fuel with
  | O => grid
  | S fuel' =>
      match queue with
      | [] => grid
      | v :: queue' =>
          if bool_decide (v ∈ grid) then
            let grid' := grid ∖ {[v]} in
            flood_loop fuel' s grid' (queue' ++ set_neighbors s grid' v)
          else flood_loop fuel' s grid queue'
      end
  end.

(** Every dequeued voxel either clears a cell, adding at most six
    entries to the queue, or only shortens the queue. *)
Definition flood_fuel (grid : gset Voxel) : nat := 7 * size grid + 2.

(** [_flood_fill_3d]. *)
Definition flood_fill_3d (s : Shape) (grid : gset Voxel) (start_point : Voxel)
  : gset Voxel :=
  if bool_decide (start_point ∈ grid) then
    flood_loop (flood_fuel grid) s grid [start_point]
  else grid.

(** [numpy.random.shuffle]: for [i] from the last index down to 1, swap
    entry [i] with entry [j], [j] drawn uniformly from [0..i].  The raw
    draws are the input [draws]. *)
Definition swap {A : Type} (l : list A) (i j : nat) : list A :=
  match l !! i, l !! j with
  | Some x, Some y => <[j := x]> (<[i := y]> l)
  | _, _ => l
  end.

Fixpoint shuffle_from {A : Type} (i : nat) (draws : list nat) (l : list A) : list A :=
  match i with
  | O => l
  | S i' =>
      let j := (hd 0 draws mod (S i))%nat in
      shuffle_from i' (tl draws) (swap l i j)
  end.

Definition shuffle {A : Type} (draws : list nat) (l : list A) : list A :=
  shuffle_from (length l - 1) draws l.

Definition on_boundary (s : Shape) (v : Voxel) : bool :=
  let '(sx, sy, sz) := s in
  let '(x, y, z) := v in
  (x =? 0)%Z || (x =? sx - 1)%Z || (y =? 0)%Z || (y =? sy - 1)%Z
  || (z =? 0)%Z || (z =? sz - 1)%Z.

(** [np.argwhere(mask)]: the set boundary cells in row-major order. *)
Definition boundary_seeds (empty_space : Grid) : list Voxel :=
  List.filter (λ v, on_boundary (shape empty_space) v
                    && bool_decide (v ∈ cells empty_space))
              (box (shape empty_space)).

(** [_remove_external_space]; indexing a face of an array with an empty
    axis raises. *)
Definition remove_external_space (max_seed_points : nat) (draws : list nat)
    (empty_space : Grid) : Result Grid :=
  let '(sx, sy, sz) := shape empty_space in
  if (sx <=? 0)%Z || (sy <=? 0)%Z || (sz <=? 0)%Z then Raise IndexError
  else
    let seeds := boundary_seeds empty_space in
    let seeds :=
      if (max_seed_points <? length seeds)%nat
      then firstn max_seed_points (shuffle draws seeds)
      else seeds in
    Ok (mkGrid (shape empty_space)
               (fold_left (flood_fill_3d (shape empty_space)) seeds (cells empty_space))).

(** [find_connected_components(grid, 6)] ([scipy.ndimage.label] with the
    face-connectivity structure): components in the order of their first
    cell, each listed in row-major order. *)
Fixpoint label_from (s : Shape) (scan : list Voxel) (remaining : gset Voxel)
  : list (list Voxel) :=
  match scan with
  | [] => []
  | v :: scan' =>
      if bool_decide (v ∈ remaining) then
        let rest := flood_fill_3d s remaining v in
        List.filter (λ c, bool_decide (c ∈ remaining ∖ rest)) (box s)
        :: label_from s scan' rest
      else label_from s scan' remaining
  end.

Definition find_connected_components (g : Grid) : list (list Voxel) :=
  label_from (shape g) (box (shape g)) (cells g).

(** A detected space.  Centre, bounding box and dimensions are float
    summaries of [voxel_indices] and are not kept. *)
Record DetectedSpace : Type := mkDetected {
  space_id : string;
  space_volume : Q;
  voxel_count : nat;
  voxel_indices : list Voxel;
  space_type : string;
  merged_from : option (list string)
}.

(** [f"{n:03d}"]. *)
Definition digits (n : nat) : string :=
  DecimalString.NilZero.string_of_uint (Nat.to_uint n).

Fixpoint zeros (n : nat) : string :=
  match n with
  | O => ""
  | S n' => String.append "0" (zeros n')
  end.

Definition format_03d (n : nat) : string :=
  let d := digits n in
  String.append (zeros (3 - String.length d)) d.

(** Lines 95-132 of [detect_spaces]: the spaces kept from the labelled
    components. *)
Definition keep_component (min_space_volume base_voxel_size : Q)
    (spaces : list DetectedSpace) (component : list Voxel) : list DetectedSpace :=
  let volume := (inject_Z (Z.of_nat (length component)) * base_voxel_size ^ 3)%Q in
  if Qltb volume min_space_volume then spaces
  else spaces ++ [mkDetected (String.append "space_" (format_03d (length spaces)))
                          volume (length component) component "unknown" None].

(** [detect_spaces], up to the list of spaces. *)
Definition detect_spaces (min_space_volume : Q) (max_seed_points : nat)
    (draws : list nat) (voxel_grid : Grid) (base_voxel_size : Q)
  : Result (list DetectedSpace) :=
  let empty_space := invert voxel_grid in
  filled_spaces ← remove_external_space max_seed_points draws empty_space;
  let spaces_components := find_connected_components filled_spaces in
  Ok (fold_left (keep_component min_space_volume base_voxel_size) spaces_components []).

(** Row order of [np.unique(..., axis=0)]. *)
Definition lex_le (a b : Voxel) : Prop :=
  let '(x1, y1, z1) := a in
  let '(x2, y2, z2) := b in
  (x1 < x2 ∨ (x1 = x2 ∧ (y1 < y2 ∨ (y1 = y2 ∧ z1 <= z2))))%Z.

#[export] Instance lex_le_dec a b : Decision (lex_le a b).
Proof. destruct a as [[??]?], b as [[??]?]; simpl; apply _. Defined.

Definition unique_rows (l : list Voxel) : list Voxel :=
  remove_dups (merge_sort lex_le l).

(** [_merge_spaces]; [uuid_hex] is the value of [uuid.uuid4().hex]. *)
Definition merge_spaces (uuid_hex : string) (spaces : list DetectedSpace)
  : DetectedSpace :=
  let new_id := String.append "space_merged_" (String.substring 0 8 uuid_hex) in
  let all_voxel_indices := flat_map voxel_indices spaces in
  let voxel_indices := unique_rows all_voxel_indices in
  mkDetected new_id (py_sum (map space_volume spaces)) (length voxel_indices)
             voxel_indices "merged" (Some (map space_id spaces)).

(** The detector between calls: the spaces found and the adjacency
    graph over their ids. *)
Record Detector : Type := mkDetector {
  det_spaces : list DetectedSpace;
  space_adjacency : Nx.Graph
}.

(** [next(s for s in self.spaces if s["id"] == space_id)]; [None] when
    no space has the id, where Python raises [StopIteration]. *)
Definition space_by_id (spaces : list DetectedSpace) (id : string) : option DetectedSpace :=
  List.find (λ s, String.eqb (space_id s) id) spaces.

Section Merge.
Variable space_merge_distance : Q.
(** Lines 343-349: the distance of the two centres less the two half
    extents, float geometry on the centre and the dimensions of the
    spaces, which the records here do not carry. *)
Variable estimated_separation : DetectedSpace → DetectedSpace → Q.

(** Lines 337-353: one edge of the adjacency graph. *)
Definition merge_pair (spaces : list DetectedSpace)
    (merge_pairs : list (string * string)) (edge : string * string)
  : option (list (string * string)) :=
  space1 ← space_by_id spaces (fst edge);
  space2 ← space_by_id spaces (snd edge);
  Some (if Qle_bool (estimated_separation space1 space2) space_merge_distance
        then merge_pairs ++ [edge] else merge_pairs).

Fixpoint merge_pairs_of (spaces : list DetectedSpace) (edges : list (string * string))
    (merge_pairs : list (string * string)) : option (list (string * string)) :=
  match edges with
  | [] => Some merge_pairs
  | edge :: edges' =>
      merge_pairs' ← merge_pair spaces merge_pairs edge;
      merge_pairs_of spaces edges' merge_pairs'
  end.

(** Lines 370-384: one component of the merge graph.  The state is the
    merged spaces so far, the ids merged so far and the identifiers
    [uuid4] has yet to return. *)
Definition merge_component (spaces : list DetectedSpace)
    (acc : list DetectedSpace * gset string * list string) (component : list string)
  : list DetectedSpace * gset string * list string :=
  let '(merged_spaces, merged_space_ids, uuids) := acc in
  if (length component <=? 1)%nat then acc
  else
    let spaces_to_merge := List.filter (λ s, Nx.mem (space_id s) component) spaces in
    let merged_space_ids :=
      fold_left (λ ids space, {[space_id space]} ∪ ids) spaces_to_merge merged_space_ids in
    let merged_space := merge_spaces (hd "" uuids) spaces_to_merge in
    (merged_spaces ++ [merged_space], merged_space_ids, tl uuids).

(** Lines 466-493 of [_update_adjacency_after_merge]: are two spaces of
    the new list adjacent, going by the graph before the merge? *)
Definition adjacent_after (old : Nx.Graph) (space1 space2 : DetectedSpace) : bool :=
  match merged_from space1, merged_from space2 with
  | Some from1, Some from2 =>
      existsb (λ src1, existsb (λ src2, Nx.has_edge old src1 src2) from2) from1
  | Some from1, None =>
      existsb (λ src, Nx.has_edge old src (space_id space2)) from1
  | None, Some from2 =>
      existsb (λ src, Nx.has_edge old (space_id space1) src) from2
  | None, None => Nx.has_edge old (space_id space1) (space_id space2)
  end.

Fixpoint adjacency_pairs (old : Nx.Graph) (spaces : list DetectedSpace) (g : Nx.Graph)
  : Nx.Graph :=
  match spaces with
  | [] => g
  | space1 :: rest =>
      adjacency_pairs old rest
        (fold_left (λ g space2,
             if adjacent_after old space1 space2
             then Nx.add_edge g (space_id space1) (space_id space2) Nx.no_attrs
             else g)
           rest g)
  end.

(** [_update_adjacency_after_merge]. *)
Definition update_adjacency_after_merge (self : Detector) : Detector :=
  let new_adjacency :=
    fold_left (λ g space, Nx.add_node g (space_id space)) (det_spaces self) Nx.empty_graph in
  mkDetector (det_spaces self)
             (adjacency_pairs (space_adjacency self) (det_spaces self) new_adjacency).

(** [merge_fragmented_spaces]; [uuids] are the values [uuid4().hex]
    takes, one for each merged space. *)
Definition merge_fragmented_spaces (uuids : list string) (self : Detector)
  : option Detector :=
  if (length (det_spaces self) <=? 1)%nat then Some self
  else
    merge_pairs ← merge_pairs_of (det_spaces self) (Nx.edges (space_adjacency self)) [];
    let merge_graph :=
      fold_left (λ g e, Nx.add_edge g (fst e) (snd e) Nx.no_attrs) merge_pairs
                Nx.empty_graph in
    let components := Nx.connected_components merge_graph in
    match components with
    | [] => Some self
    | _ =>
        let '(merged_spaces, merged_space_ids, _) :=
          fold_left (merge_component (det_spaces self)) components ([], ∅, uuids) in
        let unmerged_spaces :=
          List.filter (λ s, bool_decide (space_id s ∉ merged_space_ids)) (det_spaces self) in
        Some (update_adjacency_after_merge
                (mkDetector (unmerged_spaces ++ merged_spaces) (space_adjacency self)))
    end.

End Merge.

End SpaceDetector.

(* ===================================================================== *)
(** ** data_output/space_data_generator.py *)
(* ===================================================================== *)

Module SpaceDataGenerator.
Import Nx.

Record PrimaryPath : Type := mkPrimaryPath {
  pp_route : list Node;
  pp_via : list string;
  pp_length : Z
}.

(** A standardised space object (lines 176-187). *)
Record ProcessedSpace : Type := mkProcessedSpace {
  ps_id : string;
  ps_type : string;
  ps_volume : Q;
  ps_ventilationRate : Q;
  ps_connections : list string;
  ps_ventilationInfo : option (PrimaryPath * nat)
}.

(** A standardised opening object (lines 207-214). *)
Record ProcessedOpening : Type := mkProcessedOpening {
  po_id : string;
  po_type : string;
  po_connects : list string;
  po_area : Q;
  po_state : string
}.

Record ProcessedPath : Type := mkProcessedPath {
  pr_route : list Node;
  pr_via : list string;
  pr_contribution : Q
}.

(** The result record; the metadata (version, time stamp, echoed
    parameters) is not kept. *)
Record SpaceData : Type := mkSpaceData {
  spaces : list ProcessedSpace;
  connections : list ProcessedOpening;
  ventilationPaths : list (string * list ProcessedPath)
}.

(** [_process_spaces]. *)
Definition process_space (ach_rates : gmap string Q)
    (ventilation_paths : gmap string (list AchCalculator.VentPath))
    (space : Space) : ProcessedSpace :=
  let space_id := sp_id space in
  let ach_rate := default 0%Q (ach_rates !! space_id) in
  let connections := [] in
  let ventilation_info :=
    match default [] (ventilation_paths !! space_id) with
    | [] => None
    | primary_path :: rest =>
        Some (mkPrimaryPath (AchCalculator.route primary_path)
                            (AchCalculator.via primary_path)
                            (AchCalculator.path_length primary_path),
              S (length rest))
    end in
  mkProcessedSpace space_id (TopologyBuilder.get_or (sp_type space) "unknown")
                   (TopologyBuilder.get_or (sp_volume space) 0%Q)
                   ach_rate connections ventilation_info.

Definition process_spaces (spaces : list Space) (ach_rates : gmap string Q)
    (ventilation_paths : gmap string (list AchCalculator.VentPath))
  : list ProcessedSpace :=
  map (process_space ach_rates ventilation_paths) spaces.

(** What an attribute of the generator evaluates to: a list, or a bound
    method.  Only a list can be iterated. *)
Inductive Attribute : Type :=
| AList (l : list ProcessedSpace)
| AMethod.

Definition iterate (a : Attribute) : Result (list ProcessedSpace) :=
  match a with
  | AList l => Ok l
  | AMethod => Raise TypeError
  end.

(** [self._process_spaces] names the method of that name. *)
Definition self_process_spaces : Attribute := AMethod.

(** Lines 221-225: record the opening on the first space of that id. *)
Fixpoint connect (opening_id space_id : string) (spaces : list ProcessedSpace)
  : list ProcessedSpace :=
  match spaces with
  | [] => []
  | space :: rest =>
      if String.eqb (ps_id space) space_id then
        (if mem opening_id (ps_connections space) then space
         else mkProcessedSpace (ps_id space) (ps_type space) (ps_volume space)
                (ps_ventilationRate space) (ps_connections space ++ [opening_id])
                (ps_ventilationInfo space))
        :: rest
      else space :: connect opening_id space_id rest
  end.

(** [_process_openings]: the processed openings, and the attribute the
    inner loop walks over. *)
Definition process_opening (acc : list ProcessedOpening * Attribute) (opening : Opening)
  : Result (list ProcessedOpening * Attribute) :=
  let processed_opening :=
    mkProcessedOpening (op_id opening) (op_type opening)
                       (TopologyBuilder.get_or (op_connects opening) [])
                       (TopologyBuilder.get_or (op_area opening) 0%Q)
                       (TopologyBuilder.get_or (op_state opening) "open") in
  attr ← for_each (λ attr space_id,
            spaces ← iterate attr;
            Ok (AList (connect (op_id opening) space_id spaces)))
          (TopologyBuilder.get_or (op_connects opening) []) (snd acc);
  Ok (fst acc ++ [processed_opening], attr).

Definition process_openings (openings : list Opening) : Result (list ProcessedOpening) :=
  r ← for_each process_opening openings ([], self_process_spaces);
  Ok (fst r).

(** [_process_ventilation_paths]. *)
Definition process_space_paths (processed : list (string * list ProcessedPath))
    (item : string * list AchCalculator.VentPath)
  : Result (list (string * list ProcessedPath)) :=
  path_contributions ← for_each (λ cs path,
      c ← py_div 1 (AchCalculator.weight path + 0.1)%Q; Ok (cs ++ [c]))
    (snd item) [];
  let total_contribution := py_sum path_contributions in
  let normalized :=
    if Qltb 0 total_contribution
    then map (λ c, (c / total_contribution)%Q) path_contributions else [] in
  let space_paths :=
    map (λ pc, mkProcessedPath (AchCalculator.route (fst pc)) (AchCalculator.via (fst pc))
                               (snd pc))
        (combine (snd item) normalized) in
  Ok (match space_paths with
      | [] => processed
      | _ => processed ++ [(fst item, space_paths)]
      end).

Definition process_ventilation_paths
    (ventilation_paths : gmap string (list AchCalculator.VentPath))
  : Result (list (string * list ProcessedPath)) :=
  for_each process_space_paths (map_to_list ventilation_paths) [].

(** [generate_space_data]; the entries of the record are evaluated in
    the order written. *)
Definition generate_space_data (spaces : list Space) (openings : list Opening)
    (ach_rates : gmap string Q)
    (ventilation_paths : gmap string (list AchCalculator.VentPath))
    (space_graph : Graph) : Result SpaceData :=
  let s := process_spaces spaces ach_rates ventilation_paths in
  c ← process_openings openings;
  v ← process_ventilation_paths ventilation_paths;
  Ok (mkSpaceData s c v).

(** *** Validation *)

(** The entries [validate_space_data] reads; [id] may be absent, the
    other keys are read with [get]. *)
Record SpaceEntry : Type := mkSpaceEntry {
  se_id : option string;
  se_volume : option Q;
  se_ventilationRate : option Q
}.

Record ConnEntry : Type := mkConnEntry {
  ce_id : option string;
  ce_connects : option (list string)
}.

Record Record_ : Type := mkRecord {
  rec_spaces : option (list SpaceEntry);
  rec_connections : option (list ConnEntry)
}.

Inductive Message : Type :=
| SpaceWithoutId
| DuplicateSpaceId (space_id : string)
| UnreasonableVolume (space_id : string) (volume : Q)
| NegativeRate (space_id : string) (ach : Q)
| ExcessiveRate (space_id : string) (ach : Q)
| ConnectionWithoutId
| DuplicateConnectionId (conn_id : string)
| UnknownSpace (conn_id space_id : string).

Record Validation : Type := mkValidation {
  errors : list Message;
  warnings : list Message;
  is_valid : bool
}.

Record Checker : Type := mkChecker {
  ck_errors : list Message;
  ck_warnings : list Message;
  ck_ids : gset string
}.

(** Lines 399-420. *)
Definition check_space (ck : Checker) (space : SpaceEntry) : Checker :=
  match se_id space with
  | None => mkChecker (ck_errors ck ++ [SpaceWithoutId]) (ck_warnings ck) (ck_ids ck)
  | Some i =>
      let errors :=
        if bool_decide (i ∈ ck_ids ck) then ck_errors ck ++ [DuplicateSpaceId i]
        else ck_errors ck in
      let space_ids := {[i]} ∪ ck_ids ck in
      let volume := TopologyBuilder.get_or (se_volume space) 0%Q in
      let warnings :=
        if Qle_bool volume 0 then ck_warnings ck ++ [UnreasonableVolume i volume]
        else ck_warnings ck in
      let ach := TopologyBuilder.get_or (se_ventilationRate space) 0%Q in
      let warnings :=
        if Qltb ach 0 then warnings ++ [NegativeRate i ach]
        else if Qltb 20 ach then warnings ++ [ExcessiveRate i ach]
        else warnings in
      mkChecker errors warnings space_ids
  end.

(** Lines 426-441; [space_ids] is the set collected from the spaces. *)
Definition check_connection (space_ids : gset string) (ck : Checker) (conn : ConnEntry)
  : Checker :=
  match ce_id conn with
  | None => mkChecker (ck_errors ck ++ [ConnectionWithoutId]) (ck_warnings ck) (ck_ids ck)
  | Some i =>
      let errors :=
        if bool_decide (i ∈ ck_ids ck) then ck_errors ck ++ [DuplicateConnectionId i]
        else ck_errors ck in
      let conn_ids := {[i]} ∪ ck_ids ck in
      let errors :=
        fold_left (λ errs space_id,
            if bool_decide (space_id ∉ space_ids)
               && negb (String.prefix "space_exterior" space_id)
            then errs ++ [UnknownSpace i space_id] else errs)
          (TopologyBuilder.get_or (ce_connects conn) []) errors in
      mkChecker errors (ck_warnings ck) conn_ids
  end.

(** [validate_space_data]. *)
Definition validate_space_data (data : Record_) : Validation :=
  let ck := fold_left check_space (TopologyBuilder.get_or (rec_spaces data) [])
                      (mkChecker [] [] ∅) in
  let ck' := fold_left (check_connection (ck_ids ck))
                       (TopologyBuilder.get_or (rec_connections data) [])
                       (mkChecker (ck_errors ck) (ck_warnings ck) ∅) in
  mkValidation (ck_errors ck') (ck_warnings ck')
               (bool_decide (length (ck_errors ck') = 0%nat)).

(** The record [generate_space_data] returns, as the validator reads it. *)
Definition as_record (d : SpaceData) : Record_ :=
  mkRecord
    (Some (map (λ s, mkSpaceEntry (Some (ps_id s)) (Some (ps_volume s))
                                  (Some (ps_ventilationRate s))) (spaces d)))
    (Some (map (λ c, mkConnEntry (Some (po_id c)) (Some (po_connects c)))
               (connections d))).

End SpaceDataGenerator.

(* ===================================================================== *)
(** ** config.py *)
(* ===================================================================== *)

Module ConfigStore.
Import Nx (dict_set).

(** The values of the configuration items. *)
Inductive Value : Type :=
| VFloat (q : Q)
| VInt (z : Z)
| VBool (b : bool)
| VStr (s : string)
| VList (l : list Q).

(** Dictionaries are objects: a configuration holds, for each section
    name, the address of the dictionary of that section.  [tops] are the
    outer dictionaries ([DEFAULT_CONFIG] and the [config] attribute of
    every instance), [sections] the dictionaries of the sections. *)
Record Store : Type := mkStore {
  tops : list (list (string * nat));
  sections : list (list (string * Value))
}.

(** The module-level dictionary is the first object made. *)
Definition DEFAULT_CONFIG : nat := 0%nat.

(** The store after the module is loaded (lines 20-72). *)
Definition loaded : Store :=
  mkStore
    [ [ ("voxelization", 0%nat); ("space_detection", 1%nat); ("openings", 2%nat);
        ("ventilation", 3%nat); ("processing", 4%nat); ("paths", 5%nat) ] ]
    [ [ ("base_voxel_size", VFloat 1); ("min_voxel_size", VFloat 0.125);
        ("curvature_threshold", VFloat 0.5); ("width_threshold", VFloat 2);
        ("use_gpu_acceleration", VBool true); ("max_memory_usage", VInt 8192) ];
      [ ("min_space_volume", VFloat 5); ("space_merge_distance", VFloat 0.5);
        ("min_passage_height", VFloat 1.8); ("max_seed_points", VInt 5000);
        ("flood_fill_step", VFloat 0.5) ];
      [ ("standard_door_area_limit", VFloat 2); ("wide_door_area_limit", VFloat 5);
        ("passage_aspect_ratio", VFloat 3); ("connection_degree_threshold", VInt 3);
        ("opening_height_range", VList [0; 2.2]%Q) ];
      [ ("high_ach_rate", VFloat 10); ("medium_ach_range", VList [5; 8]%Q);
        ("low_ach_range", VList [1; 4]%Q); ("opening_influence_factor", VFloat 0.7);
        ("path_decay_factor", VFloat 0.6) ];
      [ ("num_threads", VInt 8); ("enable_parallel", VBool true);
        ("chunk_size", VInt 1000); ("enable_incremental_update", VBool true) ];
      [ ("models_dir", VStr "data/models"); ("results_dir", VStr "data/results");
        ("temp_dir", VStr "data/temp") ] ].

(** [key.endswith(suffix)]. *)
Definition endswith (key suffix : string) : bool :=
  let n := String.length key in
  let m := String.length suffix in
  (m <=? n)%nat && String.eqb (String.substring (n - m) m key) suffix.

(** [_ensure_directories]: the directories are made outside the
    program; what is kept is that [self.config["paths"]] must be there
    and that [os.makedirs] takes a string only. *)
Definition ensure_directories (st : Store) (self : nat) : Result unit :=
  match assoc "paths" (default [] (tops st !! self)) with
  | None => Raise (KeyError "paths")
  | Some a =>
      for_each (λ _ kv,
          if endswith (fst kv) "_dir"
          then match snd kv with VStr _ => Ok tt | _ => Raise TypeError end
          else Ok tt)
        (default [] (sections st !! a)) tt
  end.

(** [Config()], without a file: [DEFAULT_CONFIG.copy()] makes a new
    outer dictionary that holds the same section dictionaries.  The
    result is the store and the address of [self.config]. *)
Definition Config_init (st : Store) : Result (Store * nat) :=
  let config := default [] (tops st !! DEFAULT_CONFIG) in
  let self := length (tops st) in
  let st := mkStore (tops st ++ [config]) (sections st) in
  _ ← ensure_directories st self;
  Ok (st, self).

(** What [get] returns: an item, or a whole section when no key is
    given; [None] stands for Python's [None]. *)
Inductive Got : Type :=
| Item (v : Value)
| Section_ (a : nat).

Definition get (st : Store) (self : nat) (section : string) (key : option string)
  : option Got :=
  match assoc section (default [] (tops st !! self)) with
  | None => None
  | Some a =>
      match key with
      | None => Some (Section_ a)
      | Some key =>
          match assoc key (default [] (sections st !! a)) with
          | None => None
          | Some v => Some (Item v)
          end
      end
  end.

(** [set]: a section that is not there is made first. *)
Definition set (st : Store) (self : nat) (section key : string) (value : Value) : Store :=
  let config := default [] (tops st !! self) in
  match assoc section config with
  | None =>
      let a := length (sections st) in
      mkStore (<[self := dict_set section a config]> (tops st))
              (sections st ++ [[(key, value)]])
  | Some a =>
      mkStore (tops st)
              (<[a := dict_set key value (default [] (sections st !! a))]> (sections st))
  end.

End ConfigStore.

(* ===================================================================== *)
(** * Properties *)
(* ===================================================================== *)

(** ** Floats and control flow *)

Module PyFacts.

Lemma Qltb_lt a b : Qltb a b = true ↔ (a < b)%Q.
Proof.
  unfold Qltb. rewrite negb_true_iff. split.
  - intros H. apply Qnot_le_lt. intros Hle. apply Qle_bool_iff in Hle. congruence.
  - intros H. destruct (Qle_bool b a) eqn:E; [|done].
    apply Qle_bool_iff in E. exfalso. apply (Qlt_not_le _ _ H E).
Qed.

Lemma Qltb_ge a b : Qltb a b = false ↔ (b <= a)%Q.
Proof. unfold Qltb. rewrite negb_false_iff. apply Qle_bool_iff. Qed.

Lemma py_min_le a b : (py_min a b <= a)%Q ∧ (py_min a b <= b)%Q.
Proof.
  unfold py_min. destruct (Qltb b a) eqn:E.
  - apply Qltb_lt in E. split; lra.
  - apply Qltb_ge in E. split; lra.
Qed.

Lemma py_max_ge a b : (a <= py_max a b)%Q ∧ (b <= py_max a b)%Q.
Proof.
  unfold py_max. destruct (Qltb a b) eqn:E.
  - apply Qltb_lt in E. split; lra.
  - apply Qltb_ge in E. split; lra.
Qed.

(** The clamp [max(lo, min(x, hi))] lands in [[lo, hi]] whenever that
    interval is not empty. *)
Lemma clamp_range lo hi x :
  (lo <= hi)%Q → (lo <= py_max lo (py_min x hi) <= hi)%Q.
Proof.
  intros Hlh. split; [apply py_max_ge|].
  unfold py_max. destruct (Qltb lo (py_min x hi)); [apply py_min_le | done].
Qed.

Lemma bind_Ok {A B} (m : Result A) (f : A → Result B) b :
  (m ≫= f) = Ok b ↔ ∃ a, m = Ok a ∧ f a = Ok b.
Proof.
  destruct m as [a|e]; simpl; split.
  - intros H. by exists a.
  - by intros (a' & [= <-] & H).
  - done.
  - by intros (a' & ? & _).
Qed.

Lemma for_each_app {A S} (body : S → A → Result S) xs ys acc :
  for_each body (xs ++ ys) acc = (for_each body xs acc ≫= for_each body ys).
Proof.
  revert acc. induction xs as [|x xs IH]; intros acc; simpl; [done|].
  destruct (body acc x) as [acc'|e]; simpl; [apply IH | done].
Qed.

(** A loop invariant rule for [for_each]. *)
Lemma for_each_inv {A S} (I : S → Prop) (body : S → A → Result S) xs acc acc' :
  I acc →
  (∀ s x s', x ∈ xs → I s → body s x = Ok s' → I s') →
  for_each body xs acc = Ok acc' → I acc'.
Proof.
  revert acc. induction xs as [|x xs IH]; intros acc Hacc Hstep; simpl.
  - by intros [= <-].
  - destruct (body acc x) as [s|e] eqn:E; simpl; [|done].
    apply IH.
    + eapply Hstep; [apply list_elem_of_here | done | done].
    + intros s0 y s1 Hy. apply Hstep. by apply list_elem_of_further.
Qed.

End PyFacts.

(** ** Opening features of a degenerate vertex list *)

Module GeometryUtilsSpec.
Import GeometryUtils.

(** C10.  For fewer than three vertices [compute_opening_features] does
    not raise (whatever the planar analysis would do) and returns a
    dictionary whose [area], [perimeter], [width], [height],
    [aspect_ratio] and [circularity] entries are all [0.0]. *)
Theorem compute_opening_features_degenerate
    (planar_features : list Vertex → Result Features) (vertices : list Vertex) :
  (length vertices < 3)%nat →
  ∃ features,
    compute_opening_features planar_features vertices = Ok features
    ∧ assoc "area" features = Some (FNum 0)
    ∧ assoc "perimeter" features = Some (FNum 0)
    ∧ assoc "width" features = Some (FNum 0)
    ∧ assoc "height" features = Some (FNum 0)
    ∧ assoc "aspect_ratio" features = Some (FNum 0)
    ∧ assoc "circularity" features = Some (FNum 0).
Proof.
  intros Hlen. unfold compute_opening_features.
  apply Nat.ltb_lt in Hlen. rewrite Hlen.
  eexists. split; [reflexivity|]. by repeat split.
Qed.

(** Two vertices, with a planar analysis that always raises. *)
Lemma compute_opening_features_degenerate_witness :
  ∃ features,
    compute_opening_features (λ _, Raise TypeError)
      [(0, 0, 0)%Q; (1, 0, 2)%Q] = Ok features
    ∧ assoc "area" features = Some (FNum 0)
    ∧ assoc "perimeter" features = Some (FNum 0)
    ∧ assoc "width" features = Some (FNum 0)
    ∧ assoc "height" features = Some (FNum 0)
    ∧ assoc "aspect_ratio" features = Some (FNum 0)
    ∧ assoc "circularity" features = Some (FNum 0).
Proof.
  apply (compute_opening_features_degenerate (λ _, Raise TypeError)
           [(0, 0, 0)%Q; (1, 0, 2)%Q]).
  simpl. lia.
Defined.

End GeometryUtilsSpec.

(** ** Assembly and validation of the result record *)

Module SpaceDataGeneratorSpec.
Import Nx SpaceDataGenerator PyFacts.
Import TopologyBuilder (get_or).

(** *** The connections pass *)

Lemma process_opening_method acc o :
  process_opening (acc, self_process_spaces) o
  = match get_or (op_connects o) [] with
    | [] => Ok (acc ++ [mkProcessedOpening (op_id o) (op_type o) []
                          (get_or (op_area o) 0%Q) (get_or (op_state o) "open")],
                self_process_spaces)
    | _ :: _ => Raise TypeError
    end.
Proof.
  unfold process_opening. simpl.
  by destruct (get_or (op_connects o) []).
Qed.

Lemma process_openings_raises openings acc :
  Exists (λ o, get_or (op_connects o) [] ≠ []) openings →
  for_each process_opening openings (acc, self_process_spaces) = Raise TypeError.
Proof.
  revert acc. induction openings as [|o os IH]; intros acc Hex.
  - by apply Exists_nil in Hex.
  - cbn [for_each]. rewrite process_opening_method.
    destruct (get_or (op_connects o) []) as [|space_id rest] eqn:Hc; simpl.
    + apply IH. apply Exists_cons in Hex as [Hex|Hex]; [by rewrite Hc in Hex | done].
    + done.
Qed.

(** C8.  [generate_space_data] raises [TypeError] as soon as one opening
    names an endpoint: the pass that should fill the [connections] of
    the spaces iterates over the bound method [self._process_spaces],
    so no record is returned. *)
Theorem generate_space_data_raises spaces openings ach_rates ventilation_paths g :
  Exists (λ o, get_or (op_connects o) [] ≠ []) openings →
  generate_space_data spaces openings ach_rates ventilation_paths g = Raise TypeError.
Proof.
  intros Hex. unfold generate_space_data, process_openings.
  by rewrite process_openings_raises.
Qed.

(** The test data at the end of the module. *)
Definition main_spaces : list Space :=
  [ mkSpace "space_001" (Some 100%Q) (Some "room");
    mkSpace "space_002" (Some 80%Q) (Some "corridor") ].

Definition main_openings : list Opening :=
  [ mkOpening "opening_001" "door" (Some ["space_001"; "space_002"]) (Some 2%Q) None;
    mkOpening "opening_002" "window" (Some ["space_001"; "space_exterior"])
              (Some 1.5%Q) None ].

Definition main_ach_rates : gmap string Q :=
  <["space_002" := 5.2%Q]> (<["space_001" := 8.5%Q]> ∅).

Definition main_ventilation_paths : gmap string (list AchCalculator.VentPath) :=
  <["space_002" :=
      [AchCalculator.mkVentPath ["space_002"; "space_001"; "space_exterior"]
         ["opening_001"; "opening_002"] [] 1%Q 2%Z 0.6%Q 3.5%Q "space_exterior"]]>
  (<["space_001" :=
      [AchCalculator.mkVentPath ["space_001"; "space_exterior"]
         ["opening_002"] [] 0.5%Q 1%Z 1%Q 1.5%Q "space_exterior"]]> ∅).

Definition main_graph : Graph :=
  add_edge (add_edge (add_node (add_node (add_node empty_graph "space_001") "space_002")
                               "space_exterior")
                     "space_001" "space_002" no_attrs)
           "space_001" "space_exterior" no_attrs.

Lemma generate_space_data_raises_witness :
  generate_space_data main_spaces main_openings main_ach_rates
                      main_ventilation_paths main_graph = Raise TypeError.
Proof.
  apply (generate_space_data_raises main_spaces main_openings).
  apply Exists_cons_hd. simpl. discriminate.
Defined.

(** Without endpoints the pass never reaches the faulty loop, and every
    space keeps the empty [connections] list it was created with. *)
Lemma generate_space_data_no_endpoints spaces openings ach_rates ventilation_paths g d :
  generate_space_data spaces openings ach_rates ventilation_paths g = Ok d →
  Forall (λ o, get_or (op_connects o) [] = []) openings
  ∧ Forall (λ s, ps_connections s = []) (SpaceDataGenerator.spaces d).
Proof.
  unfold generate_space_data. intros H.
  apply bind_Ok in H as (c & Hc & H). apply bind_Ok in H as (v & Hv & [= <-]).
  split.
  - apply Forall_forall. intros o Ho.
    destruct (get_or (op_connects o) []) eqn:E; [done|]. exfalso.
    unfold process_openings in Hc.
    rewrite process_openings_raises in Hc; [done|].
    apply Exists_exists. exists o. split; [done|]. by rewrite E.
  - simpl. unfold process_spaces. apply Forall_forall. intros s Hs.
    apply list_elem_of_fmap in Hs as (sp & -> & _). done.
Qed.

(** *** Validation *)

(** Validity as the specification words it. *)
Definition valid_as_specified (data : Record_) : Prop :=
  let spaces := get_or (rec_spaces data) [] in
  let conns := get_or (rec_connections data) [] in
  NoDup (omap se_id spaces)
  ∧ NoDup (omap ce_id conns)
  ∧ (∀ c e, c ∈ conns → e ∈ get_or (ce_connects c) [] →
            e ∈ omap se_id spaces ∨ e = exterior_id)
  ∧ (∀ s, s ∈ spaces → (0 < get_or (se_volume s) 0)%Q)
  ∧ (∀ s, s ∈ spaces → (0 <= get_or (se_ventilationRate s) 0 <= 20)%Q).

(** Validity as the validator decides it: only missing ids, repeated ids
    and dangling endpoints are errors, and an endpoint passes when it
    begins with the exterior id. *)
Definition valid_as_checked (data : Record_) : Prop :=
  let spaces := get_or (rec_spaces data) [] in
  let conns := get_or (rec_connections data) [] in
  Forall (λ s, is_Some (se_id s)) spaces
  ∧ Forall (λ c, is_Some (ce_id c)) conns
  ∧ NoDup (omap se_id spaces)
  ∧ NoDup (omap ce_id conns)
  ∧ (∀ c e, c ∈ conns → e ∈ get_or (ce_connects c) [] →
            e ∈ omap se_id spaces ∨ String.prefix "space_exterior" e = true).

Lemma snoc_not_nil {A} (l : list A) x : l ++ [x] ≠ [].
Proof. by destruct l. Qed.

Lemma check_spaces_ids l ck :
  ck_ids (fold_left check_space l ck) = list_to_set (omap se_id l) ∪ ck_ids ck.
Proof.
  revert ck. induction l as [|s l IH]; intros ck; simpl.
  - by rewrite (left_id_L ∅ (∪)).
  - rewrite IH. unfold check_space. destruct (se_id s) as [i|]; simpl.
    + by rewrite (assoc_L (∪)), (comm_L (∪) _ {[i]}).
    + done.
Qed.

Lemma check_spaces_errors l ck :
  ck_errors (fold_left check_space l ck) = [] ↔
  ck_errors ck = [] ∧ Forall (λ s, is_Some (se_id s)) l
  ∧ NoDup (omap se_id l) ∧ (∀ i, i ∈ omap se_id l → i ∉ ck_ids ck).
Proof.
  revert ck. induction l as [|s l IH]; intros ck; simpl.
  - split; [|tauto]. intros ->.
    split; [done|]. split; [constructor|]. split; [constructor|].
    intros i Hi. by apply elem_of_nil in Hi.
  - rewrite IH. unfold check_space. rewrite Forall_cons.
    destruct (se_id s) as [i|]; simpl.
    + rewrite NoDup_cons. case_bool_decide as Hi.
      * split.
        -- intros (H & _). by apply snoc_not_nil in H.
        -- intros (_ & _ & _ & H). exfalso. apply (H i); [left | done].
      * split.
        -- intros (He & Hl & Hnd & Hdis).
           split; [done|]. split; [split; [by eexists | done]|].
           split; [split; [|done]|].
           ++ intros Hin. apply (Hdis i Hin). by apply elem_of_union_l, elem_of_singleton.
           ++ intros j Hj. apply elem_of_cons in Hj as [->|Hj]; [done|].
              intros Hjc. apply (Hdis j Hj). by apply elem_of_union_r.
        -- intros (He & (_ & Hl) & (Hni & Hnd) & Hdis).
           split; [done|]. split; [done|]. split; [done|].
           intros j Hj Hjc. apply elem_of_union in Hjc as [Hjc|Hjc].
           ++ apply elem_of_singleton in Hjc as ->. done.
           ++ apply (Hdis j); [by right | done].
    + split.
      * intros (H & _). by apply snoc_not_nil in H.
      * intros (_ & (H & _) & _). by destruct H.
Qed.

Lemma check_endpoints_errors (space_ids : gset string) i es errs :
  fold_left (λ errs space_id,
      if bool_decide (space_id ∉ space_ids)
         && negb (String.prefix "space_exterior" space_id)
      then errs ++ [UnknownSpace i space_id] else errs) es errs = [] ↔
  errs = [] ∧ ∀ e, e ∈ es → e ∈ space_ids ∨ String.prefix "space_exterior" e = true.
Proof.
  revert errs. induction es as [|e es IH]; intros errs; simpl.
  - split; [|tauto]. intros ->. split; [done|].
    intros e He. by apply elem_of_nil in He.
  - rewrite IH. case_bool_decide as He; simpl.
    + destruct (String.prefix "space_exterior" e) eqn:Hp; simpl.
      * split.
        -- intros (-> & H). split; [done|]. intros e' He'.
           apply elem_of_cons in He' as [->|He']; [by right | by apply H].
        -- intros (-> & H). split; [done|]. intros e' He'. apply H. by right.
      * split.
        -- intros (H & _). by apply snoc_not_nil in H.
        -- intros (_ & H). destruct (H e) as [?|?]; [by left | done | congruence].
    + split.
      * intros (-> & H). split; [done|]. intros e' He'.
        apply elem_of_cons in He' as [->|He']; [by left | by apply H].
      * intros (-> & H). split; [done|]. intros e' He'. apply H. by right.
Qed.

Lemma check_connections_errors (space_ids : gset string) l ck :
  ck_errors (fold_left (check_connection space_ids) l ck) = [] ↔
  ck_errors ck = [] ∧ Forall (λ c, is_Some (ce_id c)) l
  ∧ NoDup (omap ce_id l) ∧ (∀ i, i ∈ omap ce_id l → i ∉ ck_ids ck)
  ∧ (∀ c e, c ∈ l → e ∈ get_or (ce_connects c) [] →
            e ∈ space_ids ∨ String.prefix "space_exterior" e = true).
Proof.
  revert ck. induction l as [|c l IH]; intros ck; simpl.
  - split; [|tauto]. intros ->.
    split; [done|]. split; [constructor|]. split; [constructor|].
    split; [intros i Hi; by apply elem_of_nil in Hi|].
    intros c e Hc. by apply elem_of_nil in Hc.
  - rewrite IH. unfold check_connection. rewrite Forall_cons.
    destruct (ce_id c) as [i|]; simpl.
    + rewrite NoDup_cons, check_endpoints_errors. case_bool_decide as Hi.
      * split.
        -- intros ((H & _) & _). by apply snoc_not_nil in H.
        -- intros (_ & _ & _ & H & _). exfalso. apply (H i); [left | done].
      * split.
        -- intros ((He & Hends) & Hl & Hnd & Hdis & Hrest).
           split; [done|]. split; [split; [by eexists | done]|].
           split; [split; [|done]|]. 2: split.
           ++ intros Hin. apply (Hdis i Hin). by apply elem_of_union_l, elem_of_singleton.
           ++ intros j Hj. apply elem_of_cons in Hj as [->|Hj]; [done|].
              intros Hjc. apply (Hdis j Hj). by apply elem_of_union_r.
           ++ intros c' e Hc'. apply elem_of_cons in Hc' as [->|Hc'];
                [apply Hends | by apply Hrest].
        -- intros (He & (_ & Hl) & (Hni & Hnd) & Hdis & Hends).
           split; [split; [done|]|]. 2: split; [done|]. 2: split; [done|]. 2: split.
           ++ intros e He'. apply (Hends c); [by left | done].
           ++ intros j Hj Hjc. apply elem_of_union in Hjc as [Hjc|Hjc].
              ** apply elem_of_singleton in Hjc as ->. done.
              ** apply (Hdis j); [by right | done].
           ++ intros c' e Hc'. apply Hends. by right.
    + split.
      * intros (H & _). by apply snoc_not_nil in H.
      * intros (_ & (H & _) & _). by destruct H.
Qed.

(** C5 (as the code decides it).  [validate_space_data] reports a record
    valid exactly when every space and every connection has an id, the
    space ids are pairwise distinct, the connection ids are pairwise
    distinct, and every endpoint of every connection is the id of a
    space or begins with [space_exterior].  Volumes and ventilation
    rates play no part: they only add warnings. *)
Theorem validate_space_data_valid_iff (data : Record_) :
  is_valid (validate_space_data data) = true ↔ valid_as_checked data.
Proof.
  unfold validate_space_data, valid_as_checked. simpl.
  rewrite bool_decide_eq_true, length_zero_iff_nil.
  rewrite check_connections_errors. simpl.
  rewrite check_spaces_errors, check_spaces_ids. simpl.
  assert (Hids : ∀ e : string,
             e ∈ (list_to_set (omap se_id (get_or (rec_spaces data) [])) ∪ ∅ : gset string)
             ↔ e ∈ omap se_id (get_or (rec_spaces data) [])).
  { intros e. rewrite elem_of_union, elem_of_list_to_set.
    split; [intros [H|H]; [done | by apply not_elem_of_empty in H] | by left]. }
  split.
  - intros ((_ & Hs & Hnd & _) & Hc & Hndc & _ & Hends).
    split; [done|]. split; [done|]. split; [done|]. split; [done|].
    intros c e Hc' He. destruct (Hends c e Hc' He) as [H|H]; [left | by right].
    by apply Hids.
  - intros (Hs & Hc & Hnd & Hndc & Hends).
    split; [split; [done|]|]. 2: split; [done|]. 2: split; [done|]. 2: split.
    + split; [done|]. split; [done|]. intros i _ Hi. by apply not_elem_of_empty in Hi.
    + intros i _ Hi. by apply not_elem_of_empty in Hi.
    + intros c e Hc' He. destruct (Hends c e Hc' He) as [H|H]; [left | by right].
      by apply Hids.
Qed.

(** A record with one space of volume zero and rate 25, and nothing
    else: valid for the validator, not valid as specified. *)
Definition degenerate_record : Record_ :=
  mkRecord (Some [mkSpaceEntry (Some "space_000") (Some 0%Q) (Some 25%Q)]) (Some []).

Lemma validate_space_data_ignores_ranges :
  ¬ (is_valid (validate_space_data degenerate_record) = true
     ↔ valid_as_specified degenerate_record).
Proof.
  intros [H _]. specialize (H eq_refl).
  destruct H as (_ & _ & _ & Hvol & _).
  specialize (Hvol _ (list_elem_of_here _ _)). simpl in Hvol. lra.
Qed.

(** The warnings are where the ranges show. *)
Lemma validate_space_data_degenerate_warnings :
  warnings (validate_space_data degenerate_record)
  = [UnreasonableVolume "space_000" 0; ExcessiveRate "space_000" 25].
Proof. reflexivity. Qed.

End SpaceDataGeneratorSpec.

(** ** Graph enumeration *)

Module NxFacts.
Import Nx PyFacts.

Lemma mem_true n l : mem n l = true ↔ n ∈ l.
Proof.
  unfold mem. rewrite existsb_exists. split.
  - intros (x & Hin & Heq). apply String.eqb_eq in Heq as ->. by apply list_elem_of_In.
  - intros Hin. exists n. split; [by apply list_elem_of_In | apply String.eqb_refl].
Qed.

Lemma mem_false n l : mem n l = false ↔ n ∉ l.
Proof.
  rewrite <- mem_true. destruct (mem n l); split; intros; congruence.
Qed.

Lemma assoc_Some_elem {V} k (v : V) d : assoc k d = Some v → (k, v) ∈ d.
Proof.
  induction d as [|[k' v'] d IH]; simpl; [done|].
  destruct (String.eqb k k') eqn:E.
  - apply String.eqb_eq in E as ->. intros [= ->]. left.
  - intros H. right. by apply IH.
Qed.

Lemma elem_assoc_is_Some {V} k (v : V) d : (k, v) ∈ d → is_Some (assoc k d).
Proof.
  induction d as [|[k' v'] d IH]; intros Hin.
  - by apply elem_of_nil in Hin.
  - simpl. destruct (String.eqb k k') eqn:E; [by eexists|].
    apply elem_of_cons in Hin as [[= -> ->]|Hin]; [|by apply IH].
    by rewrite String.eqb_refl in E.
Qed.

Lemma neighbors_has_edge g u v d : (v, d) ∈ neighbors g u → has_edge g u v = true.
Proof.
  unfold neighbors, has_edge, get_edge_data.
  destruct (assoc u g) as [a|]; [|intros H; by apply elem_of_nil in H].
  intros Hin. by destruct (elem_assoc_is_Some _ _ _ Hin) as [d' ->].
Qed.

(** Consecutive nodes are joined by an edge. *)
Fixpoint is_walk (g : Graph) (q : list Node) : Prop :=
  match q with
  | u :: q' =>
      match q' with
      | v :: _ => has_edge g u v = true ∧ is_walk g q'
      | [] => True
      end
  | [] => True
  end.

(** A simple path from [s] to [t]: a walk without repeated nodes. *)
Definition is_simple_path (g : Graph) (s t : Node) (q : list Node) : Prop :=
  head q = Some s ∧ last q = Some t ∧ NoDup q ∧ is_walk g q.

Lemma is_walk_app g q x y r :
  is_walk g (q ++ [x]) → is_walk g (x :: y :: r) → is_walk g (q ++ x :: y :: r).
Proof.
  induction q as [|a q IH]; intros Hq Hr; [done|].
  destruct q as [|b q]; simpl in *.
  - destruct Hq as [Hax _]. by split.
  - destruct Hq as [Hab Hq]. split; [done|]. by apply IH.
Qed.

(** What the depth-first enumeration yields from [u], with the path so
    far [u :: vis] (most recent first): the path so far extended by a
    nonempty suffix of new, distinct nodes that ends at the target, of
    at most [cutoff] nodes, every step along an edge. *)
Lemma simple_paths_from_sound g t : ∀ cutoff vis u q,
  q ∈ simple_paths_from g t cutoff (u :: vis) u →
  ∃ suffix,
    q = rev (u :: vis) ++ suffix
    ∧ last suffix = Some t
    ∧ NoDup suffix
    ∧ (∀ x, x ∈ suffix → x ∉ u :: vis)
    ∧ (length suffix <= cutoff)%nat
    ∧ is_walk g (u :: suffix).
Proof.
  induction cutoff as [|c IH]; intros vis u q Hq; cbn [simple_paths_from] in Hq.
  - by apply elem_of_nil in Hq.
  - apply list_elem_of_In, in_flat_map in Hq as ([v d] & Hvd & Hq).
    apply list_elem_of_In in Hvd. cbn [fst] in Hq.
    pose proof (neighbors_has_edge _ _ _ _ Hvd) as Hedge.
    destruct (mem v (u :: vis)) eqn:Hmem; [done|].
    apply mem_false in Hmem.
    destruct (String.eqb v t) eqn:Hvt.
    + apply String.eqb_eq in Hvt as ->.
      destruct Hq as [<-|[]]. exists [t].
      change (rev (t :: u :: vis)) with (rev (u :: vis) ++ [t]).
      split; [done|]. split; [done|]. split; [apply NoDup_singleton|].
      split; [|split; [simpl; lia | by split]].
      intros x Hx. by apply list_elem_of_singleton in Hx as ->.
    + apply list_elem_of_In in Hq.
      destruct (IH _ _ _ Hq) as (suffix & -> & Hlast & Hnd & Hnew & Hlen & Hwalk).
      exists (v :: suffix). split; [|split; [|split; [|split; [|split]]]].
      * change (rev (v :: u :: vis)) with (rev (u :: vis) ++ [v]).
        by rewrite <- app_assoc.
      * destruct suffix; [done|]. done.
      * apply NoDup_cons. split; [|done].
        intros Hin. apply (Hnew v Hin). left.
      * intros x Hx Hxv. apply elem_of_cons in Hx as [->|Hx]; [done|].
        apply (Hnew x Hx). by right.
      * simpl. lia.
      * destruct suffix; [done|]. by split.
Qed.

Lemma last_cons_app {A} (x : A) l y : last (x :: l ++ [y]) = Some y.
Proof. rewrite app_comm_cons. apply last_snoc. Qed.

(** Every path of [all_simple_paths] is a simple path from the source
    to the target of at most [cutoff] hops. *)
Lemma all_simple_paths_sound g s t cutoff q :
  q ∈ all_simple_paths g s t cutoff →
  is_simple_path g s t q ∧ (length q - 1 <= cutoff)%nat.
Proof.
  unfold all_simple_paths. destruct (String.eqb s t); [intros H; by apply elem_of_nil in H|].
  intros Hq. destruct (simple_paths_from_sound _ _ _ _ _ _ Hq)
    as (suffix & -> & Hlast & Hnd & Hnew & Hlen & Hwalk).
  simpl. split; [|lia]. split; [done|]. split; [|split].
  - destruct suffix; [done|]. done.
  - apply NoDup_cons. split; [|done]. intros Hin. apply (Hnew s Hin). left.
  - done.
Qed.

(** *** Insertion-ordered dictionaries *)

Lemma assoc_dict_set_eq {V} k (v : V) d : assoc k (dict_set k v d) = Some v.
Proof.
  induction d as [|[k' v'] d IH]; simpl.
  - by rewrite String.eqb_refl.
  - destruct (String.eqb k k') eqn:E; simpl; rewrite ?String.eqb_refl, ?E; done.
Qed.

Lemma assoc_dict_set_ne {V} k k' (v : V) d :
  k ≠ k' → assoc k' (dict_set k v d) = assoc k' d.
Proof.
  intros Hne. induction d as [|[k0 v0] d IH]; simpl.
  - assert (String.eqb k' k = false) as -> by (apply String.eqb_neq; congruence). done.
  - destruct (String.eqb k k0) eqn:E; simpl.
    + apply String.eqb_eq in E as <-.
      assert (String.eqb k' k = false) as -> by (apply String.eqb_neq; congruence). done.
    + by rewrite IH.
Qed.

Lemma keys_dict_set {V} k (v : V) d x :
  x ∈ map fst (dict_set k v d) ↔ x = k ∨ x ∈ map fst d.
Proof.
  induction d as [|[k0 v0] d IH]; simpl.
  - rewrite list_elem_of_singleton. split; [by left | intros [?|H]; [done | by apply elem_of_nil in H]].
  - destruct (String.eqb k k0) eqn:E; simpl.
    + apply String.eqb_eq in E as <-. rewrite !elem_of_cons. tauto.
    + rewrite !elem_of_cons, IH. tauto.
Qed.

Lemma assoc_is_Some_keys {V} k (d : list (string * V)) :
  is_Some (assoc k d) ↔ k ∈ map fst d.
Proof.
  induction d as [|[k0 v0] d IH]; simpl.
  - split; [by intros [? ?] | intros H; by apply elem_of_nil in H].
  - destruct (String.eqb k k0) eqn:E.
    + apply String.eqb_eq in E as ->. split; [left | by eexists].
    + rewrite IH, elem_of_cons. apply String.eqb_neq in E. tauto.
Qed.

Lemma assoc_app_l {V} k (d d' : list (string * V)) :
  assoc k (d ++ d') = match assoc k d with Some v => Some v | None => assoc k d' end.
Proof.
  induction d as [|[k0 v0] d IH]; simpl; [done|].
  by destruct (String.eqb k k0).
Qed.

Lemma NoDup_keys_dict_set {V} k (v : V) d :
  NoDup (map fst d) → NoDup (map fst (dict_set k v d)).
Proof.
  induction d as [|[k0 v0] d IH]; simpl; intros Hnd.
  - apply NoDup_singleton.
  - apply NoDup_cons in Hnd as [Hk0 Hnd].
    destruct (String.eqb k k0) eqn:E; simpl.
    + apply String.eqb_eq in E as <-. by apply NoDup_cons.
    + apply NoDup_cons. split; [|by apply IH].
      rewrite keys_dict_set. intros [->|?]; [|done].
      by rewrite String.eqb_refl in E.
Qed.

(** *** Nodes and edges of a graph under construction *)

Lemma has_node_true g n : has_node g n = true ↔ n ∈ nodes g.
Proof. apply mem_true. Qed.

Lemma has_node_assoc g n : has_node g n = true ↔ is_Some (assoc n g).
Proof. rewrite has_node_true. unfold nodes. by rewrite assoc_is_Some_keys. Qed.

Lemma has_edge_true g u v : has_edge g u v = true ↔ is_Some (get_edge_data g u v).
Proof.
  unfold has_edge. destruct (get_edge_data g u v) as [d|].
  - split; [by eexists | done].
  - split; [done | by intros [? ?]].
Qed.

Lemma has_edge_node g u v : has_edge g u v = true → u ∈ nodes g.
Proof.
  rewrite has_edge_true. unfold get_edge_data. intros [d Hd].
  apply has_node_true, has_node_assoc. destruct (assoc u g); [by eexists | done].
Qed.

Lemma has_edge_neighbors g u v :
  has_edge g u v = true ↔ v ∈ map fst (neighbors g u).
Proof.
  rewrite has_edge_true. unfold get_edge_data, neighbors.
  destruct (assoc u g) as [a|]; simpl.
  - apply assoc_is_Some_keys.
  - split; [by intros [? ?] | intros H; by apply elem_of_nil in H].
Qed.

Lemma nodes_add_node g n x : x ∈ nodes (add_node g n) ↔ x = n ∨ x ∈ nodes g.
Proof.
  unfold add_node. destruct (has_node g n) eqn:E.
  - apply has_node_true in E. split; [by right | intros [->|?]; done].
  - unfold nodes. rewrite map_app, elem_of_app. simpl.
    rewrite list_elem_of_singleton. tauto.
Qed.

Lemma NoDup_nodes_add_node g n : NoDup (nodes g) → NoDup (nodes (add_node g n)).
Proof.
  intros Hnd. unfold add_node. destruct (has_node g n) eqn:E; [done|].
  unfold nodes. rewrite map_app. apply NoDup_app. split; [done|]. split.
  - intros x Hx Hn. apply list_elem_of_singleton in Hn as ->.
    apply has_node_true in Hx. simpl in Hx. congruence.
  - apply NoDup_singleton.
Qed.

Lemma get_edge_data_add_node g n u v :
  get_edge_data (add_node g n) u v = get_edge_data g u v.
Proof.
  unfold add_node. destruct (has_node g n) eqn:E; [done|].
  unfold get_edge_data. rewrite assoc_app_l.
  destruct (assoc u g); [done|]. simpl. by destruct (String.eqb u n).
Qed.

Lemma get_edge_data_set_half_edge g a b d u v :
  get_edge_data (set_half_edge g a b d) u v
  = if String.eqb a u && String.eqb b v then Some d else get_edge_data g u v.
Proof.
  unfold set_half_edge, get_edge_data at 1.
  destruct (String.eqb a u) eqn:Ea.
  - apply String.eqb_eq in Ea as <-. rewrite assoc_dict_set_eq.
    destruct (String.eqb b v) eqn:Eb; simpl.
    + apply String.eqb_eq in Eb as <-. apply assoc_dict_set_eq.
    + apply String.eqb_neq in Eb. rewrite assoc_dict_set_ne; [|done].
      unfold neighbors, get_edge_data. by destruct (assoc a g).
  - apply String.eqb_neq in Ea. rewrite assoc_dict_set_ne; [|done]. done.
Qed.

Lemma nodes_set_half_edge g a b d x :
  x ∈ nodes (set_half_edge g a b d) ↔ x = a ∨ x ∈ nodes g.
Proof. unfold set_half_edge, nodes. apply keys_dict_set. Qed.

Lemma NoDup_nodes_set_half_edge g a b d :
  NoDup (nodes g) → NoDup (nodes (set_half_edge g a b d)).
Proof. apply NoDup_keys_dict_set. Qed.

Lemma has_edge_add_edge g a b d u v :
  has_edge (add_edge g a b d) u v = true ↔
  (u = a ∧ v = b) ∨ (u = b ∧ v = a) ∨ has_edge g u v = true.
Proof.
  unfold add_edge, has_edge at 1.
  rewrite !get_edge_data_set_half_edge, !get_edge_data_add_node.
  destruct (String.eqb b u && String.eqb a v) eqn:E1.
  - apply andb_true_iff in E1 as [->%String.eqb_eq ->%String.eqb_eq]. tauto.
  - destruct (String.eqb a u && String.eqb b v) eqn:E2.
    + apply andb_true_iff in E2 as [->%String.eqb_eq ->%String.eqb_eq]. tauto.
    + apply andb_false_iff in E1, E2. rewrite !String.eqb_neq in E1, E2.
      fold (has_edge g u v). split; [tauto|]. intros [[-> ->]|[[-> ->]|H]]; [tauto..|done].
Qed.

Lemma get_edge_data_add_edge_new g a b d :
  get_edge_data g a b = None →
  get_edge_data (add_edge g a b d) a b = Some (update_attrs no_attrs d).
Proof.
  intros Hnone. unfold add_edge.
  rewrite !get_edge_data_set_half_edge, !get_edge_data_add_node, Hnone.
  rewrite !String.eqb_refl. simpl.
  by destruct (String.eqb b a && String.eqb a b).
Qed.

Lemma nodes_add_edge g a b d x :
  x ∈ nodes (add_edge g a b d) ↔ x = a ∨ x = b ∨ x ∈ nodes g.
Proof.
  unfold add_edge. rewrite !nodes_set_half_edge, !nodes_add_node. tauto.
Qed.

Lemma NoDup_nodes_add_edge g a b d : NoDup (nodes g) → NoDup (nodes (add_edge g a b d)).
Proof.
  intros Hnd. unfold add_edge.
  by apply NoDup_nodes_set_half_edge, NoDup_nodes_set_half_edge,
           NoDup_nodes_add_node, NoDup_nodes_add_node.
Qed.

(** A graph as [networkx] keeps it: no node twice, every neighbour is
    a node, every edge is seen from both ends. *)
Record wf_graph (g : Graph) : Prop := mk_wf_graph {
  wf_nodup : NoDup (nodes g);
  wf_closed : ∀ u v, has_edge g u v = true → v ∈ nodes g;
  wf_sym : ∀ u v, has_edge g u v = true → has_edge g v u = true
}.

Lemma wf_empty : wf_graph empty_graph.
Proof. split; [constructor | done | done]. Qed.

Lemma wf_add_node g n : wf_graph g → wf_graph (add_node g n).
Proof.
  intros [Hnd Hcl Hsym]. split.
  - by apply NoDup_nodes_add_node.
  - intros u v. unfold has_edge. rewrite get_edge_data_add_node.
    intros H. apply nodes_add_node. right. by apply (Hcl u).
  - intros u v. unfold has_edge. rewrite !get_edge_data_add_node. apply Hsym.
Qed.

Lemma wf_add_edge g a b d : wf_graph g → wf_graph (add_edge g a b d).
Proof.
  intros [Hnd Hcl Hsym]. split.
  - by apply NoDup_nodes_add_edge.
  - intros u v. rewrite has_edge_add_edge, nodes_add_edge.
    intros [[-> ->]|[[-> ->]|H]]; [tauto..|]. right. right. by apply (Hcl u).
  - intros u v. rewrite !has_edge_add_edge.
    intros [[-> ->]|[[-> ->]|H]]; [tauto..|]. right. right. by apply Hsym.
Qed.

(** *** Breadth-first search *)

(** Joined by a chain of edges. *)
Definition reachable (g : Graph) : relation Node := rtc (λ u v, has_edge g u v = true).

Lemma reachable_sym g : wf_graph g → ∀ u v, reachable g u v → reachable g v u.
Proof.
  intros Hwf u v H. induction H as [|u w v Huw _ IH]; [done|].
  eapply rtc_r; [exact IH|]. by apply (wf_sym g Hwf).
Qed.

Lemma reachable_mono g g' :
  (∀ u v, has_edge g u v = true → has_edge g' u v = true) →
  ∀ u v, reachable g u v → reachable g' u v.
Proof.
  intros Hsub u v H. induction H as [|u w v Huw _ IH]; [done|].
  eapply rtc_l; [|exact IH]. by apply Hsub.
Qed.

Lemma bfs_visit_fold ws : ∀ acc,
  ∃ new,
    fst (fold_left bfs_visit ws acc) = fst acc ++ new
    ∧ snd (fold_left bfs_visit ws acc) = snd acc ++ new
    ∧ (∀ w, w ∈ new → w ∈ ws ∧ w ∉ fst acc)
    ∧ (∀ w, w ∈ ws → w ∈ fst (fold_left bfs_visit ws acc))
    ∧ (NoDup (fst acc) → NoDup (fst (fold_left bfs_visit ws acc))).
Proof.
  induction ws as [|w ws IH]; intros acc; simpl.
  - exists []. rewrite !app_nil_r. split; [done|]. split; [done|].
    split; [intros w H; by apply elem_of_nil in H|].
    split; [intros w H; by apply elem_of_nil in H | done].
  - destruct (IH (bfs_visit acc w)) as (new & H1 & H2 & Hnew & Hall & Hnd).
    unfold bfs_visit in *. destruct (mem w (fst acc)) eqn:Hmem.
    + exists new. split; [done|]. split; [done|]. split; [|split; [|done]].
      * intros x Hx. destruct (Hnew x Hx). split; [by right | done].
      * intros x Hx. apply elem_of_cons in Hx as [->|Hx]; [|by apply Hall].
        rewrite H1. apply elem_of_app. left. by apply mem_true.
    + apply mem_false in Hmem. simpl in *.
      exists (w :: new). split; [rewrite H1; by rewrite <- app_assoc|].
      split; [rewrite H2; by rewrite <- app_assoc|].
      split; [|split].
      * intros x Hx. apply elem_of_cons in Hx as [->|Hx]; [split; [left | done]|].
        destruct (Hnew x Hx) as [? Hx']. split; [by right|].
        intros ?. apply Hx'. apply elem_of_app. by left.
      * intros x Hx.
        apply elem_of_cons in Hx as [->|Hx]; [|by apply Hall].
        rewrite H1. apply elem_of_app. left. apply elem_of_app. right. left.
      * intros Hacc. apply Hnd. apply NoDup_app.
        split; [done|]. split; [|apply NoDup_singleton].
        intros x Hx Hxw. by apply list_elem_of_singleton in Hxw as ->.
Qed.

Lemma bfs_level_fold g level : ∀ acc,
  ∃ new,
    fst (fold_left (λ acc v, fold_left bfs_visit (map fst (neighbors g v)) acc) level acc)
    = fst acc ++ new
    ∧ snd (fold_left (λ acc v, fold_left bfs_visit (map fst (neighbors g v)) acc) level acc)
      = snd acc ++ new
    ∧ (∀ w, w ∈ new → (w ∉ fst acc) ∧ (∃ v, v ∈ level ∧ has_edge g v w = true))
    ∧ (∀ v w, v ∈ level → has_edge g v w = true →
         w ∈ fst (fold_left (λ acc v, fold_left bfs_visit (map fst (neighbors g v)) acc)
                            level acc))
    ∧ (NoDup (fst acc) →
       NoDup (fst (fold_left (λ acc v, fold_left bfs_visit (map fst (neighbors g v)) acc)
                              level acc))).
Proof.
  induction level as [|v level IH]; intros acc; simpl.
  - exists []. rewrite !app_nil_r. split; [done|]. split; [done|].
    split; [intros w H; by apply elem_of_nil in H|].
    split; [intros ? w H; by apply elem_of_nil in H | done].
  - destruct (bfs_visit_fold (map fst (neighbors g v)) acc)
      as (new1 & A1 & A2 & Anew & Aall & And).
    destruct (IH (fold_left bfs_visit (map fst (neighbors g v)) acc))
      as (new2 & B1 & B2 & Bnew & Ball & Bnd).
    exists (new1 ++ new2). rewrite B1, B2, A1, A2, <- !app_assoc.
    split; [done|]. split; [done|]. split; [|split].
    + intros w Hw. apply elem_of_app in Hw as [Hw|Hw].
      * destruct (Anew w Hw) as [Hin Hout]. split; [done|].
        exists v. split; [left | by apply has_edge_neighbors].
      * destruct (Bnew w Hw) as [Hout (v' & Hv' & He)]. split.
        -- intros ?. apply Hout. rewrite A1. apply elem_of_app. by left.
        -- exists v'. split; [by right | done].
    + intros v' w Hv' He. rewrite app_assoc, <- A1, <- B1.
      apply elem_of_cons in Hv' as [->|Hv']; [|by apply (Ball v')].
      rewrite B1. apply elem_of_app. left. apply Aall. by apply has_edge_neighbors.
    + intros Hacc. rewrite app_assoc, <- A1, <- B1. by apply Bnd, And.
Qed.

Lemma bfs_level_spec g seen level seen' next :
  bfs_level g seen level = (seen', next) →
  seen' = seen ++ next
  ∧ (∀ w, w ∈ next → (w ∉ seen) ∧ (∃ v, v ∈ level ∧ has_edge g v w = true))
  ∧ (∀ v w, v ∈ level → has_edge g v w = true → w ∈ seen')
  ∧ (NoDup seen → NoDup seen').
Proof.
  unfold bfs_level. intros H.
  destruct (bfs_level_fold g level (seen, [])) as (new & H1 & H2 & Hnew & Hall & Hnd).
  rewrite H in *. simpl in *. subst. done.
Qed.

(** Every node the search collects is joined to the source. *)
Lemma bfs_loop_sound g s : ∀ fuel seen level x,
  (∀ y, y ∈ seen → reachable g s y) →
  (∀ y, y ∈ level → y ∈ seen) →
  x ∈ bfs_loop fuel g seen level → reachable g s x.
Proof.
  induction fuel as [|fuel IH]; intros seen level x Hseen Hlevel Hx; simpl in Hx.
  - by apply Hseen.
  - destruct level as [|v level]; [by apply Hseen|].
    destruct (bfs_level g seen (v :: level)) as [seen' next] eqn:E.
    destruct (bfs_level_spec _ _ _ _ _ E) as (-> & Hnew & _ & _).
    apply (IH (seen ++ next) next x); [| |done].
    + intros y Hy. apply elem_of_app in Hy as [Hy|Hy]; [by apply Hseen|].
      destruct (Hnew y Hy) as [_ (u & Hu & He)].
      eapply rtc_r; [apply Hseen, Hlevel, Hu | done].
    + intros y Hy. apply elem_of_app. by right.
Qed.

Lemma bfs_loop_grows g : ∀ fuel seen level x,
  x ∈ seen → x ∈ bfs_loop fuel g seen level.
Proof.
  induction fuel as [|fuel IH]; intros seen level x Hx; simpl; [done|].
  destruct level as [|v level]; [done|].
  destruct (bfs_level g seen (v :: level)) as [seen' next] eqn:E.
  destruct (bfs_level_spec _ _ _ _ _ E) as (-> & _).
  apply IH. apply elem_of_app. by left.
Qed.

(** With the fuel of [plain_bfs] the search ends on a set that is closed
    under taking neighbours. *)
Lemma bfs_loop_closed g : wf_graph g → ∀ fuel seen level,
  NoDup seen →
  (∀ y, y ∈ level → y ∈ seen) →
  (∀ y, y ∈ seen → y ∈ nodes g) →
  (∀ u w, u ∈ seen → u ∉ level → has_edge g u w = true → w ∈ seen) →
  level = [] ∨ length g + 1 ≤ fuel + length seen →
  ∀ u w, u ∈ bfs_loop fuel g seen level → has_edge g u w = true →
         w ∈ bfs_loop fuel g seen level.
Proof.
  intros Hwf. induction fuel as [|fuel IH];
    intros seen level Hnd Hlevel Hnodes Hclosed Hfuel u w Hu He.
  - simpl in *. destruct Hfuel as [->|Hfuel].
    + apply (Hclosed u w Hu); [|done]. intros H. by apply elem_of_nil in H.
    + exfalso.
      assert (length seen ≤ length (nodes g)).
      { apply submseteq_length, NoDup_submseteq; done. }
      unfold nodes in *. rewrite length_map in *. lia.
  - simpl in *. destruct level as [|v level].
    { apply (Hclosed u w Hu); [|done]. intros H. by apply elem_of_nil in H. }
    destruct (bfs_level g seen (v :: level)) as [seen' next] eqn:E.
    destruct (bfs_level_spec _ _ _ _ _ E) as (-> & Hnew & Hall & Hnd').
    apply (IH (seen ++ next) next) with (u := u); try done.
    + by apply Hnd'.
    + intros y Hy. apply elem_of_app. by right.
    + intros y Hy. apply elem_of_app in Hy as [Hy|Hy]; [by apply Hnodes|].
      destruct (Hnew y Hy) as [_ (x & _ & Hxy)]. by apply (wf_closed g Hwf x).
    + intros x y Hx Hxn Hxy. apply elem_of_app in Hx as [Hx|Hx]; [|done].
      destruct (decide (x ∈ v :: level)) as [Hin|Hout].
      * by apply (Hall x).
      * apply elem_of_app. left. by apply (Hclosed x).
    + destruct next as [|n next]; [by left|]. right.
      destruct Hfuel as [?|Hfuel]; [done|].
      rewrite length_app. simpl. lia.
Qed.

(** [plain_bfs] computes the nodes joined to the source. *)
Lemma plain_bfs_reachable g s x :
  wf_graph g → s ∈ nodes g →
  x ∈ plain_bfs g s ↔ reachable g s x.
Proof.
  intros Hwf Hs. unfold plain_bfs. split.
  - apply bfs_loop_sound.
    + intros y Hy. by apply list_elem_of_singleton in Hy as ->.
    + done.
  - intros H. revert x H. apply rtc_ind_r.
    + apply bfs_loop_grows. left.
    + intros v x _ Hvx IH.
      apply (bfs_loop_closed g Hwf) with (u := v); try done.
      * apply NoDup_singleton.
      * intros y Hy. by apply list_elem_of_singleton in Hy as ->.
      * right. simpl. lia.
Qed.

Lemma plain_bfs_source g s : s ∈ plain_bfs g s.
Proof. apply bfs_loop_grows. left. Qed.

Lemma plain_bfs_sound g s x : x ∈ plain_bfs g s → reachable g s x.
Proof.
  apply bfs_loop_sound.
  - intros y Hy. by apply list_elem_of_singleton in Hy as ->.
  - done.
Qed.

(** Every node of the graph is in one of its components, and a
    component holds only nodes joined to each other. *)
Lemma components_from_cover g : ∀ vs seen v,
  v ∈ vs → v ∈ seen ∨ ∃ c, c ∈ components_from g vs seen ∧ v ∈ c.
Proof.
  induction vs as [|v0 vs IH]; intros seen v Hv; [by apply elem_of_nil in Hv|].
  simpl. destruct (mem v0 seen) eqn:Hmem.
  - apply elem_of_cons in Hv as [->|Hv]; [left; by apply mem_true|]. by apply IH.
  - apply elem_of_cons in Hv as [->|Hv].
    + right. exists (plain_bfs g v0). split; [left | apply plain_bfs_source].
    + destruct (IH (seen ++ plain_bfs g v0) v Hv) as [Hin|(c & Hc & Hvc)].
      * apply elem_of_app in Hin as [?|?]; [by left|].
        right. exists (plain_bfs g v0). split; [left | done].
      * right. exists c. split; [by right | done].
Qed.

Lemma components_from_joined g : ∀ vs seen c x y,
  wf_graph g → c ∈ components_from g vs seen → x ∈ c → y ∈ c → reachable g x y.
Proof.
  induction vs as [|v0 vs IH]; intros seen c x y Hwf Hc Hx Hy; simpl in Hc;
    [by apply elem_of_nil in Hc|].
  destruct (mem v0 seen); [by apply (IH seen c)|].
  apply elem_of_cons in Hc as [->|Hc]; [|by apply (IH (seen ++ plain_bfs g v0) c)].
  etrans; [apply (reachable_sym g Hwf) |]; by apply plain_bfs_sound.
Qed.

Lemma reachable_nodes g s x : wf_graph g → s ∈ nodes g → reachable g s x → x ∈ nodes g.
Proof.
  intros Hwf Hs H. induction H as [|u v x Huv _ IH]; [done|].
  apply IH. by apply (wf_closed g Hwf u).
Qed.

Lemma connected_components_cover g v :
  v ∈ nodes g → ∃ c, c ∈ connected_components g ∧ v ∈ c.
Proof.
  intros Hv. destruct (components_from_cover g (nodes g) [] v Hv) as [H|H]; [|done].
  by apply elem_of_nil in H.
Qed.

Lemma components_from_nodes g : ∀ vs seen c x,
  wf_graph g → (∀ v, v ∈ vs → v ∈ nodes g) →
  c ∈ components_from g vs seen → x ∈ c → x ∈ nodes g.
Proof.
  induction vs as [|v0 vs IH]; intros seen c x Hwf Hvs Hc Hx; simpl in Hc;
    [by apply elem_of_nil in Hc|].
  assert (Hvs' : ∀ v, v ∈ vs → v ∈ nodes g) by (intros v Hv; apply Hvs; by right).
  destruct (mem v0 seen); [by apply (IH seen c)|].
  apply elem_of_cons in Hc as [->|Hc]; [|by apply (IH (seen ++ plain_bfs g v0) c)].
  apply (reachable_nodes g v0); [done | apply Hvs; left | by apply plain_bfs_sound].
Qed.

Lemma edges_from_entries : ∀ g seen u v,
  (u, v) ∈ edges_from seen g → ∃ nbrs d, (u, nbrs) ∈ g ∧ (v, d) ∈ nbrs.
Proof.
  induction g as [|[n nbrs] g IH]; intros seen u v H; simpl in H;
    [by apply elem_of_nil in H|].
  apply elem_of_app in H as [H|H].
  - apply list_elem_of_fmap in H as ([v' d] & [= -> ->] & H).
    apply list_elem_of_In, filter_In in H as [H _]. apply list_elem_of_In in H.
    exists nbrs, d. split; [left | done].
  - destruct (IH _ _ _ H) as (nbrs' & d & ? & ?). exists nbrs', d. split; [by right | done].
Qed.

Lemma assoc_NoDup {V} k (v : V) d : NoDup (map fst d) → (k, v) ∈ d → assoc k d = Some v.
Proof.
  induction d as [|[k0 v0] d IH]; intros Hnd Hin; [by apply elem_of_nil in Hin|].
  simpl in *. apply NoDup_cons in Hnd as [Hk0 Hnd].
  apply elem_of_cons in Hin as [[= -> ->]|Hin].
  - by rewrite String.eqb_refl.
  - destruct (String.eqb k k0) eqn:E; [|by apply IH].
    apply String.eqb_eq in E as ->. exfalso. apply Hk0.
    apply list_elem_of_fmap. by exists (k0, v).
Qed.

(** The edges [G.edges()] lists join nodes of the graph. *)
Lemma edges_nodes g u v : wf_graph g → (u, v) ∈ edges g → u ∈ nodes g ∧ v ∈ nodes g.
Proof.
  intros Hwf H. destruct (edges_from_entries _ _ _ _ H) as (nbrs & d & Hu & Hv).
  pose proof (assoc_NoDup _ _ _ (wf_nodup g Hwf) Hu) as Hassoc.
  assert (He : has_edge g u v = true).
  { apply has_edge_neighbors. unfold neighbors. rewrite Hassoc.
    apply list_elem_of_fmap. by exists (v, d). }
  split; [by apply (has_edge_node g u v) | by apply (wf_closed g Hwf u)].
Qed.

End NxFacts.

(** ** The topology builder *)

Module TopologyBuilderSpec.
Import Nx TopologyBuilder PyFacts NxFacts.

(** *** The graph before the repair pass *)

Lemma spaces_nodes spaces : ∀ g x,
  x ∈ nodes (fold_left (λ g space, add_node g (sp_id space)) spaces g)
  ↔ x ∈ map sp_id spaces ∨ x ∈ nodes g.
Proof.
  induction spaces as [|s spaces IH]; intros g x; simpl.
  - split; [by right | intros [H|H]; [by apply elem_of_nil in H | done]].
  - rewrite IH, nodes_add_node, elem_of_cons. tauto.
Qed.

Lemma spaces_wf spaces : ∀ g,
  wf_graph g → wf_graph (fold_left (λ g space, add_node g (sp_id space)) spaces g).
Proof.
  induction spaces as [|s spaces IH]; intros g Hwf; simpl; [done|].
  by apply IH, wf_add_node.
Qed.

Lemma add_opening_spec g opening :
  wf_graph g →
  wf_graph (add_opening g opening)
  ∧ (∀ x, x ∈ nodes (add_opening g opening) ↔ x ∈ nodes g)
  ∧ (∀ u v, has_edge g u v = true → has_edge (add_opening g opening) u v = true).
Proof.
  intros Hwf. unfold add_opening.
  destruct (if (length (get_or (op_connects opening) []) =? 1)%nat
            then get_or (op_connects opening) [] ++ [exterior_id]
            else get_or (op_connects opening) []) as [|a [|b [|? ?]]]; try done.
  destruct (has_node g a) eqn:Ha; [|done].
  destruct (has_node g b) eqn:Hb; [|done]. cbn [andb negb].
  apply has_node_true in Ha, Hb.
  assert (Hany : ∀ d, wf_graph (add_edge g a b d)
            ∧ (∀ x, x ∈ nodes (add_edge g a b d) ↔ x ∈ nodes g)
            ∧ (∀ u v, has_edge g u v = true → has_edge (add_edge g a b d) u v = true)).
  { intros d. split; [by apply wf_add_edge|]. split.
    - intros x. rewrite nodes_add_edge. split; [intros [->|[->|?]]; done | tauto].
    - intros u v H. apply has_edge_add_edge. tauto. }
  destruct (get_edge_data g a b); apply Hany.
Qed.

Lemma openings_spec openings : ∀ g,
  wf_graph g →
  wf_graph (fold_left add_opening openings g)
  ∧ (∀ x, x ∈ nodes (fold_left add_opening openings g) ↔ x ∈ nodes g)
  ∧ (∀ u v, has_edge g u v = true →
            has_edge (fold_left add_opening openings g) u v = true).
Proof.
  induction openings as [|o openings IH]; intros g Hwf; simpl; [done|].
  destruct (add_opening_spec g o Hwf) as (Hwf1 & Hn1 & He1).
  destruct (IH _ Hwf1) as (Hwf2 & Hn2 & He2).
  split; [done|]. split.
  - intros x. by rewrite Hn2, Hn1.
  - intros u v H. by apply He2, He1.
Qed.

(** *** The space dictionary *)

Lemma properties_fold spaces : ∀ props k sp,
  assoc k (fold_left (λ p space, dict_set (sp_id space) space p) spaces props) = Some sp →
  sp ∈ spaces ∨ assoc k props = Some sp.
Proof.
  induction spaces as [|s spaces IH]; intros props k sp H; simpl in H; [by right|].
  apply IH in H as [H|H]; [left; by right|].
  destruct (decide (sp_id s = k)) as [<-|Hne].
  - rewrite assoc_dict_set_eq in H. injection H as <-. left. left.
  - rewrite assoc_dict_set_ne in H; [by right | done].
Qed.

Lemma properties_keys spaces : ∀ props k,
  k ∈ map sp_id spaces ∨ is_Some (assoc k props) →
  is_Some (assoc k (fold_left (λ p space, dict_set (sp_id space) space p) spaces props)).
Proof.
  induction spaces as [|s spaces IH]; intros props k H; simpl.
  - destruct H as [H|H]; [by apply elem_of_nil in H | done].
  - apply IH. simpl in H. rewrite elem_of_cons in H.
    destruct (decide (sp_id s = k)) as [<-|Hne].
    + right. rewrite assoc_dict_set_eq. by eexists.
    + rewrite assoc_dict_set_ne; [|done]. destruct H as [[?|?]|?]; [congruence | by left | by right].
Qed.

(** *** The largest space of a component *)

Definition has_volume (props : list (string * Space)) (n : Node) : Prop :=
  ∃ sp v, assoc n props = Some sp ∧ sp_volume sp = Some v ∧ (0 < v)%Q.

Lemma largest_space_keep props c : ∀ acc,
  is_Some (fst acc) → is_Some (fst (fold_left (largest_space_step props) c acc)).
Proof.
  induction c as [|m c IH]; intros acc Hacc; simpl; [done|].
  apply IH. unfold largest_space_step. destruct (assoc m props); [|done].
  destruct (Qltb _ _); [by eexists | done].
Qed.

Lemma largest_space_some props c : ∀ acc n,
  (fst acc = None → (snd acc <= 0)%Q) →
  n ∈ c → has_volume props n →
  is_Some (fst (fold_left (largest_space_step props) c acc)).
Proof.
  induction c as [|m c IH]; intros acc n Hacc Hn Hvol; [by apply elem_of_nil in Hn|].
  simpl. apply elem_of_cons in Hn as [->|Hn].
  - apply largest_space_keep. destruct Hvol as (sp & v & Hsp & Hv & Hpos).
    unfold largest_space_step. rewrite Hsp, Hv. simpl.
    destruct (Qltb (snd acc) v) eqn:E; [by eexists|].
    apply Qltb_ge in E. destruct (fst acc) as [ls|] eqn:Hfst; [by eexists|].
    specialize (Hacc eq_refl). lra.
  - apply (IH _ n); [|done..].
    unfold largest_space_step. destruct (assoc m props) as [sp|]; [|done].
    destruct (Qltb _ _); [done | done].
Qed.

Lemma largest_space_elem props c : ∀ acc ls,
  fst (fold_left (largest_space_step props) c acc) = Some ls →
  fst acc = Some ls ∨ ls ∈ c.
Proof.
  induction c as [|m c IH]; intros acc ls H; simpl in H; [by left|].
  apply IH in H as [H|H]; [|right; by right].
  unfold largest_space_step in H. destruct (assoc m props) as [sp|]; [|by left].
  destruct (Qltb _ _); [|by left]. injection H as <-. right. left.
Qed.

(** A component with a space of positive volume has a largest space,
    and it is one of its nodes. *)
Lemma largest_space_found props c n :
  n ∈ c → has_volume props n →
  ∃ ls, largest_space props c = Some ls ∧ ls ∈ c.
Proof.
  intros Hn Hvol. unfold largest_space.
  destruct (largest_space_some props c (None, 0%Q) n) as [ls Hls]; [simpl; lra | done..|].
  exists ls. split; [done|].
  by destruct (largest_space_elem _ _ _ _ Hls) as [?|?].
Qed.

(** *** The repair pass *)

Lemma repair_component_spec self exterior_component g c :
  wf_graph g →
  (∀ x, x ∈ c → x ∈ nodes g) →
  (∀ e, e ∈ exterior_nodes self → e ∈ nodes g) →
  wf_graph (repair_component self exterior_component g c)
  ∧ (∀ x, x ∈ nodes (repair_component self exterior_component g c) ↔ x ∈ nodes g)
  ∧ (∀ u v, has_edge g u v = true →
            has_edge (repair_component self exterior_component g c) u v = true).
Proof.
  intros Hwf Hc Hext. unfold repair_component.
  destruct (same_component c exterior_component); [done|].
  destruct (largest_space (space_properties self) c) as [ls|] eqn:Hls; [|done].
  destruct (truthy ls); [|done].
  destruct (exterior_nodes self) as [|ext exts]; [done|].
  destruct (truthy ext); [|done].
  assert (ls ∈ nodes g).
  { apply Hc. destruct (largest_space_elem _ _ _ _ Hls) as [?|?]; done. }
  assert (ext ∈ nodes g) by (apply Hext; left).
  split; [by apply wf_add_edge|]. split.
  - intros x. rewrite nodes_add_edge. split; [intros [->|[->|?]]; done | tauto].
  - intros u v H'. apply has_edge_add_edge. tauto.
Qed.

Lemma repair_components_spec self exterior_component comps : ∀ g,
  wf_graph g →
  (∀ c x, c ∈ comps → x ∈ c → x ∈ nodes g) →
  (∀ e, e ∈ exterior_nodes self → e ∈ nodes g) →
  let g' := fold_left (repair_component self exterior_component) comps g in
  wf_graph g'
  ∧ (∀ x, x ∈ nodes g' ↔ x ∈ nodes g)
  ∧ (∀ u v, has_edge g u v = true → has_edge g' u v = true)
  ∧ (∀ c ls ext, c ∈ comps →
       same_component c exterior_component = false →
       largest_space (space_properties self) c = Some ls → truthy ls = true →
       head (exterior_nodes self) = Some ext → truthy ext = true →
       has_edge g' ls ext = true).
Proof.
  induction comps as [|c comps IH]; intros g Hwf Hcomps Hext; simpl.
  - split; [done|]. split; [done|]. split; [done|].
    intros c ls ext Hc. by apply elem_of_nil in Hc.
  - destruct (repair_component_spec self exterior_component g c Hwf)
      as (Hwf1 & Hn1 & He1); [intros x; apply Hcomps; left | done |].
    destruct (IH (repair_component self exterior_component g c) Hwf1)
      as (Hwf2 & Hn2 & He2 & Hrep).
    { intros c' x Hc' Hx. apply Hn1. apply (Hcomps c'); [by right | done]. }
    { intros e He. apply Hn1. by apply Hext. }
    split; [done|]. split; [intros x; by rewrite Hn2, Hn1|].
    split; [intros u v H; by apply He2, He1|].
    intros c' ls ext Hc' Hsame Hls Htruthy Hhead Hext'.
    apply elem_of_cons in Hc' as [->|Hc']; [|by apply (Hrep c')].
    apply He2. unfold repair_component. rewrite Hsame, Hls, Htruthy.
    destruct (exterior_nodes self) as [|e es]; [done|]. injection Hhead as ->.
    rewrite Hext'. apply has_edge_add_edge. tauto.
Qed.

Lemma truthy_true s : truthy s = true ↔ s ≠ "".
Proof.
  unfold truthy. rewrite negb_true_iff. apply String.eqb_neq.
Qed.

Lemma same_component_elem c1 c2 x : same_component c1 c2 = true → x ∈ c1 → x ∈ c2.
Proof.
  unfold same_component. intros H Hx. apply andb_true_iff in H as [H _].
  apply mem_true. apply (proj1 (forallb_forall _ _) H). by apply list_elem_of_In.
Qed.

(** The repair pass keeps the graph well formed and adds no node. *)
Lemma validate_topology_graph self :
  wf_graph (space_graph self) →
  (∀ e, e ∈ exterior_nodes self → e ∈ nodes (space_graph self)) →
  wf_graph (space_graph (validate_topology self))
  ∧ (∀ x, x ∈ nodes (space_graph (validate_topology self))
          ↔ x ∈ nodes (space_graph self))
  ∧ exterior_nodes (validate_topology self) = exterior_nodes self.
Proof.
  intros Hwf Hexts. unfold validate_topology.
  destruct (1 <? length (connected_components (space_graph self)))%nat; [|done].
  destruct (List.find _ _) as [ec|]; [|done].
  destruct (repair_components_spec self ec
              (connected_components (space_graph self)) (space_graph self) Hwf)
    as (Hwf' & Hn' & _); [|done|done].
  intros c x. by apply components_from_nodes.
Qed.

(** After [_validate_topology] every node is joined to the exterior,
    provided every space has a positive volume and no id is empty. *)
Lemma validate_topology_connects self :
  wf_graph (space_graph self) →
  exterior_nodes self = [exterior_id] →
  exterior_id ∈ nodes (space_graph self) →
  (∀ n, n ∈ nodes (space_graph self) → n ≠ exterior_id →
        has_volume (space_properties self) n) →
  (∀ n, n ∈ nodes (space_graph self) → n ≠ "") →
  wf_graph (space_graph (validate_topology self))
  ∧ (∀ x, x ∈ nodes (space_graph (validate_topology self))
          ↔ x ∈ nodes (space_graph self))
  ∧ exterior_nodes (validate_topology self) = [exterior_id]
  ∧ (∀ n, n ∈ nodes (space_graph self) →
          reachable (space_graph (validate_topology self)) n exterior_id).
Proof.
  intros Hwf Hexts Hext Hvol Hids. unfold validate_topology.
  pose proof (connected_components_cover (space_graph self)) as Hcover.
  assert (Hjoined : ∀ c x y, c ∈ connected_components (space_graph self) →
                      x ∈ c → y ∈ c → reachable (space_graph self) x y).
  { intros c x y. by apply components_from_joined. }
  assert (Hnodes : ∀ c x, c ∈ connected_components (space_graph self) →
                     x ∈ c → x ∈ nodes (space_graph self)).
  { intros c x. by apply components_from_nodes. }
  destruct (Hcover _ Hext) as (cx & Hcx & Hextcx).
  destruct (1 <? length (connected_components (space_graph self)))%nat eqn:Hlen.
  - destruct (List.find _ _) as [ec|] eqn:Hfind.
    + apply find_some in Hfind as [Hec Hhas]. apply list_elem_of_In in Hec.
      apply existsb_exists in Hhas as (e & He & Hmem).
      apply list_elem_of_In in He. rewrite Hexts in Hmem.
      apply mem_true, list_elem_of_singleton in Hmem. subst e.
      destruct (repair_components_spec self ec
                  (connected_components (space_graph self)) (space_graph self) Hwf)
        as (Hwf' & Hn' & He' & Hrep); [done | |].
      { intros e He0. rewrite Hexts in He0. by apply list_elem_of_singleton in He0 as ->. }
      cbn [space_graph exterior_nodes].
      split; [done|]. split; [done|]. split; [done|].
      intros n Hn. destruct (decide (n = exterior_id)) as [->|Hne]; [done|].
      destruct (Hcover _ Hn) as (c & Hc & Hnc).
      destruct (same_component c ec) eqn:Hsame.
      * apply (reachable_mono (space_graph self)); [done|].
        apply (Hjoined ec); [done | by apply (same_component_elem c) | done].
      * destruct (largest_space_found (space_properties self) c n Hnc (Hvol n Hn Hne))
          as (ls & Hls & Hlsc).
        eapply rtc_r.
        -- apply (reachable_mono (space_graph self)); [done|]. by apply (Hjoined c).
        -- apply (Hrep c); try done.
           ++ apply truthy_true, Hids. by apply (Hnodes c).
           ++ by rewrite Hexts.
    + exfalso. pose proof (find_none _ _ Hfind cx) as Hnone.
      rewrite <- list_elem_of_In in Hnone. specialize (Hnone Hcx).
      assert (existsb (λ n, mem n (exterior_nodes self)) cx = true); [|congruence].
      apply existsb_exists. exists exterior_id. rewrite <- list_elem_of_In.
      split; [done|]. rewrite Hexts. by apply mem_true, list_elem_of_singleton.
  - split; [done|]. split; [done|]. split; [done|].
    intros n Hn. destruct (Hcover _ Hn) as (c & Hc & Hnc).
    apply Nat.ltb_ge in Hlen.
    destruct (connected_components (space_graph self)) as [|c0 [|c1 rest]];
      [by apply elem_of_nil in Hc | | simpl in Hlen; lia].
    apply list_elem_of_singleton in Hc, Hcx. subst c cx.
    apply (Hjoined c0); [left | done | done].
Qed.

(** When every node is joined to the exterior, none is reported
    isolated. *)
Lemma find_isolated_spaces_none self :
  wf_graph (space_graph self) →
  exterior_nodes self = [exterior_id] →
  exterior_id ∈ nodes (space_graph self) →
  (∀ n, n ∈ nodes (space_graph self) → reachable (space_graph self) n exterior_id) →
  find_isolated_spaces self = Ok [].
Proof.
  intros Hwf Hexts Hext Hreach. unfold find_isolated_spaces.
  assert (Hall : ∀ l, (∀ n, n ∈ l → n ∈ nodes (space_graph self)) →
            for_each (λ isolated node,
                if mem node (exterior_nodes self) then Ok isolated
                else reach ← can_reach_exterior self node;
                     Ok (if reach : bool then isolated else isolated ++ [node]))
              l [] = Ok []); [|by apply Hall].
  induction l as [|n l IH]; intros Hl; [done|].
  cbn [for_each]. destruct (mem n (exterior_nodes self)).
  - simpl. apply IH. intros m Hm. apply Hl. by right.
  - assert (can_reach_exterior self n = Ok true) as ->.
    { unfold can_reach_exterior. rewrite Hexts. cbn [for_each].
      assert (Hn : n ∈ nodes (space_graph self)) by (apply Hl; left).
      unfold has_path.
      rewrite (proj2 (has_node_true _ _) Hn), (proj2 (has_node_true _ _) Hext). simpl.
      assert (mem exterior_id (plain_bfs (space_graph self) n) = true) as ->; [|done].
      apply mem_true, plain_bfs_reachable; [done | done | by apply Hreach]. }
    simpl. apply IH. intros m Hm. apply Hl. by right.
Qed.

(** The graph before the repair pass, for a new builder. *)
Lemma built_graph_spec spaces openings :
  let g := fold_left add_opening openings
             (add_node (fold_left (λ g space, add_node g (sp_id space)) spaces empty_graph)
                       exterior_id) in
  wf_graph g
  ∧ (∀ x, x ∈ nodes g ↔ x ∈ map sp_id spaces ∨ x = exterior_id).
Proof.
  destruct (openings_spec openings
              (add_node (fold_left (λ g space, add_node g (sp_id space)) spaces empty_graph)
                        exterior_id)) as (Hwf & Hn & _).
  { apply wf_add_node, spaces_wf, wf_empty. }
  split; [done|]. intros x. rewrite Hn, nodes_add_node, spaces_nodes.
  split; [intros [?|[?|H]]; [tauto | tauto | by apply elem_of_nil in H] | tauto].
Qed.

(** The graph [build_topology] returns: well formed, over the spaces
    and the exterior node. *)
Lemma build_topology_graph betweenness closeness spaces openings r self :
  build_topology betweenness closeness new_builder spaces openings = Ok (r, self) →
  wf_graph (r_space_graph r)
  ∧ (∀ x, x ∈ nodes (r_space_graph r) ↔ x ∈ map sp_id spaces ∨ x = exterior_id)
  ∧ r_exterior_nodes r = [exterior_id].
Proof.
  unfold build_topology. intros H.
  apply bind_Ok in H as (scores & _ & H).
  apply bind_Ok in H as (isolated & _ & [= <- <-]).
  cbn [r_space_graph r_exterior_nodes].
  destruct (built_graph_spec spaces openings) as [Hwf Hn].
  match goal with
  | |- context [validate_topology ?s] => set (self0 := s) in *
  end.
  destruct (validate_topology_graph self0) as (Hwf' & Hn' & Hexts'); [done | |].
  - intros e He. apply list_elem_of_singleton in He as ->. apply Hn. by right.
  - split; [done|]. split; [|done]. intros x. by rewrite Hn', <- Hn.
Qed.

(** Away from the empty id the repair pass does its work: when every space has a positive
    volume and a non-empty id, and [build_topology] returns, every node
    of the graph is joined to the exterior node and no space is
    reported isolated. *)
Theorem build_topology_connects betweenness closeness spaces openings r self :
  (∀ s, s ∈ spaces → ∃ v, sp_volume s = Some v ∧ (0 < v)%Q) →
  (∀ s, s ∈ spaces → sp_id s ≠ "") →
  build_topology betweenness closeness new_builder spaces openings = Ok (r, self) →
  r_isolated_spaces r = []
  ∧ ∀ n, n ∈ nodes (r_space_graph r) → reachable (r_space_graph r) n exterior_id.
Proof.
  intros Hvol Hids. unfold build_topology. intros H.
  apply bind_Ok in H as (scores & _ & H).
  apply bind_Ok in H as (isolated & Hisolated & [= <- <-]).
  cbn [r_isolated_spaces r_space_graph].
  destruct (built_graph_spec spaces openings) as [Hwf Hn].
  match type of Hisolated with
  | find_isolated_spaces (validate_topology ?s) = _ => set (self0 := s) in *
  end.
  assert (Hext : exterior_id ∈ nodes (space_graph self0)) by (apply Hn; by right).
  destruct (validate_topology_connects self0) as (Hwf' & Hn' & Hexts' & Hreach);
    [done | done | done | | |].
  - intros n Hin Hne. apply Hn in Hin as [Hin|?]; [|done].
    destruct (properties_keys spaces [] n) as [sp Hsp]; [by left|].
    exists sp. destruct (properties_fold _ _ _ _ Hsp) as [Hin'|?]; [|done].
    destruct (Hvol sp Hin') as (v & Hv & Hpos). by exists v.
  - intros n Hin. apply Hn in Hin as [Hin | ->]; [|done].
    apply list_elem_of_fmap in Hin as (s & -> & Hs). by apply Hids.
  - assert (Hall : ∀ n, n ∈ nodes (space_graph (validate_topology self0)) →
                     reachable (space_graph (validate_topology self0)) n exterior_id).
    { intros n Hin. apply Hreach. by apply Hn'. }
    split; [|done].
    rewrite find_isolated_spaces_none in Hisolated;
      [| done | done | by apply Hn' | done].
    by injection Hisolated as <-.
Qed.


(** *** A space whose id is the empty string *)


Definition sealed_openings : list Opening :=
  [ mkOpening "opening_000" "standard_door" (Some ["space_000"; "space_001"])
              (Some 2%Q) None;
    mkOpening "opening_001" "standard_door" (Some ["space_000"]) (Some 1%Q) None ].


(** The scores of that graph: [space_000] lies between [space_001] and
    the exterior. *)
Definition sealed_betweenness : Graph → list (Node * Q) :=
  λ _, [("space_000", (1 # 3)%Q); ("space_001", 0%Q); ("", 0%Q); ("space_exterior", 0%Q)].

Definition sealed_closeness : Graph → list (Node * Q) :=
  λ _, [("space_000", (8 # 9)%Q); ("space_001", (2 # 3)%Q); ("", 0%Q);
        ("space_exterior", (8 # 15)%Q)].


(** With any other id the same room is repaired. *)
Lemma build_topology_repairs_named_room :
  ∃ r self,
    build_topology sealed_betweenness sealed_closeness new_builder
      [ mkSpace "space_000" (Some 75%Q) (Some "unknown");
        mkSpace "space_001" (Some 75%Q) (Some "unknown");
        mkSpace "space_002" (Some 30%Q) (Some "unknown") ]
      sealed_openings = Ok (r, self)
    ∧ get_edge_data (r_space_graph r) "space_002" "space_exterior" = Some repair_edge
    ∧ r_isolated_spaces r = [].
Proof.
  eexists _, _. split; [vm_compute; reflexivity|]. split; reflexivity.
Qed.

(** A single space with a window: every centrality quotient divides by
    the largest betweenness, which is zero here, and the call raises
    before the repair pass. *)
Lemma build_topology_single_space_raises closeness :
  build_topology (λ _, [("space_000", 0%Q); ("space_exterior", 0%Q)]) closeness
    new_builder [mkSpace "space_000" (Some 1000%Q) (Some "unknown")]
    [mkOpening "opening_000" "standard_door" (Some ["space_000"]) (Some 1%Q) None]
  = Raise ZeroDivisionError.
Proof. reflexivity. Qed.

End TopologyBuilderSpec.

(** ** The ACH calculator *)

Module AchCalculatorSpec.
Import Nx AchCalculator PyFacts.
Import TopologyBuilder (get_or).

(** *** Opening-state override *)

(** Some path of the space goes through an opening that is closed. *)
Definition traverses_closed (ventilation_paths : gmap string (list VentPath))
    (opening_states : gmap string string) (space_id : string) : Prop :=
  ∃ paths path opening_id,
    ventilation_paths !! space_id = Some paths ∧ path ∈ paths
    ∧ opening_id ∈ via path ∧ opening_states !! opening_id = Some "closed".

Lemma path_affected_true opening_states paths :
  path_affected opening_states paths = true ↔
  ∃ path opening_id, path ∈ paths ∧ opening_id ∈ via path
                     ∧ opening_states !! opening_id = Some "closed".
Proof.
  unfold path_affected. rewrite existsb_exists. split.
  - intros (path & Hin & Hex). apply existsb_exists in Hex as (o & Ho & Hc).
    exists path, o. rewrite !list_elem_of_In. by apply bool_decide_eq_true in Hc.
  - intros (path & o & Hin & Ho & Hc). exists path.
    rewrite <- list_elem_of_In. split; [done|].
    apply existsb_exists. exists o. rewrite <- list_elem_of_In.
    split; [done|]. by apply bool_decide_eq_true.
Qed.

Lemma update_space_affected opening_states r nxt dicts (d : gmap string Q) k ps v :
  path_affected opening_states ps = true → d !! k = Some v →
  update_space opening_states r (mkStore nxt (<[r := d]> dicts)) (k, ps)
  = Ok (mkStore nxt (<[r := <[k := (v * 0.7)%Q]> d]> dicts)).
Proof.
  intros Hp Hv. unfold update_space, dict_imul. simpl. rewrite Hp.
  rewrite lookup_insert_eq. simpl. rewrite Hv. by rewrite insert_insert_eq.
Qed.

Lemma update_space_unaffected opening_states r σ k ps :
  path_affected opening_states ps = false →
  update_space opening_states r σ (k, ps) = Ok σ.
Proof. intros Hp. unfold update_space. simpl. by rewrite Hp. Qed.

(** The loop over the path dictionary, on the copy [d] held at [r]. *)
Lemma scale_loop opening_states r nxt dicts items : ∀ d : gmap string Q,
  NoDup items.*1 →
  (∀ k ps, (k, ps) ∈ items → path_affected opening_states ps = true → is_Some (d !! k)) →
  ∃ d',
    for_each (update_space opening_states r) items (mkStore nxt (<[r := d]> dicts))
    = Ok (mkStore nxt (<[r := d']> dicts))
    ∧ (∀ k ps, (k, ps) ∈ items → path_affected opening_states ps = true →
               d' !! k = (λ a, (a * 0.7)%Q) <$> d !! k)
    ∧ (∀ k, (∀ ps, (k, ps) ∈ items → path_affected opening_states ps = false) →
            d' !! k = d !! k).
Proof.
  induction items as [|[k0 ps0] items IH]; intros d Hnd Hkeys.
  - exists d. split; [done|]. split; [|done].
    intros k ps Hin. by apply elem_of_nil in Hin.
  - apply NoDup_cons in Hnd as [Hk0 Hnd]. cbn [for_each].
    assert (Hfresh : ∀ ps, (k0, ps) ∈ items → False).
    { intros ps Hin. apply Hk0. apply list_elem_of_fmap. by exists (k0, ps). }
    destruct (path_affected opening_states ps0) eqn:Haff.
    + destruct (Hkeys k0 ps0 (list_elem_of_here _ _) Haff) as [v Hv].
      rewrite (update_space_affected _ _ _ _ _ _ _ v Haff Hv). cbn [mbind Result_bind].
      destruct (IH (<[k0 := (v * 0.7)%Q]> d) Hnd) as (d' & Hrun & Hyes & Hno).
      { intros k ps Hin Hp. destruct (decide (k = k0)) as [->|Hne].
        - by destruct (Hfresh ps).
        - rewrite lookup_insert_ne; [|done].
          apply (Hkeys k ps); [by apply list_elem_of_further | done]. }
      exists d'. split; [done|]. split.
      * intros k ps Hin Hp. apply elem_of_cons in Hin as [[= -> ->]|Hin].
        -- rewrite Hno; [by rewrite lookup_insert_eq, Hv|].
           intros ps Hin. by destruct (Hfresh ps).
        -- assert (k ≠ k0) by (intros ->; by destruct (Hfresh ps)).
           rewrite (Hyes k ps Hin Hp). by rewrite lookup_insert_ne.
      * intros k Hk. assert (k ≠ k0).
        { intros ->. specialize (Hk ps0 (list_elem_of_here _ _)). congruence. }
        rewrite Hno; [by rewrite lookup_insert_ne|].
        intros ps Hin. apply Hk. by apply list_elem_of_further.
    + rewrite (update_space_unaffected _ _ _ _ _ Haff). cbn [mbind Result_bind].
      destruct (IH d Hnd) as (d' & Hrun & Hyes & Hno).
      { intros k ps Hin Hp. apply (Hkeys k ps); [by apply list_elem_of_further | done]. }
      exists d'. split; [done|]. split.
      * intros k ps Hin Hp. apply elem_of_cons in Hin as [[= -> ->]|Hin]; [congruence|].
        by apply (Hyes k ps).
      * intros k Hk. apply Hno. intros ps Hin. apply Hk. by apply list_elem_of_further.
Qed.

(** C7.  Let [self.ach_rates] refer to the dictionary [stored], whose
    keys include every space that has a path list.  For every
    opening-state map the call returns a reference to a new dictionary
    [derived] with the keys of [stored], in which a space one of whose
    paths goes through a closed opening has 0.7 times its stored rate
    and every other space has its stored rate; the dictionary behind
    [self.ach_rates], and every other dictionary of the store, is as it
    was. *)
Theorem update_ach_for_opening_state_frame
    (self_ach_rates : nat) (self_ventilation_paths : gmap string (list VentPath))
    (opening_states : gmap string string) (σ : Store) (stored : gmap string Q) :
  (∀ r, is_Some (dict_at σ !! r) → r < next_ref σ) →
  dict_at σ !! self_ach_rates = Some stored →
  dom self_ventilation_paths ⊆ dom stored →
  ∃ updated_rates σ' derived,
    update_ach_for_opening_state self_ach_rates self_ventilation_paths opening_states σ
    = Ok (updated_rates, σ')
    ∧ updated_rates ≠ self_ach_rates
    ∧ dict_at σ' !! updated_rates = Some derived
    ∧ (∀ r, r ≠ updated_rates → dict_at σ' !! r = dict_at σ !! r)
    ∧ dom derived = dom stored
    ∧ (∀ space_id ach, stored !! space_id = Some ach →
         (traverses_closed self_ventilation_paths opening_states space_id →
            derived !! space_id = Some (ach * 0.7)%Q)
         ∧ (¬ traverses_closed self_ventilation_paths opening_states space_id →
            derived !! space_id = Some ach)).
Proof.
  intros Halloc Hself Hdom.
  unfold update_ach_for_opening_state, dict_copy. rewrite Hself.
  change (default ∅ (Some stored)) with stored.
  destruct (scale_loop opening_states (next_ref σ) (S (next_ref σ)) (dict_at σ)
              (map_to_list self_ventilation_paths) stored) as (d' & Hrun & Hyes & Hno).
  { apply NoDup_fst_map_to_list. }
  { intros k ps Hin _. apply elem_of_map_to_list in Hin.
    apply elem_of_dom. apply Hdom. apply elem_of_dom. by eexists. }
  cbn [fst snd]. rewrite Hrun. cbn [mbind Result_bind].
  assert (Hcases : ∀ k, d' !! k = stored !! k
                        ∨ d' !! k = (λ a, (a * 0.7)%Q) <$> stored !! k).
  { intros k.
    destruct (existsb (λ item, String.eqb (fst item) k
                               && path_affected opening_states (snd item))
                (map_to_list self_ventilation_paths)) eqn:E.
    - apply existsb_exists in E as ([k' ps] & Hin & Hb).
      apply andb_true_iff in Hb as [Hk Hp]. apply String.eqb_eq in Hk. simpl in Hk, Hp.
      subst k'. right. apply (Hyes k ps); [by apply list_elem_of_In | done].
    - left. apply Hno. intros ps Hin.
      destruct (path_affected opening_states ps) eqn:Hp; [|done].
      assert (existsb (λ item, String.eqb (fst item) k
                               && path_affected opening_states (snd item))
                (map_to_list self_ventilation_paths) = true); [|congruence].
      apply existsb_exists. exists (k, ps). split; [by apply list_elem_of_In|].
      simpl. by rewrite String.eqb_refl, Hp. }
  exists (next_ref σ), (mkStore (S (next_ref σ)) (<[next_ref σ := d']> (dict_at σ))), d'.
  split; [done|]. split.
  { intros Heq. specialize (Halloc self_ach_rates (mk_is_Some _ _ Hself)). lia. }
  split; [apply lookup_insert_eq|]. split.
  { intros r Hr. cbn [dict_at]. by rewrite lookup_insert_ne. }
  split.
  { apply set_eq. intros k. rewrite !elem_of_dom.
    destruct (Hcases k) as [->| ->]; [done|]. by rewrite fmap_is_Some. }
  intros space_id ach Hach. split.
  - intros (paths & path & o & Hp & Hin & Ho & Hc).
    rewrite (Hyes space_id paths).
    + by rewrite Hach.
    + by apply elem_of_map_to_list.
    + apply path_affected_true. by exists path, o.
  - intros Hnot. rewrite Hno; [done|].
    intros ps Hin. apply elem_of_map_to_list in Hin.
    destruct (path_affected opening_states ps) eqn:Hp; [|done].
    exfalso. apply Hnot. apply path_affected_true in Hp as (path & o & ? & ? & ?).
    by exists ps, path, o.
Qed.

(** The corridor scenario: two rooms behind a corridor, one door closed. *)
Definition corridor_paths : gmap string (list VentPath) :=
  <["room_a" := [mkVentPath ["room_a"; "corridor"; "space_exterior"]
                   ["door_a"; "window"] [] 1.5%Q 2%Z 0.6%Q 3%Q "space_exterior"]]>
  (<["room_b" := [mkVentPath ["room_b"; "corridor"; "space_exterior"]
                    ["door_b"; "window"] [] 1.5%Q 2%Z 0.6%Q 3%Q "space_exterior"]]>
   (<["corridor" := [mkVentPath ["corridor"; "space_exterior"]
                       ["window"] [] 1%Q 1%Z 1%Q 1%Q "space_exterior"]]> ∅)).

Definition corridor_rates : gmap string Q :=
  <["room_a" := 6.5%Q]> (<["room_b" := 6.5%Q]> (<["corridor" := 10%Q]> ∅)).

Definition corridor_store : Store := mkStore 1 (<[0%nat := corridor_rates]> ∅).

Definition door_a_closed : gmap string string :=
  <["door_a" := "closed"]> (<["door_b" := "open"]> ∅).

Lemma update_ach_for_opening_state_frame_witness :
  ∃ updated_rates σ' derived,
    update_ach_for_opening_state 0 corridor_paths door_a_closed corridor_store
    = Ok (updated_rates, σ')
    ∧ updated_rates ≠ 0%nat
    ∧ dict_at σ' !! updated_rates = Some derived
    ∧ (∀ r, r ≠ updated_rates → dict_at σ' !! r = dict_at corridor_store !! r)
    ∧ dom derived = dom corridor_rates
    ∧ (∀ space_id ach, corridor_rates !! space_id = Some ach →
         (traverses_closed corridor_paths door_a_closed space_id →
            derived !! space_id = Some (ach * 0.7)%Q)
         ∧ (¬ traverses_closed corridor_paths door_a_closed space_id →
            derived !! space_id = Some ach)).
Proof.
  apply (update_ach_for_opening_state_frame 0 corridor_paths door_a_closed
           corridor_store corridor_rates).
  - intros r [d Hr]. simpl in Hr. apply lookup_insert_Some in Hr as [[<- _]|[_ Hr]].
    + simpl. lia.
    + by rewrite lookup_empty in Hr.
  - reflexivity.
  - unfold corridor_paths, corridor_rates. rewrite !dom_insert_L. set_solver.
Defined.

(** *** Range of the stored rates *)

Definition in_range (cfg : Config) (a : Q) : Prop :=
  (fst (low_ach_range cfg) <= a <= high_ach cfg)%Q.

Lemma calculate_space_ach_range cfg fpow paths :
  (fst (low_ach_range cfg) <= high_ach cfg)%Q →
  in_range cfg (calculate_space_ach cfg fpow paths).
Proof.
  intros Hlh. unfold calculate_space_ach, in_range. destruct paths.
  - split; lra.
  - by apply clamp_range.
Qed.

(** Pulling two rates of an interval towards their mean keeps both in
    the interval. *)
Lemma pull_in_range lo hi a b :
  (lo <= a <= hi)%Q → (lo <= b <= hi)%Q →
  (lo <= a - (a - (a + b) / 2) * 0.3 <= hi)%Q
  ∧ (lo <= b + ((a + b) / 2 - b) * 0.3 <= hi)%Q
  ∧ (lo <= a + ((a + b) / 2 - a) * 0.3 <= hi)%Q
  ∧ (lo <= b - (b - (a + b) / 2) * 0.3 <= hi)%Q.
Proof.
  intros Ha Hb. unfold Qdiv.
  change (/ 2)%Q with (1 # 2)%Q.
  repeat split; lra.
Qed.

(** What the smoothing keeps true: every stored rate is in range. *)
Definition rates_in_range (cfg : Config) (rates : gmap string Q) : Prop :=
  ∀ k a, rates !! k = Some a → in_range cfg a.

Lemma smooth_edge_range cfg rates e :
  rates_in_range cfg rates →
  (is_exterior (fst e) = false → is_exterior (snd e) = false →
   is_Some (rates !! fst e) ∧ is_Some (rates !! snd e)) →
  rates_in_range cfg (smooth_edge rates e)
  ∧ (∀ k, is_Some (rates !! k) → is_Some (smooth_edge rates e !! k)).
Proof.
  intros Hin Hkeys. unfold smooth_edge.
  destruct (is_exterior (fst e)) eqn:E1; [done|].
  destruct (is_exterior (snd e)) eqn:E2; [done|]. cbn [orb].
  destruct (Hkeys eq_refl eq_refl) as [[a1 H1] [a2 H2]].
  rewrite H1, H2.
  change (default 0%Q (Some a1)) with a1. change (default 0%Q (Some a2)) with a2.
  destruct (Qltb 5 (Qabs (a1 - a2))); [|split; [exact Hin | auto]].
  destruct (pull_in_range _ _ a1 a2 (Hin _ _ H1) (Hin _ _ H2)) as (P1 & P2 & P3 & P4).
  destruct (Qltb a2 a1).
  - split.
    + intros k a Hk. apply lookup_insert_Some in Hk as [[_ <-]|[_ Hk]]; [done|].
      apply lookup_insert_Some in Hk as [[_ <-]|[_ Hk]]; [done|]. by apply (Hin k).
    + intros k Hk. rewrite !lookup_insert_is_Some'. auto.
  - split.
    + intros k a Hk. apply lookup_insert_Some in Hk as [[_ <-]|[_ Hk]]; [done|].
      apply lookup_insert_Some in Hk as [[_ <-]|[_ Hk]]; [done|]. by apply (Hin k).
    + intros k Hk. rewrite !lookup_insert_is_Some'. auto.
Qed.

Lemma validate_ach_rates_range cfg (ids : list string) es : ∀ rates,
  rates_in_range cfg rates →
  (∀ k, k ∈ ids → is_Some (rates !! k)) →
  (∀ u v, (u, v) ∈ es → is_exterior u = false → is_exterior v = false →
          u ∈ ids ∧ v ∈ ids) →
  rates_in_range cfg (fold_left smooth_edge es rates)
  ∧ (∀ k, is_Some (rates !! k) → is_Some (fold_left smooth_edge es rates !! k)).
Proof.
  induction es as [|[u v] es IH]; intros rates Hin Hids Hes; simpl; [done|].
  destruct (smooth_edge_range cfg rates (u, v) Hin) as [Hin' Hdom'].
  { simpl. intros Hu Hv. destruct (Hes u v (list_elem_of_here _ _) Hu Hv). auto. }
  destruct (IH (smooth_edge rates (u, v)) Hin') as [Hin'' Hdom''].
  - intros k Hk. apply Hdom'. by apply Hids.
  - intros u' v' Huv. apply Hes. by apply list_elem_of_further.
  - split; [done|]. intros k Hk. by apply Hdom'', Hdom'.
Qed.

Lemma rate_spaces_range cfg fpow g exts spaces : ∀ self self',
  (fst (low_ach_range cfg) <= high_ach cfg)%Q →
  for_each (rate_space cfg fpow g exts) spaces self = Ok self' →
  rates_in_range cfg (ach_rates self) →
  rates_in_range cfg (ach_rates self')
  ∧ (∀ s, s ∈ spaces → is_Some (ach_rates self' !! sp_id s))
  ∧ (∀ k, is_Some (ach_rates self !! k) → is_Some (ach_rates self' !! k)).
Proof.
  induction spaces as [|s spaces IH]; intros self self' Hlh Hrun Hin.
  - injection Hrun as <-. split; [done|]. split; [|done].
    intros s Hs. by apply elem_of_nil in Hs.
  - cbn [for_each] in Hrun. apply bind_Ok in Hrun as (self1 & Hstep & Hrun).
    unfold rate_space in Hstep. apply bind_Ok in Hstep as (paths & _ & [= <-]).
    destruct (IH _ _ Hlh Hrun) as (Hin' & Hall & Hmono).
    { intros k a Hk. cbn [ach_rates] in Hk.
      apply lookup_insert_Some in Hk as [[_ <-]|[_ Hk]].
      - by apply calculate_space_ach_range.
      - by apply (Hin k). }
    cbn [ach_rates ventilation_paths] in *.
    split; [done|]. split.
    + intros s' Hs'. apply elem_of_cons in Hs' as [->|Hs']; [|by apply Hall].
      apply Hmono. rewrite lookup_insert_eq. by eexists.
    + intros k Hk. apply Hmono. rewrite lookup_insert_is_Some'. auto.
Qed.

Lemma rate_spaces_dom cfg fpow g exts spaces : ∀ self self',
  for_each (rate_space cfg fpow g exts) spaces self = Ok self' →
  dom (ventilation_paths self) ⊆ dom (ach_rates self) →
  dom (ventilation_paths self') ⊆ dom (ach_rates self').
Proof.
  induction spaces as [|s spaces IH]; intros self self' Hrun Hsub.
  - by injection Hrun as <-.
  - cbn [for_each] in Hrun. apply bind_Ok in Hrun as (self1 & Hstep & Hrun).
    apply (IH self1); [done|].
    unfold rate_space in Hstep. apply bind_Ok in Hstep as (paths & _ & [= <-]).
    cbn [ach_rates ventilation_paths]. rewrite !dom_insert_L. by apply union_mono_l.
Qed.

(** C1.  Let the low range start no higher than the high rate, and let
    every edge of the graph join nodes that are input spaces or exterior
    nodes.  When [calculate_ach_rates] completes, smoothing included,
    every space of the input list has a stored rate, and it lies in
    [[ACH_low_min, ACH_high]]. *)
Theorem calculate_ach_rates_in_range cfg fpow spaces g exterior_nodes self' :
  (fst (low_ach_range cfg) <= high_ach cfg)%Q →
  (∀ u v, (u, v) ∈ edges g → is_exterior u = false → is_exterior v = false →
          u ∈ map sp_id spaces ∧ v ∈ map sp_id spaces) →
  calculate_ach_rates cfg fpow spaces g exterior_nodes = Ok self' →
  ∀ space, space ∈ spaces →
    ∃ ach, ach_rates self' !! sp_id space = Some ach
           ∧ (fst (low_ach_range cfg) <= ach <= high_ach cfg)%Q.
Proof.
  intros Hlh Hedges Hrun space Hspace.
  unfold calculate_ach_rates in Hrun.
  apply bind_Ok in Hrun as (self & Hloop & [= <-]). cbn [ach_rates].
  destruct (rate_spaces_range _ _ _ _ _ _ _ Hlh Hloop) as (Hin & Hall & _).
  { intros k a Hk. cbn [ach_rates] in Hk. by rewrite lookup_empty in Hk. }
  destruct (validate_ach_rates_range cfg (map sp_id spaces) (edges g)
              (ach_rates self) Hin) as [Hin' Hdom'].
  - intros k Hk. apply list_elem_of_fmap in Hk as (s & -> & Hs). by apply Hall.
  - done.
  - destruct (Hdom' (sp_id space) (Hall _ Hspace)) as [ach Hach].
    exists ach. split; [done|]. by apply (Hin' (sp_id space)).
Qed.

(** In the pipeline the graph is the one [build_topology] returns for
    the same spaces, and the condition on the edges holds by
    construction. *)
Lemma pipeline_rates_in_range betweenness closeness cfg fpow spaces openings
    r builder self' :
  (fst (low_ach_range cfg) <= high_ach cfg)%Q →
  TopologyBuilder.build_topology betweenness closeness TopologyBuilder.new_builder
    spaces openings = Ok (r, builder) →
  calculate_ach_rates cfg fpow spaces (TopologyBuilder.r_space_graph r)
    (TopologyBuilder.r_exterior_nodes r) = Ok self' →
  ∀ space, space ∈ spaces →
    ∃ ach, ach_rates self' !! sp_id space = Some ach
           ∧ (fst (low_ach_range cfg) <= ach <= high_ach cfg)%Q.
Proof.
  intros Hlh Hbuild Hrun space Hspace.
  destruct (TopologyBuilderSpec.build_topology_graph _ _ _ _ _ _ Hbuild)
    as (Hwf & Hnodes & _).
  unfold calculate_ach_rates in Hrun.
  apply bind_Ok in Hrun as (self & Hloop & [= <-]). cbn [ach_rates].
  destruct (rate_spaces_range _ _ _ _ _ _ _ Hlh Hloop) as (Hin & Hall & _).
  { intros k a Hk. cbn [ach_rates] in Hk. by rewrite lookup_empty in Hk. }
  destruct (validate_ach_rates_range cfg (map sp_id spaces)
              (edges (TopologyBuilder.r_space_graph r)) (ach_rates self) Hin)
    as [Hin' Hdom'].
  - intros k Hk. apply list_elem_of_fmap in Hk as (s & -> & Hs). by apply Hall.
  - intros u v Huv Hu Hv. destruct (NxFacts.edges_nodes _ _ _ Hwf Huv) as [Hun Hvn].
    apply Hnodes in Hun as [?| ->]; [|by vm_compute in Hu].
    apply Hnodes in Hvn as [?| ->]; [|by vm_compute in Hv]. done.
  - destruct (Hdom' (sp_id space) (Hall _ Hspace)) as [ach Hach].
    exists ach. split; [done|]. by apply (Hin' (sp_id space)).
Qed.

(** With the default configuration the range holds over any graph
    whatever, also one with nodes that are not input spaces: such a node
    counts with rate 0 in the smoothing, and a rate is only smoothed
    against one that differs by more than 5. *)
Lemma smooth_edge_default (ids : list string) rates e :
  (∀ k a, rates !! k = Some a → (0 <= a <= 10)%Q) →
  (∀ k, k ∈ ids → ∃ a, rates !! k = Some a ∧ (1 <= a)%Q) →
  (∀ k a, smooth_edge rates e !! k = Some a → (0 <= a <= 10)%Q)
  ∧ (∀ k, k ∈ ids → ∃ a, smooth_edge rates e !! k = Some a ∧ (1 <= a)%Q).
Proof.
  intros Hall Hids. unfold smooth_edge.
  destruct (is_exterior (fst e) || is_exterior (snd e)); [done|].
  set (a1 := default 0%Q (rates !! fst e)). set (a2 := default 0%Q (rates !! snd e)).
  assert (H1 : (0 <= a1 <= 10)%Q).
  { unfold a1. destruct (rates !! fst e) as [a|] eqn:E; simpl; [by apply (Hall (fst e)) | lra]. }
  assert (H2 : (0 <= a2 <= 10)%Q).
  { unfold a2. destruct (rates !! snd e) as [a|] eqn:E; simpl; [by apply (Hall (snd e)) | lra]. }
  assert (G1 : fst e ∈ ids → (1 <= a1)%Q).
  { intros Hk. destruct (Hids _ Hk) as (a & Ha & ?). unfold a1. by rewrite Ha. }
  assert (G2 : snd e ∈ ids → (1 <= a2)%Q).
  { intros Hk. destruct (Hids _ Hk) as (a & Ha & ?). unfold a2. by rewrite Ha. }
  destruct (Qltb 5 (Qabs (a1 - a2))) eqn:Hgap; [|done].
  apply Qltb_lt in Hgap.
  destruct (Qltb a2 a1) eqn:Hord.
  - apply Qltb_lt in Hord.
    rewrite Qabs_pos in Hgap by lra.
    unfold Qdiv. change (/ 2)%Q with (1 # 2)%Q.
    split.
    + intros k a Hk. apply lookup_insert_Some in Hk as [[_ <-]|[_ Hk]]; [lra|].
      apply lookup_insert_Some in Hk as [[_ <-]|[_ Hk]]; [lra|]. by apply (Hall k).
    + intros k Hk. destruct (decide (snd e = k)) as [<-|Hne2].
      * rewrite lookup_insert_eq. eexists. split; [done|]. specialize (G2 Hk). lra.
      * rewrite lookup_insert_ne by done. destruct (decide (fst e = k)) as [<-|Hne1].
        -- rewrite lookup_insert_eq. eexists. split; [done|]. lra.
        -- rewrite lookup_insert_ne by done. by apply Hids.
  - apply Qltb_ge in Hord.
    rewrite Qabs_neg in Hgap by lra.
    unfold Qdiv. change (/ 2)%Q with (1 # 2)%Q.
    split.
    + intros k a Hk. apply lookup_insert_Some in Hk as [[_ <-]|[_ Hk]]; [lra|].
      apply lookup_insert_Some in Hk as [[_ <-]|[_ Hk]]; [lra|]. by apply (Hall k).
    + intros k Hk. destruct (decide (snd e = k)) as [<-|Hne2].
      * rewrite lookup_insert_eq. eexists. split; [done|]. lra.
      * rewrite lookup_insert_ne by done. destruct (decide (fst e = k)) as [<-|Hne1].
        -- rewrite lookup_insert_eq. eexists. split; [done|]. specialize (G1 Hk). lra.
        -- rewrite lookup_insert_ne by done. by apply Hids.
Qed.

Lemma default_rates_any_graph fpow spaces g exterior_nodes self' :
  calculate_ach_rates default_config fpow spaces g exterior_nodes = Ok self' →
  ∀ space, space ∈ spaces →
    ∃ ach, ach_rates self' !! sp_id space = Some ach ∧ (1 <= ach <= 10)%Q.
Proof.
  intros Hrun space Hspace. unfold calculate_ach_rates in Hrun.
  apply bind_Ok in Hrun as (self & Hloop & [= <-]). cbn [ach_rates].
  destruct (rate_spaces_range default_config _ _ _ _ _ _ (ltac:(simpl; lra)) Hloop)
    as (Hin & Hall & _).
  { intros k a Hk. cbn [ach_rates] in Hk. by rewrite lookup_empty in Hk. }
  assert (Hends : ∀ es rates,
            (∀ k a, rates !! k = Some a → (0 <= a <= 10)%Q) →
            (∀ k, k ∈ map sp_id spaces → ∃ a, rates !! k = Some a ∧ (1 <= a)%Q) →
            (∀ k a, fold_left smooth_edge es rates !! k = Some a → (0 <= a <= 10)%Q)
            ∧ (∀ k, k ∈ map sp_id spaces →
                 ∃ a, fold_left smooth_edge es rates !! k = Some a ∧ (1 <= a)%Q)).
  { induction es as [|e es IH]; intros rates Ha Hb; simpl; [done|].
    destruct (smooth_edge_default (map sp_id spaces) rates e Ha Hb) as [Ha' Hb'].
    by apply IH. }
  destruct (Hends (edges g) (ach_rates self)) as [Ha Hb].
  - intros k a Hk. destruct (Hin k a Hk) as [Hlo Hhi]. simpl in Hlo, Hhi. lra.
  - intros k Hk. apply list_elem_of_fmap in Hk as (s & -> & Hs).
    destruct (Hall s Hs) as [a Hs']. exists a. split; [done|].
    destruct (Hin _ _ Hs') as [Hlo _]. by simpl in Hlo.
  - destruct (Hb (sp_id space)) as (ach & Hach & Hlo).
    { apply list_elem_of_fmap. by exists space. }
    exists ach. split; [done|]. split; [done|]. by apply (Ha (sp_id space)).
Qed.

(** The calculator that [calculate_ach_rates] leaves behind has a rate
    for every space with a path list: the state in which the
    opening-state override is called. *)
Lemma calculate_ach_rates_dom cfg fpow spaces g exterior_nodes self' :
  calculate_ach_rates cfg fpow spaces g exterior_nodes = Ok self' →
  dom (ventilation_paths self') ⊆ dom (ach_rates self').
Proof.
  intros Hrun. unfold calculate_ach_rates in Hrun.
  apply bind_Ok in Hrun as (self & Hloop & [= <-]). cbn [ach_rates ventilation_paths].
  assert (Hsub : dom (ventilation_paths self) ⊆ dom (ach_rates self)).
  { by apply (rate_spaces_dom _ _ _ _ _ _ _ Hloop). }
  intros k Hk. apply Hsub in Hk. apply elem_of_dom in Hk. apply elem_of_dom.
  unfold validate_ach_rates.
  assert (Hmono : ∀ es (r : gmap string Q), is_Some (r !! k) →
                    is_Some (fold_left (smooth_edge) es r !! k)).
  { induction es as [|e es IHes]; intros r Hr; simpl; [done|].
    apply IHes. unfold smooth_edge.
    repeat (first [done | case_match]); rewrite !lookup_insert_is_Some'; auto. }
  by apply Hmono.
Qed.

(** *** Ventilation paths *)

Import NxFacts.

(** Attributes, weight and openings of the edge of one hop. *)
Definition edge_attrs (g : Graph) (uv : Node * Node) : EdgeData :=
  match get_edge_data g (fst uv) (snd uv) with Some d => d | None => no_attrs end.

Definition edge_weight (g : Graph) (uv : Node * Node) : Q :=
  get_or (e_weight (edge_attrs g uv)) 1%Q.

(** Summed edge weight of a route. *)
Definition route_weight (g : Graph) (q : list Node) : Q :=
  py_sum (map (edge_weight g) (hops q)).

(** The openings a route goes through, each with the area the
    calculator estimates for it from the weight of its edge. *)
Definition traversed (g : Graph) (q : list Node) : list (string * Q) :=
  flat_map (λ uv, map (λ o, (o, estimated_area (edge_weight g uv)))
                      (get_or (e_openings (edge_attrs g uv)) []))
           (hops q).

Definition estimated_total (g : Graph) (q : list Node) : Q :=
  py_sum (map snd (traversed g q)).

(** The routes the calculator keeps: for every exterior node that can
    be reached, the first [max_paths] routes of the enumeration. *)
Definition enumerated (g : Graph) (space_id : string) (exterior_nodes : list Node)
  : list (list Node) :=
  flat_map (λ ext_id,
      match has_path g space_id ext_id with
      | Ok true => firstn max_paths (all_simple_paths g space_id ext_id cutoff)
      | _ => []
      end)
    exterior_nodes.

Definition lighter (p q : VentPath) : Prop := (weight p <= weight q)%Q.

Lemma opening_fold ty area os : ∀ acc,
  let acc' := fold_left (λ a opening_id,
                  mkPathAcc (acc_weight a)
                            (acc_openings a ++ [mkOpeningInfo opening_id ty area])
                            (acc_area a + area)%Q) os acc in
  acc_weight acc' = acc_weight acc
  ∧ acc_area acc' = fold_left Qplus (map (λ _, area) os) (acc_area acc)
  ∧ map oi_id (acc_openings acc') = map oi_id (acc_openings acc) ++ os.
Proof.
  induction os as [|o os IH]; intros acc; simpl.
  - by rewrite app_nil_r.
  - destruct (IH (mkPathAcc (acc_weight acc)
                    (acc_openings acc ++ [mkOpeningInfo o ty area])
                    (acc_area acc + area)%Q)) as (Hw & Ha & Ho).
    simpl in *. split; [done|]. split; [done|].
    rewrite Ho, map_app. simpl. by rewrite <- app_assoc.
Qed.

Lemma path_walk g : ∀ hs acc acc',
  for_each (path_edge_step g) hs acc = Ok acc' →
  acc_weight acc' = fold_left Qplus (map (edge_weight g) hs) (acc_weight acc)
  ∧ acc_area acc'
    = fold_left Qplus
        (map snd (flat_map (λ uv, map (λ o, (o, estimated_area (edge_weight g uv)))
                                      (get_or (e_openings (edge_attrs g uv)) [])) hs))
        (acc_area acc)
  ∧ map oi_id (acc_openings acc')
    = map oi_id (acc_openings acc)
      ++ map fst (flat_map (λ uv, map (λ o, (o, estimated_area (edge_weight g uv)))
                                      (get_or (e_openings (edge_attrs g uv)) [])) hs).
Proof.
  induction hs as [|uv hs IH]; intros acc acc' Hrun.
  - injection Hrun as <-. simpl. by rewrite app_nil_r.
  - cbn [for_each] in Hrun. apply bind_Ok in Hrun as (acc1 & Hstep & Hrun).
    destruct (IH _ _ Hrun) as (Hw & Ha & Ho). clear IH Hrun.
    unfold path_edge_step in Hstep.
    assert (Hattrs : ∀ d, get_edge_data g uv.1 uv.2 = Some d → edge_attrs g uv = d).
    { intros d Hd. unfold edge_attrs. by rewrite Hd. }
    destruct (get_edge_data g uv.1 uv.2) as [d|] eqn:Hd; [|done].
    specialize (Hattrs d eq_refl). injection Hstep as <-.
    match type of Hw with context [fold_left ?f ?os ?a0] =>
      destruct (opening_fold (first_real_type (get_or (e_opening_types d) []))
                  (estimated_area (get_or (e_weight d) 1%Q))
                  (get_or (e_openings d) []) a0) as (Hw1 & Ha1 & Ho1)
    end.
    cbn [acc_weight acc_area acc_openings] in Hw1, Ha1, Ho1.
    rewrite Hw, Ha, Ho, Hw1, Ha1, Ho1. clear Hw Ha Ho Hw1 Ha1 Ho1.
    cbn [map flat_map fold_left]. unfold edge_weight at 1 3 5. rewrite Hattrs.
    rewrite !map_app, !fold_left_app, !map_map. cbn [fst snd].
    rewrite map_id, <- app_assoc. done.
Qed.

Lemma make_path_spec cfg g ext_id path p :
  make_path cfg g ext_id path = Ok p →
  route p = path ∧ exterior p = ext_id
  ∧ path_length p = (Z.of_nat (length path) - 1)%Z
  ∧ decay_factor p = Qpower (path_decay cfg) (Z.of_nat (length path) - 1 - 1)
  ∧ weight p = route_weight g path
  ∧ total_opening_area p = estimated_total g path
  ∧ via p = map fst (traversed g path).
Proof.
  unfold make_path. intros H. apply bind_Ok in H as (acc & Hwalk & [= <-]).
  destruct (path_walk _ _ _ _ Hwalk) as (Hw & Ha & Ho). simpl in *.
  by rewrite Hw, Ha, Ho.
Qed.

Lemma append_paths cfg g ext_id : ∀ routes acc found,
  for_each (append_path cfg g ext_id) routes acc = Ok found →
  ∃ new, found = acc ++ new ∧ map route new = routes
         ∧ Forall (λ p, make_path cfg g ext_id (route p) = Ok p) new.
Proof.
  induction routes as [|q routes IH]; intros acc found Hrun.
  - injection Hrun as <-. exists []. by rewrite app_nil_r.
  - cbn [for_each] in Hrun. apply bind_Ok in Hrun as (acc1 & Hstep & Hrun).
    unfold append_path in Hstep. apply bind_Ok in Hstep as (p & Hp & [= <-]).
    destruct (IH _ _ Hrun) as (new & -> & Hroutes & Hall).
    exists (p :: new). rewrite <- app_assoc. split; [done|].
    destruct (make_path_spec _ _ _ _ _ Hp) as (Hr & _).
    split; [simpl; by rewrite Hr, Hroutes|].
    constructor; [by rewrite Hr | done].
Qed.

Lemma collect_paths cfg g space_id : ∀ exts acc found,
  for_each (paths_to cfg space_id g) exts acc = Ok found →
  ∃ new, found = acc ++ new
         ∧ map route new = enumerated g space_id exts
         ∧ Forall (λ p, exterior p ∈ exts
                        ∧ route p ∈ all_simple_paths g space_id (exterior p) cutoff
                        ∧ make_path cfg g (exterior p) (route p) = Ok p) new.
Proof.
  induction exts as [|ext exts IH]; intros acc found Hrun.
  - injection Hrun as <-. exists []. by rewrite app_nil_r.
  - cbn [for_each] in Hrun. apply bind_Ok in Hrun as (acc1 & Hstep & Hrun).
    destruct (IH _ _ Hrun) as (new & -> & Hroutes & Hall). clear IH Hrun.
    unfold paths_to in Hstep. apply bind_Ok in Hstep as (reachable & Hreach & Hstep).
    assert (Hrest : Forall (λ p, exterior p ∈ ext :: exts
                        ∧ route p ∈ all_simple_paths g space_id (exterior p) cutoff
                        ∧ make_path cfg g (exterior p) (route p) = Ok p) new).
    { eapply Forall_impl; [exact Hall|]. intros p (? & ? & ?).
      split; [by right | done]. }
    unfold enumerated. cbn [flat_map]. rewrite Hreach.
    destruct reachable; cbn [negb] in Hstep.
    + destruct (append_paths _ _ _ _ _ _ Hstep) as (here & -> & Hhere & Hmk).
      exists (here ++ new). rewrite <- app_assoc. split; [done|].
      split; [by rewrite map_app, Hhere, Hroutes|].
      apply Forall_app. split; [|done].
      apply Forall_forall. intros p Hp.
      pose proof (proj1 (Forall_forall _ _) Hmk p Hp) as Hmkp.
      destruct (make_path_spec _ _ _ _ _ Hmkp) as (_ & Hext & _).
      rewrite Hext. split; [left|]. split; [|done].
      apply (subseteq_take max_paths). rewrite <- Hhere.
      apply list_elem_of_fmap. by exists p.
    + injection Hstep as <-. exists new. done.
Qed.

(** The sort is a stable insertion sort. *)
Lemma insert_by_weight_perm p l : Permutation (insert_by_weight p l) (p :: l).
Proof.
  induction l as [|q l IH]; simpl; [done|].
  destruct (Qle_bool (weight p) (weight q)); [done|].
  rewrite IH. apply perm_swap.
Qed.

Lemma sort_by_weight_perm l : Permutation (sort_by_weight l) l.
Proof.
  induction l as [|p l IH]; simpl; [done|].
  rewrite insert_by_weight_perm. by constructor.
Qed.

Lemma insert_by_weight_sorted p l :
  StronglySorted lighter l → StronglySorted lighter (insert_by_weight p l).
Proof.
  induction l as [|q l IH]; intros Hs; simpl.
  - repeat constructor.
  - apply StronglySorted_inv in Hs as [Hs Hq].
    destruct (Qle_bool (weight p) (weight q)) eqn:E.
    + apply Qle_bool_iff in E. constructor; [by constructor|].
      constructor; [done|].
      eapply Forall_impl; [exact Hq|]. intros r Hr. unfold lighter in *. lra.
    + constructor; [by apply IH|].
      assert (Hqp : lighter q p).
      { unfold lighter. destruct (Qlt_le_dec (weight q) (weight p)) as [?|Hle]; [lra|].
        apply Qle_bool_iff in Hle. congruence. }
      eapply Permutation_Forall; [symmetry; apply insert_by_weight_perm|].
      by constructor.
Qed.

Lemma sort_by_weight_sorted l : StronglySorted lighter (sort_by_weight l).
Proof.
  induction l as [|p l IH]; simpl; [constructor | by apply insert_by_weight_sorted].
Qed.

Lemma firstn_all_paths_length g s ext :
  (length (firstn max_paths (all_simple_paths g s ext cutoff)) <= max_paths)%nat.
Proof. rewrite length_firstn. lia. Qed.

Lemma enumerated_length g s exts :
  (length (enumerated g s exts) <= max_paths * length exts)%nat.
Proof.
  induction exts as [|ext exts IH]; [simpl; lia|].
  unfold enumerated in *. cbn [flat_map]. rewrite length_app. cbn [length].
  pose proof (firstn_all_paths_length g s ext) as Hfirst.
  unfold max_paths in *.
  destruct (has_path g s ext) as [[]|]; cbn [length]; lia.
Qed.

(** C3 (as the code computes it).  When [_find_ventilation_paths]
    returns, the list holds at most five paths for each exterior node;
    every path is a simple path of the graph from the space to an
    exterior node of the list, of at most six hops, whose weight is the
    sum of its edge weights; the list is sorted ascending by weight; and
    its routes are, up to that sorting, the first five routes that the
    depth-first enumeration yields for each reachable exterior node. *)
Theorem find_ventilation_paths_spec cfg space_id g exterior_nodes paths :
  find_ventilation_paths cfg space_id g exterior_nodes = Ok paths →
  (length paths <= 5 * length exterior_nodes)%nat
  ∧ (∀ p, p ∈ paths →
       exterior p ∈ exterior_nodes
       ∧ is_simple_path g space_id (exterior p) (route p)
       ∧ (length (route p) - 1 <= 6)%nat
       ∧ weight p = route_weight g (route p))
  ∧ StronglySorted lighter paths
  ∧ Permutation (map route paths) (enumerated g space_id exterior_nodes).
Proof.
  unfold find_ventilation_paths. intros H.
  apply bind_Ok in H as (found & Hrun & [= <-]).
  destruct (collect_paths _ _ _ _ _ _ Hrun) as (new & -> & Hroutes & Hall).
  cbn [app] in *.
  pose proof (sort_by_weight_perm new) as Hperm.
  split; [|split; [|split]].
  - rewrite (Permutation_length Hperm), <- (length_map route), Hroutes.
    apply enumerated_length.
  - intros p Hp. rewrite Hperm in Hp.
    destruct (proj1 (Forall_forall _ _) Hall p Hp) as (Hext & Hin & Hmk).
    destruct (all_simple_paths_sound _ _ _ _ _ Hin) as [Hsimple Hlen].
    destruct (make_path_spec _ _ _ _ _ Hmk) as (_ & _ & _ & _ & Hw & _).
    done.
  - apply sort_by_weight_sorted.
  - rewrite <- Hroutes. by apply Permutation_map.
Qed.

(** *** Contribution of a path *)

Definition base_ach (cfg : Config) (L : Z) : Q :=
  if (L =? 1)%Z then high_ach cfg
  else if (L =? 2)%Z then mean (medium_ach_range cfg)
  else mean (low_ach_range cfg).

(** C4 (as the code computes it).  For every path kept for a space, of
    [L] hops, the contribution that enters the weighted mean is
    [base * areaFactor * decay]: [base] is [ACH_high] for [L = 1], the
    mean of the medium range for [L = 2] and the mean of the low range
    otherwise; [decay] is [path_decay ^ (L - 1)]; and [areaFactor] is
    the power [opening_influence] of the sum, over the openings the
    path goes through, of the area estimated for the opening from the
    weight [w] of its edge, [1 / w] (or 1 when [w] is not positive). *)
Theorem path_contribution_spec cfg fpow space_id g exterior_nodes paths p :
  find_ventilation_paths cfg space_id g exterior_nodes = Ok paths →
  p ∈ paths →
  path_contribution cfg fpow p
  = (base_ach cfg (Z.of_nat (length (route p)) - 1)
     * fpow (estimated_total g (route p)) (opening_influence cfg)
     * Qpower (path_decay cfg) (Z.of_nat (length (route p)) - 1 - 1))%Q.
Proof.
  unfold find_ventilation_paths. intros H Hp.
  apply bind_Ok in H as (found & Hrun & [= <-]).
  destruct (collect_paths _ _ _ _ _ _ Hrun) as (new & -> & _ & Hall).
  cbn [app] in *. rewrite sort_by_weight_perm in Hp.
  destruct (proj1 (Forall_forall _ _) Hall p Hp) as (_ & _ & Hmk).
  destruct (make_path_spec _ _ _ _ _ Hmk) as (_ & _ & HL & Hd & _ & Ha & _).
  unfold path_contribution, base_ach. by rewrite HL, Hd, Ha.
Qed.

(** *** The test graph of the module *)

Definition test_spaces : list Space :=
  [ mkSpace "space_001" (Some 100%Q) (Some "room");
    mkSpace "space_002" (Some 80%Q) (Some "corridor");
    mkSpace "space_003" (Some 120%Q) (Some "room") ].

Definition test_graph : Graph :=
  let g := fold_left add_node
             ["space_001"; "space_002"; "space_003"; "space_exterior"] empty_graph in
  let g := add_edge g "space_001" "space_002"
             (mkEdgeData (Some ["opening_001"]) None (Some 1%Q) (Some ["door"]) None) in
  let g := add_edge g "space_002" "space_003"
             (mkEdgeData (Some ["opening_002"]) None (Some 1%Q) (Some ["door"]) None) in
  add_edge g "space_001" "space_exterior"
    (mkEdgeData (Some ["opening_003"]) None (Some 0.5%Q) (Some ["window"]) None).

(** A stand-in for the float power in examples: the identity in its
    base, which is the power for the exponent 1. *)
Definition linear : Q → Q → Q := λ x _, x.

Lemma calculate_ach_rates_in_range_witness :
  ∃ self',
    calculate_ach_rates default_config linear test_spaces test_graph ["space_exterior"]
    = Ok self'
    ∧ ∀ space, space ∈ test_spaces →
        ∃ ach, ach_rates self' !! sp_id space = Some ach
               ∧ (fst (low_ach_range default_config) <= ach
                  <= high_ach default_config)%Q.
Proof.
  eexists. split; [vm_compute; reflexivity|].
  apply (calculate_ach_rates_in_range default_config linear test_spaces test_graph
           ["space_exterior"]).
  - simpl. lra.
  - intros u v Huv. apply list_elem_of_In in Huv. vm_compute in Huv.
    destruct Huv as [[= <- <-]|[[= <- <-]|[[= <- <-]|[]]]];
      intros Hu Hv; try discriminate; split; apply list_elem_of_In; simpl; auto.
  - vm_compute. reflexivity.
Defined.

Lemma find_ventilation_paths_spec_witness :
  ∃ paths,
    find_ventilation_paths default_config "space_003" test_graph ["space_exterior"]
    = Ok paths
    ∧ (length paths <= 5 * length ["space_exterior"])%nat
    ∧ (∀ p, p ∈ paths →
         exterior p ∈ ["space_exterior"]
         ∧ is_simple_path test_graph "space_003" (exterior p) (route p)
         ∧ (length (route p) - 1 <= 6)%nat
         ∧ weight p = route_weight test_graph (route p))
    ∧ StronglySorted lighter paths
    ∧ Permutation (map route paths)
                  (enumerated test_graph "space_003" ["space_exterior"]).
Proof.
  eexists. split; [vm_compute; reflexivity|].
  apply (find_ventilation_paths_spec default_config "space_003" test_graph
           ["space_exterior"]).
  vm_compute. reflexivity.
Defined.

Lemma path_contribution_spec_witness :
  ∃ p,
    find_ventilation_paths default_config "space_003" test_graph ["space_exterior"]
    = Ok [p]
    ∧ route p = ["space_003"; "space_002"; "space_001"; "space_exterior"]
    ∧ path_contribution default_config linear p
      = (base_ach default_config (Z.of_nat (length (route p)) - 1)
         * linear (estimated_total test_graph (route p))
                  (opening_influence default_config)
         * Qpower (path_decay default_config)
                  (Z.of_nat (length (route p)) - 1 - 1))%Q.
Proof.
  eexists. split; [vm_compute; reflexivity|]. split; [reflexivity|].
  eapply (path_contribution_spec default_config linear "space_003" test_graph
            ["space_exterior"]).
  - vm_compute. reflexivity.
  - left.
Defined.

(** *** Five enumerated paths are kept, not the five lightest *)

(** The claim as specified: whatever simple path of at most six hops is
    left out weighs no less than any path kept. *)
Definition lightest_retained (g : Graph) (space_id : string)
    (exterior_nodes : list Node) (paths : list VentPath) : Prop :=
  ∀ ext q,
    ext ∈ exterior_nodes → is_simple_path g space_id ext q →
    (length q - 1 <= 6)%nat → q ∉ map route paths →
    ∀ p, p ∈ paths → (weight p <= route_weight g q)%Q.

(** A space with five neighbouring rooms, each with a window, and a
    window of its own that was detected last. *)
Definition star_graph : Graph :=
  let door := λ n, mkEdgeData (Some [String.append "door_" n]) (Some 1%nat)
                              (Some 1%Q) (Some ["standard_door"]) None in
  let window := λ n w, mkEdgeData (Some [String.append "window_" n]) (Some 1%nat)
                                  (Some w) (Some ["standard_door"]) None in
  let rooms := ["room_1"; "room_2"; "room_3"; "room_4"; "room_5"] in
  let g := fold_left add_node ("hall" :: rooms ++ ["space_exterior"]) empty_graph in
  let g := fold_left (λ g n, add_edge g "hall" n (door n)) rooms g in
  let g := fold_left (λ g n, add_edge g n "space_exterior" (window n 1%Q)) rooms g in
  add_edge g "hall" "space_exterior" (window "hall" 0.5%Q).

Definition star_kept : list VentPath :=
  Eval vm_compute in
    match find_ventilation_paths default_config "hall" star_graph ["space_exterior"] with
    | Ok paths => paths
    | Raise _ => []
    end.

Lemma find_ventilation_paths_not_lightest :
  find_ventilation_paths default_config "hall" star_graph ["space_exterior"]
  = Ok star_kept
  ∧ map route star_kept
    = [ ["hall"; "room_1"; "space_exterior"]; ["hall"; "room_2"; "space_exterior"];
        ["hall"; "room_3"; "space_exterior"]; ["hall"; "room_4"; "space_exterior"];
        ["hall"; "room_5"; "space_exterior"] ]
  ∧ ¬ lightest_retained star_graph "hall" ["space_exterior"] star_kept.
Proof.
  split; [vm_compute; reflexivity|]. split; [reflexivity|].
  intros H.
  assert (H1 : "space_exterior" ∈ ["space_exterior"]) by left.
  assert (H2 : is_simple_path star_graph "hall" "space_exterior"
                 ["hall"; "space_exterior"]).
  { split; [done|]. split; [done|]. split.
    - apply NoDup_cons. split; [|apply NoDup_singleton].
      intros Hin. apply list_elem_of_singleton in Hin. discriminate.
    - split; [by vm_compute | done]. }
  assert (H3 : (length ["hall"; "space_exterior"] - 1 <= 6)%nat) by (simpl; lia).
  assert (H4 : ["hall"; "space_exterior"] ∉ map route star_kept).
  { intros Hin. apply list_elem_of_In in Hin. simpl in Hin.
    repeat destruct Hin as [Hin|Hin]; try discriminate. done. }
  pose proof (H _ _ H1 H2 H3 H4) as Hall. unfold star_kept in Hall.
  specialize (Hall _ (list_elem_of_here _ _)).
  apply Qle_bool_iff in Hall. vm_compute in Hall. discriminate.
Qed.

(** *** The area factor uses estimated areas *)

(** The area of an opening, from the opening list. *)
Definition opening_area (openings : list Opening) (opening_id : string) : Q :=
  match List.find (λ o, String.eqb (op_id o) opening_id) openings with
  | Some o => get_or (op_area o) 0%Q
  | None => 0%Q
  end.

Definition traversed_area (openings : list Opening) (p : VentPath) : Q :=
  py_sum (map (opening_area openings) (via p)).

(** The claim as specified: the area factor is the power of the summed
    areas of the openings on the path. *)
Definition contribution_as_specified (cfg : Config) (fpow : Q → Q → Q)
    (openings : list Opening) (p : VentPath) : Prop :=
  (path_contribution cfg fpow p
   == base_ach cfg (path_length p)
      * fpow (traversed_area openings p) (opening_influence cfg)
      * Qpower (path_decay cfg) (path_length p - 1))%Q.

(** A room behind a space that has two windows, of 1 and 4 square
    metres. *)
Definition two_window_spaces : list Space :=
  [ mkSpace "space_000" (Some 75%Q) (Some "unknown");
    mkSpace "space_001" (Some 75%Q) (Some "unknown") ].

Definition two_window_openings : list Opening :=
  [ mkOpening "opening_000" "standard_door" (Some ["space_000"; "space_001"])
              (Some 2%Q) None;
    mkOpening "opening_001" "standard_door" (Some ["space_000"]) (Some 1%Q) None;
    mkOpening "opening_002" "wide_door" (Some ["space_000"]) (Some 4%Q) None ].

(** The centrality scores of that graph (the path
    [space_001 - space_000 - space_exterior] with weights 1/2 and 1/4). *)
Definition two_window_betweenness : Graph → list (Node * Q) :=
  λ _, [("space_000", 1%Q); ("space_001", 0%Q); ("space_exterior", 0%Q)].

Definition two_window_closeness : Graph → list (Node * Q) :=
  λ _, [("space_000", (8 # 3)%Q); ("space_001", (8 # 5)%Q); ("space_exterior", 2%Q)].

Lemma path_contribution_not_true_area :
  ∃ r self p,
    TopologyBuilder.build_topology two_window_betweenness two_window_closeness
      TopologyBuilder.new_builder two_window_spaces two_window_openings = Ok (r, self)
    ∧ find_ventilation_paths default_config "space_000"
        (TopologyBuilder.r_space_graph r) (TopologyBuilder.r_exterior_nodes r) = Ok [p]
    ∧ via p = ["opening_001"; "opening_002"]
    ∧ total_opening_area p = 8%Q
    ∧ traversed_area two_window_openings p = 5%Q
    ∧ ¬ (∀ fpow, contribution_as_specified default_config fpow two_window_openings p).
Proof.
  eexists _, _, _. split; [vm_compute; reflexivity|].
  split; [vm_compute; reflexivity|].
  split; [reflexivity|]. split; [reflexivity|]. split; [reflexivity|].
  intros H. specialize (H linear). vm_compute in H. discriminate.
Qed.

(** The same input refutes the claim for every power function that
    tells the bases 8 and 5 apart. *)
Lemma area_factor_differs_for_any_power (fpow : Q → Q → Q) p :
  find_ventilation_paths default_config "space_000"
    (fold_left TopologyBuilder.add_opening two_window_openings
       (fold_left add_node ["space_000"; "space_001"; "space_exterior"] empty_graph))
    ["space_exterior"] = Ok [p] →
  ¬ (fpow 8 0.7 == fpow 5 0.7)%Q →
  ¬ contribution_as_specified default_config fpow two_window_openings p.
Proof.
  intros Hp Hne Hspec. apply Hne. vm_compute in Hp. injection Hp as <-.
  unfold contribution_as_specified, path_contribution in Hspec.
  cbn [path_length total_opening_area decay_factor default_config opening_influence
       high_ach path_decay base_ach Z.eqb Pos.eqb] in Hspec.
  change (traversed_area two_window_openings _) with 5%Q in Hspec.
  change (Qpower 0.6 (1 - 1)) with 1%Q in Hspec.
  change (0.7%Q) with (7 # 10)%Q.
  assert (H10 : ∀ a b : Q, (10 * a * 1 == 10 * b * 1)%Q → (a == b)%Q).
  { intros a b Hab. lra. }
  apply H10. exact Hspec.
Qed.

End AchCalculatorSpec.

(** ** Space detection *)

Module SpaceDetectorSpec.
Import SpaceDetector PyFacts.

(** *** The flood fill only clears cells *)

Lemma flood_loop_subset s : ∀ fuel grid queue, flood_loop fuel s grid queue ⊆ grid.
Proof.
  induction fuel as [|fuel IH]; intros grid queue; simpl; [done|].
  destruct queue as [|v queue]; [done|].
  case_bool_decide.
  - etrans; [apply IH|]. apply subseteq_difference_l. done.
  - apply IH.
Qed.

Lemma flood_fill_3d_subset s grid start : flood_fill_3d s grid start ⊆ grid.
Proof.
  unfold flood_fill_3d. case_bool_decide; [apply flood_loop_subset | done].
Qed.

Lemma flood_seeds_subset s seeds : ∀ grid,
  fold_left (flood_fill_3d s) seeds grid ⊆ grid.
Proof.
  induction seeds as [|seed seeds IH]; intros grid; simpl; [done|].
  etrans; [apply IH | apply flood_fill_3d_subset].
Qed.

(** The fuel of [_flood_fill_3d] is never used up: with
    [7 * size grid + length queue] units or more, one more unit changes
    nothing. *)
Lemma filter_length_le {A} (f : A → bool) l : length (List.filter f l) ≤ length l.
Proof.
  induction l as [|x l IH]; simpl; [done|]. destruct (f x); simpl; lia.
Qed.

Lemma set_neighbors_length s grid v : length (set_neighbors s grid v) ≤ 6.
Proof. unfold set_neighbors. etrans; [apply filter_length_le|]. done. Qed.

Lemma size_clear (grid : gset Voxel) v :
  v ∈ grid → S (size (grid ∖ {[v]})) = size grid.
Proof.
  intros Hv. rewrite size_difference; [|by apply singleton_subseteq_l].
  rewrite size_singleton.
  assert (size grid ≠ 0); [|lia].
  apply size_non_empty_iff. intros He. rewrite He in Hv. by apply not_elem_of_empty in Hv.
Qed.

Lemma flood_loop_enough s : ∀ fuel grid queue,
  7 * size grid + length queue ≤ fuel →
  flood_loop (S fuel) s grid queue = flood_loop fuel s grid queue.
Proof.
  induction fuel as [|fuel IH]; intros grid queue Hfuel.
  - destruct queue; [done|]. simpl in Hfuel. lia.
  - destruct queue as [|v queue]; [done|].
    change (flood_loop (S (S fuel)) s grid (v :: queue))
      with (if bool_decide (v ∈ grid)
            then flood_loop (S fuel) s (grid ∖ {[v]})
                            (queue ++ set_neighbors s (grid ∖ {[v]}) v)
            else flood_loop (S fuel) s grid queue).
    change (flood_loop (S fuel) s grid (v :: queue))
      with (if bool_decide (v ∈ grid)
            then flood_loop fuel s (grid ∖ {[v]})
                            (queue ++ set_neighbors s (grid ∖ {[v]}) v)
            else flood_loop fuel s grid queue).
    simpl in Hfuel. case_bool_decide as Hv.
    + apply IH. rewrite length_app.
      pose proof (set_neighbors_length s (grid ∖ {[v]}) v).
      pose proof (size_clear grid v Hv). lia.
    + apply IH. lia.
Qed.

Lemma flood_fill_3d_fuel s grid start extra :
  start ∈ grid →
  flood_loop (flood_fuel grid + extra) s grid [start] = flood_fill_3d s grid start.
Proof.
  intros Hs. unfold flood_fill_3d. rewrite bool_decide_eq_true_2; [|done].
  induction extra as [|extra IH]; [by rewrite Nat.add_0_r|].
  rewrite Nat.add_succ_r, flood_loop_enough; [done|].
  unfold flood_fuel. simpl. lia.
Qed.

(** *** Exterior removal and the detected spaces *)

Lemma remove_external_space_subset max_seed_points draws empty_space filled :
  remove_external_space max_seed_points draws empty_space = Ok filled →
  shape filled = shape empty_space ∧ cells filled ⊆ cells empty_space.
Proof.
  unfold remove_external_space. destruct (shape empty_space) as [[sx sy] sz] eqn:Hs.
  destruct ((sx <=? 0)%Z || (sy <=? 0)%Z || (sz <=? 0)%Z); [done|].
  intros [= <-]. split; [done|]. apply flood_seeds_subset.
Qed.

Lemma elem_of_range n x : x ∈ range n → (0 <= x < n)%Z.
Proof.
  unfold range. intros Hx. apply list_elem_of_fmap in Hx as (k & -> & Hk).
  apply elem_of_seq in Hk. lia.
Qed.

Lemma elem_of_box s v : v ∈ box s → in_bounds s v = true.
Proof.
  destruct s as [[sx sy] sz], v as [[x y] z]. unfold box. intros Hv.
  apply list_elem_of_bind in Hv as (x' & Hv & Hx).
  apply list_elem_of_bind in Hv as (y' & Hv & Hy).
  apply list_elem_of_bind in Hv as (z' & Hv & Hz).
  apply list_elem_of_singleton in Hv as [= -> -> ->].
  apply elem_of_range in Hx, Hy, Hz. unfold in_bounds.
  repeat (apply andb_true_iff; split); lia.
Qed.

Lemma elem_of_invert g v :
  v ∈ cells (invert g) → in_bounds (shape g) v = true ∧ v ∉ cells g.
Proof.
  unfold invert. cbn [cells]. rewrite elem_of_list_to_set.
  intros Hv. apply list_elem_of_In, filter_In in Hv as [Hv Hg].
  apply list_elem_of_In in Hv. apply bool_decide_eq_true in Hg.
  split; [by apply elem_of_box | done].
Qed.

Lemma label_from_subset s : ∀ scan remaining component v,
  component ∈ label_from s scan remaining → v ∈ component → v ∈ remaining.
Proof.
  induction scan as [|c scan IH]; intros remaining component v Hc Hv; simpl in Hc.
  - by apply elem_of_nil in Hc.
  - case_bool_decide.
    + apply elem_of_cons in Hc as [->|Hc].
      * apply list_elem_of_In, filter_In in Hv as [_ Hv].
        apply bool_decide_eq_true in Hv. by apply elem_of_difference in Hv as [? _].
      * apply (flood_fill_3d_subset s remaining c). by apply (IH _ component).
    + by apply (IH _ component).
Qed.

Lemma keep_components_voxels min_space_volume base_voxel_size components : ∀ spaces sp,
  sp ∈ fold_left (keep_component min_space_volume base_voxel_size) components spaces →
  sp ∈ spaces ∨ voxel_indices sp ∈ components.
Proof.
  induction components as [|c components IH]; intros spaces sp Hsp; simpl in Hsp.
  - by left.
  - apply IH in Hsp as [Hsp|Hsp]; [|right; by right].
    unfold keep_component in Hsp.
    destruct (Qltb _ min_space_volume); [by left|].
    apply elem_of_app in Hsp as [Hsp|Hsp]; [by left|].
    apply list_elem_of_singleton in Hsp as ->. right. left.
Qed.

(** C9.  Exterior removal never sets a cell: the grid it returns has
    the shape of its input and every cell set in it was set in the
    input.  Hence every voxel of every detected space lies inside the
    array and is not occupied in the voxel grid. *)
Theorem exterior_removal_only_clears
    min_space_volume max_seed_points draws voxel_grid base_voxel_size :
  (∀ empty_space filled,
     remove_external_space max_seed_points draws empty_space = Ok filled →
     shape filled = shape empty_space ∧ cells filled ⊆ cells empty_space)
  ∧ (∀ spaces,
       detect_spaces min_space_volume max_seed_points draws voxel_grid base_voxel_size
       = Ok spaces →
       ∀ sp v, sp ∈ spaces → v ∈ voxel_indices sp →
         in_bounds (shape voxel_grid) v = true ∧ v ∉ cells voxel_grid).
Proof.
  split; [intros ? ?; apply remove_external_space_subset|].
  intros spaces Hrun sp v Hsp Hv. unfold detect_spaces in Hrun.
  apply bind_Ok in Hrun as (filled & Hfilled & [= <-]).
  apply remove_external_space_subset in Hfilled as [_ Hsub].
  apply keep_components_voxels in Hsp as [Hsp|Hsp]; [by apply elem_of_nil in Hsp|].
  apply elem_of_invert. apply Hsub.
  by apply (label_from_subset _ _ _ _ _ Hsp).
Qed.

(** A closed box of 5 x 5 x 5 voxels whose walls are one voxel thick. *)
Definition hollow_box : Grid :=
  mkGrid (5, 5, 5)%Z
         (list_to_set (List.filter (on_boundary (5, 5, 5)%Z) (box (5, 5, 5)%Z))).

Lemma exterior_removal_only_clears_witness :
  ∃ spaces,
    detect_spaces 5 5000 [] hollow_box 1 = Ok spaces
    ∧ map voxel_count spaces = [27%nat]
    ∧ ∀ sp v, sp ∈ spaces → v ∈ voxel_indices sp →
        in_bounds (shape hollow_box) v = true ∧ v ∉ cells hollow_box.
Proof.
  eexists. split; [vm_compute; reflexivity|]. split; [reflexivity|].
  apply (proj2 (exterior_removal_only_clears 5 5000 [] hollow_box 1)).
  vm_compute. reflexivity.
Defined.

(** *** Two runs *)






End SpaceDetectorSpec.

Module BuiltinFacts.
Import Nx PyFacts.

(** *** Sums *)

Lemma fold_Qplus_acc l : ∀ a, (fold_left Qplus l a == a + fold_left Qplus l 0)%Q.
Proof.
  induction l as [|x l IH]; intros a; simpl; [lra|].
  rewrite (IH (a + x)%Q), (IH (0 + x)%Q). lra.
Qed.

Lemma py_sum_nil : py_sum [] = 0%Q.
Proof. done. Qed.

Lemma py_sum_cons x l : (py_sum (x :: l) == x + py_sum l)%Q.
Proof. unfold py_sum. simpl. rewrite fold_Qplus_acc. lra. Qed.

Lemma py_sum_app l l' : (py_sum (l ++ l') == py_sum l + py_sum l')%Q.
Proof.
  induction l as [|x l IH]; simpl.
  - rewrite py_sum_nil. lra.
  - rewrite !py_sum_cons, IH. lra.
Qed.

Lemma py_sum_perm l l' : Permutation l l' → (py_sum l == py_sum l')%Q.
Proof.
  induction 1 as [|x l l' _ IH|x y l|l l' l'' _ IH1 _ IH2].
  - done.
  - by rewrite !py_sum_cons, IH.
  - rewrite !py_sum_cons. lra.
  - by rewrite IH1.
Qed.

Lemma py_sum_scale c l : (py_sum (map (λ x, x / c) l) == py_sum l / c)%Q.
Proof.
  induction l as [|x l IH]; simpl.
  - rewrite py_sum_nil. unfold Qdiv. lra.
  - rewrite !py_sum_cons, IH. unfold Qdiv. lra.
Qed.

Lemma py_sum_pos l : l ≠ [] → (∀ x, x ∈ l → (0 < x)%Q) → (0 < py_sum l)%Q.
Proof.
  induction l as [|x l IH]; intros Hne Hpos; [done|].
  rewrite py_sum_cons. assert (0 < x)%Q by (apply Hpos; left).
  destruct l as [|y l].
  - rewrite py_sum_nil. lra.
  - assert (0 < py_sum (y :: l))%Q; [|lra].
    apply IH; [done|]. intros z Hz. apply Hpos. by right.
Qed.

(** *** Decimal numerals *)

Lemma str_of_nat_inj n m : str_of_nat n = str_of_nat m → n = m.
Proof.
  unfold str_of_nat. intros H.
  assert (∀ k, Nat.of_uint <$> NilZero.uint_of_string
                 (NilZero.string_of_uint (Nat.to_uint k)) = Some k) as Hdec.
  { intros k. pose proof (Unsigned.of_to k) as Hk.
    destruct (Nat.to_uint k) eqn:E;
      try (rewrite NilZero.usu by done; simpl; by rewrite <- Hk).
    rewrite NilZero.usu_nil. simpl. by rewrite <- Hk. }
  pose proof (Hdec n) as Hn. rewrite H, Hdec in Hn. by injection Hn.
Qed.

Lemma append_inj_r p s t : String.append p s = String.append p t → s = t.
Proof. induction p as [|c p IH]; simpl; [done|]. intros [= H]. by apply IH. Qed.

(** *** Dictionaries filled with fresh keys *)

Lemma dict_set_fresh {V} k (v : V) d : k ∉ map fst d → dict_set k v d = d ++ [(k, v)].
Proof.
  induction d as [|[k' v'] d IH]; simpl; [done|].
  intros Hk. apply not_elem_of_cons in Hk as [Hne Hk].
  destruct (String.eqb_spec k k') as [->|_]; [done|]. by rewrite IH.
Qed.

Lemma fold_dict_set_fresh {A V} (key : A → string) (val : A → V) xs : ∀ d,
  NoDup (map fst d ++ map key xs) →
  fold_left (λ d x, dict_set (key x) (val x) d) xs d
  = d ++ map (λ x, (key x, val x)) xs.
Proof.
  induction xs as [|x xs IH]; intros d Hnd; simpl.
  - by rewrite app_nil_r.
  - rewrite dict_set_fresh.
    + rewrite IH.
      * by rewrite <- app_assoc.
      * rewrite map_app. simpl. rewrite <- app_assoc. done.
    + simpl in Hnd. apply NoDup_app in Hnd as (_ & Hdis & _).
      intros Hin. apply (Hdis _ Hin). left.
Qed.

Lemma enumerate_length {A} (xs : list A) : length (enumerate xs) = length xs.
Proof. unfold enumerate. rewrite length_combine, length_seq. lia. Qed.

Lemma enumerate_fst {A} (xs : list A) : map fst (enumerate xs) = seq 0 (length xs).
Proof.
  unfold enumerate. generalize 0%nat.
  induction xs as [|x xs IH]; intros n; simpl; [done|]. by rewrite IH.
Qed.

Lemma enumerate_snd {A} (xs : list A) : map snd (enumerate xs) = xs.
Proof.
  unfold enumerate. generalize 0%nat.
  induction xs as [|x xs IH]; intros n; simpl; [done|]. by rewrite IH.
Qed.

Lemma elem_of_enumerate {A} (xs : list A) i x : (i, x) ∈ enumerate xs → xs !! i = Some x.
Proof.
  unfold enumerate.
  assert (∀ n, (i, x) ∈ combine (seq n (length xs)) xs → n ≤ i ∧ xs !! (i - n) = Some x)
    as H.
  { induction xs as [|y xs IH]; intros n Hin; simpl in Hin.
    - by apply elem_of_nil in Hin.
    - apply elem_of_cons in Hin as [[= -> ->]|Hin].
      + split; [lia|]. by rewrite Nat.sub_diag.
      + destruct (IH _ Hin) as [Hle Hx]. split; [lia|].
        replace (i - n) with (S (i - S n)) by lia. done. }
  intros Hin. destruct (H 0 Hin) as [_ Hx]. by rewrite Nat.sub_0_r in Hx.
Qed.

End BuiltinFacts.

Module SortingFacts.
Import Nx PyFacts BuiltinFacts.

Lemma insert_desc_perm {A} (key : A → Q) x l : Permutation (insert_desc key x l) (x :: l).
Proof.
  induction l as [|y l IH]; simpl; [done|].
  destruct (Qltb (key x) (key y)); [|done].
  rewrite IH. apply perm_swap.
Qed.

Lemma sorted_desc_perm {A} (key : A → Q) l : Permutation (sorted_desc key l) l.
Proof.
  induction l as [|x l IH]; simpl; [done|].
  rewrite insert_desc_perm. by constructor.
Qed.

Lemma insert_desc_sorted {A} (key : A → Q) x l :
  StronglySorted (λ a b, (key b <= key a)%Q) l →
  StronglySorted (λ a b, (key b <= key a)%Q) (insert_desc key x l).
Proof.
  induction l as [|y l IH]; intros Hs; simpl.
  - repeat constructor.
  - apply StronglySorted_inv in Hs as [Hs Hy].
    destruct (Qltb (key x) (key y)) eqn:E.
    + apply Qltb_lt in E. constructor; [by apply IH|].
      eapply Permutation_Forall; [symmetry; apply insert_desc_perm|].
      constructor; [lra | done].
    + apply Qltb_ge in E. constructor; [by constructor|].
      constructor; [done|].
      eapply Forall_impl; [exact Hy|]. intros z Hz. simpl in Hz. lra.
Qed.

Lemma sorted_desc_sorted {A} (key : A → Q) l :
  StronglySorted (λ a b, (key b <= key a)%Q) (sorted_desc key l).
Proof.
  induction l as [|x l IH]; simpl; [constructor | by apply insert_desc_sorted].
Qed.

(** In a sorted list every entry of a prefix dominates every entry of
    the rest. *)
Lemma sorted_take_drop {A} (R : A → A → Prop) l k x y :
  StronglySorted R l → x ∈ take k l → y ∈ drop k l → R x y.
Proof.
  revert k. induction l as [|a l IH]; intros k Hs Hx Hy.
  - rewrite take_nil in Hx. by apply elem_of_nil in Hx.
  - destruct k as [|k]; [by apply elem_of_nil in Hx|].
    apply StronglySorted_inv in Hs as [Hs Ha]. simpl in Hx, Hy.
    apply elem_of_cons in Hx as [->|Hx].
    + apply (proj1 (Forall_forall _ _) Ha). by apply (subseteq_drop k).
    + by apply (IH k).
Qed.

Lemma sorted_take {A} (R : A → A → Prop) l k :
  StronglySorted R l → StronglySorted R (take k l).
Proof.
  revert k. induction l as [|a l IH]; intros k Hs; [by rewrite take_nil|].
  destruct k as [|k]; [constructor|].
  apply StronglySorted_inv in Hs as [Hs Ha]. simpl. constructor; [by apply IH|].
  apply Forall_forall. intros x Hx.
  apply (proj1 (Forall_forall _ _) Ha). by apply (subseteq_take k).
Qed.

Lemma fold_dict_set_filter {A V} (skip : A → bool) (key : A → string) (val : A → V) xs :
  ∀ d,
  NoDup (map fst d ++ map key xs) →
  fold_left (λ d x, if skip x then d else dict_set (key x) (val x) d) xs d
  = d ++ map (λ x, (key x, val x)) (List.filter (λ x, negb (skip x)) xs).
Proof.
  induction xs as [|x xs IH]; intros d Hnd; simpl.
  - by rewrite app_nil_r.
  - assert (NoDup (map fst d ++ map key xs)) as Hnd'.
    { apply NoDup_app in Hnd as (H1 & H2 & H3). apply NoDup_cons in H3 as [_ H3].
      apply NoDup_app. split; [done|]. split; [|done].
      intros y Hy Hin. apply (H2 y Hy). by right. }
    destruct (skip x); cbn [negb].
    + by apply IH.
    + rewrite dict_set_fresh.
      * rewrite IH.
        -- by rewrite <- app_assoc.
        -- rewrite map_app. simpl. rewrite <- app_assoc. done.
      * apply NoDup_app in Hnd as (_ & Hdis & _).
        intros Hin. apply (Hdis _ Hin). left.
Qed.

End SortingFacts.

Module AchReports.
Import Nx AchCalculator PyFacts BuiltinFacts.

(** The reciprocal resistance of a path, the weight it gets in the
    shares. *)
Definition conductance (p : VentPath) : Q := (1 / (weight p + 0.1))%Q.

Lemma conductance_pos p : (0 <= weight p)%Q → (0 < conductance p)%Q.
Proof.
  intros H. unfold conductance, Qdiv. rewrite Qmult_1_l.
  apply Qinv_lt_0_compat. lra.
Qed.

Lemma py_div_ok a b : ¬ (b == 0)%Q → py_div a b = Ok (a / b)%Q.
Proof.
  intros H. unfold py_div. destruct (Qeq_bool b 0) eqn:E; [|done].
  by apply Qeq_bool_iff in E.
Qed.

Lemma path_weights_ok paths : ∀ ws,
  (∀ p, p ∈ paths → (0 <= weight p)%Q) →
  for_each (λ ws path, w ← py_div 1 (weight path + 0.1)%Q; Ok (ws ++ [w])) paths ws
  = Ok (ws ++ map conductance paths).
Proof.
  induction paths as [|p paths IH]; intros ws Hpos.
  - simpl. by rewrite app_nil_r.
  - cbn [for_each]. rewrite py_div_ok.
    + cbn [mbind Result_bind]. rewrite IH.
      * cbn [map]. by rewrite <- app_assoc.
      * intros q Hq. apply Hpos. by right.
    + assert (0 <= weight p)%Q by (apply Hpos; left). lra.
Qed.

Definition path_key (i : nat) : string := String.append "path_" (str_of_nat (i + 1)).

Lemma path_key_inj i j : path_key i = path_key j → i = j.
Proof.
  unfold path_key. intros H. apply append_inj_r, str_of_nat_inj in H. lia.
Qed.

(** The dictionary returned for a space with paths of non-negative
    weight: entry [i] is the conductance of path [i] over the total. *)
Lemma calculate_ventilation_contributions_eq self space_id paths :
  ventilation_paths self !! space_id = Some paths →
  paths ≠ [] →
  (∀ p, p ∈ paths → (0 <= weight p)%Q) →
  calculate_ventilation_contributions self space_id
  = Ok (map (λ iw, (path_key (fst iw),
                    (snd iw / py_sum (map conductance paths))%Q))
            (enumerate (map conductance paths))).
Proof.
  intros Hget Hne Hpos. unfold calculate_ventilation_contributions.
  rewrite Hget. destruct paths as [|p paths]; [done|].
  cbn [default from_option id]. unfold path_weights. rewrite path_weights_ok by done. cbn [app mbind Result_bind].
  f_equal.
  assert (0 < py_sum (map conductance (p :: paths)))%Q as Htot.
  { apply py_sum_pos; [done|]. intros x Hx.
    apply list_elem_of_fmap in Hx as (q & -> & Hq). by apply conductance_pos, Hpos. }
  apply Qltb_lt in Htot. rewrite Htot.
  rewrite (fold_dict_set_fresh (λ iw, path_key (fst iw))
             (λ iw, (snd iw / py_sum (map conductance (p :: paths)))%Q)); [done|].
  cbn [map app]. rewrite <- (map_map fst path_key), enumerate_fst.
  apply NoDup_fmap_2; [intros i j; apply path_key_inj | apply NoDup_seq].
Qed.

(** X1.  The shares of the paths of a space add up to one, each is positive,
    and there is one per path, keyed [path_1], [path_2], ... *)
Theorem ventilation_contributions_sum_to_one self space_id paths :
  ventilation_paths self !! space_id = Some paths →
  paths ≠ [] →
  (∀ p, p ∈ paths → (0 <= weight p)%Q) →
  ∃ contributions,
    calculate_ventilation_contributions self space_id = Ok contributions
    ∧ map fst contributions = map path_key (seq 0 (length paths))
    ∧ (∀ c, c ∈ map snd contributions → (0 < c)%Q)
    ∧ (py_sum (map snd contributions) == 1)%Q.
Proof.
  intros Hget Hne Hpos. eexists. split.
  { by apply calculate_ventilation_contributions_eq. }
  assert (0 < py_sum (map conductance paths))%Q as Htot.
  { apply py_sum_pos; [by destruct paths|]. intros x Hx.
    apply list_elem_of_fmap in Hx as (q & -> & Hq). by apply conductance_pos, Hpos. }
  split; [|split].
  - rewrite map_map. cbn [fst].
    rewrite <- (map_map fst path_key), enumerate_fst. by rewrite length_map.
  - intros c Hc. rewrite map_map in Hc. cbn [snd] in Hc.
    apply list_elem_of_fmap in Hc as ([i w] & -> & Hiw). cbn [snd].
    assert (0 < w)%Q.
    { assert (w ∈ map snd (enumerate (map conductance paths))) as Hw.
      { apply list_elem_of_fmap. by exists (i, w). }
      rewrite enumerate_snd in Hw.
      apply list_elem_of_fmap in Hw as (q & -> & Hq). by apply conductance_pos, Hpos. }
    apply Qlt_shift_div_l; lra.
  - rewrite map_map. cbn [snd].
    rewrite <- (map_map snd (λ w, (w / py_sum (map conductance paths))%Q)).
    rewrite enumerate_snd, py_sum_scale. field. lra.
Qed.

Definition two_routes : list VentPath :=
  [ mkVentPath ["space_001"; "space_exterior"] ["opening_003"] [] 0.4%Q 1 1%Q 2%Q
               "space_exterior";
    mkVentPath ["space_001"; "space_002"; "space_exterior"]
               ["opening_001"; "opening_004"] [] 0.9%Q 2 0.6%Q 2%Q
               "space_exterior" ].

Definition two_route_calculator : Calculator :=
  mkCalculator ∅ {[ "space_001" := two_routes ]}.

Lemma two_routes_weights p : p ∈ two_routes → (0 <= weight p)%Q.
Proof.
  intros Hp. repeat (apply elem_of_cons in Hp as [->|Hp]; [by vm_compute|]).
  by apply elem_of_nil in Hp.
Qed.

Lemma ventilation_contributions_sum_to_one_witness :
  ∃ contributions,
    calculate_ventilation_contributions two_route_calculator "space_001" = Ok contributions
    ∧ map fst contributions = ["path_1"; "path_2"]
    ∧ (∀ c, c ∈ map snd contributions → (0 < c)%Q)
    ∧ (py_sum (map snd contributions) == 1)%Q.
Proof.
  exact (ventilation_contributions_sum_to_one two_route_calculator "space_001" two_routes
           eq_refl (λ H, eq_ind two_routes (λ l, match l with [] => False | _ => True end)
                                I [] H)
           two_routes_weights).
Defined.

(** X2.  A path of no greater resistance gets no smaller a share. *)
Theorem ventilation_contributions_monotone self space_id paths contributions i j p q ci cj :
  ventilation_paths self !! space_id = Some paths →
  (∀ p, p ∈ paths → (0 <= weight p)%Q) →
  calculate_ventilation_contributions self space_id = Ok contributions →
  paths !! i = Some p → paths !! j = Some q →
  assoc (path_key i) contributions = Some ci →
  assoc (path_key j) contributions = Some cj →
  (weight p <= weight q)%Q → (cj <= ci)%Q.
Proof.
  intros Hget Hpos Hrun Hi Hj Hci Hcj Hpq.
  assert (paths ≠ []) as Hne by (intros ->; done).
  rewrite (calculate_ventilation_contributions_eq _ _ _ Hget Hne Hpos) in Hrun.
  injection Hrun as <-.
  assert (0 < py_sum (map conductance paths))%Q as Htot.
  { apply py_sum_pos; [by destruct paths|]. intros x Hx.
    apply list_elem_of_fmap in Hx as (r & -> & Hr). by apply conductance_pos, Hpos. }
  assert (∀ k r c, paths !! k = Some r →
            assoc (path_key k)
              (map (λ iw, (path_key (fst iw), (snd iw / py_sum (map conductance paths))%Q))
                   (enumerate (map conductance paths))) = Some c →
            c = (conductance r / py_sum (map conductance paths))%Q) as Hval.
  { intros k r c Hk Hc. apply NxFacts.assoc_Some_elem in Hc.
    apply list_elem_of_fmap in Hc as ([k' w] & Heq & Hin).
    pose proof (f_equal fst Heq) as Hkk. pose proof (f_equal snd Heq) as Hcc.
    cbn [fst snd] in Hkk, Hcc. subst c. apply path_key_inj in Hkk as <-. f_equal.
    apply elem_of_enumerate in Hin.
    rewrite list_lookup_fmap, Hk in Hin. by injection Hin. }
  rewrite (Hval _ _ _ Hi Hci), (Hval _ _ _ Hj Hcj).
  assert (0 <= weight p)%Q by (apply Hpos; by eapply list_elem_of_lookup_2).
  assert (0 <= weight q)%Q by (apply Hpos; by eapply list_elem_of_lookup_2).
  assert (conductance q <= conductance p)%Q.
  { unfold conductance, Qdiv. rewrite !Qmult_1_l.
    apply Qle_shift_inv_l; [lra|].
    rewrite Qmult_comm. apply Qle_shift_div_r; lra. }
  unfold Qdiv. apply Qmult_le_compat_r; [done|].
  apply Qlt_le_weak, Qinv_lt_0_compat, Htot.
Qed.

Lemma ventilation_contributions_monotone_witness :
  ∃ contributions ci cj,
    calculate_ventilation_contributions two_route_calculator "space_001" = Ok contributions
    ∧ assoc "path_1" contributions = Some ci
    ∧ assoc "path_2" contributions = Some cj
    ∧ (cj <= ci)%Q.
Proof.
  eexists _, _, _. split; [vm_compute; reflexivity|].
  split; [reflexivity|]. split; [reflexivity|].
  eapply (ventilation_contributions_monotone two_route_calculator "space_001"
            two_routes _ 0 1).
  - reflexivity.
  - apply two_routes_weights.
  - vm_compute. reflexivity.
  - reflexivity.
  - reflexivity.
  - reflexivity.
  - reflexivity.
  - by vm_compute.
Defined.

End AchReports.

Module AchSmoothing.
Import Nx AchCalculator PyFacts BuiltinFacts.

(** *** Categories *)

Definition category_rank (category : string) : nat :=
  if String.eqb category "high" then 2
  else if String.eqb category "medium" then 1 else 0.

(** X3.  A higher rate never falls into a lower category, whatever the
    configured ranges are. *)
Theorem get_ach_category_monotone cfg a b :
  (a <= b)%Q →
  category_rank (get_ach_category cfg a) ≤ category_rank (get_ach_category cfg b).
Proof.
  intros Hab. unfold get_ach_category.
  destruct (Qle_bool (snd (medium_ach_range cfg)) a) eqn:Ea.
  - apply Qle_bool_iff in Ea.
    assert (Qle_bool (snd (medium_ach_range cfg)) b = true) as ->; [|done].
    apply Qle_bool_iff. by apply Qle_trans with a.
  - destruct (Qle_bool (snd (low_ach_range cfg)) a) eqn:Ea'.
    + apply Qle_bool_iff in Ea'.
      destruct (Qle_bool (snd (medium_ach_range cfg)) b); [vm_compute; lia|].
      assert (Qle_bool (snd (low_ach_range cfg)) b = true) as ->; [|done].
      apply Qle_bool_iff. by apply Qle_trans with a.
    + change (category_rank "low") with 0%nat. lia.
Qed.

Lemma get_ach_category_monotone_witness :
  category_rank (get_ach_category default_config 4.5%Q)
  ≤ category_rank (get_ach_category default_config 9%Q).
Proof. apply get_ach_category_monotone. by vm_compute. Defined.

(** *** Smoothing keeps the total *)

(** The sum of the stored rates. *)
Definition total_rate (rates : gmap string Q) : Q :=
  py_sum (map snd (map_to_list rates)).

Lemma total_rate_insert rates k v :
  (total_rate (<[k := v]> rates) == total_rate rates - default 0 (rates !! k) + v)%Q.
Proof.
  unfold total_rate. destruct (rates !! k) as [old|] eqn:E; cbn [default from_option id].
  - rewrite <- (insert_delete_eq rates k v).
    rewrite (py_sum_perm _ _ (Permutation_map snd
               (map_to_list_insert (delete k rates) k v (lookup_delete_eq rates k)))).
    rewrite <- (py_sum_perm _ _ (Permutation_map snd
               (map_to_list_delete rates k old E))).
    cbn [map snd]. rewrite !py_sum_cons. lra.
  - rewrite (py_sum_perm _ _ (Permutation_map snd
               (map_to_list_insert rates k v E))).
    cbn [map snd]. rewrite py_sum_cons. lra.
Qed.

Lemma smooth_edge_total rates e : (total_rate (smooth_edge rates e) == total_rate rates)%Q.
Proof.
  unfold smooth_edge.
  destruct (is_exterior (fst e) || is_exterior (snd e)); [done|].
  set (a1 := default 0%Q (rates !! fst e)). set (a2 := default 0%Q (rates !! snd e)).
  destruct (Qltb 5 (Qabs (a1 - a2))) eqn:Egap; [|done].
  assert (fst e ≠ snd e) as Hne.
  { intros Heq. apply Qltb_lt in Egap. subst a1 a2. rewrite Heq in Egap.
    assert (Qabs (default 0 (rates !! snd e) - default 0 (rates !! snd e)) == 0)%Q as H0.
    { rewrite <- Qabs_wd with (x := 0%Q); [reflexivity | lra]. }
    rewrite H0 in Egap. lra. }
  destruct (Qltb a2 a1).
  - rewrite !total_rate_insert, lookup_insert_ne by done.
    fold a1 a2. unfold Qdiv. change (/ 2)%Q with (1 # 2)%Q. lra.
  - rewrite !total_rate_insert, lookup_insert_ne by done.
    fold a1 a2. unfold Qdiv. change (/ 2)%Q with (1 # 2)%Q. lra.
Qed.

(** X4.  Smoothing moves the two rates of an edge by opposite amounts: the
    sum of all stored rates is the same before and after, on any
    graph. *)
Theorem validate_ach_rates_total g rates :
  (total_rate (validate_ach_rates g rates) == total_rate rates)%Q.
Proof.
  unfold validate_ach_rates. generalize (edges g). intros es. revert rates.
  induction es as [|e es IH]; intros rates; simpl; [done|].
  by rewrite IH, smooth_edge_total.
Qed.

End AchSmoothing.

Module AchErrors.
Import Nx AchCalculator PyFacts BuiltinFacts NxFacts.

(** *** When the calculation returns and when it raises *)










End AchErrors.

Module AchPrimary.
Import Nx AchCalculator PyFacts BuiltinFacts NxFacts AchCalculatorSpec.
Import SpaceDataGenerator.

(** What the calculator stores for a space is what the path search
    returned for it. *)
Lemma rate_spaces_paths cfg fpow g exts spaces : ∀ self0 self,
  for_each (rate_space cfg fpow g exts) spaces self0 = Ok self →
  (∀ k, k ∉ map sp_id spaces →
        AchCalculator.ventilation_paths self !! k = AchCalculator.ventilation_paths self0 !! k)
  ∧ ∀ s, s ∈ spaces →
      ∃ paths, AchCalculator.ventilation_paths self !! sp_id s = Some paths
               ∧ find_ventilation_paths cfg (sp_id s) g exts = Ok paths.
Proof.
  induction spaces as [|s spaces IH]; intros self0 self Hrun.
  - injection Hrun as <-. split; [done|]. intros s Hs. by apply elem_of_nil in Hs.
  - cbn [for_each] in Hrun. apply bind_Ok in Hrun as (self1 & Hstep & Hrun).
    unfold rate_space in Hstep. apply bind_Ok in Hstep as (paths & Hpaths & [= <-]).
    destruct (IH _ _ Hrun) as [Hframe Hall]. cbn [AchCalculator.ventilation_paths] in *.
    split.
    + intros k Hk. cbn [map] in Hk. apply not_elem_of_cons in Hk as [Hk1 Hk2].
      rewrite (Hframe k Hk2). by rewrite lookup_insert_ne.
    + intros s' Hs'. apply elem_of_cons in Hs' as [->|Hs']; [|by apply Hall].
      destruct (decide (sp_id s ∈ map sp_id spaces)) as [Hin|Hout].
      * apply list_elem_of_fmap in Hin as (s2 & Heq & Hin). rewrite Heq. by apply Hall.
      * exists paths. split; [|done]. rewrite (Hframe _ Hout). apply lookup_insert_eq.
Qed.

(** X7.  The primary path the result record shows for a space is a lightest
    one among the paths the calculator retained for it, and the path
    count is the number of retained paths. *)
Theorem primary_path_is_lightest cfg fpow spaces g exterior_nodes self s primary count :
  calculate_ach_rates cfg fpow spaces g exterior_nodes = Ok self →
  s ∈ spaces →
  ps_ventilationInfo
    (process_space (ach_rates self) (AchCalculator.ventilation_paths self) s)
  = Some (primary, count) →
  ∃ paths p,
    AchCalculator.ventilation_paths self !! sp_id s = Some paths
    ∧ count = length paths
    ∧ p ∈ paths
    ∧ pp_route primary = route p ∧ pp_via primary = via p
    ∧ pp_length primary = path_length p
    ∧ ∀ q, q ∈ paths → (weight p <= weight q)%Q.
Proof.
  intros Hrun Hs Hinfo. unfold calculate_ach_rates in Hrun.
  apply bind_Ok in Hrun as (self1 & Hloop & [= <-]).
  cbn [AchCalculator.ventilation_paths ach_rates] in *.
  destruct (rate_spaces_paths _ _ _ _ _ _ _ Hloop) as [_ Hall].
  destruct (Hall s Hs) as (paths & Hstored & Hfound).
  unfold process_space in Hinfo. cbn [ps_ventilationInfo] in Hinfo.
  rewrite Hstored in Hinfo. cbn [default from_option id] in Hinfo.
  destruct paths as [|p rest]; [done|]. injection Hinfo as <- <-.
  exists (p :: rest), p. split; [done|]. split; [done|]. split; [left|].
  split; [done|]. split; [done|]. split; [done|].
  unfold find_ventilation_paths in Hfound.
  apply bind_Ok in Hfound as (found & _ & [= Hsorted]).
  pose proof (sort_by_weight_sorted found) as Hs'. rewrite Hsorted in Hs'.
  apply StronglySorted_inv in Hs' as [_ Hmin].
  intros q Hq. apply elem_of_cons in Hq as [->|Hq]; [apply Qle_refl|].
  by apply (proj1 (Forall_forall _ _) Hmin).
Qed.

End AchPrimary.

Module TopologyEdges.
Import Nx TopologyBuilder PyFacts BuiltinFacts NxFacts TopologyBuilderSpec.

(** *** Edge attributes of the built graph *)

Lemma get_edge_data_add_edge g a b attr u v :
  get_edge_data (add_edge g a b attr) u v
  = if (String.eqb a u && String.eqb b v) || (String.eqb b u && String.eqb a v)
    then Some (update_attrs (default no_attrs (get_edge_data g a b)) attr)
    else get_edge_data g u v.
Proof.
  unfold add_edge.
  rewrite !get_edge_data_set_half_edge, !get_edge_data_add_node.
  destruct (get_edge_data g a b); cbn [default from_option id];
    destruct (String.eqb b u && String.eqb a v), (String.eqb a u && String.eqb b v);
    done.
Qed.

(** The attributes the builder puts on an edge: a non-empty list of
    openings, their number, one type per opening, a positive weight. *)
Definition edge_consistent (d : EdgeData) : Prop :=
  ∃ os ts w,
    e_openings d = Some os ∧ os ≠ []
    ∧ e_count d = Some (length os)
    ∧ e_opening_types d = Some ts ∧ length ts = length os
    ∧ e_weight d = Some w ∧ (0 < w)%Q.

(** Every edge carries consistent attributes, the same from both ends. *)
Definition edges_consistent (g : Graph) : Prop :=
  ∀ u v d, get_edge_data g u v = Some d →
    edge_consistent d ∧ get_edge_data g v u = Some d.

Lemma edges_consistent_add_node g n : edges_consistent g → edges_consistent (add_node g n).
Proof. intros H u v d. rewrite !get_edge_data_add_node. apply H. Qed.

Lemma edges_consistent_add_edge g a b attr :
  edges_consistent g →
  edge_consistent (update_attrs (default no_attrs (get_edge_data g a b)) attr) →
  edges_consistent (add_edge g a b attr).
Proof.
  intros Hg Hd u v d. rewrite !get_edge_data_add_edge.
  destruct (String.eqb a u), (String.eqb b v), (String.eqb b u), (String.eqb a v);
    cbn [andb orb]; try (intros [= <-]; by split); apply Hg.
Qed.

Lemma opening_weight_pos o : (0 < opening_weight o)%Q.
Proof.
  unfold opening_weight. destruct (op_area o) as [area|]; [|done].
  destruct (Qltb 0 area) eqn:E; [|done].
  apply Qltb_lt in E. unfold Qdiv. rewrite Qmult_1_l. by apply Qinv_lt_0_compat.
Qed.

Lemma py_min_pos a b : (0 < a)%Q → (0 < b)%Q → (0 < py_min a b)%Q.
Proof. intros. unfold py_min. by destruct (Qltb b a). Qed.

Lemma edges_consistent_add_opening g o :
  edges_consistent g → edges_consistent (add_opening g o).
Proof.
  intros Hg. unfold add_opening.
  destruct (if (length (get_or (op_connects o) []) =? 1)%nat
            then get_or (op_connects o) [] ++ [exterior_id]
            else get_or (op_connects o) []) as [|a [|b [|? ?]]]; try done.
  destruct (negb (has_node g a && has_node g b)); [done|].
  destruct (get_edge_data g a b) as [old|] eqn:Hold.
  - destruct (Hg _ _ _ Hold) as [(os & ts & w & Hos & Hne & Hcount & Hts & Hlen & Hw & Hpos) _].
    apply edges_consistent_add_edge; [done|].
    rewrite Hold. cbn [default from_option id]. rewrite Hos, Hts, Hw. cbn [get_or].
    exists (os ++ [op_id o]), (ts ++ [op_type o]), (py_min w (opening_weight o)).
    cbn. split; [done|]. split; [by destruct os|]. split; [done|]. split; [done|].
    split; [rewrite !length_app; simpl; lia|]. split; [done|].
    apply py_min_pos; [done | apply opening_weight_pos].
  - apply edges_consistent_add_edge; [done|].
    rewrite Hold. cbn [default from_option id].
    exists [op_id o], [op_type o], (opening_weight o).
    cbn. split; [done|]. split; [done|]. split; [done|]. split; [done|].
    split; [done|]. split; [done | apply opening_weight_pos].
Qed.

Lemma edges_consistent_openings openings : ∀ g,
  edges_consistent g → edges_consistent (fold_left add_opening openings g).
Proof.
  induction openings as [|o openings IH]; intros g Hg; simpl; [done|].
  by apply IH, edges_consistent_add_opening.
Qed.

Lemma edges_consistent_repair self ec g c :
  edges_consistent g → edges_consistent (repair_component self ec g c).
Proof.
  intros Hg. unfold repair_component.
  destruct (same_component c ec); [done|].
  destruct (largest_space _ _) as [ls|]; [|done].
  destruct (truthy ls); [|done].
  destruct (exterior_nodes self) as [|ext ?]; [done|].
  destruct (truthy ext); [|done].
  apply edges_consistent_add_edge; [done|].
  exists ["repair_opening"], ["repair"], 2%Q.
  destruct (get_edge_data g ls ext); cbn; done.
Qed.

Lemma edges_consistent_validate self :
  edges_consistent (space_graph self) →
  edges_consistent (space_graph (validate_topology self)).
Proof.
  intros Hg. unfold validate_topology.
  destruct (1 <? _)%nat; [|done].
  destruct (List.find _ _) as [ec|]; [|done]. cbn [space_graph].
  generalize (connected_components (space_graph self)).
  revert Hg. generalize (space_graph self).
  intros g Hg comps. revert g Hg.
  induction comps as [|c comps IH]; intros g Hg; simpl; [done|].
  by apply IH, edges_consistent_repair.
Qed.

Lemma built_edges_consistent betweenness closeness self spaces openings r self' :
  build_topology betweenness closeness self spaces openings = Ok (r, self') →
  edges_consistent (r_space_graph r).
Proof.
  intros H. unfold build_topology in H.
  apply bind_Ok in H as (scores & _ & H).
  apply bind_Ok in H as (isolated & _ & [= <- <-]).
  cbn [r_space_graph]. apply edges_consistent_validate.
  cbn [space_graph]. apply edges_consistent_openings, edges_consistent_add_node.
  assert (edges_consistent empty_graph) as Hempty by (intros ? ? ? [=]).
  clear -Hempty. revert Hempty. generalize empty_graph.
  induction spaces as [|s spaces IH]; intros g Hg; cbn [fold_left]; [done|].
  by apply IH, edges_consistent_add_node.
Qed.

(** X8.  In the graph [build_topology] returns, every edge has a non-empty
    list of openings, a count equal to the length of that list, one
    type per opening and a positive weight, and reads the same from
    both of its ends. *)
Theorem build_topology_edges_consistent betweenness closeness self spaces openings r self' :
  build_topology betweenness closeness self spaces openings = Ok (r, self') →
  ∀ u v d, get_edge_data (r_space_graph r) u v = Some d →
    get_edge_data (r_space_graph r) v u = Some d
    ∧ ∃ os ts w,
        e_openings d = Some os ∧ os ≠ []
        ∧ e_count d = Some (length os)
        ∧ e_opening_types d = Some ts ∧ length ts = length os
        ∧ e_weight d = Some w ∧ (0 < w)%Q.
Proof.
  intros H u v d Hd.
  destruct (built_edges_consistent _ _ _ _ _ _ _ H u v d Hd) as [Hc Hsym].
  split; [exact Hsym | exact Hc].
Qed.

End TopologyEdges.

Module TopologyOpenings.
Import Nx TopologyBuilder PyFacts BuiltinFacts NxFacts TopologyBuilderSpec TopologyEdges.

(** *** Components are the classes of the nodes *)

Lemma components_from_source g : ∀ vs seen c,
  c ∈ components_from g vs seen → ∃ v, v ∈ vs ∧ (v ∉ seen) ∧ c = plain_bfs g v.
Proof.
  induction vs as [|v0 vs IH]; intros seen c Hc; simpl in Hc;
    [by apply elem_of_nil in Hc|].
  destruct (mem v0 seen) eqn:Hmem.
  - destruct (IH _ _ Hc) as (v & Hv & Hs & ->). exists v. split; [by right | done].
  - apply mem_false in Hmem. apply elem_of_cons in Hc as [->|Hc].
    + exists v0. split; [left | done].
    + destruct (IH _ _ Hc) as (v & Hv & Hs & ->). exists v. split; [by right|].
      split; [|done]. intros Hin. apply Hs. apply elem_of_app. by left.
Qed.

(** A component holds every node joined to one of its nodes. *)
Lemma component_closed g c x y :
  wf_graph g → c ∈ connected_components g → x ∈ c → reachable g x y → y ∈ c.
Proof.
  intros Hwf Hc Hx Hxy.
  destruct (components_from_source _ _ _ _ Hc) as (v & Hv & _ & ->).
  apply plain_bfs_reachable; [done | done |].
  etrans; [|exact Hxy]. by apply plain_bfs_sound.
Qed.

(** Two components with a common node are the same component. *)
Lemma components_from_disjoint g : ∀ vs seen c1 c2 x,
  wf_graph g → (∀ v, v ∈ vs → v ∈ nodes g) →
  c1 ∈ components_from g vs seen → c2 ∈ components_from g vs seen →
  x ∈ c1 → x ∈ c2 → c1 = c2.
Proof.
  induction vs as [|v0 vs IH]; intros seen c1 c2 x Hwf Hvs H1 H2 Hx1 Hx2; simpl in H1, H2;
    [by apply elem_of_nil in H1|].
  assert (Hvs' : ∀ v, v ∈ vs → v ∈ nodes g) by (intros v Hv; apply Hvs; by right).
  destruct (mem v0 seen); [by apply (IH seen c1 c2 x)|].
  assert (Hv0 : v0 ∈ nodes g) by (apply Hvs; left).
  assert (Hclash : ∀ c, c ∈ components_from g vs (seen ++ plain_bfs g v0) →
                     x ∈ c → x ∈ plain_bfs g v0 → False).
  { intros c Hc Hxc Hx0.
    destruct (components_from_source _ _ _ _ Hc) as (v & Hv & Hs & ->).
    apply Hs, elem_of_app. right.
    apply plain_bfs_reachable; [done | done |].
    etrans; [by apply plain_bfs_sound|].
    apply (reachable_sym g Hwf). by apply plain_bfs_sound. }
  apply elem_of_cons in H1 as [->|H1]; apply elem_of_cons in H2 as [->|H2].
  - done.
  - destruct (Hclash c2 H2 Hx2 Hx1).
  - destruct (Hclash c1 H1 Hx1 Hx2).
  - by apply (IH (seen ++ plain_bfs g v0) c1 c2 x).
Qed.

Lemma same_component_refl c : same_component c c = true.
Proof.
  unfold same_component.
  assert (forallb (λ n, mem n c) c = true) as ->; [|done].
  apply forallb_forall. intros x Hx. apply mem_true. by apply list_elem_of_In.
Qed.

(** *** The repair pass leaves the edges of the openings alone *)

Lemma repair_component_keeps self ec g0 g c ext :
  wf_graph g0 →
  exterior_nodes self = [ext] →
  c ∈ connected_components g0 → ec ∈ connected_components g0 → ext ∈ ec →
  (∀ u v d, get_edge_data g0 u v = Some d → get_edge_data g u v = Some d) →
  ∀ u v d, get_edge_data g0 u v = Some d →
           get_edge_data (repair_component self ec g c) u v = Some d.
Proof.
  intros Hwf Hexts Hc Hec Hext Hkeep u v d Hd. unfold repair_component.
  destruct (same_component c ec) eqn:Hsame; [by apply Hkeep|].
  destruct (largest_space _ _) as [ls|] eqn:Hls; [|by apply Hkeep].
  destruct (truthy ls); [|by apply Hkeep].
  rewrite Hexts. destruct (truthy ext); [|by apply Hkeep].
  assert (ls ∈ c) as Hlsc.
  { unfold largest_space in Hls. by destruct (largest_space_elem _ _ _ _ Hls). }
  assert (has_edge g0 ls ext = false ∧ has_edge g0 ext ls = false) as [Hno1 Hno2].
  { assert (has_edge g0 ls ext = true → False) as Hno.
    { intros He.
      assert (ext ∈ c) as Hextc.
      { apply (component_closed g0 c ls); [done | done | done |].
        by apply rtc_once. }
      assert (c = ec) as -> by (by apply (components_from_disjoint g0 (nodes g0) [] c ec ext)).
      by rewrite same_component_refl in Hsame. }
    split.
    - by destruct (has_edge g0 ls ext).
    - destruct (has_edge g0 ext ls) eqn:E; [|done].
      destruct Hno. by apply (wf_sym g0 Hwf). }
  rewrite get_edge_data_add_edge.
  destruct (String.eqb ls u && String.eqb ext v) eqn:E1.
  { apply andb_true_iff in E1 as [->%String.eqb_eq ->%String.eqb_eq].
    unfold has_edge in Hno1. by rewrite Hd in Hno1. }
  destruct (String.eqb ext u && String.eqb ls v) eqn:E2.
  { apply andb_true_iff in E2 as [->%String.eqb_eq ->%String.eqb_eq].
    unfold has_edge in Hno2. by rewrite Hd in Hno2. }
  by apply Hkeep.
Qed.

Lemma validate_topology_keeps self ext :
  wf_graph (space_graph self) →
  exterior_nodes self = [ext] →
  ∀ u v d, get_edge_data (space_graph self) u v = Some d →
           get_edge_data (space_graph (validate_topology self)) u v = Some d.
Proof.
  intros Hwf Hexts u v d Hd. unfold validate_topology.
  destruct (1 <? _)%nat; [|done].
  destruct (List.find _ _) as [ec|] eqn:Hfind; [|done]. cbn [space_graph].
  apply find_some in Hfind as [Hec Hhas]. apply list_elem_of_In in Hec.
  apply existsb_exists in Hhas as (e & He & Hmem). apply list_elem_of_In in He.
  rewrite Hexts in Hmem. apply mem_true, list_elem_of_singleton in Hmem. subst e.
  assert (∀ comps g,
            (∀ c, c ∈ comps → c ∈ connected_components (space_graph self)) →
            (∀ u v d, get_edge_data (space_graph self) u v = Some d →
                      get_edge_data g u v = Some d) →
            ∀ u v d, get_edge_data (space_graph self) u v = Some d →
              get_edge_data (fold_left (repair_component self ec) comps g) u v = Some d)
    as Hfold.
  { induction comps as [|c comps IH]; intros g Hsub Hkeep; [done|].
    cbn [fold_left]. apply IH.
    - intros c' Hc'. apply Hsub. by right.
    - apply (repair_component_keeps self ec _ g c ext); try done. apply Hsub. left. }
  by apply Hfold.
Qed.

(** *** Every opening is on its edge *)

(** The pair of spaces an opening joins: as given, or with the exterior
    for an opening that names one space (lines 91-99). *)
Definition joins (o : Opening) (a b : string) : Prop :=
  op_connects o = Some [a; b] ∨ (op_connects o = Some [a] ∧ b = exterior_id).

(** The edge between the two spaces lists the opening and is no heavier
    than the opening alone would make it. *)
Definition recorded (g : Graph) (o : Opening) (a b : string) : Prop :=
  ∃ d os w,
    get_edge_data g a b = Some d
    ∧ e_openings d = Some os ∧ op_id o ∈ os
    ∧ e_weight d = Some w ∧ (w <= opening_weight o)%Q.

Lemma add_opening_joins g o a b :
  joins o a b → a ∈ nodes g → b ∈ nodes g →
  add_opening g o
  = match get_edge_data g a b with
    | Some edge_data =>
        let openings_list := get_or (e_openings edge_data) [] ++ [op_id o] in
        add_edge g a b
          (mkEdgeData (Some openings_list) (Some (length openings_list))
             (Some (py_min (get_or (e_weight edge_data) 1%Q) (opening_weight o)))
             (Some (get_or (e_opening_types edge_data) [] ++ [op_type o])) None)
    | None =>
        add_edge g a b
          (mkEdgeData (Some [op_id o]) (Some 1%nat) (Some (opening_weight o))
             (Some [op_type o]) None)
    end.
Proof.
  intros Hj Ha Hb. apply has_node_true in Ha, Hb. unfold add_opening.
  destruct Hj as [->|[-> ->]]; cbn; by rewrite Ha, Hb.
Qed.

Lemma add_opening_records g o a b :
  joins o a b → a ∈ nodes g → b ∈ nodes g → recorded (add_opening g o) o a b.
Proof.
  intros Hj Ha Hb. rewrite (add_opening_joins g o a b Hj Ha Hb). unfold recorded.
  destruct (get_edge_data g a b) as [old|] eqn:Hold; cbn zeta;
    rewrite get_edge_data_add_edge, !String.eqb_refl, Hold; cbn.
  - eexists _, _, _. split; [done|]. split; [done|].
    split; [apply elem_of_app; right; left|]. split; [done|]. apply py_min_le.
  - eexists _, _, _. split; [done|]. split; [done|].
    split; [left|]. split; [done|]. apply Qle_refl.
Qed.

Lemma add_opening_keeps_record g o' o a b :
  edges_consistent g → recorded g o a b → recorded (add_opening g o') o a b.
Proof.
  intros Hg (d & os & w & Hd & Hos & Hin & Hw & Hle). unfold add_opening.
  destruct (if (length (get_or (op_connects o') []) =? 1)%nat
            then get_or (op_connects o') [] ++ [exterior_id]
            else get_or (op_connects o') []) as [|a' [|b' [|? ?]]];
    try by exists d, os, w.
  destruct (negb (has_node g a' && has_node g b')); [by exists d, os, w|].
  assert (∀ attr,
            (String.eqb a' a && String.eqb b' b) || (String.eqb b' a && String.eqb a' b)
            = false →
            recorded (add_edge g a' b' attr) o a b) as Hother.
  { intros attr E. exists d, os, w. by rewrite get_edge_data_add_edge, E. }
  unfold recorded.
  destruct ((String.eqb a' a && String.eqb b' b) || (String.eqb b' a && String.eqb a' b))
    eqn:E; [|destruct (get_edge_data g a' b'); by apply Hother].
  assert (get_edge_data g a' b' = Some d) as Hd'.
  { apply orb_true_iff in E as [E|E];
      apply andb_true_iff in E as [->%String.eqb_eq ->%String.eqb_eq]; [done|].
    by apply Hg. }
  rewrite Hd'. cbn zeta. rewrite Hos, Hw. cbn [get_or].
  eexists _, _, _. rewrite get_edge_data_add_edge, E, Hd'. cbn.
  split; [done|]. split; [done|]. split; [apply elem_of_app; by left|].
  split; [done|]. destruct (py_min_le w (opening_weight o')) as [? _]. lra.
Qed.

Lemma openings_recorded openings : ∀ g o a b,
  wf_graph g → edges_consistent g →
  o ∈ openings → joins o a b → a ∈ nodes g → b ∈ nodes g →
  recorded (fold_left add_opening openings g) o a b.
Proof.
  induction openings as [|o' openings IH]; intros g o a b Hwf Hg Ho Hj Ha Hb;
    [by apply elem_of_nil in Ho|].
  cbn [fold_left].
  destruct (add_opening_spec g o' Hwf) as (Hwf' & Hn' & _).
  pose proof (edges_consistent_add_opening g o' Hg) as Hg'.
  assert (∀ g1 os, wf_graph g1 → edges_consistent g1 → recorded g1 o a b →
            recorded (fold_left add_opening os g1) o a b) as Hkeep.
  { clear. intros g1 os. revert g1. induction os as [|o1 os IH]; intros g1 Hwf Hg Hr; [done|].
    cbn [fold_left]. apply IH.
    - by apply add_opening_spec.
    - by apply edges_consistent_add_opening.
    - by apply add_opening_keeps_record. }
  apply elem_of_cons in Ho as [->|Ho].
  - apply Hkeep; [done | done |]. by apply add_opening_records.
  - apply IH; try done; by apply Hn'.
Qed.

(** X9.  Every opening that joins two spaces of the input, or one space and
    the exterior, is listed on the edge between them in the graph
    [build_topology] returns, and that edge weighs no more than the
    opening's own resistance; the repair pass does not touch it. *)
Theorem build_topology_records_openings betweenness closeness spaces openings r self o a b :
  build_topology betweenness closeness new_builder spaces openings = Ok (r, self) →
  o ∈ openings →
  op_connects o = Some [a; b] ∨ (op_connects o = Some [a] ∧ b = exterior_id) →
  a ∈ map sp_id spaces ∨ a = exterior_id →
  b ∈ map sp_id spaces ∨ b = exterior_id →
  ∃ d os w,
    get_edge_data (r_space_graph r) a b = Some d
    ∧ e_openings d = Some os ∧ op_id o ∈ os
    ∧ e_weight d = Some w ∧ (w <= opening_weight o)%Q.
Proof.
  intros H Ho Hj Ha Hb. unfold build_topology in H.
  apply bind_Ok in H as (scores & _ & H).
  apply bind_Ok in H as (isolated & _ & [= <- <-]).
  cbn [r_space_graph].
  set (g0 := add_node (fold_left (λ g space, add_node g (sp_id space)) spaces empty_graph)
                      exterior_id) in *.
  assert (wf_graph g0) as Hwf0 by (apply wf_add_node, spaces_wf, wf_empty).
  assert (∀ x, x ∈ nodes g0 ↔ x ∈ map sp_id spaces ∨ x = exterior_id) as Hn0.
  { intros x. unfold g0. rewrite nodes_add_node, spaces_nodes.
    split; [intros [?|[?|Hx]]; [tauto | tauto | by apply elem_of_nil in Hx] | tauto]. }
  assert (edges_consistent g0) as Hc0.
  { unfold g0. apply edges_consistent_add_node.
    assert (edges_consistent empty_graph) as Hempty by (intros ? ? ? [=]).
    clear -Hempty. revert Hempty. generalize empty_graph.
    induction spaces as [|s spaces IH]; intros g Hg; cbn [fold_left]; [done|].
    by apply IH, edges_consistent_add_node. }
  destruct (openings_recorded openings g0 o a b) as (d & os & w & Hd & Hrest);
    [done | done | done | done | by apply Hn0 | by apply Hn0 |].
  exists d, os, w. split; [|done].
  apply (validate_topology_keeps _ exterior_id); [|done|done].
  cbn [space_graph]. by apply openings_spec.
Qed.

End TopologyOpenings.

Module TopologyIsolated.
Import Nx TopologyBuilder PyFacts BuiltinFacts NxFacts TopologyBuilderSpec.

Lemma find_isolated_spaces_filter self ext :
  exterior_nodes self = [ext] →
  ext ∈ nodes (space_graph self) →
  find_isolated_spaces self
  = Ok (List.filter (λ n, negb (mem n [ext])
                          && negb (mem ext (plain_bfs (space_graph self) n)))
                    (nodes (space_graph self))).
Proof.
  intros Hexts Hext. unfold find_isolated_spaces. rewrite Hexts.
  assert (∀ l acc, (∀ n, n ∈ l → n ∈ nodes (space_graph self)) →
            for_each (λ isolated node,
                if mem node [ext] then Ok isolated
                else reach ← can_reach_exterior self node;
                     Ok (if reach : bool then isolated else isolated ++ [node]))
              l acc
            = Ok (acc ++ List.filter (λ n, negb (mem n [ext])
                          && negb (mem ext (plain_bfs (space_graph self) n))) l)) as Hall.
  { induction l as [|n l IH]; intros acc Hl; [simpl; by rewrite app_nil_r|].
    cbn [for_each List.filter].
    assert (Hl' : ∀ m, m ∈ l → m ∈ nodes (space_graph self)) by (intros m Hm; apply Hl; by right).
    destruct (mem n [ext]) eqn:Hmem; cbn [negb andb].
    - cbn [mbind Result_bind]. by apply IH.
    - assert (can_reach_exterior self n
              = Ok (mem ext (plain_bfs (space_graph self) n))) as ->.
      { unfold can_reach_exterior. rewrite Hexts. cbn [for_each].
        unfold has_path.
        rewrite (proj2 (has_node_true _ _) (Hl n (list_elem_of_here _ _))),
                (proj2 (has_node_true _ _) Hext). done. }
      cbn [mbind Result_bind].
      destruct (mem ext (plain_bfs (space_graph self) n)); cbn [negb].
      + by apply IH.
      + rewrite IH by done. by rewrite <- app_assoc. }
  by apply (Hall _ []).
Qed.

(** X10.  The spaces [build_topology] reports as isolated are exactly the
    nodes of the returned graph, other than the exterior node, from
    which no chain of edges leads to the exterior node. *)
Theorem build_topology_isolated_exact betweenness closeness spaces openings r self x :
  build_topology betweenness closeness new_builder spaces openings = Ok (r, self) →
  x ∈ r_isolated_spaces r
  ↔ x ∈ nodes (r_space_graph r) ∧ x ≠ exterior_id
    ∧ ¬ reachable (r_space_graph r) x exterior_id.
Proof.
  intros H.
  destruct (build_topology_graph _ _ _ _ _ _ H) as (Hwf & Hn & Hexts).
  unfold build_topology in H.
  apply bind_Ok in H as (scores & _ & H).
  apply bind_Ok in H as (isolated & Hisolated & [= <- <-]).
  cbn [r_space_graph r_isolated_spaces r_exterior_nodes] in *.
  rewrite (find_isolated_spaces_filter _ exterior_id) in Hisolated;
    [|done | apply Hn; by right].
  injection Hisolated as <-.
  rewrite list_elem_of_In, filter_In, <- list_elem_of_In, andb_true_iff, !negb_true_iff.
  change ((x =? exterior_id)%string || false) with (mem x [exterior_id]).
  rewrite !mem_false.
  assert (x ∉ [exterior_id] ↔ x ≠ exterior_id) as ->.
  { split; [intros Hx ->; apply Hx; left|].
    intros Hne Hx. by apply list_elem_of_singleton in Hx. }
  split.
  - intros (Hx & Hne & Hout). split; [done|]. split; [done|].
    intros Hreach. apply Hout. by apply plain_bfs_reachable.
  - intros (Hx & Hne & Hout). split; [done|]. split; [done|].
    intros Hin. apply Hout. by apply plain_bfs_sound.
Qed.

End TopologyIsolated.

Module TopologyImportant.
Import Nx TopologyBuilder PyFacts BuiltinFacts SortingFacts NxFacts TopologyBuilderSpec.

(** The score [find_important_spaces] reads for a node. *)
Definition score (self : Builder) (n : Node) : Q :=
  get_or (assoc n (centrality_score self)) 0%Q.

(** X11.  The spaces returned are at most five, distinct, none of them an
    exterior node, listed from the highest score down, and no space
    left out scores higher than one that is returned. *)
Theorem find_important_spaces_top self :
  NoDup (nodes (space_graph self)) →
  let important := find_important_spaces self in
  length important ≤ 5
  ∧ NoDup important
  ∧ (∀ n, n ∈ important → n ∈ nodes (space_graph self) ∧ n ∉ exterior_nodes self)
  ∧ StronglySorted (λ a b, (score self b <= score self a)%Q) important
  ∧ (∀ n m, n ∈ important →
            m ∈ nodes (space_graph self) → m ∉ exterior_nodes self → m ∉ important →
            (score self m <= score self n)%Q)
  ∧ (length important < 5 →
     ∀ m, m ∈ nodes (space_graph self) → m ∉ exterior_nodes self → m ∈ important).
Proof.
  intros Hnd. unfold find_important_spaces.
  rewrite (fold_dict_set_filter (λ n, mem n (exterior_nodes self)) (λ n, n)
             (score self)); [|by rewrite app_nil_l, map_id].
  cbn [app]. rewrite map_map. cbn [fst]. rewrite map_id.
  set (spaces := List.filter (λ n, negb (mem n (exterior_nodes self)))
                             (nodes (space_graph self))).
  set (key := λ n, get_or (assoc n (map (λ x, (x, score self x)) spaces)) 0%Q).
  assert (NoDup spaces) as Hnds.
  { apply NoDup_ListNoDup, List.NoDup_filter, NoDup_ListNoDup, Hnd. }
  assert (∀ n, n ∈ spaces ↔ n ∈ nodes (space_graph self) ∧ n ∉ exterior_nodes self)
    as Hspaces.
  { intros n. unfold spaces.
    rewrite list_elem_of_In, filter_In, <- list_elem_of_In, negb_true_iff, mem_false. done. }
  assert (∀ n, n ∈ spaces → key n = score self n) as Hkey.
  { intros n Hn. unfold key.
    rewrite (assoc_NoDup n (score self n)); [done | by rewrite map_map, map_id |].
    apply list_elem_of_fmap. by exists n. }
  pose proof (sorted_desc_perm key spaces) as Hperm.
  pose proof (sorted_desc_sorted key spaces) as Hsorted.
  set (sorted_spaces := sorted_desc key spaces) in *.
  assert (∀ n, n ∈ sorted_spaces ↔ n ∈ spaces) as Hin by (intros n; by rewrite Hperm).
  assert (StronglySorted (λ a b, (score self b <= score self a)%Q) sorted_spaces) as Hs.
  { clear -Hsorted Hkey Hin.
    assert (∀ n, n ∈ sorted_spaces → key n = score self n) as Hk
      by (intros n Hn; by apply Hkey, Hin).
    clear Hkey Hin. induction Hsorted as [|a l Hl IH Ha]; [constructor|].
    constructor.
    - apply IH. intros n Hn. apply Hk. by right.
    - apply Forall_forall. intros b Hb.
      rewrite <- (Hk a), <- (Hk b); [|by right | left].
      by apply (proj1 (Forall_forall _ _) Ha). }
  split; [rewrite length_take; lia|].
  split; [eapply sublist_NoDup; [|apply sublist_take]; by rewrite Hperm|].
  split; [intros n Hn; by apply Hspaces, Hin, (subseteq_take (5 `min` length sorted_spaces))|].
  split.
  { by apply sorted_take. }
  split.
  - intros n m Hn Hm Hext Hout.
    apply (sorted_take_drop (λ a b, (score self b <= score self a)%Q) sorted_spaces
             (5 `min` length sorted_spaces)); [done | done|].
    assert (m ∈ sorted_spaces) as Hms by (by apply Hin, Hspaces).
    rewrite <- (take_drop (5 `min` length sorted_spaces) sorted_spaces) in Hms.
    apply elem_of_app in Hms as [?|?]; done.
  - rewrite length_take. intros Hlt m Hm Hext.
    rewrite take_ge by lia. by apply Hin, Hspaces.
Qed.

End TopologyImportant.

Module NxCopyFacts.
Import Nx PyFacts BuiltinFacts NxFacts TopologyEdges.

(** *** Adjacency dictionaries *)

(** No neighbour is listed twice for a node. *)
Definition wf_adj (g : Graph) : Prop :=
  ∀ u, NoDup (map fst (neighbors g u)).

Lemma keys_dict_set_in {V} k (v : V) d :
  k ∈ map fst d → map fst (dict_set k v d) = map fst d.
Proof.
  induction d as [|[k0 v0] d IH]; simpl; intros Hin; [by apply elem_of_nil in Hin|].
  destruct (String.eqb_spec k k0) as [->|Hne]; [done|].
  simpl. f_equal. apply IH. apply elem_of_cons in Hin as [?|?]; done.
Qed.

Lemma neighbors_add_node g n u : neighbors (add_node g n) u = neighbors g u.
Proof.
  unfold add_node. destruct (has_node g n) eqn:E; [done|].
  unfold neighbors. rewrite assoc_app_l.
  destruct (assoc u g); [done|]. simpl. by destruct (String.eqb u n).
Qed.

Lemma neighbors_set_half_edge g a b d u :
  neighbors (set_half_edge g a b d) u
  = if String.eqb a u then dict_set b d (neighbors g a) else neighbors g u.
Proof.
  unfold set_half_edge, neighbors at 1.
  destruct (String.eqb_spec a u) as [<-|Hne].
  - by rewrite assoc_dict_set_eq.
  - by rewrite assoc_dict_set_ne.
Qed.

Lemma wf_adj_empty : wf_adj empty_graph.
Proof. intros u. constructor. Qed.

Lemma wf_adj_add_node g n : wf_adj g → wf_adj (add_node g n).
Proof. intros H u. rewrite neighbors_add_node. apply H. Qed.

Lemma wf_adj_set_half_edge g a b d : wf_adj g → wf_adj (set_half_edge g a b d).
Proof.
  intros H u. rewrite neighbors_set_half_edge.
  destruct (String.eqb a u); [apply NoDup_keys_dict_set|]; apply H.
Qed.

Lemma wf_adj_add_edge g a b d : wf_adj g → wf_adj (add_edge g a b d).
Proof.
  intros H. unfold add_edge.
  by apply wf_adj_set_half_edge, wf_adj_set_half_edge, wf_adj_add_node, wf_adj_add_node.
Qed.

Lemma nodes_set_half_edge_in g a b d :
  a ∈ nodes g → nodes (set_half_edge g a b d) = nodes g.
Proof. apply keys_dict_set_in. Qed.

Lemma nodes_add_node_in g n : n ∈ nodes g → add_node g n = g.
Proof. intros H. unfold add_node. by rewrite (proj2 (has_node_true _ _) H). Qed.

Lemma nodes_add_edge_in g a b d :
  a ∈ nodes g → b ∈ nodes g → nodes (add_edge g a b d) = nodes g.
Proof.
  intros Ha Hb. unfold add_edge.
  rewrite (nodes_add_node_in g a Ha), (nodes_add_node_in g b Hb).
  rewrite nodes_set_half_edge_in; rewrite nodes_set_half_edge_in; done.
Qed.

Lemma entry_neighbors g u nbrs :
  NoDup (nodes g) → (u, nbrs) ∈ g → neighbors g u = nbrs.
Proof. intros Hnd Hin. unfold neighbors. by rewrite (assoc_NoDup u nbrs g). Qed.

Lemma neighbors_get_edge_data g u v d :
  wf_adj g → (v, d) ∈ neighbors g u → get_edge_data g u v = Some d.
Proof.
  intros Hadj Hin. pose proof (assoc_NoDup v d _ (Hadj u) Hin) as H.
  unfold get_edge_data, neighbors in *. by destruct (assoc u g).
Qed.

Lemma get_edge_data_neighbors g u v d :
  get_edge_data g u v = Some d → (v, d) ∈ neighbors g u.
Proof.
  unfold get_edge_data, neighbors. destruct (assoc u g); [|done]. apply assoc_Some_elem.
Qed.

(** *** Attribute updates *)

Lemma update_attrs_no_attrs d : update_attrs no_attrs d = d.
Proof. destruct d as [[?|] [?|] [?|] [?|] [?|]]; done. Qed.

Lemma update_attrs_same d : update_attrs d d = d.
Proof. destruct d as [[?|] [?|] [?|] [?|] [?|]]; done. Qed.

(** *** Copies *)

(** Attributes read the same from both ends of an edge. *)
Definition sym_data (g : Graph) : Prop :=
  ∀ u v d, get_edge_data g u v = Some d → get_edge_data g v u = Some d.

Lemma nodes_only l : ∀ g,
  (∀ u v, get_edge_data g u v = None) →
  (∀ u v, get_edge_data (fold_left add_node l g) u v = None)
  ∧ (∀ x, x ∈ nodes (fold_left add_node l g) ↔ x ∈ l ∨ x ∈ nodes g).
Proof.
  induction l as [|n l IH]; intros g Hg; simpl.
  - split; [done|]. intros x. split; [by right | intros [H|H]; [by apply elem_of_nil in H | done]].
  - destruct (IH (add_node g n)) as [H1 H2].
    { intros u v. by rewrite get_edge_data_add_node. }
    split; [done|]. intros x. rewrite H2, nodes_add_node, elem_of_cons. tauto.
Qed.

Lemma nodes_only_order l : NoDup l → nodes (fold_left add_node l empty_graph) = l.
Proof.
  assert (∀ g, NoDup (nodes g ++ l) → nodes (fold_left add_node l g) = nodes g ++ l) as H.
  { induction l as [|n l IH]; intros g Hnd; simpl; [by rewrite app_nil_r|].
    assert (n ∉ nodes g) as Hn.
    { apply NoDup_app in Hnd as (_ & Hdis & _). intros Hin. apply (Hdis n Hin). left. }
    rewrite IH.
    - unfold add_node. rewrite (proj2 (mem_false _ _) Hn : has_node g n = false).
      unfold nodes. rewrite map_app. simpl. by rewrite <- app_assoc.
    - unfold add_node. rewrite (proj2 (mem_false _ _) Hn : has_node g n = false).
      unfold nodes. rewrite map_app. simpl. by rewrite <- app_assoc. }
  intros Hnd. by apply (H empty_graph).
Qed.

(** The half-edges of a graph, in the order [copy] adds them. *)
Definition half_edges (g : Graph) : list (Node * Node * EdgeData) :=
  flat_map (λ entry, map (λ vd, (fst entry, fst vd, snd vd)) (snd entry)) g.

Lemma copy_fold g0 g :
  fold_left (λ acc entry,
      fold_left (λ acc vd, add_edge acc (fst entry) (fst vd) (snd vd)) (snd entry) acc)
    g g0
  = fold_left (λ acc h, add_edge acc (fst (fst h)) (snd (fst h)) (snd h)) (half_edges g) g0.
Proof.
  revert g0. induction g as [|[u nbrs] g IH]; intros g0; [done|].
  cbn [fold_left half_edges flat_map fst snd]. rewrite fold_left_app, IH.
  f_equal. clear. revert g0. induction nbrs as [|[v d] nbrs IH]; intros g0; [done|].
  cbn [fold_left map fst snd]. apply IH.
Qed.

Lemma half_edges_spec g u v d :
  NoDup (nodes g) → wf_adj g →
  (u, v, d) ∈ half_edges g ↔ get_edge_data g u v = Some d.
Proof.
  intros Hnd Hadj. unfold half_edges. rewrite list_elem_of_In, in_flat_map. split.
  - intros ([u' nbrs] & Hentry & Hin). apply list_elem_of_In in Hentry.
    apply list_elem_of_In, list_elem_of_fmap in Hin as ([v' d'] & [= -> -> ->] & Hvd).
    cbn [fst snd] in *. apply neighbors_get_edge_data; [done|].
    by rewrite (entry_neighbors g u' nbrs).
  - intros Hd. apply get_edge_data_neighbors in Hd.
    unfold neighbors in Hd. destruct (assoc u g) as [nbrs|] eqn:E;
      [|by apply elem_of_nil in Hd].
    exists (u, nbrs). split; [by apply list_elem_of_In, assoc_Some_elem|].
    apply list_elem_of_In, list_elem_of_fmap. by exists (v, d).
Qed.

Lemma copy_edges g hs : ∀ acc,
  sym_data g →
  (∀ h, h ∈ hs → get_edge_data g (fst (fst h)) (snd (fst h)) = Some (snd h)) →
  (∀ x y d, get_edge_data acc x y = Some d → get_edge_data g x y = Some d) →
  let acc' := fold_left (λ acc h, add_edge acc (fst (fst h)) (snd (fst h)) (snd h)) hs acc in
  (∀ x y d, get_edge_data acc' x y = Some d → get_edge_data g x y = Some d)
  ∧ (∀ x y d, get_edge_data acc x y = Some d → get_edge_data acc' x y = Some d)
  ∧ (∀ h, h ∈ hs → get_edge_data acc' (fst (fst h)) (snd (fst h)) = Some (snd h)).
Proof.
  induction hs as [|[[u v] d] hs IH]; intros acc Hsym Hhs Hacc; cbn [fold_left fst snd].
  - split; [done|]. split; [done|]. intros h Hh. by apply elem_of_nil in Hh.
  - assert (get_edge_data g u v = Some d) as Hd by (apply (Hhs (u, v, d)); left).
    assert (update_attrs (default no_attrs (get_edge_data acc u v)) d = d) as Hup.
    { destruct (get_edge_data acc u v) as [d'|] eqn:E; cbn [default from_option id].
      - apply Hacc in E. rewrite Hd in E. injection E as <-. apply update_attrs_same.
      - apply update_attrs_no_attrs. }
    assert (∀ x y, get_edge_data (add_edge acc u v d) x y
                   = if (String.eqb u x && String.eqb v y) || (String.eqb v x && String.eqb u y)
                     then Some d else get_edge_data acc x y) as Hstep.
    { intros x y. by rewrite get_edge_data_add_edge, Hup. }
    destruct (IH (add_edge acc u v d) Hsym) as (H1 & H2 & H3).
    { intros h Hh. apply Hhs. by right. }
    { intros x y d'. rewrite Hstep.
      destruct ((String.eqb u x && String.eqb v y) || (String.eqb v x && String.eqb u y))
        eqn:E; [|apply Hacc].
      intros [= <-].
      apply orb_true_iff in E as [E|E];
        apply andb_true_iff in E as [->%String.eqb_eq ->%String.eqb_eq];
        [done | by apply Hsym]. }
    split; [done|]. split.
    + intros x y d' Hxy. apply H2. rewrite Hstep.
      destruct ((String.eqb u x && String.eqb v y) || (String.eqb v x && String.eqb u y))
        eqn:E; [|done].
      f_equal. apply Hacc in Hxy.
      apply orb_true_iff in E as [E|E];
        apply andb_true_iff in E as [->%String.eqb_eq ->%String.eqb_eq].
      * congruence.
      * apply Hsym in Hd. congruence.
    + intros h Hh. apply elem_of_cons in Hh as [->|Hh]; [|by apply H3].
      cbn [fst snd]. apply H2. by rewrite Hstep, !String.eqb_refl.
Qed.

(** A copy has the nodes of the original, in the same order, and the
    same attributes on the same edges. *)
Lemma copy_spec g :
  wf_graph g → wf_adj g → sym_data g →
  nodes (copy g) = nodes g
  ∧ (∀ u v, get_edge_data (copy g) u v = get_edge_data g u v)
  ∧ wf_graph (copy g) ∧ wf_adj (copy g).
Proof.
  intros Hwf Hadj Hsym. unfold copy. rewrite copy_fold.
  destruct (nodes_only (nodes g) empty_graph) as [Hnone Hnodes]; [done|].
  pose proof (nodes_only_order (nodes g) (wf_nodup g Hwf)) as Horder.
  set (g0 := fold_left add_node (nodes g) empty_graph) in *.
  assert (wf_graph g0 ∧ wf_adj g0) as [Hwf0 Hadj0].
  { unfold g0. generalize (nodes g).
    assert (wf_graph empty_graph ∧ wf_adj empty_graph) as H
      by (split; [apply wf_empty | apply wf_adj_empty]).
    revert H. generalize empty_graph. intros g1 H l. revert g1 H.
    induction l as [|n l IH]; intros g1 [H1 H2]; [done|].
    cbn [fold_left]. apply IH. split; [by apply wf_add_node | by apply wf_adj_add_node]. }
  assert (∀ hs acc,
            (∀ h, h ∈ hs → fst (fst h) ∈ nodes g ∧ snd (fst h) ∈ nodes g) →
            nodes acc = nodes g → wf_graph acc → wf_adj acc →
            let acc' := fold_left (λ acc h, add_edge acc (fst (fst h)) (snd (fst h)) (snd h))
                                  hs acc in
            nodes acc' = nodes g ∧ wf_graph acc' ∧ wf_adj acc') as Hshape.
  { induction hs as [|[[u v] d] hs IH]; intros acc Hhs Hn Hw Ha; [done|].
    cbn [fold_left fst snd]. destruct (Hhs (u, v, d)) as [Hu Hv]; [left|].
    cbn [fst snd] in Hu, Hv. apply IH.
    - intros h Hh. apply Hhs. by right.
    - rewrite nodes_add_edge_in; [done | by rewrite Hn | by rewrite Hn].
    - by apply wf_add_edge.
    - by apply wf_adj_add_edge. }
  assert (∀ h, h ∈ half_edges g →
               get_edge_data g (fst (fst h)) (snd (fst h)) = Some (snd h)) as Hhs.
  { intros [[u v] d] Hh. by apply half_edges_spec in Hh; [|apply Hwf|]. }
  destruct (Hshape (half_edges g) g0) as (Hn' & Hwf' & Hadj'); [|done|done|done|].
  { intros [[u v] d] Hh. apply Hhs in Hh. cbn [fst snd] in *.
    assert (has_edge g u v = true) as He by (apply has_edge_true; by eexists).
    split; [by apply (has_edge_node g u v) | by apply (wf_closed g Hwf u)]. }
  destruct (copy_edges g (half_edges g) g0 Hsym Hhs) as (H1 & _ & H3).
  { intros x y d. by rewrite Hnone. }
  split; [done|]. split; [|done].
  intros u v. destruct (get_edge_data g u v) as [d|] eqn:E.
  - apply (H3 (u, v, d)). by apply half_edges_spec; [apply Hwf| |].
  - destruct (get_edge_data (fold_left _ _ _) u v) as [d|] eqn:E'; [|done].
    apply H1 in E'. congruence.
Qed.

End NxCopyFacts.

Module NxEdges.
Import Nx PyFacts BuiltinFacts NxFacts TopologyEdges NxCopyFacts.

(** *** [G.edges()] lists every edge once *)

(** The pair [e] is the edge between [x] and [y], in either direction. *)
Definition touches (x y : Node) (e : Node * Node) : bool :=
  (String.eqb (fst e) x && String.eqb (snd e) y)
  || (String.eqb (fst e) y && String.eqb (snd e) x).

Lemma touches_sym x y e : touches x y e = touches y x e.
Proof. unfold touches. apply orb_comm. Qed.

Lemma edges_from_elem : ∀ g seen u v,
  (u, v) ∈ edges_from seen g → u ∈ map fst g ∧ v ∉ seen.
Proof.
  induction g as [|[n nbrs] g IH]; intros seen u v H; simpl in H;
    [by apply elem_of_nil in H|].
  apply elem_of_app in H as [H|H].
  - apply list_elem_of_fmap in H as ([v' d] & [= -> ->] & H).
    apply list_elem_of_In, filter_In in H as [_ H]. cbn [fst] in H.
    apply negb_true_iff, mem_false in H. split; [left | done].
  - destruct (IH _ _ _ H) as [Hu Hv]. split; [by right|].
    intros Hin. apply Hv. by right.
Qed.

Lemma filter_none {A} (f : A → bool) l : (∀ x, x ∈ l → f x = false) → List.filter f l = [].
Proof.
  induction l as [|a l IH]; intros H; simpl; [done|].
  rewrite (H a) by left. apply IH. intros x Hx. apply H. by right.
Qed.

(** No pair of the rest of the enumeration touches an edge one of whose
    ends has been passed. *)
Lemma edges_from_passed g seen x y :
  x ∈ seen → x ∉ map fst g → List.filter (touches x y) (edges_from seen g) = [].
Proof.
  intros Hseen Hout. apply filter_none. intros [u v] He.
  destruct (edges_from_elem _ _ _ _ He) as [Hu Hv]. unfold touches. cbn [fst snd].
  destruct (String.eqb_spec u x) as [->|_]; [done|].
  destruct (String.eqb_spec v x) as [->|_]; [done|].
  by rewrite andb_false_r.
Qed.

Lemma filter_key_once {V} (l : list (string * V)) (f : string → bool) t :
  NoDup (map fst l) → t ∈ map fst l → f t = true →
  length (List.filter (λ vd, String.eqb (fst vd) t)
            (List.filter (λ vd, f (fst vd)) l)) = 1.
Proof.
  induction l as [|[k v] l IH]; intros Hnd Hin Hf; [by apply elem_of_nil in Hin|].
  simpl in Hnd, Hin. apply NoDup_cons in Hnd as [Hk Hnd]. cbn [List.filter fst].
  destruct (String.eqb_spec k t) as [->|Hne].
  - rewrite Hf. cbn [List.filter fst]. rewrite String.eqb_refl. cbn [length]. f_equal.
    rewrite filter_none; [done|]. intros [k' v'] Hk'.
    apply list_elem_of_In, filter_In in Hk' as [Hk' _]. apply list_elem_of_In in Hk'.
    cbn [fst]. apply String.eqb_neq. intros ->. apply Hk.
    apply list_elem_of_fmap. by exists (t, v').
  - apply elem_of_cons in Hin as [?|Hin]; [done|].
    destruct (f k); cbn [List.filter fst].
    + destruct (String.eqb_spec k t); [done|]. by apply IH.
    + by apply IH.
Qed.

Lemma edges_from_once x y : ∀ g seen,
  NoDup (map fst g) →
  (∀ u nbrs, (u, nbrs) ∈ g → NoDup (map fst nbrs)) →
  x ∉ seen → y ∉ seen →
  (∃ nbrs, (x, nbrs) ∈ g ∧ y ∈ map fst nbrs) →
  (∃ nbrs, (y, nbrs) ∈ g ∧ x ∈ map fst nbrs) →
  length (List.filter (touches x y) (edges_from seen g)) = 1.
Proof.
  induction g as [|[n nbrs] g IH]; intros seen Hnd Hadj Hx Hy Hxy Hyx.
  { destruct Hxy as (? & H & _). by apply elem_of_nil in H. }
  simpl in Hnd. apply NoDup_cons in Hnd as [Hn Hnd].
  assert (∀ a b, (∃ l, (a, l) ∈ (n, nbrs) :: g ∧ b ∈ map fst l) → a ≠ n →
                 ∃ l, (a, l) ∈ g ∧ b ∈ map fst l) as Hrest.
  { intros a b (l & Hl & Hb) Hne. exists l. split; [|done].
    apply elem_of_cons in Hl as [[= -> ->]|Hl]; done. }
  assert (∀ a b, (∃ l, (a, l) ∈ (n, nbrs) :: g ∧ b ∈ map fst l) → a = n →
                 b ∈ map fst nbrs) as Hhere.
  { intros a b (l & Hl & Hb) ->.
    apply elem_of_cons in Hl as [[= ->]|Hl]; [done|].
    destruct Hn. apply list_elem_of_fmap. by exists (n, l). }
  cbn [edges_from]. rewrite List.filter_app, length_app.
  assert (List.filter (touches x y)
                 (map (λ vd : Node * EdgeData, (n, fst vd))
                      (List.filter (λ vd, negb (mem (fst vd) seen)) nbrs))
               = map (λ vd : Node * EdgeData, (n, fst vd))
                   (List.filter (λ vd, touches x y (n, fst vd))
                      (List.filter (λ vd, negb (mem (fst vd) seen)) nbrs))) as Hmap.
  { generalize (List.filter (λ vd, negb (mem (fst vd) seen)) nbrs).
    induction l as [|vd l IHl]; [done|]. cbn [map List.filter].
    destruct (touches x y (n, fst vd)); cbn [map]; by rewrite IHl. }
  rewrite Hmap, length_map.
  destruct (decide (n = x)) as [->|Hnx].
  - assert (List.filter (λ vd : Node * EdgeData, touches x y (x, fst vd))
              (List.filter (λ vd, negb (mem (fst vd) seen)) nbrs)
            = List.filter (λ vd, String.eqb (fst vd) y)
                (List.filter (λ vd, negb (mem (fst vd) seen)) nbrs)) as ->.
    { apply List.filter_ext. intros [v d]. unfold touches. cbn [fst snd].
      rewrite String.eqb_refl. cbn [andb].
      destruct (String.eqb_spec x y) as [->|_]; [by rewrite orb_diag | by rewrite orb_false_r]. }
    rewrite (filter_key_once nbrs (λ v, negb (mem v seen)) y).
    + rewrite edges_from_passed; [done | left | done].
    + apply (Hadj x). left.
    + by apply (Hhere x).
    + by apply negb_true_iff, mem_false.
  - destruct (decide (n = y)) as [->|Hny].
    + assert (List.filter (λ vd : Node * EdgeData, touches x y (y, fst vd))
                (List.filter (λ vd, negb (mem (fst vd) seen)) nbrs)
              = List.filter (λ vd, String.eqb (fst vd) x)
                  (List.filter (λ vd, negb (mem (fst vd) seen)) nbrs)) as ->.
      { apply List.filter_ext. intros [v d]. unfold touches. cbn [fst snd].
        rewrite String.eqb_refl. cbn [andb].
        destruct (String.eqb_spec y x) as [->|_]; [done|]. done. }
      rewrite (filter_key_once nbrs (λ v, negb (mem v seen)) x).
      * rewrite (List.filter_ext (touches x y) (touches y x) (λ e, touches_sym x y e)).
        rewrite edges_from_passed; [done | left | done].
      * apply (Hadj y). left.
      * by apply (Hhere y).
      * by apply negb_true_iff, mem_false.
    + rewrite filter_none.
      * cbn [length]. apply IH; try done.
        -- intros u l Hl. apply (Hadj u). by right.
        -- by apply not_elem_of_cons.
        -- by apply not_elem_of_cons.
        -- by apply Hrest.
        -- by apply Hrest.
      * intros [v d] _. unfold touches. cbn [fst snd].
        destruct (String.eqb_spec n x); [done|]. destruct (String.eqb_spec n y); done.
Qed.

End NxEdges.

Module TopologyStatus.
Import Nx TopologyBuilder PyFacts BuiltinFacts NxFacts TopologyEdges NxCopyFacts NxEdges
       TopologyBuilderSpec.

Lemma has_edge_entry g x y :
  has_edge g x y = true → ∃ nbrs, (x, nbrs) ∈ g ∧ y ∈ map fst nbrs.
Proof.
  intros H. apply has_edge_true in H as [d Hd]. unfold get_edge_data in Hd.
  destruct (assoc x g) as [nbrs|] eqn:E; [|done].
  exists nbrs. split; [by apply assoc_Some_elem|].
  apply assoc_is_Some_keys. by eexists.
Qed.

(** [G.edges()] yields every edge of the graph, from one of its ends,
    and only once. *)
Lemma edges_once g x y :
  wf_graph g → wf_adj g → has_edge g x y = true →
  length (List.filter (touches x y) (edges g)) = 1.
Proof.
  intros Hwf Hadj Hxy. unfold edges. apply edges_from_once.
  - apply (wf_nodup g Hwf).
  - intros u nbrs Hin. rewrite <- (entry_neighbors g u nbrs); [apply Hadj | apply Hwf | done].
  - apply not_elem_of_nil.
  - apply not_elem_of_nil.
  - by apply has_edge_entry.
  - by apply has_edge_entry, (wf_sym g Hwf).
Qed.

Lemma edges_has_edge g u v : wf_graph g → (u, v) ∈ edges g → has_edge g u v = true.
Proof.
  intros Hwf H. destruct (edges_from_entries _ _ _ _ H) as (nbrs & d & Hu & Hv).
  apply has_edge_neighbors. rewrite (entry_neighbors g u nbrs); [|apply Hwf | done].
  apply list_elem_of_fmap. by exists (v, d).
Qed.

(** *** Closing openings *)

Definition with_weight (d : EdgeData) (w : Q) : EdgeData :=
  mkEdgeData (e_openings d) (e_count d) (Some w) (e_opening_types d) (e_is_repair d).

Definition is_closed (opening_states : gmap string string) (opening_id : string) : bool :=
  bool_decide (opening_states !! opening_id = Some "closed").

(** The number of closed openings on an edge. *)
Definition closed_count (opening_states : gmap string string) (d : EdgeData) : nat :=
  length (List.filter (is_closed opening_states) (get_or (e_openings d) [])).

(** The attributes of an edge in the status graph: the weight ten times
    over for every closed opening. *)
Definition status_of (opening_states : gmap string string) (d : EdgeData) : EdgeData :=
  match e_weight d with
  | Some w => with_weight d (Nat.iter (closed_count opening_states d) (λ w, (w * 10)%Q) w)
  | None => d
  end.

(** Every edge has a weight and reads the same from both ends. *)
Definition weighted (g : Graph) : Prop :=
  sym_data g ∧ ∀ u v d, get_edge_data g u v = Some d → is_Some (e_weight d).

Lemma scale_weight_spec g u v d w :
  get_edge_data g u v = Some d → e_weight d = Some w →
  get_edge_data g v u = Some d →
  ∃ g', scale_weight g u v = Ok g'
        ∧ nodes g' = nodes g
        ∧ ∀ x y, get_edge_data g' x y
                 = if touches x y (u, v) then Some (with_weight d (w * 10)%Q)
                   else get_edge_data g x y.
Proof.
  intros Hd Hw Hd'. unfold scale_weight. rewrite Hd, Hw. eexists. split; [done|].
  split.
  { rewrite !nodes_set_half_edge_in; [done | | ].
    - apply (has_edge_node g u v), has_edge_true. by eexists.
    - rewrite nodes_set_half_edge_in.
      + apply (has_edge_node g v u), has_edge_true. by eexists.
      + apply (has_edge_node g u v), has_edge_true. by eexists. }
  intros x y. rewrite !get_edge_data_set_half_edge. unfold touches, with_weight. cbn [fst snd].
  by destruct (String.eqb v x), (String.eqb u y), (String.eqb u x), (String.eqb v y).
Qed.

Lemma with_weight_id d w : e_weight d = Some w → with_weight d w = d.
Proof. destruct d. unfold with_weight. cbn. by intros ->. Qed.

Lemma touches_cases x y u v :
  touches x y (u, v) = true → (x = u ∧ y = v) ∨ (x = v ∧ y = u).
Proof.
  unfold touches. cbn [fst snd]. intros E.
  apply orb_true_iff in E as [E|E];
    apply andb_true_iff in E as [->%String.eqb_eq ->%String.eqb_eq]; auto.
Qed.

Lemma close_openings_loop states u v : ∀ os g d w,
  get_edge_data g u v = Some d → get_edge_data g v u = Some d → e_weight d = Some w →
  ∃ g', for_each (λ g opening_id,
            if bool_decide (states !! opening_id = Some "closed")
            then scale_weight g u v else Ok g) os g = Ok g'
        ∧ nodes g' = nodes g
        ∧ ∀ x y, get_edge_data g' x y
                 = if touches x y (u, v)
                   then Some (with_weight d
                                (Nat.iter (length (List.filter (is_closed states) os))
                                          (λ w, (w * 10)%Q) w))
                   else get_edge_data g x y.
Proof.
  induction os as [|o os IH]; intros g d w Hd Hd' Hw.
  - exists g. split; [done|]. split; [done|].
    intros x y. cbn [List.filter length Nat.iter].
    destruct (touches x y (u, v)) eqn:E; [|done].
    rewrite with_weight_id by done.
    by destruct (touches_cases _ _ _ _ E) as [[-> ->]|[-> ->]].
  - cbn [for_each List.filter]. unfold is_closed at 1.
    destruct (bool_decide (states !! o = Some "closed")).
    + destruct (scale_weight_spec g u v d w Hd Hw Hd') as (g1 & -> & Hn1 & Hg1).
      cbn [mbind Result_bind].
      destruct (IH g1 (with_weight d (w * 10)%Q) (w * 10)%Q) as (g' & -> & Hn' & Hg').
      * rewrite Hg1. unfold touches. cbn [fst snd]. by rewrite !String.eqb_refl.
      * rewrite Hg1. unfold touches. cbn [fst snd]. by rewrite !String.eqb_refl, orb_true_r.
      * done.
      * exists g'. split; [done|]. split; [by rewrite Hn'|].
        intros x y. rewrite Hg', Hg1.
        destruct (touches x y (u, v)); [|done].
        cbn [length]. rewrite Nat.iter_succ_r. done.
    + cbn [mbind Result_bind]. by apply IH.
Qed.

Lemma close_openings_spec states g u v d :
  weighted g → get_edge_data g u v = Some d →
  ∃ g', close_openings states g (u, v) = Ok g'
        ∧ nodes g' = nodes g
        ∧ ∀ x y, get_edge_data g' x y
                 = if touches x y (u, v) then Some (status_of states d)
                   else get_edge_data g x y.
Proof.
  intros [Hsym Hw] Hd. destruct (Hw _ _ _ Hd) as [w Hwd].
  unfold close_openings. cbn [fst snd]. rewrite Hd. cbn [get_or].
  destruct (close_openings_loop states u v (get_or (e_openings d) []) g d w)
    as (g' & Hrun & Hn' & Hg'); [done | by apply Hsym | done |].
  exists g'. split; [done|]. split; [done|]. intros x y. rewrite Hg'.
  unfold status_of, closed_count. by rewrite Hwd.
Qed.

Lemma status_of_weight states d : is_Some (e_weight d) → is_Some (e_weight (status_of states d)).
Proof. intros [w Hw]. unfold status_of. rewrite Hw. by eexists. Qed.

Lemma close_openings_all states : ∀ es g,
  weighted g →
  (∀ u v, (u, v) ∈ es → has_edge g u v = true) →
  (∀ x y, length (List.filter (touches x y) es) ≤ 1) →
  ∃ g', for_each (close_openings states) es g = Ok g'
        ∧ nodes g' = nodes g
        ∧ ∀ x y, get_edge_data g' x y
                 = if (length (List.filter (touches x y) es) =? 1)%nat
                   then status_of states <$> get_edge_data g x y
                   else get_edge_data g x y.
Proof.
  induction es as [|[u v] es IH]; intros g Hg Hes Honce.
  - exists g. split; [done|]. split; [done|]. intros x y. done.
  - cbn [for_each].
    assert (has_edge g u v = true) as [d Hd]%has_edge_true by (apply Hes; left).
    destruct (close_openings_spec states g u v d Hg Hd) as (g1 & -> & Hn1 & Hg1).
    cbn [mbind Result_bind].
    assert (∀ x y, touches x y (u, v) = true → get_edge_data g x y = Some d) as Hsame.
    { intros x y E. destruct (touches_cases _ _ _ _ E) as [[-> ->]|[-> ->]]; [done|].
      by apply Hg. }
    destruct (IH g1) as (g' & -> & Hn' & Hg').
    + destruct Hg as [Hsym Hw]. split.
      * intros x y d'. rewrite !Hg1, (touches_sym y x).
        destruct (touches x y (u, v)); [done | apply Hsym].
      * intros x y d'. rewrite Hg1.
        destruct (touches x y (u, v)) eqn:E; [|apply Hw].
        intros [= <-]. apply status_of_weight. by apply (Hw u v).
    + intros x y Hxy. apply has_edge_true. rewrite Hg1.
      destruct (touches x y (u, v)); [by eexists|].
      apply has_edge_true, Hes. by right.
    + intros x y. specialize (Honce x y). cbn [List.filter] in Honce.
      destruct (touches x y (u, v)); cbn [length] in Honce; lia.
    + exists g'. split; [done|]. split; [by rewrite Hn'|].
      intros x y. rewrite Hg', Hg1.
      specialize (Honce x y). cbn [List.filter] in *.
      destruct (touches x y (u, v)) eqn:E; cbn [length] in *.
      * assert (length (List.filter (touches x y) es) = 0) as -> by lia.
        cbn. by rewrite (Hsame x y E).
      * done.
Qed.

(** For a graph as the builder keeps it, the status graph has the same
    nodes and edges, and on every edge the attributes of the original
    with the weight ten times over for every closed opening. *)
Lemma get_opening_status_graph_spec self states :
  wf_graph (space_graph self) → wf_adj (space_graph self) → weighted (space_graph self) →
  ∃ g', get_opening_status_graph self states = Ok g'
        ∧ nodes g' = nodes (space_graph self)
        ∧ ∀ u v, get_edge_data g' u v
                 = status_of states <$> get_edge_data (space_graph self) u v.
Proof.
  intros Hwf Hadj [Hsym Hw]. unfold get_opening_status_graph.
  destruct (copy_spec (space_graph self) Hwf Hadj Hsym) as (Hn & He & Hwf' & Hadj').
  set (gc := copy (space_graph self)) in *.
  destruct (close_openings_all states (edges gc) gc) as (g' & Hrun & Hn' & Hg').
  - split.
    + intros u v d. rewrite !He. apply Hsym.
    + intros u v d. rewrite He. apply Hw.
  - intros u v. by apply edges_has_edge.
  - intros x y.
    destruct (List.filter (touches x y) (edges gc)) as [|[u v] l] eqn:E; [simpl; lia|].
    assert ((u, v) ∈ List.filter (touches x y) (edges gc)) as Hin by (rewrite E; left).
    apply list_elem_of_In, filter_In in Hin as [Hin Ht]. apply list_elem_of_In in Hin.
    rewrite <- E, (edges_once gc x y); [done | done | done |].
    destruct (touches_cases _ _ _ _ Ht) as [[-> ->]|[-> ->]].
    + by apply edges_has_edge.
    + by apply (wf_sym gc Hwf'), edges_has_edge.
  - exists g'. split; [done|]. split; [by rewrite Hn'|].
    intros u v. rewrite Hg', He.
    destruct (get_edge_data (space_graph self) u v) as [d|] eqn:Hd.
    + rewrite (edges_once gc u v); [done | done | done |].
      apply has_edge_true. rewrite He. by eexists.
    + by destruct (_ =? _)%nat.
Qed.


Lemma iter_times_ten k w : (Nat.iter k (λ w, (w * 10)%Q) w == w * 10 ^ Z.of_nat k)%Q.
Proof.
  induction k as [|k IH].
  - simpl. lra.
  - rewrite Nat.iter_succ, IH, Nat2Z.inj_succ, <- Z.add_1_r.
    rewrite Qpower_plus by done. change (10 ^ 1)%Q with 10%Q. lra.
Qed.

(** The builder keeps no neighbour twice. *)
Lemma build_topology_wf_adj betweenness closeness self spaces openings r self' :
  build_topology betweenness closeness self spaces openings = Ok (r, self') →
  wf_adj (space_graph self') ∧ r_space_graph r = space_graph self'.
Proof.
  intros H. unfold build_topology in H.
  apply bind_Ok in H as (scores & _ & H).
  apply bind_Ok in H as (isolated & _ & [= <- <-]).
  split; [|done]. unfold validate_topology. cbn [space_graph].
  set (g0 := fold_left add_opening openings _).
  assert (wf_adj g0) as H0.
  { unfold g0.
    assert (∀ os g, wf_adj g → wf_adj (fold_left add_opening os g)) as Hos.
    { induction os as [|o os IH]; intros g Hg; [done|]. cbn [fold_left]. apply IH.
      unfold add_opening.
      destruct (if (length (get_or (op_connects o) []) =? 1)%nat
                then get_or (op_connects o) [] ++ [exterior_id]
                else get_or (op_connects o) []) as [|a [|b [|? ?]]]; try done.
      destruct (negb _); [done|].
      destruct (get_edge_data g a b); by apply wf_adj_add_edge. }
    apply Hos, wf_adj_add_node.
    generalize wf_adj_empty. generalize empty_graph. clear.
    induction spaces as [|s spaces IH]; intros g Hg; [done|].
    cbn [fold_left]. by apply IH, wf_adj_add_node. }
  destruct (1 <? _)%nat; [|done].
  destruct (List.find _ _) as [ec|]; [|done]. cbn [space_graph].
  assert (∀ b comps g, wf_adj g → wf_adj (fold_left (repair_component b ec) comps g))
    as Hrep; [|by apply Hrep].
  clear. intros b comps. induction comps as [|c comps IH]; intros g Hg; [done|].
  cbn [fold_left]. apply IH. unfold repair_component.
  destruct (same_component _ _); [done|].
  destruct (largest_space _ _); [|done].
  destruct (truthy _); [|done].
  destruct (exterior_nodes _) as [|ext ?]; [done|].
  destruct (truthy ext); [|done]. by apply wf_adj_add_edge.
Qed.

(** X12.  The status graph of a built topology.  After [build_topology],
    [get_opening_status_graph] returns a graph with the nodes and the
    edges of the topology graph; an edge keeps its openings, count and
    types, and its weight is the original weight times ten to the
    number of closed openings on it. *)
Theorem status_graph_scales_closed betweenness closeness spaces openings r self states :
  build_topology betweenness closeness new_builder spaces openings = Ok (r, self) →
  ∃ status_graph,
    get_opening_status_graph self states = Ok status_graph
    ∧ nodes status_graph = nodes (r_space_graph r)
    ∧ (∀ u v, has_edge status_graph u v = has_edge (r_space_graph r) u v)
    ∧ ∀ u v d, get_edge_data (r_space_graph r) u v = Some d →
        ∃ d' w w',
          get_edge_data status_graph u v = Some d'
          ∧ e_openings d' = e_openings d ∧ e_count d' = e_count d
          ∧ e_opening_types d' = e_opening_types d
          ∧ e_weight d = Some w ∧ e_weight d' = Some w'
          ∧ (w' == w * 10 ^ Z.of_nat (closed_count states d))%Q.
Proof.
  intros H.
  destruct (build_topology_graph _ _ _ _ _ _ H) as (Hwf & _ & _).
  destruct (build_topology_wf_adj _ _ _ _ _ _ _ H) as [Hadj Heq].
  pose proof (built_edges_consistent _ _ _ _ _ _ _ H) as Hcons.
  rewrite Heq in *.
  destruct (get_opening_status_graph_spec self states) as (g' & Hrun & Hn & Hg');
    [done | done | |].
  { split.
    - intros u v d Hd. by destruct (Hcons u v d Hd).
    - intros u v d Hd. destruct (Hcons u v d Hd) as ((os & ts & w & Hw) & _).
      exists w. tauto. }
  exists g'. split; [done|]. split; [done|]. split.
  - intros u v. unfold has_edge. rewrite Hg'.
    by destruct (get_edge_data (space_graph self) u v).
  - intros u v d Hd.
    destruct (Hcons u v d Hd) as ((os & ts & w & _ & _ & _ & _ & _ & Hw & _) & _).
    rewrite Hg', Hd. cbn. unfold status_of. rewrite Hw.
    eexists _, w, _. split; [done|]. cbn.
    split; [done|]. split; [done|]. split; [done|]. split; [done|]. split; [done|].
    apply iter_times_ten.
Qed.

End TopologyStatus.

Module NxRemove.
Import Nx PyFacts BuiltinFacts NxFacts TopologyEdges NxCopyFacts NxEdges TopologyOpenings
       TopologyStatus.

(** *** Removing an edge *)

Lemma assoc_dict_del {V} k y (d : list (string * V)) :
  assoc y (dict_del k d) = if String.eqb k y then None else assoc y d.
Proof.
  unfold dict_del. induction d as [|[k0 v0] d IH]; simpl.
  - by destruct (String.eqb k y).
  - destruct (String.eqb_spec k0 k) as [->|Hne]; simpl.
    + rewrite IH. destruct (String.eqb_spec k y) as [<-|Hky]; [done|].
      assert (String.eqb y k = false) as -> by (apply String.eqb_neq; congruence). done.
    + rewrite IH. destruct (String.eqb_spec y k0) as [->|?]; [|done].
      assert (String.eqb k k0 = false) as -> by (apply String.eqb_neq; congruence). done.
Qed.

Definition del_half (g : Graph) (u v : Node) : Graph :=
  dict_set u (dict_del v (neighbors g u)) g.

Lemma get_edge_data_del_half g u v x y :
  get_edge_data (del_half g u v) x y
  = if String.eqb u x && String.eqb v y then None else get_edge_data g x y.
Proof.
  unfold del_half, get_edge_data at 1.
  destruct (String.eqb_spec u x) as [<-|Hne]; cbn [andb].
  - rewrite assoc_dict_set_eq, assoc_dict_del.
    destruct (String.eqb v y); [done|].
    unfold neighbors, get_edge_data. by destruct (assoc u g).
  - by rewrite assoc_dict_set_ne.
Qed.

Lemma nodes_del_half g u v : u ∈ nodes g → nodes (del_half g u v) = nodes g.
Proof. apply keys_dict_set_in. Qed.

Lemma remove_edge_spec g u v :
  wf_graph g → has_edge g u v = true →
  ∃ g1, remove_edge g u v = Some g1
        ∧ nodes g1 = nodes g
        ∧ (∀ x y, get_edge_data g1 x y
                  = if touches x y (u, v) then None else get_edge_data g x y)
        ∧ wf_graph g1.
Proof.
  intros Hwf Huv. unfold remove_edge. rewrite Huv. cbv zeta.
  fold (del_half g u v).
  assert (u ∈ nodes g) as Hu by (by apply (has_edge_node g u v)).
  assert (v ∈ nodes g) as Hv by (by apply (wf_closed g Hwf u)).
  assert (∃ g1, (if String.eqb u v then Some (del_half g u v)
                 else if has_edge (del_half g u v) v u
                      then Some (dict_set v (dict_del u (neighbors (del_half g u v) v))
                                          (del_half g u v))
                      else None) = Some g1
                ∧ nodes g1 = nodes g
                ∧ (∀ x y, get_edge_data g1 x y
                          = if touches x y (u, v) then None else get_edge_data g x y))
    as (g1 & Hrem & Hn & He).
  { destruct (String.eqb_spec u v) as [<-|Hne].
    - eexists. split; [done|]. split; [by apply nodes_del_half|].
      intros x y. rewrite get_edge_data_del_half. unfold touches. cbn [fst snd].
      by destruct (String.eqb u x), (String.eqb u y).
    - assert (has_edge (del_half g u v) v u = true) as ->.
      { unfold has_edge. rewrite get_edge_data_del_half.
        assert (String.eqb u v = false) as -> by (by apply String.eqb_neq).
        cbn [andb]. apply (wf_sym g Hwf) in Huv. apply has_edge_true in Huv as [d ->]. done. }
      fold (del_half (del_half g u v) v u).
      eexists. split; [done|]. split.
      + rewrite nodes_del_half; rewrite nodes_del_half; done.
      + intros x y. rewrite !get_edge_data_del_half. unfold touches. cbn [fst snd].
        by destruct (String.eqb v x), (String.eqb u y), (String.eqb u x), (String.eqb v y). }
  exists g1. split; [exact Hrem|]. split; [done|]. split; [done|].
  split.
  - rewrite Hn. apply Hwf.
  - intros x y. unfold has_edge. rewrite He, Hn.
    destruct (touches x y (u, v)); [done|]. apply (wf_closed g Hwf).
  - intros x y. unfold has_edge. rewrite !He, (touches_sym y x).
    destruct (touches x y (u, v)); [done|]. apply (wf_sym g Hwf).
Qed.

(** *** Components can only split when edges go *)

Lemma connected_components_NoDup g : wf_graph g → NoDup (connected_components g).
Proof.
  intros Hwf. unfold connected_components.
  assert (∀ vs seen, (∀ v, v ∈ vs → v ∈ nodes g) → NoDup (components_from g vs seen)) as H.
  { induction vs as [|v0 vs IH]; intros seen Hvs; simpl; [constructor|].
    assert (Hvs' : ∀ v, v ∈ vs → v ∈ nodes g) by (intros v Hv; apply Hvs; by right).
    destruct (mem v0 seen); [by apply IH|].
    apply NoDup_cons. split; [|by apply IH].
    intros Hin. destruct (components_from_source _ _ _ _ Hin) as (v & Hv & Hs & Heq).
    apply Hs, elem_of_app. right. rewrite Heq. apply plain_bfs_source. }
  by apply H.
Qed.

(** The component of [g1] that holds the first node of a list. *)
Definition component_of (comps : list (list Node)) (c : list Node) : list Node :=
  default [] (List.find (λ c1, mem (hd "" c) c1) comps).

Lemma components_mono g g1 :
  wf_graph g → wf_graph g1 →
  (∀ x, x ∈ nodes g → x ∈ nodes g1) →
  (∀ x y, has_edge g1 x y = true → has_edge g x y = true) →
  length (connected_components g) ≤ length (connected_components g1).
Proof.
  intros Hwf Hwf1 Hnodes Hedges.
  set (f := component_of (connected_components g1)).
  assert (∀ c, c ∈ connected_components g →
               ∃ v, hd "" c = v ∧ v ∈ c ∧ v ∈ nodes g ∧ f c ∈ connected_components g1
                    ∧ v ∈ f c) as Hf.
  { intros c Hc. destruct (components_from_source _ _ _ _ Hc) as (v0 & Hv0 & _ & Heq).
    assert (∃ v, hd "" c = v ∧ v ∈ c) as (v & Hhd & Hv).
    { pose proof (plain_bfs_source g v0) as Hs. rewrite <- Heq in Hs.
      destruct c as [|v c]; [by apply elem_of_nil in Hs|]. exists v. split; [done | left]. }
    exists v. split; [done|]. split; [done|].
    assert (v ∈ nodes g) as Hvn by (by apply (components_from_nodes g (nodes g) [] c)).
    split; [done|].
    destruct (connected_components_cover g1 v (Hnodes v Hvn)) as (c1 & Hc1 & Hvc1).
    unfold f, component_of. rewrite Hhd.
    destruct (List.find (λ c1, mem v c1) (connected_components g1)) as [c2|] eqn:Hfind.
    - apply find_some in Hfind as [H1 H2]. cbn [default from_option id].
      split; [by apply list_elem_of_In | by apply mem_true].
    - pose proof (find_none _ _ Hfind c1) as Hnone. rewrite <- list_elem_of_In in Hnone.
      specialize (Hnone Hc1). cbn beta in Hnone. apply mem_false in Hnone. done. }
  assert (NoDup (f <$> connected_components g)) as Hnd.
  { apply NoDup_fmap_2_strong; [|by apply connected_components_NoDup].
    intros c c' Hc Hc' Heq.
    destruct (Hf c Hc) as (v & _ & Hv & Hvn & Hfc & Hvf).
    destruct (Hf c' Hc') as (v' & _ & Hv' & Hvn' & Hfc' & Hvf').
    rewrite Heq in Hvf.
    assert (reachable g1 v v') as Hreach
      by (by apply (components_from_joined g1 (nodes g1) [] (f c'))).
    apply (components_from_disjoint g (nodes g) [] c c' v'); try done.
    apply (component_closed g c v); [done | done | done |].
    by apply (reachable_mono g1). }
  rewrite <- (length_fmap f (connected_components g)).
  apply submseteq_length, NoDup_submseteq; [done|].
  intros c1 Hc1. apply list_elem_of_fmap in Hc1 as (c & -> & Hc).
  by destruct (Hf c Hc) as (v & _ & _ & _ & Hfc & _).
Qed.

End NxRemove.

Module TopologyResilience.
Import Nx TopologyBuilder PyFacts BuiltinFacts NxFacts TopologyEdges NxCopyFacts NxEdges
       TopologyOpenings TopologyStatus NxRemove.

Lemma probe_edge_spec g0 res g u v :
  wf_graph g0 → wf_graph g →
  nodes g = nodes g0 →
  (∀ x y, has_edge g x y = has_edge g0 x y) →
  has_edge g0 u v = true →
  ∃ res' g',
    probe_edge (number_connected_components g0) (res, g) (u, v) = Returns (res', g')
    ∧ (res <= res')%Z
    ∧ wf_graph g' ∧ nodes g' = nodes g0
    ∧ (∀ x y, has_edge g' x y = has_edge g0 x y)
    ∧ (∀ x y, get_edge_data g' x y
              = if touches x y (u, v) then Some no_attrs else get_edge_data g x y).
Proof.
  intros Hwf0 Hwf Hn He Huv. unfold probe_edge. cbn [fst snd].
  destruct (remove_edge_spec g u v Hwf) as (g1 & -> & Hn1 & He1 & Hwf1);
    [by rewrite He|].
  assert (get_edge_data g1 u v = None) as Hgone.
  { rewrite He1. unfold touches. cbn [fst snd]. by rewrite !String.eqb_refl. }
  rewrite Hgone. cbn [get_or].
  assert (u ∈ nodes g1 ∧ v ∈ nodes g1) as [Hu Hv].
  { rewrite Hn1, Hn. split; [by apply (has_edge_node g0 u v) | by apply (wf_closed g0 Hwf0 u)]. }
  assert (∀ x y, get_edge_data (add_edge g1 u v no_attrs) x y
                 = if touches x y (u, v) then Some no_attrs else get_edge_data g x y) as Hdata.
  { intros x y. rewrite get_edge_data_add_edge, Hgone, He1. unfold touches. cbn [fst snd].
    by destruct (String.eqb v x), (String.eqb u y), (String.eqb u x), (String.eqb v y). }
  eexists _, _. split; [done|]. split; [|split; [|split; [|split]]].
  - assert (number_connected_components g0 ≤ number_connected_components g1); [|lia].
    apply components_mono; [done | done | |].
    + intros x. by rewrite Hn1, Hn.
    + intros x y. unfold has_edge at 1. rewrite He1.
      destruct (touches x y (u, v)); [done|]. fold (has_edge g x y). by rewrite He.
  - by apply wf_add_edge.
  - rewrite nodes_add_edge_in; [by rewrite Hn1 | done | done].
  - intros x y. unfold has_edge at 1. rewrite Hdata.
    destruct (touches x y (u, v)) eqn:E.
    + destruct (touches_cases _ _ _ _ E) as [[-> ->]|[-> ->]]; [done|].
      symmetry. by apply (wf_sym g0 Hwf0).
    + fold (has_edge g x y). apply He.
  - done.
Qed.

Lemma probe_edges_spec g0 : ∀ es res g,
  wf_graph g0 → wf_graph g →
  nodes g = nodes g0 →
  (∀ x y, has_edge g x y = has_edge g0 x y) →
  (∀ u v, (u, v) ∈ es → has_edge g0 u v = true) →
  ∃ res' g',
    probe_edges (number_connected_components g0) es (res, g) = Returns (res', g')
    ∧ (res <= res')%Z
    ∧ wf_graph g' ∧ nodes g' = nodes g0
    ∧ (∀ x y, has_edge g' x y = has_edge g0 x y)
    ∧ (∀ x y, get_edge_data g' x y
              = if existsb (touches x y) es then Some no_attrs else get_edge_data g x y).
Proof.
  induction es as [|[u v] es IH]; intros res g Hwf0 Hwf Hn He Hes.
  - exists res, g. split; [done|]. split; [lia|]. done.
  - cbn [probe_edges].
    destruct (probe_edge_spec g0 res g u v Hwf0 Hwf Hn He) as
      (res1 & g1 & -> & Hle1 & Hwf1 & Hn1 & He1 & Hd1); [apply Hes; left|].
    cbn [mbind Outcome_bind].
    destruct (IH res1 g1 Hwf0 Hwf1 Hn1 He1) as (res' & g' & -> & Hle & Hwf' & Hn' & He' & Hd').
    { intros x y Hxy. apply Hes. by right. }
    exists res', g'. split; [done|]. split; [lia|]. split; [done|]. split; [done|].
    split; [done|]. intros x y. rewrite Hd', Hd1. cbn [existsb].
    by destruct (existsb (touches x y) es), (touches x y (u, v)).
Qed.

Section Resilience.
Variable edge_betweenness_centrality : Graph → list ((Node * Node) * Q).
Variable average_shortest_path_length : Graph → Outcome Q.
Variable average_clustering : Graph → Outcome Q.
Variable diameter : Graph → Outcome Q.

(** The edges the evaluation removes and puts back. *)
Definition probed (self : Builder) : list (Node * Node) :=
  firstn 3 (identify_critical_connections edge_betweenness_centrality self).

(** X13.  [evaluate_topology_resilience] leaves the nodes and the edges of
    the graph in place, but every edge it has probed comes back without
    attributes: its weight, openings, count and types are gone.  The
    score it reports lies in (0, 1]. *)
Theorem evaluate_topology_resilience_erases self apl cl dm :
  wf_graph (space_graph self) →
  (∀ u v, (u, v) ∈ probed self → has_edge (space_graph self) u v = true) →
  or_inf (average_shortest_path_length (space_graph self)) = Returns apl →
  average_clustering (space_graph self) = Returns cl →
  or_inf (diameter (space_graph self)) = Returns dm →
  ∃ res self',
    evaluate_topology_resilience edge_betweenness_centrality average_shortest_path_length
      average_clustering diameter self = Returns (res, self')
    ∧ (0 < resilience_score res <= 1)%Q
    ∧ nodes (space_graph self') = nodes (space_graph self)
    ∧ (∀ x y, has_edge (space_graph self') x y = has_edge (space_graph self) x y)
    ∧ (∀ u v, (u, v) ∈ probed self →
              get_edge_data (space_graph self') u v = Some no_attrs
              ∧ get_edge_data (space_graph self') v u = Some no_attrs)
    ∧ (∀ x y, (∀ u v, (u, v) ∈ probed self → touches x y (u, v) = false) →
              get_edge_data (space_graph self') x y = get_edge_data (space_graph self) x y).
Proof.
  intros Hwf Hedges Hapl Hcl Hdm. unfold evaluate_topology_resilience.
  rewrite Hapl, Hcl, Hdm. cbn [mbind Outcome_bind].
  destruct (probe_edges_spec (space_graph self) (probed self) 0%Z (space_graph self))
    as (res & g' & Hrun & Hle & Hwf' & Hn' & He' & Hd'); try done.
  unfold probed in Hrun. rewrite Hrun. cbn [mbind Outcome_bind fst snd].
  assert (0 < 1 + inject_Z res)%Q as Hpos.
  { assert (0 <= inject_Z res)%Q; [|lra]. change 0%Q with (inject_Z 0). by rewrite <- Zle_Qle. }
  unfold py_div. destruct (Qeq_bool (1 + inject_Z res) 0) eqn:E.
  { apply Qeq_bool_iff in E. lra. }
  cbn [lift mbind Outcome_bind]. eexists _, _. split; [done|].
  cbn [resilience_score space_graph].
  split; [|split; [done|split; [done|split]]].
  - split.
    + apply Qlt_shift_div_l; lra.
    + apply Qle_shift_div_r; [done|].
      assert (0 <= inject_Z res)%Q; [|lra].
      change 0%Q with (inject_Z 0). by rewrite <- Zle_Qle.
  - intros u v Huv.
    assert (∀ x y, touches x y (u, v) = true → existsb (touches x y) (probed self) = true)
      as Hex.
    { intros x y E'. apply existsb_exists. exists (u, v).
      split; [by apply list_elem_of_In | done]. }
    rewrite !Hd'. rewrite !Hex; [done | |].
    + unfold touches. cbn [fst snd]. by rewrite !String.eqb_refl, orb_true_r.
    + unfold touches. cbn [fst snd]. by rewrite !String.eqb_refl.
  - intros x y Hout. rewrite Hd'.
    assert (existsb (touches x y) (probed self) = false) as ->; [|done].
    apply not_true_is_false. intros Hex. apply existsb_exists in Hex as ([u v] & Hin & Ht).
    apply list_elem_of_In in Hin. by rewrite (Hout u v Hin) in Ht.
Qed.

End Resilience.

End TopologyResilience.

Module TopologyConnectivity.
Import Nx TopologyBuilder PyFacts BuiltinFacts SortingFacts NxFacts.

(** *** The ascending sort *)

Lemma insert_asc_perm {A} (key : A → Q) x l : Permutation (insert_asc key x l) (x :: l).
Proof.
  induction l as [|y l IH]; simpl; [done|].
  destruct (Qle_bool (key x) (key y)); [done|].
  rewrite IH. apply perm_swap.
Qed.

Lemma sorted_asc_perm {A} (key : A → Q) l : Permutation (sorted_asc key l) l.
Proof.
  induction l as [|x l IH]; simpl; [done|].
  rewrite insert_asc_perm. by constructor.
Qed.

Lemma insert_asc_sorted {A} (key : A → Q) x l :
  StronglySorted (λ a b, (key a <= key b)%Q) l →
  StronglySorted (λ a b, (key a <= key b)%Q) (insert_asc key x l).
Proof.
  induction l as [|y l IH]; intros Hs; simpl.
  - repeat constructor.
  - apply StronglySorted_inv in Hs as [Hs Hy].
    destruct (Qle_bool (key x) (key y)) eqn:E.
    + apply Qle_bool_iff in E. constructor; [by constructor|].
      constructor; [done|].
      eapply Forall_impl; [exact Hy|]. intros z Hz. simpl in Hz. lra.
    + assert (key y < key x)%Q as Hlt.
      { apply Qnot_le_lt. intros Hle. apply Qle_bool_iff in Hle. congruence. }
      constructor; [by apply IH|].
      eapply Permutation_Forall; [symmetry; apply insert_asc_perm|].
      constructor; [lra | done].
Qed.

Lemma sorted_asc_sorted {A} (key : A → Q) l :
  StronglySorted (λ a b, (key a <= key b)%Q) (sorted_asc key l).
Proof.
  induction l as [|x l IH]; simpl; [constructor | by apply insert_asc_sorted].
Qed.

Section Connectivity.
Variable all_shortest_paths : Graph → Node → Node → option (list (list Node)).

Local Abbreviation paths_to_exterior := (paths_to_exterior all_shortest_paths).
Local Abbreviation find_path_to_exterior := (find_path_to_exterior all_shortest_paths).
Local Abbreviation calculate_space_connectivity :=
  (calculate_space_connectivity all_shortest_paths).

(** *** One path *)

Lemma exterior_path_steps g : ∀ path acc,
  is_walk g path →
  ∃ acc', for_each (exterior_path_step g) (combine path (tl path)) acc = Ok acc'.
Proof.
  induction path as [|u path IH]; intros acc Hw; [by eexists|].
  destruct path as [|v path]; [by eexists|].
  destruct Hw as [Huv Hw]. cbn [tl combine for_each].
  apply has_edge_true in Huv as [d Hd].
  assert (exterior_path_step g acc (u, v)
          = Ok ((fst acc + get_or (e_weight d) 1)%Q, snd acc ++ get_or (e_openings d) []))
    as Hstep by (unfold exterior_path_step; cbn [fst snd]; by rewrite Hd).
  rewrite Hstep. cbn [mbind Result_bind]. apply (IH _ Hw).
Qed.

(** What a path object says about its route. *)
Definition path_of (g : Graph) (exts : list Node) (p : ExteriorPath) : Prop :=
  ep_exterior p ∈ exts
  ∧ ep_length p = (Z.of_nat (length (ep_route p)) - 1)%Z.

Lemma exterior_path_Ok g e path p :
  exterior_path g e path = Ok p →
  ep_route p = path ∧ ep_exterior p = e
  ∧ ep_length p = (Z.of_nat (length path) - 1)%Z.
Proof.
  unfold exterior_path. intros H. apply bind_Ok in H as (acc & _ & [= <-]). done.
Qed.

(** *** The paths of one space *)

Lemma append_exterior_paths g e (walks : ∀ p, p ∈ [] → is_walk g p) : ∀ ps acc,
  (∀ p, p ∈ ps → is_walk g p) →
  ∃ new,
    for_each (λ paths path,
        path_obj ← exterior_path g e path; Ok (paths ++ [path_obj])) ps acc
    = Ok (acc ++ new)
    ∧ length new = length ps
    ∧ ∀ p, p ∈ new → path_of g [e] p.
Proof.
  clear walks. induction ps as [|path ps IH]; intros acc Hw.
  - exists []. rewrite app_nil_r. split; [done|]. split; [done|].
    by intros p Hp%elem_of_nil.
  - cbn [for_each].
    destruct (exterior_path_steps g path (0%Q, [])) as (acc' & Hacc'); [apply Hw; left|].
    set (p0 := mkExteriorPath path (snd acc') (fst acc')
                              (Z.of_nat (length path) - 1) e).
    assert (exterior_path g e path = Ok p0) as Hp0
      by (unfold exterior_path; by rewrite Hacc').
    rewrite Hp0. cbn [mbind Result_bind].
    destruct (IH (acc ++ [p0])) as (new & Hrun & Hlen & Hnew);
      [intros p Hp; apply Hw; by right|].
    exists (p0 :: new).
    rewrite Hrun, <- app_assoc. split; [done|]. split; [simpl; by rewrite Hlen|].
    intros p [->|Hp]%elem_of_cons; [|by apply Hnew].
    split; [left | done].
Qed.

Lemma paths_to_exterior_spec g space_id max_paths acc e :
  space_id ∈ nodes g → e ∈ nodes g →
  (∀ s t ps p, all_shortest_paths g s t = Some ps → p ∈ ps → is_walk g p) →
  ∃ new,
    paths_to_exterior g space_id max_paths acc e = Ok (acc ++ new)
    ∧ length new ≤ max_paths
    ∧ ∀ p, p ∈ new → path_of g [e] p.
Proof.
  intros Hs He Hlib. unfold TopologyBuilder.paths_to_exterior, has_path.
  rewrite (proj2 (has_node_true g space_id) Hs), (proj2 (has_node_true g e) He).
  cbn [negb mbind Result_bind].
  destruct (mem e (plain_bfs g space_id)); cbn [negb].
  2:{ exists []. rewrite app_nil_r. split; [done|]. split; [simpl; lia|].
      by intros p Hp%elem_of_nil. }
  destruct (all_shortest_paths g space_id e) as [ps|] eqn:Eps.
  2:{ exists []. rewrite app_nil_r. split; [done|]. split; [simpl; lia|].
      by intros p Hp%elem_of_nil. }
  destruct (append_exterior_paths g e (λ p Hp, False_ind _ (proj1 (elem_of_nil p) Hp))
              (firstn max_paths ps) acc) as (new & Hrun & Hlen & Hnew).
  { intros p Hp. apply (Hlib _ _ _ _ Eps). by apply (subseteq_take max_paths ps). }
  exists new. split; [done|]. split; [|done].
  rewrite Hlen, length_take. lia.
Qed.

Lemma all_paths_to_exterior g space_id max_paths :
  space_id ∈ nodes g →
  (∀ s t ps p, all_shortest_paths g s t = Some ps → p ∈ ps → is_walk g p) →
  ∀ exts acc,
    (∀ e, e ∈ exts → e ∈ nodes g) →
    ∃ new,
      for_each (paths_to_exterior g space_id max_paths) exts acc = Ok (acc ++ new)
      ∧ length new ≤ max_paths * length exts
      ∧ ∀ p, p ∈ new → path_of g exts p.
Proof.
  intros Hs Hlib. induction exts as [|e exts IH]; intros acc Hexts.
  - exists []. rewrite app_nil_r. split; [done|]. split; [simpl; lia|].
    by intros p Hp%elem_of_nil.
  - cbn [for_each].
    destruct (paths_to_exterior_spec g space_id max_paths acc e Hs) as (new1 & Hrun1 & Hlen1 & Hnew1);
      [apply Hexts; left | done |].
    rewrite Hrun1. cbn.
    destruct (IH (acc ++ new1)) as (new2 & Hrun2 & Hlen2 & Hnew2);
      [intros e' He'; apply Hexts; by right|].
    exists (new1 ++ new2). rewrite Hrun2, <- app_assoc. split; [done|].
    split; [rewrite length_app; simpl; lia|].
    intros p [Hp|Hp]%elem_of_app.
    + destruct (Hnew1 p Hp) as [H1 H2]. split; [|done].
      apply list_elem_of_singleton in H1 as ->. left.
    + destruct (Hnew2 p Hp) as [H1 H2]. split; [by right | done].
Qed.

Lemma find_path_to_exterior_spec self space_id max_paths :
  (∀ e, e ∈ exterior_nodes self → e ∈ nodes (space_graph self)) →
  (∀ s t ps p, all_shortest_paths (space_graph self) s t = Some ps → p ∈ ps →
               is_walk (space_graph self) p) →
  ∃ paths,
    find_path_to_exterior self space_id max_paths = Ok paths
    ∧ length paths ≤ max_paths * length (exterior_nodes self)
    ∧ StronglySorted (λ p q, (ep_weight p <= ep_weight q)%Q) paths
    ∧ ∀ p, p ∈ paths → path_of (space_graph self) (exterior_nodes self) p.
Proof.
  intros Hexts Hlib. unfold TopologyBuilder.find_path_to_exterior.
  destruct (has_node (space_graph self) space_id) eqn:Hnode; cbn.
  2:{ exists []. split; [done|]. split; [simpl; lia|]. split; [constructor|].
      by intros p Hp%elem_of_nil. }
  apply has_node_true in Hnode.
  destruct (all_paths_to_exterior (space_graph self) space_id max_paths Hnode Hlib
              (exterior_nodes self) [] Hexts) as (new & Hrun & Hlen & Hnew).
  rewrite Hrun. cbn. exists (sorted_asc ep_weight new).
  split; [done|]. split; [by rewrite (Permutation_length (sorted_asc_perm _ _))|].
  split; [apply sorted_asc_sorted|].
  intros p Hp. apply Hnew. by rewrite <- (sorted_asc_perm ep_weight new).
Qed.

(** *** The entries *)

(** What an entry says, given the exterior nodes of the builder. *)
Definition entry_ok (self : Builder) (c : Connectivity) : Prop :=
  num_paths c = length (paths c)
  ∧ num_paths c ≤ 3 * length (exterior_nodes self)
  ∧ (has_path_to_exterior c = true ↔ paths c ≠ [])
  ∧ StronglySorted (λ p q, (ep_weight p <= ep_weight q)%Q) (paths c)
  ∧ (∀ p, p ∈ paths c →
          ep_exterior p ∈ exterior_nodes self
          ∧ ep_length p = (Z.of_nat (length (ep_route p)) - 1)%Z)
  ∧ (paths c = [] → min_weight c = Inf ∧ avg_layers c = Inf)
  ∧ (paths c ≠ [] →
     ∃ p, p ∈ paths c ∧ min_weight c = Finite (ep_weight p)
          ∧ ∀ q, q ∈ paths c → (ep_weight p <= ep_weight q)%Q).

Lemma space_connectivity_ok self ps :
  length ps ≤ 3 * length (exterior_nodes self) →
  StronglySorted (λ p q, (ep_weight p <= ep_weight q)%Q) ps →
  (∀ p, p ∈ ps → path_of (space_graph self) (exterior_nodes self) p) →
  entry_ok self (space_connectivity ps).
Proof.
  intros Hlen Hsorted Hps. unfold entry_ok. destruct ps as [|first ps]; cbn.
  - split; [done|]. split; [lia|]. split; [done|]. split; [constructor|].
    split; [by intros p Hp%elem_of_nil|]. split; [done | done].
  - split; [done|]. split; [simpl in Hlen; lia|]. split; [done|]. split; [done|].
    split; [apply Hps|]. split; [done|]. intros _. exists first.
    split; [left|]. split; [done|].
    apply StronglySorted_inv in Hsorted as [_ Hfirst].
    intros q [->|Hq]%elem_of_cons; [lra|].
    by apply (proj1 (Forall_forall _ _) Hfirst).
Qed.

(** X14.  [calculate_space_connectivity] returns when the exterior nodes
    are nodes of the graph and the library lists walks of the graph.
    It has an entry for exactly the nodes that are not exterior nodes.
    In an entry, [num_paths] counts the paths, at most three for each
    exterior node; [has_path_to_exterior] says whether there is one;
    the paths are in ascending order of weight, each ends at an
    exterior node and has a length one less than its route; and
    [min_weight] is the least weight among the paths, or infinite when
    there is none. *)
Theorem calculate_space_connectivity_entries self :
  (∀ e, e ∈ exterior_nodes self → e ∈ nodes (space_graph self)) →
  (∀ s t ps p, all_shortest_paths (space_graph self) s t = Some ps → p ∈ ps →
               is_walk (space_graph self) p) →
  ∃ result,
    calculate_space_connectivity self = Ok result
    ∧ (∀ node, is_Some (assoc node result)
               ↔ node ∈ nodes (space_graph self) ∧ node ∉ exterior_nodes self)
    ∧ ∀ node c, assoc node result = Some c →
        num_paths c = length (paths c)
        ∧ num_paths c ≤ 3 * length (exterior_nodes self)
        ∧ (has_path_to_exterior c = true ↔ paths c ≠ [])
        ∧ StronglySorted (λ p q, (ep_weight p <= ep_weight q)%Q) (paths c)
        ∧ (∀ p, p ∈ paths c →
                ep_exterior p ∈ exterior_nodes self
                ∧ ep_length p = (Z.of_nat (length (ep_route p)) - 1)%Z)
        ∧ (paths c = [] → min_weight c = Inf ∧ avg_layers c = Inf)
        ∧ (paths c ≠ [] →
           ∃ p, p ∈ paths c ∧ min_weight c = Finite (ep_weight p)
                ∧ ∀ q, q ∈ paths c → (ep_weight p <= ep_weight q)%Q).
Proof.
  intros Hexts Hlib. unfold TopologyBuilder.calculate_space_connectivity.
  assert (∀ ns acc,
    ∃ result,
      for_each (λ result node,
          if mem node (exterior_nodes self) then Ok result
          else
            exterior_paths ← find_path_to_exterior self node 3;
            Ok (dict_set node (space_connectivity exterior_paths) result)) ns acc
      = Ok result
      ∧ (∀ node, is_Some (assoc node result)
                 ↔ is_Some (assoc node acc) ∨ (node ∈ ns ∧ node ∉ exterior_nodes self))
      ∧ ∀ node c, assoc node result = Some c →
                  assoc node acc = Some c ∨ entry_ok self c) as Hloop.
  { induction ns as [|n ns IH]; intros acc.
    - exists acc. split; [done|]. split; [|by left].
      intros node. split; [by left|]. by intros [?|[?%elem_of_nil _]].
    - cbn [for_each]. destruct (mem n (exterior_nodes self)) eqn:Hmem; cbn.
      + apply mem_true in Hmem. destruct (IH acc) as (result & Hrun & Hdom & Hent).
        exists result. split; [done|]. split; [|done].
        intros node. rewrite Hdom. split.
        * intros [?|[? ?]]; [by left|]. right. split; [by right | done].
        * intros [?|[[->|?]%elem_of_cons ?]]; [by left | done | right; by split].
      + apply mem_false in Hmem.
        destruct (find_path_to_exterior_spec self n 3 Hexts Hlib)
          as (ps & Hps & Hlen & Hsorted & Hpaths).
        rewrite Hps. cbn.
        destruct (IH (dict_set n (space_connectivity ps) acc))
          as (result & Hrun & Hdom & Hent).
        exists result. split; [done|]. split.
        * intros node. rewrite Hdom. destruct (decide (node = n)) as [->|Hne].
          -- rewrite assoc_dict_set_eq. split; [intros _|by left; eexists].
             right. split; [left | done].
          -- rewrite assoc_dict_set_ne by done. split.
             ++ intros [?|[? ?]]; [by left|]. right. split; [by right | done].
             ++ intros [?|[[->|?]%elem_of_cons ?]]; [by left | done | right; by split].
        * intros node c Hc. destruct (Hent node c Hc) as [Hacc|Hok]; [|by right].
          destruct (decide (node = n)) as [->|Hne].
          -- rewrite assoc_dict_set_eq in Hacc. injection Hacc as <-. right.
             by apply space_connectivity_ok.
          -- rewrite assoc_dict_set_ne in Hacc by done. by left. }
  destruct (Hloop (nodes (space_graph self)) []) as (result & Hrun & Hdom & Hent).
  exists result. split; [done|]. split.
  - intros node. rewrite Hdom. split; [|by right]. by intros [[? [=]]|?].
  - intros node c Hc. by destruct (Hent node c Hc) as [[=]|Hok].
Qed.

End Connectivity.

End TopologyConnectivity.

Module GeneratorPaths.
Import Nx SpaceDataGenerator PyFacts BuiltinFacts AchReports.
Import AchCalculator (VentPath, route, via, weight).

Lemma combine_map_lr {A B C D} (f : A → C) (g : A → B) (h : A * B → D) (l : list A) :
  map h (combine l (map g l)) = map (λ x, h (x, g x)) l.
Proof. induction l as [|x l IH]; simpl; [done|]. by rewrite IH. Qed.

(** What [_process_ventilation_paths] appends for one space whose
    paths have non-negative weight. *)
Lemma process_space_paths_eq processed space_id paths :
  (∀ p, p ∈ paths → (0 <= weight p)%Q) →
  process_space_paths processed (space_id, paths)
  = Ok (match paths with
        | [] => processed
        | _ => processed
               ++ [(space_id,
                    map (λ p, mkProcessedPath (route p) (via p)
                                (conductance p / py_sum (map conductance paths))%Q)
                        paths)]
        end).
Proof.
  intros Hpos. unfold process_space_paths. cbn [fst snd].
  rewrite path_weights_ok by done. cbn [app mbind Result_bind].
  destruct paths as [|p paths]; [done|].
  assert (0 < py_sum (map conductance (p :: paths)))%Q as Htot.
  { apply py_sum_pos; [done|]. intros x Hx.
    apply list_elem_of_fmap in Hx as (q & -> & Hq). by apply conductance_pos, Hpos. }
  apply Qltb_lt in Htot. rewrite Htot.
  rewrite map_map.
  rewrite (combine_map_lr (λ p, p)
             (λ q, (conductance q / py_sum (map conductance (p :: paths)))%Q)
             (λ pc, mkProcessedPath (route (fst pc)) (via (fst pc)) (snd pc))).
  done.
Qed.

(** X15.  The shares written for a space add up to one.  For path lists of
    non-negative weight, [_process_ventilation_paths] returns one entry
    for every space that has a path and none for the others; an entry
    lists the routes of the space in their order, each with a positive
    share, and the shares of a space sum to one. *)
Theorem process_ventilation_paths_shares ventilation_paths :
  (∀ space_id paths p,
     ventilation_paths !! space_id = Some paths → p ∈ paths → (0 <= weight p)%Q) →
  ∃ processed,
    process_ventilation_paths ventilation_paths = Ok processed
    ∧ (∀ space_id paths,
         ventilation_paths !! space_id = Some paths → paths ≠ [] →
         ∃ entry, (space_id, entry) ∈ processed)
    ∧ (∀ space_id entry, (space_id, entry) ∈ processed →
         ∃ paths,
           ventilation_paths !! space_id = Some paths ∧ paths ≠ []
           ∧ map pr_route entry = map route paths
           ∧ map pr_via entry = map via paths
           ∧ (∀ c, c ∈ map pr_contribution entry → (0 < c)%Q)
           ∧ (py_sum (map pr_contribution entry) == 1)%Q).
Proof.
  intros Hpos. unfold process_ventilation_paths.
  assert (∀ items processed,
            (∀ space_id paths p, (space_id, paths) ∈ items → p ∈ paths → (0 <= weight p)%Q) →
            ∃ processed',
              for_each process_space_paths items processed = Ok processed'
              ∧ ∀ space_id entry,
                  (space_id, entry) ∈ processed' ↔
                  (space_id, entry) ∈ processed
                  ∨ ∃ paths, (space_id, paths) ∈ items ∧ paths ≠ []
                      ∧ entry = map (λ p, mkProcessedPath (route p) (via p)
                                      (conductance p / py_sum (map conductance paths))%Q)
                                    paths) as Hloop.
  { induction items as [|[sid paths] items IH]; intros processed Hitems.
    - exists processed. split; [done|]. intros space_id entry. split; [by left|].
      intros [?|(paths & Hin & _)]; [done | by apply elem_of_nil in Hin].
    - cbn [for_each]. rewrite process_space_paths_eq.
      2:{ intros p Hp. apply (Hitems sid paths); [left | done]. }
      cbn [mbind Result_bind].
      destruct (IH (match paths with
                    | [] => processed
                    | _ => processed ++ [(sid, map (λ p, mkProcessedPath (route p) (via p)
                                 (conductance p / py_sum (map conductance paths))%Q) paths)]
                    end)) as (processed' & -> & Hiff).
      { intros space_id ps p Hin. apply (Hitems space_id ps). by right. }
      exists processed'. split; [done|]. intros space_id entry. rewrite Hiff.
      destruct paths as [|p0 paths].
      + split.
        * intros [?|(ps & Hin & Hne & ->)]; [by left|]. right. exists ps.
          split; [by right | done].
        * intros [?|(ps & Hin & Hne & ->)]; [by left|]. right. exists ps.
          apply elem_of_cons in Hin as [[= -> ->]|Hin]; done.
      + rewrite elem_of_app, list_elem_of_singleton. split.
        * intros [[?|[= -> ->]]|(ps & Hin & Hne & ->)]; [by left | |].
          -- right. exists (p0 :: paths). split; [left | done].
          -- right. exists ps. split; [by right | done].
        * intros [?|(ps & Hin & Hne & ->)]; [left; by left|].
          apply elem_of_cons in Hin as [[= -> ->]|Hin]; [left; by right|].
          right. by exists ps. }
  destruct (Hloop (map_to_list ventilation_paths) []) as (processed & Hrun & Hiff).
  { intros space_id paths p Hin. apply (Hpos space_id). by apply elem_of_map_to_list. }
  exists processed. split; [done|]. split.
  - intros space_id paths Hget Hne. eexists. apply Hiff. right. exists paths.
    split; [by apply elem_of_map_to_list | done].
  - intros space_id entry Hin. apply Hiff in Hin as [Hin|(paths & Hin & Hne & ->)];
      [by apply elem_of_nil in Hin|].
    apply elem_of_map_to_list in Hin. exists paths. split; [done|]. split; [done|].
    rewrite !map_map. cbn [pr_route pr_via pr_contribution].
    split; [done|]. split; [done|].
    assert (0 < py_sum (map conductance paths))%Q as Htot.
    { apply py_sum_pos; [by destruct paths|]. intros x Hx.
      apply list_elem_of_fmap in Hx as (q & -> & Hq). by apply conductance_pos, (Hpos space_id paths). }
    split.
    + intros c Hc. apply list_elem_of_fmap in Hc as (p & -> & Hp).
      apply Qlt_shift_div_l; [done|]. rewrite Qmult_0_l.
      by apply conductance_pos, (Hpos space_id paths).
    + rewrite <- (map_map conductance (λ w, (w / py_sum (map conductance paths))%Q)).
      rewrite py_sum_scale. field. lra.
Qed.

End GeneratorPaths.

Module DetectorIds.
Import Nx SpaceDetector PyFacts BuiltinFacts.

(** *** Zero-padded numerals *)

(** Reading a decimal numeral back. *)
Definition read_nat (s : string) : option nat :=
  Nat.of_uint <$> DecimalString.NilEmpty.uint_of_string s.

Lemma read_nat_zero s : read_nat (String.append "0" s) = read_nat s.
Proof.
  unfold read_nat. change (String.append "0" s) with (String.append "0" "" +:+ s).
  cbv [String.append]. cbn [NilEmpty.uint_of_string].
  destruct (NilEmpty.uint_of_string s) as [d|]; reflexivity.
Qed.

Lemma read_nat_zeros k s : read_nat (String.append (zeros k) s) = read_nat s.
Proof.
  induction k as [|k IH]; [done|].
  cbn [zeros]. change (String.append (String.append "0" (zeros k)) s)
    with (String.append "0" (String.append (zeros k) s)).
  by rewrite read_nat_zero.
Qed.

Lemma read_nat_digits n : read_nat (digits n) = Some n.
Proof.
  unfold read_nat, digits. pose proof (Unsigned.of_to n) as Hn.
  destruct (Nat.to_uint n) eqn:E;
    try (change (NilZero.string_of_uint ?d) with (NilEmpty.string_of_uint d);
         rewrite NilEmpty.usu; simpl; by rewrite <- Hn).
  simpl. by rewrite <- Hn.
Qed.

(** [f"{n:03d}"] can be read back: no two numbers share a numeral. *)
Lemma read_nat_format_03d n : read_nat (format_03d n) = Some n.
Proof. unfold format_03d. by rewrite read_nat_zeros, read_nat_digits. Qed.

Lemma format_03d_inj n m : format_03d n = format_03d m → n = m.
Proof.
  intros H. pose proof (read_nat_format_03d n) as Hn.
  rewrite H, read_nat_format_03d in Hn. by injection Hn.
Qed.

Definition space_name (i : nat) : string := String.append "space_" (format_03d i).

Lemma space_name_inj i j : space_name i = space_name j → i = j.
Proof. unfold space_name. intros H. by apply append_inj_r, format_03d_inj in H. Qed.

(** *** The spaces kept by [detect_spaces] *)

Definition well_formed_space (min_space_volume base_voxel_size : Q) (sp : DetectedSpace)
  : Prop :=
  (min_space_volume <= space_volume sp)%Q
  ∧ space_volume sp = (inject_Z (Z.of_nat (voxel_count sp)) * base_voxel_size ^ 3)%Q
  ∧ voxel_count sp = length (voxel_indices sp)
  ∧ space_type sp = "unknown" ∧ merged_from sp = None.

Lemma keep_component_ids min_space_volume base_voxel_size spaces c :
  map space_id spaces = map space_name (seq 0 (length spaces)) →
  Forall (well_formed_space min_space_volume base_voxel_size) spaces →
  map space_id (keep_component min_space_volume base_voxel_size spaces c)
  = map space_name
      (seq 0 (length (keep_component min_space_volume base_voxel_size spaces c)))
  ∧ Forall (well_formed_space min_space_volume base_voxel_size)
           (keep_component min_space_volume base_voxel_size spaces c).
Proof.
  intros Hids Hwf. unfold keep_component.
  destruct (Qltb _ min_space_volume) eqn:E; [done|]. split.
  - rewrite map_app, length_app, seq_app, map_app, Hids. done.
  - apply Forall_app. split; [done|]. constructor; [|constructor].
    apply Qltb_ge in E. by repeat split.
Qed.

Lemma keep_components_ids min_space_volume base_voxel_size components : ∀ spaces,
  map space_id spaces = map space_name (seq 0 (length spaces)) →
  Forall (well_formed_space min_space_volume base_voxel_size) spaces →
  map space_id (fold_left (keep_component min_space_volume base_voxel_size)
                          components spaces)
  = map space_name
      (seq 0 (length (fold_left (keep_component min_space_volume base_voxel_size)
                                components spaces)))
  ∧ Forall (well_formed_space min_space_volume base_voxel_size)
           (fold_left (keep_component min_space_volume base_voxel_size) components spaces).
Proof.
  induction components as [|c components IH]; intros spaces Hids Hwf; [done|].
  cbn [fold_left].
  destruct (keep_component_ids min_space_volume base_voxel_size spaces c Hids Hwf).
  by apply IH.
Qed.

(** X16.  The spaces [detect_spaces] returns are named [space_000],
    [space_001], ... in order, so no two share an id; each has at least
    the minimum volume, a volume of voxel count times the cube of the
    voxel size, type "unknown", and is not a merged space. *)
Theorem detect_spaces_ids min_space_volume max_seed_points draws voxel_grid
    base_voxel_size spaces :
  detect_spaces min_space_volume max_seed_points draws voxel_grid base_voxel_size
  = Ok spaces →
  map space_id spaces = map space_name (seq 0 (length spaces))
  ∧ NoDup (map space_id spaces)
  ∧ ∀ sp, sp ∈ spaces →
      (min_space_volume <= space_volume sp)%Q
      ∧ space_volume sp = (inject_Z (Z.of_nat (voxel_count sp)) * base_voxel_size ^ 3)%Q
      ∧ voxel_count sp = length (voxel_indices sp)
      ∧ space_type sp = "unknown" ∧ merged_from sp = None.
Proof.
  unfold detect_spaces. intros H. apply bind_Ok in H as (filled & _ & [= <-]).
  destruct (keep_components_ids min_space_volume base_voxel_size
              (find_connected_components filled) []) as (Hids & Hwf); [done | done |].
  split; [done|]. split.
  - rewrite Hids. apply NoDup_fmap_2; [intros i j; apply space_name_inj | apply NoDup_seq].
  - intros sp Hsp. by apply (proj1 (Forall_forall _ _) Hwf).
Qed.

End DetectorIds.

Module DetectorFlood.
Import Nx SpaceDetector PyFacts BuiltinFacts SpaceDetectorSpec.

(** *** What the flood fill reaches *)

(** One step of the fill: to a face neighbour inside the array that is
    set in the grid. *)
Definition fill_step (s : Shape) (grid : gset Voxel) (a b : Voxel) : Prop :=
  b ∈ map (shift a) neighbors ∧ in_bounds s b = true ∧ b ∈ grid.

(** The cells joined to a set cell [a] through set cells. *)
Definition joined (s : Shape) (grid : gset Voxel) (a w : Voxel) : Prop :=
  a ∈ grid ∧ rtc (fill_step s grid) a w.

Lemma elem_of_set_neighbors s grid v n :
  n ∈ set_neighbors s grid v ↔ fill_step s grid v n.
Proof.
  unfold set_neighbors, fill_step.
  rewrite list_elem_of_In, filter_In, <- list_elem_of_In, andb_true_iff, bool_decide_eq_true.
  tauto.
Qed.

Lemma joined_in_grid s grid a w : joined s grid a w → w ∈ grid.
Proof.
  intros [Ha Hrtc]. induction Hrtc as [|x y z Hxy _ IH]; [done|].
  apply IH. by destruct Hxy as (_ & _ & ?).
Qed.

(** The loop, run with enough fuel: it clears only cells joined to the
    cells of the queue, clears the cells of the queue, and stops when
    no cleared cell has a set neighbour left. *)
Lemma flood_loop_exact (s : Shape) (grid0 : gset Voxel) (P : Voxel → Prop) :
  (∀ a b, P a → fill_step s grid0 a b → P b) →
  ∀ fuel grid queue,
    7 * size grid + length queue ≤ fuel →
    grid ⊆ grid0 →
    (∀ q, q ∈ queue → q ∈ grid0 → P q) →
    (∀ r, r ∈ grid0 → r ∉ grid → P r) →
    (∀ r n, r ∈ grid0 → r ∉ grid → fill_step s grid0 r n → n ∈ grid → n ∈ queue) →
    let result := flood_loop fuel s grid queue in
    result ⊆ grid
    ∧ (∀ q, q ∈ queue → q ∉ result)
    ∧ (∀ r, r ∈ grid0 → r ∉ result → P r)
    ∧ (∀ r n, r ∈ grid0 → r ∉ result → fill_step s grid0 r n → n ∉ result).
Proof.
  intros HP. induction fuel as [|fuel IH]; intros grid queue Hfuel Hsub Hq Hrem Hfront.
  - assert (size grid = 0) as Hsize by lia.
    apply size_empty_iff in Hsize. destruct queue; [|simpl in Hfuel; lia].
    cbn. split; [done|]. split; [intros q Hin; by apply elem_of_nil in Hin|].
    split; [done|]. intros r n _ _ _. rewrite Hsize. apply not_elem_of_empty.
  - destruct queue as [|v queue].
    { cbn. split; [done|]. split; [intros q Hin; by apply elem_of_nil in Hin|].
      split; [done|]. intros r n Hr0 Hr Hstep Hn.
      apply (elem_of_nil n). by apply (Hfront r n). }
    cbn [flood_loop]. case_bool_decide as Hv.
    + destruct (IH (grid ∖ {[v]}) (queue ++ set_neighbors s (grid ∖ {[v]}) v))
        as (H1 & H2 & H3 & H4).
      * rewrite length_app. pose proof (set_neighbors_length s (grid ∖ {[v]}) v).
        pose proof (size_clear grid v Hv). simpl in Hfuel. lia.
      * set_solver.
      * intros q Hin Hq0. apply elem_of_app in Hin as [Hin|Hin].
        -- apply Hq; [by right | done].
        -- apply elem_of_set_neighbors in Hin as (Hadj & Hb & Hg).
           apply (HP v); [apply Hq; [left | by apply Hsub]|].
           split; [done|]. split; [done|]. apply Hsub. set_solver.
      * intros r Hr0 Hr. destruct (decide (r = v)) as [->|Hne].
        -- apply Hq; [left | done].
        -- apply Hrem; [done|]. set_solver.
      * intros r n Hr0 Hr Hstep Hn. apply elem_of_app.
        destruct (decide (r = v)) as [->|Hne].
        -- right. apply elem_of_set_neighbors.
           destruct Hstep as (? & ? & ?). by repeat split.
        -- left. assert (n ∈ v :: queue) as Hin.
           { apply (Hfront r n); [done | set_solver | done | set_solver]. }
           apply elem_of_cons in Hin as [->|Hin]; [set_solver | done].
      * split; [set_solver|]. split; [|done].
        intros q Hin. apply elem_of_cons in Hin as [->|Hin].
        -- intros Hin. apply H1 in Hin. set_solver.
        -- apply H2. apply elem_of_app. by left.
    + destruct (IH grid queue) as (H1 & H2 & H3 & H4).
      * simpl in Hfuel. lia.
      * done.
      * intros q Hin. apply Hq. by right.
      * done.
      * intros r n Hr0 Hr Hstep Hn.
        assert (n ∈ v :: queue) as Hin by (by apply (Hfront r n)).
        apply elem_of_cons in Hin as [->|Hin]; done.
      * split; [done|]. split; [|done].
        intros q Hin. apply elem_of_cons in Hin as [->|Hin]; [|by apply H2].
        intros Hin. by apply H1 in Hin.
Qed.

(** [_flood_fill_3d] clears exactly the cells joined to the start. *)
Lemma flood_fill_3d_exact s grid start w :
  w ∈ flood_fill_3d s grid start ↔ w ∈ grid ∧ ¬ joined s grid start w.
Proof.
  unfold flood_fill_3d. case_bool_decide as Hs.
  - destruct (flood_loop_exact s grid (joined s grid start)) with
      (fuel := flood_fuel grid) (grid := grid) (queue := [start])
      as (H1 & H2 & H3 & H4).
    + intros a b [Ha Hab] Hstep. split; [done|]. by eapply rtc_r.
    + unfold flood_fuel. simpl. lia.
    + done.
    + intros q Hq _. apply list_elem_of_singleton in Hq as ->. by split.
    + done.
    + done.
    + split.
      * intros Hw. split; [by apply H1|]. intros [_ Hrtc].
        assert (∀ x w', x ∈ grid → x ∉ flood_loop (flood_fuel grid) s grid [start] →
                     rtc (fill_step s grid) x w' →
                     w' ∉ flood_loop (flood_fuel grid) s grid [start]) as Hclosed.
        { clear Hw Hrtc. intros x w' Hx Hout Hxw.
          induction Hxw as [x|x y z Hxy _ IH]; [done|].
          apply IH; [by destruct Hxy as (_ & _ & ?) | by apply (H4 x y)]. }
        apply (Hclosed start w); [done | apply H2; left | done | done].
      * intros [Hw Hnot].
        destruct (decide (w ∈ flood_loop (flood_fuel grid) s grid [start])) as [?|Hout];
          [done|].
        destruct Hnot. by apply H3.
  - split; [intros Hw; split; [done | by intros [? _]] | by intros [? _]].
Qed.

(** The fill from a later seed is not changed by the fills before it:
    away from the cells already cleared, being joined means the same
    in the grid that is left. *)
Lemma joined_after_fill s grid seed a w :
  ¬ joined s grid seed w →
  joined s grid a w ↔ joined s (flood_fill_3d s grid seed) a w.
Proof.
  intros Hnot. split.
  - intros [Ha Hrtc].
    assert (∀ x, rtc (fill_step s grid) x w → x ∈ grid → x ∈ flood_fill_3d s grid seed)
      as Hkeep.
    { intros x Hxw Hx. apply flood_fill_3d_exact. split; [done|].
      intros [Hseed Hsx]. apply Hnot. split; [done|]. by etrans. }
    split; [by apply Hkeep|].
    clear Ha. induction Hrtc as [x|x y z Hxy Hyz IH]; [done|].
    assert (y ∈ flood_fill_3d s grid seed) as Hy.
    { apply Hkeep; [done | by destruct Hxy as (_ & _ & ?)]. }
    eapply rtc_l; [|by apply IH].
    destruct Hxy as (H1 & H2 & H3). by repeat split.
  - intros [Ha Hrtc]. split; [by apply (flood_fill_3d_subset s grid seed)|].
    eapply rtc_subrel; [|exact Hrtc].
    intros x y (H1 & H2 & H3). split; [done|]. split; [done|].
    by apply (flood_fill_3d_subset s grid seed).
Qed.

(** Filling from a list of seeds clears exactly the cells joined to one
    of the seeds. *)
Lemma flood_seeds_exact s seeds : ∀ grid w,
  w ∈ fold_left (flood_fill_3d s) seeds grid
  ↔ w ∈ grid ∧ ∀ seed, seed ∈ seeds → ¬ joined s grid seed w.
Proof.
  induction seeds as [|seed seeds IH]; intros grid w; cbn [fold_left].
  - split; [intros Hw; split; [done|]; intros ? Hin; by apply elem_of_nil in Hin | by intros [? _]].
  - rewrite IH, flood_fill_3d_exact. split.
    + intros [[Hw Hnot] Hrest]. split; [done|]. intros seed' Hin.
      apply elem_of_cons in Hin as [->|Hin]; [done|].
      rewrite (joined_after_fill s grid seed seed' w Hnot). by apply Hrest.
    + intros [Hw Hall]. assert (¬ joined s grid seed w) as Hnot by (apply Hall; left).
      split; [done|]. intros seed' Hin.
      rewrite <- (joined_after_fill s grid seed seed' w Hnot). apply Hall. by right.
Qed.

Lemma range_elem n x : (0 <= x < n)%Z → x ∈ range n.
Proof.
  intros Hx. unfold range. apply list_elem_of_fmap. exists (Z.to_nat x).
  split; [lia|]. apply elem_of_seq. lia.
Qed.

Lemma box_elem s v : in_bounds s v = true → v ∈ box s.
Proof.
  destruct s as [[sx sy] sz], v as [[x y] z]. unfold in_bounds, box. intros Hv.
  repeat (apply andb_true_iff in Hv as [Hv ?]).
  apply list_elem_of_bind. exists x. split; [|apply range_elem; lia].
  apply list_elem_of_bind. exists y. split; [|apply range_elem; lia].
  apply list_elem_of_bind. exists z. split; [|apply range_elem; lia].
  apply list_elem_of_singleton. done.
Qed.

(** X17.  Exterior removal without subsampling.  When the array has no empty
    axis and the empty boundary cells number at most [max_seed_points],
    [_remove_external_space] returns the grid whose set cells are the
    set cells of its input that are not joined, through set cells, to
    any set cell on the boundary of the array: it clears everything
    that is open to the outside and keeps every enclosed cell. *)
Theorem exterior_removal_exact max_seed_points draws empty_space :
  (0 < fst (fst (shape empty_space)))%Z
  ∧ (0 < snd (fst (shape empty_space)))%Z ∧ (0 < snd (shape empty_space))%Z →
  (∀ v, v ∈ cells empty_space → in_bounds (shape empty_space) v = true) →
  length (boundary_seeds empty_space) ≤ max_seed_points →
  ∃ filled,
    remove_external_space max_seed_points draws empty_space = Ok filled
    ∧ shape filled = shape empty_space
    ∧ ∀ w, w ∈ cells filled
           ↔ w ∈ cells empty_space
             ∧ ∀ b, on_boundary (shape empty_space) b = true →
                    ¬ joined (shape empty_space) (cells empty_space) b w.
Proof.
  intros Hshape Hbounds Hfew. unfold remove_external_space.
  destruct (shape empty_space) as [[sx sy] sz] eqn:Hs. cbn [fst snd] in Hshape.
  assert ((sx <=? 0)%Z || (sy <=? 0)%Z || (sz <=? 0)%Z = false) as ->.
  { apply orb_false_iff. split; [apply orb_false_iff; split|]; lia. }
  assert ((max_seed_points <? length (boundary_seeds empty_space))%nat = false) as ->
    by (apply Nat.ltb_ge; lia).
  eexists. split; [done|]. cbn [shape cells]. split; [done|].
  intros w. rewrite flood_seeds_exact. split.
  - intros [Hw Hall]. split; [done|]. intros b Hb [Hbg Hrtc].
    apply (Hall b); [|by split].
    unfold boundary_seeds. rewrite list_elem_of_In, filter_In, <- list_elem_of_In.
    rewrite Hs. split; [apply box_elem; by apply Hbounds|].
    rewrite Hb. by apply bool_decide_eq_true.
  - intros [Hw Hall]. split; [done|]. intros seed Hseed.
    unfold boundary_seeds in Hseed.
    apply list_elem_of_In, filter_In in Hseed as [_ Hseed].
    apply andb_true_iff in Hseed as [Hb _]. rewrite Hs in Hb. by apply Hall.
Qed.

End DetectorFlood.

Module DetectorMerge.
Import Nx SpaceDetector PyFacts BuiltinFacts NxFacts TopologyOpenings NxRemove.

(** *** Splitting a list of spaces along disjoint components *)

Definition in_component (c : list string) (s : DetectedSpace) : bool :=
  mem (space_id s) c.

Definition big (c : list string) : bool := negb (length c <=? 1)%nat.

Definition outside (cs : list (list string)) (s : DetectedSpace) : bool :=
  forallb (λ c, negb (in_component c s)) cs.

(** The sum of a quantity over a list of spaces. *)
Definition total (m : DetectedSpace → Q) (l : list DetectedSpace) : Q := py_sum (map m l).

Lemma total_filter m (f : DetectedSpace → bool) l :
  (total m (List.filter f l) + total m (List.filter (λ s, negb (f s)) l)
   == total m l)%Q.
Proof.
  unfold total. induction l as [|s l IH]; simpl.
  - rewrite py_sum_nil. lra.
  - destruct (f s); simpl; rewrite !py_sum_cons; lra.
Qed.

Lemma filter_filter_ext {A} (f g h : A → bool) l :
  (∀ x, x ∈ l → g x = true → f x = h x) →
  List.filter f (List.filter g l) = List.filter h (List.filter g l).
Proof.
  intros H. apply List.filter_ext_in. intros x Hx.
  apply filter_In in Hx as [Hx Hg]. apply H; [by apply list_elem_of_In | done].
Qed.

Lemma filter_comm_and {A} (f g : A → bool) l :
  List.filter f (List.filter g l) = List.filter (λ x, g x && f x) l.
Proof.
  induction l as [|x l IH]; simpl; [done|].
  destruct (g x); simpl; [destruct (f x)|]; by rewrite IH.
Qed.

(** Components that share no id split any list of spaces: the spaces
    outside all of them and the spaces of each. *)
Lemma total_split m : ∀ (cs : list (list string)) (l : list DetectedSpace),
  (∀ c1 c2 x, c1 ∈ cs → c2 ∈ cs → x ∈ c1 → x ∈ c2 → c1 = c2) → NoDup cs →
  (total m (List.filter (outside cs) l)
   + py_sum (map (λ c, total m (List.filter (in_component c) l)) cs)
   == total m l)%Q.
Proof.
  induction cs as [|c cs IH]; intros l Hdis Hnd.
  - cbn [map]. rewrite py_sum_nil.
    assert (List.filter (outside []) l = l) as ->; [|lra].
    induction l as [|s l IHl]; simpl; [done|]. by rewrite IHl.
  - apply NoDup_cons in Hnd as [Hc Hnd]. cbn [map]. rewrite py_sum_cons.
    rewrite <- (total_filter m (in_component c) l).
    rewrite <- (IH (List.filter (λ s, negb (in_component c s)) l)); [| |done].
    2:{ intros c1 c2 x H1 H2. apply Hdis; by right. }
    assert (List.filter (outside (c :: cs)) l
            = List.filter (outside cs) (List.filter (λ s, negb (in_component c s)) l)) as ->.
    { rewrite filter_comm_and. done. }
    assert (map (λ c0, total m (List.filter (in_component c0) l)) cs
            = map (λ c0, total m (List.filter (in_component c0)
                                      (List.filter (λ s, negb (in_component c s)) l))) cs)
      as ->; [|lra].
    apply map_ext_in. intros c' Hc'. apply list_elem_of_In in Hc'. f_equal.
    rewrite filter_comm_and. apply List.filter_ext. intros s.
    destruct (in_component c' s) eqn:E'; [|by rewrite andb_false_r].
    rewrite andb_true_r. symmetry. apply negb_true_iff. apply not_true_is_false. intros E.
    unfold in_component in *. apply mem_true in E, E'.
    assert (c = c') as ->; [|done].
    apply (Hdis c c' (space_id s)); [left | by right | done | done].
Qed.


Lemma total_app m l l' : (total m (l ++ l') == total m l + total m l')%Q.
Proof. unfold total. by rewrite map_app, py_sum_app. Qed.

Lemma total_count l : (total (λ _, 1%Q) l == inject_Z (Z.of_nat (length l)))%Q.
Proof.
  unfold total. induction l as [|s l IH]; [done|].
  cbn [map length]. rewrite py_sum_cons, IH, Nat2Z.inj_succ, <- Z.add_1_l, inject_Z_plus.
  done.
Qed.

(** *** The merge loop in closed form *)

Definition merged_of (spaces : list DetectedSpace) (names : list string)
    (cs : list (list string)) : list DetectedSpace :=
  zip_with (λ u c, merge_spaces u (List.filter (in_component c) spaces)) names cs.

Lemma merge_component_small spaces ms ids us c :
  big c = false → merge_component spaces (ms, ids, us) c = (ms, ids, us).
Proof. unfold big, merge_component. by destruct (length c <=? 1)%nat. Qed.

Lemma merge_component_big spaces ms ids us c :
  big c = true →
  merge_component spaces (ms, ids, us) c
  = (ms ++ [merge_spaces (hd "" us) (List.filter (in_component c) spaces)],
     fold_left (λ ids space, {[space_id space]} ∪ ids)
               (List.filter (in_component c) spaces) ids,
     tl us).
Proof. unfold big, merge_component. by destruct (length c <=? 1)%nat. Qed.

Lemma merge_components_fold spaces : ∀ cs ms ids us,
  ∃ names,
    length names = length (List.filter big cs)
    ∧ fst (fst (fold_left (merge_component spaces) cs (ms, ids, us)))
      = ms ++ merged_of spaces names (List.filter big cs)
    ∧ ∀ i, i ∈ snd (fst (fold_left (merge_component spaces) cs (ms, ids, us)))
           ↔ i ∈ ids ∨ ∃ s c, s ∈ spaces ∧ space_id s = i ∧ c ∈ List.filter big cs
                              ∧ in_component c s = true.
Proof.
  induction cs as [|c cs IH]; intros ms ids us.
  - exists []. cbn. rewrite app_nil_r. split; [done|]. split; [done|].
    intros i. split; [by left|]. intros [?|(s & c & _ & _ & Hc & _)]; [done|].
    by apply elem_of_nil in Hc.
  - cbn [fold_left List.filter]. destruct (big c) eqn:Ebig.
    2:{ rewrite merge_component_small by done. apply IH. }
    rewrite merge_component_big by done.
    + match goal with
      | |- context [fold_left _ cs (?ms', ?ids', ?us')] =>
          destruct (IH ms' ids' us') as (names & Hlen & Hms & Hids)
      end.
      exists (hd "" us :: names). split; [simpl; by rewrite Hlen|].
      split; [rewrite Hms; cbn; by rewrite <- app_assoc|].
      intros i. rewrite Hids. clear Hids Hms.
      assert (∀ l (ids0 : gset string),
                i ∈ fold_left (λ ids space, {[space_id space]} ∪ ids) l ids0
                ↔ i ∈ ids0 ∨ ∃ s, s ∈ l ∧ space_id s = i) as Hfold.
      { induction l as [|s l IHl]; intros ids0; cbn [fold_left].
        - split; [by left|]. intros [?|(s & Hs & _)]; [done | by apply elem_of_nil in Hs].
        - rewrite IHl, elem_of_union, elem_of_singleton. split.
          + intros [[->|?]|(s' & Hs' & <-)]; [right; exists s; split; [left | done] | by left |].
            right. exists s'. split; [by right | done].
          + intros [?|(s' & Hs' & <-)]; [left; by right|].
            apply elem_of_cons in Hs' as [->|Hs']; [left; by left|].
            right. by exists s'. }
      rewrite Hfold. split.
      * intros [[?|(s & Hs & <-)]|(s & c' & Hs & Hid & Hc' & Hin)]; [by left | |].
        -- right. apply list_elem_of_In, filter_In in Hs as [Hs Hin].
           exists s, c. split; [by apply list_elem_of_In|]. split; [done|]. split; [left | done].
        -- right. exists s, c'. split; [done|]. split; [done|]. split; [by right | done].
      * intros [?|(s & c' & Hs & Hid & Hc' & Hin)]; [left; by left|].
        apply elem_of_cons in Hc' as [->|Hc'].
        -- left. right. exists s. split; [|done].
           apply list_elem_of_In, filter_In. split; [by apply list_elem_of_In | done].
        -- right. by exists s, c'.
Qed.

Lemma merged_of_total m spaces names cs :
  length names = length cs →
  (∀ u l, m (merge_spaces u l) = total m l) →
  (total m (merged_of spaces names cs)
   == py_sum (map (λ c, total m (List.filter (in_component c) spaces)) cs))%Q.
Proof.
  intros Hlen Hm. unfold merged_of. revert names Hlen.
  induction cs as [|c cs IH]; intros [|u names] Hlen; try done.
  cbn [zip_with map]. unfold total at 1. cbn [map]. rewrite !py_sum_cons, Hm.
  fold (total m (zip_with (λ u c, merge_spaces u (List.filter (in_component c) spaces))
                          names cs)).
  rewrite IH; [done|]. simpl in Hlen. lia.
Qed.


Lemma merged_of_elem spaces names cs m :
  m ∈ merged_of spaces names cs →
  ∃ u c, c ∈ cs ∧ m = merge_spaces u (List.filter (in_component c) spaces).
Proof.
  unfold merged_of. revert names. induction cs as [|c cs IH]; intros [|u names]; cbn [zip_with];
    try by intros ?%elem_of_nil.
  intros [->|Hm]%elem_of_cons.
  - exists u, c. split; [left | done].
  - destruct (IH _ Hm) as (u' & c' & Hc' & ->). exists u', c'. split; [by right | done].
Qed.

Lemma merged_of_has spaces names cs c :
  length names = length cs → c ∈ cs →
  ∃ u, merge_spaces u (List.filter (in_component c) spaces) ∈ merged_of spaces names cs.
Proof.
  unfold merged_of. revert names. induction cs as [|c0 cs IH]; intros [|u names] Hlen Hc;
    try done; [by apply elem_of_nil in Hc|].
  cbn [zip_with]. apply elem_of_cons in Hc as [->|Hc].
  - exists u. left.
  - destruct (IH names) as (u' & Hu'); [simpl in Hlen; lia | done |].
    exists u'. by right.
Qed.

Lemma merged_of_length spaces names cs :
  length names = length cs → length (merged_of spaces names cs) = length cs.
Proof. intros H. unfold merged_of. rewrite length_zip_with. lia. Qed.

Lemma outside_spec cs s :
  outside cs s = true ↔ ∀ c, c ∈ cs → in_component c s = false.
Proof.
  unfold outside. rewrite forallb_forall. split.
  - intros H c Hc. apply negb_true_iff, H. by apply list_elem_of_In.
  - intros H c Hc. apply negb_true_iff, H. by apply list_elem_of_In.
Qed.

Lemma outside_false cs s :
  outside cs s = false → ∃ c, c ∈ cs ∧ in_component c s = true.
Proof.
  unfold outside. induction cs as [|c cs IH]; simpl; [done|].
  destruct (in_component c s) eqn:E; simpl.
  - intros _. exists c. split; [left | done].
  - intros H. destruct (IH H) as (c' & Hc' & Hin). exists c'. split; [by right | done].
Qed.

Lemma elem_of_unique_rows v l : v ∈ unique_rows l ↔ v ∈ l.
Proof. unfold unique_rows. by rewrite elem_of_remove_dups, merge_sort_Permutation. Qed.

Lemma py_sum_ge_count {A} (f : A → Q) (cs : list A) :
  (∀ c, c ∈ cs → (1 <= f c)%Q) →
  (inject_Z (Z.of_nat (length cs)) <= py_sum (map f cs))%Q.
Proof.
  induction cs as [|c cs IH]; intros H; cbn [map length].
  - rewrite py_sum_nil. done.
  - rewrite py_sum_cons, Nat2Z.inj_succ, <- Z.add_1_l, inject_Z_plus.
    assert (1 <= f c)%Q by (apply H; left).
    assert (inject_Z (Z.of_nat (length cs)) <= py_sum (map f cs))%Q
      by (apply IH; intros; apply H; by right).
    change (inject_Z 1) with 1%Q. lra.
Qed.

(** *** The merge pairs and the merge graph *)

Definition known (spaces : list DetectedSpace) (id : string) : Prop :=
  ∃ s, s ∈ spaces ∧ space_id s = id.

Lemma space_by_id_Some spaces id s :
  space_by_id spaces id = Some s → s ∈ spaces ∧ space_id s = id.
Proof.
  unfold space_by_id. intros H. apply find_some in H as [Hin Heq].
  split; [by apply list_elem_of_In | by apply String.eqb_eq].
Qed.

Lemma space_by_id_known spaces id : known spaces id → is_Some (space_by_id spaces id).
Proof.
  intros (s & Hs & Hid). unfold space_by_id.
  destruct (List.find _ spaces) eqn:E; [done|]. exfalso.
  pose proof (find_none _ _ E s (proj1 (list_elem_of_In _ _) Hs)) as Hf.
  cbn in Hf. apply String.eqb_neq in Hf. done.
Qed.

Lemma space_by_id_None spaces id : space_by_id spaces id = None → ¬ known spaces id.
Proof.
  intros H Hk. apply space_by_id_known in Hk as [s Hs]. congruence.
Qed.

Section Merge.
Variable space_merge_distance : Q.
Variable estimated_separation : DetectedSpace → DetectedSpace → Q.

Local Abbreviation merge_pairs_of := (merge_pairs_of space_merge_distance estimated_separation).
Local Abbreviation merge_pair := (merge_pair space_merge_distance estimated_separation).
Local Abbreviation merge_fragmented_spaces :=
  (merge_fragmented_spaces space_merge_distance estimated_separation).

(** The pair of the two spaces an edge names is close enough to merge. *)
Definition close_pair (spaces : list DetectedSpace) (e : string * string) : Prop :=
  ∃ s1 s2, space_by_id spaces (fst e) = Some s1 ∧ space_by_id spaces (snd e) = Some s2
           ∧ Qle_bool (estimated_separation s1 s2) space_merge_distance = true.

Lemma merge_pairs_of_spec spaces : ∀ es mp0 mp,
  merge_pairs_of spaces es mp0 = Some mp →
  (∀ e, e ∈ es → known spaces (fst e) ∧ known spaces (snd e))
  ∧ ∀ e, e ∈ mp ↔ e ∈ mp0 ∨ (e ∈ es ∧ close_pair spaces e).
Proof.
  induction es as [|e0 es IH]; intros mp0 mp H; cbn in H.
  - injection H as <-. split; [intros e He; by apply elem_of_nil in He|].
    intros e. split; [by left|]. intros [?|[He _]]; [done | by apply elem_of_nil in He].
  - unfold merge_pair in H. cbn in H.
    destruct (space_by_id spaces (fst e0)) as [s1|] eqn:E1; [|done]. cbn in H.
    destruct (space_by_id spaces (snd e0)) as [s2|] eqn:E2; [|done]. cbn in H.
    destruct (IH _ _ H) as [Hk Hmp]. split.
    + intros e [->|He]%elem_of_cons; [|by apply Hk].
      apply space_by_id_Some in E1, E2. split; [by exists s1 | by exists s2].
    + intros e. rewrite Hmp. clear Hmp H.
      destruct (Qle_bool (estimated_separation s1 s2) space_merge_distance) eqn:Eq.
      * rewrite elem_of_app, list_elem_of_singleton, elem_of_cons. split.
        -- intros [[?| ->]|[? ?]]; [by left | | right; split; [by right | done]].
           right. split; [by left|]. by exists s1, s2.
        -- intros [?|[[->|?] Hc]]; [left; by left | left; by right | right; by split].
      * rewrite elem_of_cons. split.
        -- intros [?|[? ?]]; [by left | right; split; [by right | done]].
        -- intros [?|[[->|?] Hc]]; [by left | | right; by split].
           destruct Hc as (s1' & s2' & H1 & H2 & Hq). congruence.
Qed.

Lemma merge_pairs_of_returns spaces : ∀ es mp0,
  (∀ e, e ∈ es → known spaces (fst e) ∧ known spaces (snd e)) →
  is_Some (merge_pairs_of spaces es mp0).
Proof.
  induction es as [|e0 es IH]; intros mp0 Hk; cbn; [done|].
  destruct (Hk e0) as [[s1 H1]%space_by_id_known [s2 H2]%space_by_id_known]; [left|].
  unfold merge_pair. rewrite H1. cbn. rewrite H2. cbn.
  apply IH. intros e He. apply Hk. by right.
Qed.

Definition merge_graph_of (mp : list (string * string)) : Graph :=
  fold_left (λ g e, add_edge g (fst e) (snd e) no_attrs) mp empty_graph.

Lemma merge_graph_spec mp :
  wf_graph (merge_graph_of mp)
  ∧ (∀ x, x ∈ nodes (merge_graph_of mp) ↔ ∃ e, e ∈ mp ∧ (x = fst e ∨ x = snd e))
  ∧ (∀ x y, has_edge (merge_graph_of mp) x y = true
            ↔ ∃ e, e ∈ mp ∧ ((x = fst e ∧ y = snd e) ∨ (x = snd e ∧ y = fst e))).
Proof.
  unfold merge_graph_of.
  assert (∀ g0, wf_graph g0 →
    wf_graph (fold_left (λ g e, add_edge g (fst e) (snd e) no_attrs) mp g0)
    ∧ (∀ x, x ∈ nodes (fold_left (λ g e, add_edge g (fst e) (snd e) no_attrs) mp g0)
            ↔ x ∈ nodes g0 ∨ ∃ e, e ∈ mp ∧ (x = fst e ∨ x = snd e))
    ∧ (∀ x y, has_edge (fold_left (λ g e, add_edge g (fst e) (snd e) no_attrs) mp g0) x y
              = true
              ↔ has_edge g0 x y = true
                ∨ ∃ e, e ∈ mp ∧ ((x = fst e ∧ y = snd e) ∨ (x = snd e ∧ y = fst e)))) as H.
  { induction mp as [|e mp IH]; intros g0 Hwf; cbn [fold_left].
    - split; [done|]. split.
      + intros x. split; [by left|]. by intros [?|(? & ?%elem_of_nil & _)].
      + intros x y. split; [by left|]. by intros [?|(? & ?%elem_of_nil & _)].
    - destruct (IH (add_edge g0 (fst e) (snd e) no_attrs)) as (Hw & Hn & He);
        [by apply wf_add_edge|].
      split; [done|]. split.
      + intros x. rewrite Hn, nodes_add_edge. split.
        * intros [[?|[?|?]]|(e' & He' & Hx)].
          -- right. exists e. split; [left | by left].
          -- right. exists e. split; [left | by right].
          -- by left.
          -- right. exists e'. split; [by right | done].
        * intros [?|(e' & [->|He']%elem_of_cons & Hx)].
          -- left. right. by right.
          -- left. destruct Hx; [by left | right; by left].
          -- right. by exists e'.
      + intros x y. rewrite He, has_edge_add_edge. split.
        * intros [[?|[?|?]]|(e' & He' & Hx)].
          -- right. exists e. split; [left | by left].
          -- right. exists e. split; [left | by right].
          -- by left.
          -- right. exists e'. split; [by right | done].
        * intros [?|(e' & [->|He']%elem_of_cons & Hx)].
          -- left. right. by right.
          -- left. destruct Hx; [by left | right; by left].
          -- right. by exists e'. }
  destruct (H empty_graph wf_empty) as (Hw & Hn & He). split; [done|]. split.
  - intros x. rewrite Hn. split; [|by right]. by intros [?%elem_of_nil|?].
  - intros x y. rewrite He. split; [|by right]. by intros [?|?].
Qed.

Lemma filter_outside_nil (l : list DetectedSpace) : List.filter (outside []) l = l.
Proof. induction l as [|s l IHl]; simpl; [done|]. by rewrite IHl. Qed.

Lemma merge_fragmented_spaces_unfold uuids self self' :
  merge_fragmented_spaces uuids self = Some self' →
  ((length (det_spaces self) ≤ 1)%nat ∧ self' = self)
  ∨ ∃ mp names,
      merge_pairs_of (det_spaces self) (edges (space_adjacency self)) [] = Some mp
      ∧ length names = length (List.filter big (connected_components (merge_graph_of mp)))
      ∧ det_spaces self'
        = List.filter (outside (List.filter big (connected_components (merge_graph_of mp))))
                      (det_spaces self)
          ++ merged_of (det_spaces self) names
                       (List.filter big (connected_components (merge_graph_of mp))).
Proof.
  unfold SpaceDetector.merge_fragmented_spaces. intros H.
  destruct (length (det_spaces self) <=? 1)%nat eqn:Elen;
    [left; apply Nat.leb_le in Elen; split; [done | congruence]|].
  destruct (SpaceDetector.merge_pairs_of _ _ _ _ _) as [mp|] eqn:Emp; [|done]. cbn in H.
  fold (merge_graph_of mp) in H. right. exists mp.
  destruct (connected_components (merge_graph_of mp)) as [|c0 cs] eqn:Ec.
  { exists []. split; [done|]. split; [done|]. injection H as <-. cbn [List.filter merged_of zip_with].
    by rewrite filter_outside_nil, app_nil_r. }
  rewrite <- Ec in H |- *.
  destruct (merge_components_fold (det_spaces self) (connected_components (merge_graph_of mp))
              [] ∅ uuids) as (names & Hlen & Hms & Hids).
  destruct (fold_left _ _ _) as [[ms ids] us]. cbn [fst snd] in Hms, Hids.
  exists names. split; [done|]. split; [done|].
  injection H as <-. cbn [update_adjacency_after_merge det_spaces]. rewrite Hms. cbn [app].
  f_equal. apply List.filter_ext_in. intros s Hs. apply list_elem_of_In in Hs.
  destruct (outside _ s) eqn:Eo.
  - apply bool_decide_eq_true. rewrite Hids. intros [?|(s' & c & _ & Hid & Hc & Hin)];
      [set_solver|].
    pose proof (proj1 (outside_spec _ _) Eo c Hc) as Hout.
    unfold in_component in *. rewrite Hid in Hin. congruence.
  - apply bool_decide_eq_false. intros Hn. apply Hn. rewrite Hids. right.
    destruct (outside_false _ _ Eo) as (c & Hc & Hin). by exists s, c.
Qed.

Lemma merge_components_disjoint mp :
  (∀ c1 c2 x, c1 ∈ List.filter big (connected_components (merge_graph_of mp)) →
              c2 ∈ List.filter big (connected_components (merge_graph_of mp)) →
              x ∈ c1 → x ∈ c2 → c1 = c2)
  ∧ NoDup (List.filter big (connected_components (merge_graph_of mp))).
Proof.
  destruct (merge_graph_spec mp) as (Hwf & _ & _). split.
  - intros c1 c2 x H1 H2. apply list_elem_of_In, filter_In in H1 as [H1 _].
    apply list_elem_of_In, filter_In in H2 as [H2 _]. apply list_elem_of_In in H1, H2.
    by apply (components_from_disjoint (merge_graph_of mp) (nodes (merge_graph_of mp)) []).
  - apply NoDup_ListNoDup, List.NoDup_filter, NoDup_ListNoDup.
    by apply connected_components_NoDup.
Qed.

(** Every component of the merge graph holds the id of a space. *)
Lemma merge_component_known spaces es mp c :
  merge_pairs_of spaces es [] = Some mp →
  c ∈ connected_components (merge_graph_of mp) →
  c ≠ [] ∧ ∀ x, x ∈ c → known spaces x.
Proof.
  intros Hmp Hc. destruct (merge_graph_spec mp) as (Hwf & Hn & _).
  destruct (merge_pairs_of_spec _ _ _ _ Hmp) as [Hk Hin]. split.
  - destruct (components_from_source _ _ _ _ Hc) as (v & _ & _ & ->).
    intros E. pose proof (plain_bfs_source (merge_graph_of mp) v) as Hv.
    rewrite E in Hv. by apply elem_of_nil in Hv.
  - intros x Hx.
    assert (x ∈ nodes (merge_graph_of mp)) as Hnode
      by (by apply (components_from_nodes _ (nodes (merge_graph_of mp)) [] c)).
    apply Hn in Hnode as (e & He & Hx').
    apply Hin in He as [He|[He _]]; [by apply elem_of_nil in He|].
    destruct (Hk e He) as [H1 H2]. by destruct Hx' as [->| ->].
Qed.

End Merge.

(** X18.  [merge_fragmented_spaces] loses nothing: the volumes of the new
    spaces sum to the volumes of the old ones, there are no more spaces
    than before, every old space is kept as it was or is named, with all
    its cells, by a space of type [merged], and every new space is an old
    one or a merged one whose cells all come from the spaces it names. *)
Theorem merge_fragmented_spaces_conserves
    (space_merge_distance : Q) (estimated_separation : DetectedSpace → DetectedSpace → Q)
    (uuids : list string) (self self' : Detector) :
  merge_fragmented_spaces space_merge_distance estimated_separation uuids self = Some self' →
  (total space_volume (det_spaces self') == total space_volume (det_spaces self))%Q
  ∧ (length (det_spaces self') ≤ length (det_spaces self))%nat
  ∧ (∀ s, s ∈ det_spaces self →
          s ∈ det_spaces self'
          ∨ ∃ m from, m ∈ det_spaces self' ∧ space_type m = "merged"
                      ∧ merged_from m = Some from ∧ space_id s ∈ from
                      ∧ ∀ v, v ∈ voxel_indices s → v ∈ voxel_indices m)
  ∧ (∀ m, m ∈ det_spaces self' →
          m ∈ det_spaces self
          ∨ ∃ from, space_type m = "merged" ∧ merged_from m = Some from ∧ from ≠ []
                    ∧ (∀ i, i ∈ from → ∃ s, s ∈ det_spaces self ∧ space_id s = i)
                    ∧ ∀ v, v ∈ voxel_indices m →
                           ∃ s, s ∈ det_spaces self ∧ space_id s ∈ from
                                ∧ v ∈ voxel_indices s).
Proof.
  intros H.
  apply merge_fragmented_spaces_unfold in H as [[_ ->]|(mp & names & Hmp & Hlen & Hsp)].
  { split; [done|]. split; [done|]. split; intros; by left. }
  set (spaces := det_spaces self) in *.
  set (bigs := List.filter big (connected_components (merge_graph_of mp))) in *.
  destruct (merge_components_disjoint mp) as [Hdis Hnd]. fold bigs in Hdis, Hnd.
  assert (Hbig : ∀ c, c ∈ bigs → ∃ s, s ∈ List.filter (in_component c) spaces).
  { intros c Hc. apply list_elem_of_In, filter_In in Hc as [Hc _]. apply list_elem_of_In in Hc.
    destruct (merge_component_known _ _ _ _ _ _ Hmp Hc) as [Hne Hk].
    destruct c as [|x c]; [done|]. destruct (Hk x) as (s & Hs & Hid); [left|].
    exists s. apply list_elem_of_In, filter_In. split; [by apply list_elem_of_In|].
    unfold in_component. apply mem_true. rewrite Hid. left. }
  rewrite Hsp. split; [|split; [|split]].
  - rewrite total_app, merged_of_total by done. by apply total_split.
  - rewrite length_app, merged_of_length by done.
    pose proof (total_split (λ _, 1%Q) bigs spaces Hdis Hnd) as Hsplit.
    rewrite !total_count in Hsplit.
    pose proof (py_sum_ge_count
                  (λ c, total (λ _, 1%Q) (List.filter (in_component c) spaces)) bigs) as Hge.
    cbv beta in Hge.
    assert (inject_Z (Z.of_nat (length bigs))
            <= py_sum (map (λ c, total (λ _, 1%Q) (List.filter (in_component c) spaces)) bigs))%Q
      as Hge'.
    { apply Hge. intros c Hc. rewrite total_count. destruct (Hbig c Hc) as (s & Hs).
      destruct (List.filter (in_component c) spaces); [by apply elem_of_nil in Hs|].
      cbn [length]. rewrite <- Zle_Qle with (x := 1%Z). lia. }
    assert (inject_Z (Z.of_nat (length (List.filter (outside bigs) spaces)))
            + inject_Z (Z.of_nat (length bigs))
            <= inject_Z (Z.of_nat (length spaces)))%Q as Hle by lra.
    rewrite <- inject_Z_plus, <- Zle_Qle in Hle. lia.
  - intros s Hs. destruct (outside bigs s) eqn:Eo.
    + left. apply elem_of_app. left. apply list_elem_of_In, filter_In.
      split; [by apply list_elem_of_In | done].
    + right. destruct (outside_false _ _ Eo) as (c & Hc & Hin).
      destruct (merged_of_has spaces names bigs c Hlen Hc) as (u & Hu).
      exists (merge_spaces u (List.filter (in_component c) spaces)),
             (map space_id (List.filter (in_component c) spaces)).
      assert (s ∈ List.filter (in_component c) spaces) as Hsc
        by (apply list_elem_of_In, filter_In; split; [by apply list_elem_of_In | done]).
      split; [apply elem_of_app; by right|]. split; [done|]. split; [done|].
      split; [by apply (list_elem_of_fmap_2 space_id)|].
      intros v Hv. cbn [merge_spaces voxel_indices]. apply elem_of_unique_rows.
      apply list_elem_of_In, in_flat_map. exists s.
      split; by apply list_elem_of_In.
  - intros m [Hm|Hm]%elem_of_app.
    + left. apply list_elem_of_In, filter_In in Hm as [Hm _]. by apply list_elem_of_In.
    + right. apply merged_of_elem in Hm as (u & c & Hc & ->).
      exists (map space_id (List.filter (in_component c) spaces)).
      split; [done|]. split; [done|]. split; [|split].
      * destruct (Hbig c Hc) as (s & Hs).
        destruct (List.filter (in_component c) spaces); [by apply elem_of_nil in Hs | done].
      * intros i Hi. apply list_elem_of_In, in_map_iff in Hi as (s & <- & Hs).
        apply filter_In in Hs as [Hs _]. exists s. split; [by apply list_elem_of_In | done].
      * intros v Hv. cbn [merge_spaces voxel_indices] in Hv.
        apply (proj1 (elem_of_unique_rows _ _)) in Hv.
        apply list_elem_of_In, in_flat_map in Hv as (s & Hs & Hv). exists s.
        pose proof Hs as Hs'. apply filter_In in Hs' as [Hs' _].
        split; [by apply list_elem_of_In|].
        split; [|by apply list_elem_of_In].
        apply list_elem_of_In, in_map. done.
Qed.

(** X19.  [merge_fragmented_spaces] groups by closeness: two spaces with
    different ids that an adjacency edge joins and whose separation is
    within [space_merge_distance] are named by one merged space, and a
    space that no such edge touches is kept as it was. *)
Theorem merge_fragmented_spaces_groups
    (space_merge_distance : Q) (estimated_separation : DetectedSpace → DetectedSpace → Q)
    (uuids : list string) (self self' : Detector) :
  merge_fragmented_spaces space_merge_distance estimated_separation uuids self = Some self' →
  (∀ e, (1 < length (det_spaces self))%nat →
        e ∈ edges (space_adjacency self) →
        close_pair space_merge_distance estimated_separation (det_spaces self) e →
        fst e ≠ snd e →
        ∃ m from, m ∈ det_spaces self' ∧ space_type m = "merged"
                  ∧ merged_from m = Some from ∧ fst e ∈ from ∧ snd e ∈ from)
  ∧ (∀ s, s ∈ det_spaces self →
          (∀ e, e ∈ edges (space_adjacency self) →
                close_pair space_merge_distance estimated_separation (det_spaces self) e →
                space_id s ≠ fst e ∧ space_id s ≠ snd e) →
          s ∈ det_spaces self').
Proof.
  intros H.
  apply merge_fragmented_spaces_unfold in H as [[Hlen1 ->]|(mp & names & Hmp & Hlen & Hsp)].
  { split; [intros; lia | done]. }
  set (spaces := det_spaces self) in *.
  set (mg := merge_graph_of mp) in *.
  set (bigs := List.filter big (connected_components mg)) in *.
  destruct (merge_graph_spec mp) as (Hwf & Hn & Hedge). fold mg in Hwf, Hn, Hedge.
  destruct (merge_pairs_of_spec _ _ _ _ _ _ Hmp) as [Hk Hin].
  rewrite Hsp. split.
  - intros e _ He Hclose Hne.
    assert (e ∈ mp) as Hemp by (apply Hin; right; by split).
    assert (fst e ∈ nodes mg) as Hnode by (apply Hn; exists e; split; [done | by left]).
    destruct (components_from_cover mg (nodes mg) [] (fst e) Hnode)
      as [Hnil|(c & Hc & H1)]; [by apply elem_of_nil in Hnil|].
    fold (connected_components mg) in Hc.
    assert (snd e ∈ c) as H2.
    { apply (component_closed mg c (fst e)); [done..|].
      apply rtc_once. apply Hedge. exists e. split; [done | by left]. }
    assert (c ∈ bigs) as Hcb.
    { apply list_elem_of_In, filter_In. split; [by apply list_elem_of_In|].
      unfold big. apply negb_true_iff, Nat.leb_gt.
      destruct c as [|x [|y c]]; [by apply elem_of_nil in H1 | | simpl; lia].
      apply list_elem_of_singleton in H1, H2. congruence. }
    destruct (merged_of_has spaces names bigs c Hlen Hcb) as (u & Hu).
    exists (merge_spaces u (List.filter (in_component c) spaces)),
           (map space_id (List.filter (in_component c) spaces)).
    split; [apply elem_of_app; by right|]. split; [done|]. split; [done|].
    destruct (Hk e He) as [(s1 & Hs1 & Hid1) (s2 & Hs2 & Hid2)].
    split.
    + rewrite <- Hid1. apply (list_elem_of_fmap_2 space_id), list_elem_of_In, filter_In.
      split; [by apply list_elem_of_In|]. unfold in_component. apply mem_true. by rewrite Hid1.
    + rewrite <- Hid2. apply (list_elem_of_fmap_2 space_id), list_elem_of_In, filter_In.
      split; [by apply list_elem_of_In|]. unfold in_component. apply mem_true. by rewrite Hid2.
  - intros s Hs Hfree. apply elem_of_app. left. apply list_elem_of_In, filter_In.
    split; [by apply list_elem_of_In|]. apply outside_spec. intros c Hc.
    apply list_elem_of_In, filter_In in Hc as [Hc _]. apply list_elem_of_In in Hc.
    unfold in_component. apply mem_false. intros Hsc.
    assert (space_id s ∈ nodes mg) as Hnode
      by (by apply (components_from_nodes _ (nodes mg) [] c)).
    apply Hn in Hnode as (e & He & Hx).
    apply Hin in He as [He|[He Hclose]]; [by apply elem_of_nil in He|].
    destruct (Hfree e He Hclose). by destruct Hx.
Qed.

(** X20.  [merge_fragmented_spaces] stops with [StopIteration] exactly when
    there are two spaces or more and an edge of the adjacency graph names
    an id that no space has. *)
Theorem merge_fragmented_spaces_stops
    (space_merge_distance : Q) (estimated_separation : DetectedSpace → DetectedSpace → Q)
    (uuids : list string) (self : Detector) :
  merge_fragmented_spaces space_merge_distance estimated_separation uuids self = None
  ↔ (1 < length (det_spaces self))%nat
    ∧ ∃ e, e ∈ edges (space_adjacency self)
           ∧ (¬ known (det_spaces self) (fst e) ∨ ¬ known (det_spaces self) (snd e)).
Proof.
  unfold merge_fragmented_spaces.
  destruct (length (det_spaces self) <=? 1)%nat eqn:Elen.
  { apply Nat.leb_le in Elen. split; [done | intros [? _]; lia]. }
  apply Nat.leb_gt in Elen.
  assert (∀ es mp0,
            merge_pairs_of space_merge_distance estimated_separation (det_spaces self) es mp0
            = None
            ↔ ∃ e, e ∈ es ∧ (¬ known (det_spaces self) (fst e)
                             ∨ ¬ known (det_spaces self) (snd e))) as Hnone.
  { induction es as [|e0 es IH]; intros mp0; cbn.
    - split; [done|]. by intros (e & He%elem_of_nil & _).
    - unfold merge_pair.
      destruct (space_by_id (det_spaces self) (fst e0)) as [s1|] eqn:E1; cbn.
      2:{ split; [|done]. intros _. exists e0. split; [left|]. left.
          by apply space_by_id_None. }
      destruct (space_by_id (det_spaces self) (snd e0)) as [s2|] eqn:E2; cbn.
      2:{ split; [|done]. intros _. exists e0. split; [left|]. right.
          by apply space_by_id_None. }
      rewrite IH. apply space_by_id_Some in E1, E2. split.
      + intros (e & He & Hx). exists e. split; [by right | done].
      + intros (e & [->|He]%elem_of_cons & Hx); [|by exists e].
        destruct Hx as [Hx|Hx]; exfalso; apply Hx; [by exists s1 | by exists s2]. }
  destruct (merge_pairs_of _ _ _ _ _) as [mp|] eqn:Emp; cbn.
  - split.
    + destruct (connected_components _); [done|]. by destruct (fold_left _ _ _) as [[??]?].
    + intros [_ Hex]. apply (proj2 (Hnone _ [])) in Hex. congruence.
  - split; [|done]. intros _. split; [done|]. by apply (Hnone _ []).
Qed.

End DetectorMerge.

Module DetectorAdjacency.
Import Nx SpaceDetector PyFacts BuiltinFacts NxFacts DetectorMerge.

(** The spaces a space stands for: the ones it was merged from, or
    itself. *)
Definition sources (s : DetectedSpace) : list string :=
  match merged_from s with Some from => from | None => [space_id s] end.

Lemma existsb_elem {A} (f : A → bool) l :
  existsb f l = true ↔ ∃ x, x ∈ l ∧ f x = true.
Proof.
  rewrite existsb_exists. split; intros (x & Hx & Hf); exists x;
    (split; [by apply list_elem_of_In | done]).
Qed.

Lemma adjacent_after_spec old s1 s2 :
  adjacent_after old s1 s2 = true
  ↔ ∃ x y, x ∈ sources s1 ∧ y ∈ sources s2 ∧ has_edge old x y = true.
Proof.
  unfold adjacent_after, sources.
  destruct (merged_from s1) as [f1|], (merged_from s2) as [f2|].
  - rewrite existsb_elem. split.
    + intros (x & Hx & (y & Hy & H)%existsb_elem). by exists x, y.
    + intros (x & y & Hx & Hy & H). exists x. split; [done|]. apply existsb_elem. by exists y.
  - rewrite existsb_elem. split.
    + intros (x & Hx & H). exists x, (space_id s2). split; [done|]. split; [left | done].
    + intros (x & y & Hx & ->%list_elem_of_singleton & H). by exists x.
  - rewrite existsb_elem. split.
    + intros (y & Hy & H). exists (space_id s1), y. split; [left | done].
    + intros (x & y & ->%list_elem_of_singleton & Hy & H). by exists y.
  - split.
    + intros H. exists (space_id s1), (space_id s2). split; [left|]. split; [left | done].
    + by intros (x & y & ->%list_elem_of_singleton & ->%list_elem_of_singleton & H).
Qed.

(** Two spaces in list order, with the ids of an edge between them. *)
Definition joins_pair (a b : string) (s1 s2 : DetectedSpace) : Prop :=
  (a = space_id s1 ∧ b = space_id s2) ∨ (a = space_id s2 ∧ b = space_id s1).

Lemma adjacency_row old s1 : ∀ rest g,
  (∀ x, x ∈ nodes (fold_left (λ g space2,
             if adjacent_after old s1 space2
             then add_edge g (space_id s1) (space_id space2) no_attrs else g) rest g)
        ↔ x ∈ nodes g
          ∨ ∃ s2, s2 ∈ rest ∧ adjacent_after old s1 s2 = true
                  ∧ (x = space_id s1 ∨ x = space_id s2))
  ∧ ∀ a b, has_edge (fold_left (λ g space2,
             if adjacent_after old s1 space2
             then add_edge g (space_id s1) (space_id space2) no_attrs else g) rest g) a b
           = true
           ↔ has_edge g a b = true
             ∨ ∃ s2, s2 ∈ rest ∧ adjacent_after old s1 s2 = true ∧ joins_pair a b s1 s2.
Proof.
  induction rest as [|s2 rest IH]; intros g; cbn [fold_left].
  - split; intros; (split; [by left|]); by intros [?|(? & ?%elem_of_nil & _)].
  - match goal with
    | |- context [fold_left _ rest ?g'] => destruct (IH g') as [Hn He]
    end.
    split.
    + intros x. rewrite Hn. destruct (adjacent_after old s1 s2) eqn:Eadj.
      * rewrite nodes_add_edge. split.
        -- intros [[?|[?|?]]|(s & Hs & Ha & Hx)].
           ++ right. exists s2. split; [left|]. split; [done | by left].
           ++ right. exists s2. split; [left|]. split; [done | by right].
           ++ by left.
           ++ right. exists s. split; [by right | done].
        -- intros [?|(s & [->|Hs]%elem_of_cons & Ha & Hx)].
           ++ left. right. by right.
           ++ left. destruct Hx; [by left | right; by left].
           ++ right. by exists s.
      * split.
        -- intros [?|(s & Hs & Ha & Hx)]; [by left|]. right. exists s. split; [by right | done].
        -- intros [?|(s & [->|Hs]%elem_of_cons & Ha & Hx)]; [by left | congruence |].
           right. by exists s.
    + intros a b. rewrite He. destruct (adjacent_after old s1 s2) eqn:Eadj.
      * rewrite has_edge_add_edge. unfold joins_pair. split.
        -- intros [[?|[?|?]]|(s & Hs & Ha & Hx)].
           ++ right. exists s2. split; [left|]. split; [done | by left].
           ++ right. exists s2. split; [left|]. split; [done | right; tauto].
           ++ by left.
           ++ right. exists s. split; [by right | done].
        -- intros [?|(s & [->|Hs]%elem_of_cons & Ha & Hx)].
           ++ left. right. by right.
           ++ left. destruct Hx; [by left | right; left; tauto].
           ++ right. by exists s.
      * split.
        -- intros [?|(s & Hs & Ha & Hx)]; [by left|]. right. exists s. split; [by right | done].
        -- intros [?|(s & [->|Hs]%elem_of_cons & Ha & Hx)]; [by left | congruence |].
           right. by exists s.
Qed.

(** [s1] comes before [s2] in the list. *)
Definition ordered_pair (l : list DetectedSpace) (s1 s2 : DetectedSpace) : Prop :=
  ∃ l1 l2 l3, l = l1 ++ s1 :: l2 ++ s2 :: l3.

Lemma ordered_pair_cons s l s1 s2 :
  ordered_pair (s :: l) s1 s2 ↔ (s1 = s ∧ s2 ∈ l) ∨ ordered_pair l s1 s2.
Proof.
  unfold ordered_pair. split.
  - intros ([|s' l1] & l2 & l3 & Heq); injection Heq as -> ->.
    + left. split; [done|]. apply elem_of_app. right. left.
    + right. by exists l1, l2, l3.
  - intros [[-> Hin]|(l1 & l2 & l3 & ->)].
    + apply list_elem_of_split in Hin as (l2 & l3 & ->). by exists [], l2, l3.
    + by exists (s :: l1), l2, l3.
Qed.

Lemma ordered_pair_elem l s1 s2 : ordered_pair l s1 s2 → s1 ∈ l ∧ s2 ∈ l.
Proof.
  intros (l1 & l2 & l3 & ->). split.
  - apply elem_of_app. right. left.
  - apply elem_of_app. right. right. apply elem_of_app. right. left.
Qed.

Lemma adjacency_pairs_spec old : ∀ l g,
  (∀ x, x ∈ nodes (adjacency_pairs old l g)
        ↔ x ∈ nodes g
          ∨ ∃ s1 s2, ordered_pair l s1 s2 ∧ adjacent_after old s1 s2 = true
                     ∧ (x = space_id s1 ∨ x = space_id s2))
  ∧ ∀ a b, has_edge (adjacency_pairs old l g) a b = true
           ↔ has_edge g a b = true
             ∨ ∃ s1 s2, ordered_pair l s1 s2 ∧ adjacent_after old s1 s2 = true
                        ∧ joins_pair a b s1 s2.
Proof.
  induction l as [|s l IH]; intros g; cbn [adjacency_pairs].
  - split; intros; (split; [by left|]);
      intros [?|(s1 & s2 & ([|??] & ? & ? & ?) & _)]; done.
  - match goal with
    | |- context [adjacency_pairs old l ?g'] => destruct (IH g') as [Hn He]
    end.
    destruct (adjacency_row old s l g) as [Hrn Hre]. split.
    + intros x. rewrite Hn, Hrn. split.
      * intros [[?|(s2 & Hs2 & Ha & Hx)]|(s1 & s2 & Ho & Ha & Hx)]; [by left | |].
        -- right. exists s, s2. split; [apply ordered_pair_cons; by left | done].
        -- right. exists s1, s2. split; [apply ordered_pair_cons; by right | done].
      * intros [?|(s1 & s2 & [[-> Hs2]|Ho]%ordered_pair_cons & Ha & Hx)];
          [left; by left | |].
        -- left. right. by exists s2.
        -- right. by exists s1, s2.
    + intros a b. rewrite He, Hre. split.
      * intros [[?|(s2 & Hs2 & Ha & Hx)]|(s1 & s2 & Ho & Ha & Hx)]; [by left | |].
        -- right. exists s, s2. split; [apply ordered_pair_cons; by left | done].
        -- right. exists s1, s2. split; [apply ordered_pair_cons; by right | done].
      * intros [?|(s1 & s2 & [[-> Hs2]|Ho]%ordered_pair_cons & Ha & Hx)];
          [left; by left | |].
        -- left. right. by exists s2.
        -- right. by exists s1, s2.
Qed.

Lemma add_nodes_spec (l : list DetectedSpace) : ∀ g,
  (∀ x, x ∈ nodes (fold_left (λ g space, add_node g (space_id space)) l g)
        ↔ x ∈ nodes g ∨ known l x)
  ∧ ∀ a b, has_edge (fold_left (λ g space, add_node g (space_id space)) l g) a b
           = has_edge g a b.
Proof.
  induction l as [|s l IH]; intros g; cbn [fold_left].
  - split; [|done]. intros x. split; [by left|]. by intros [?|(? & ?%elem_of_nil & _)].
  - destruct (IH (add_node g (space_id s))) as [Hn He]. split.
    + intros x. rewrite Hn, nodes_add_node. unfold known. split.
      * intros [[->|?]|(s' & Hs' & Hid)]; [right; exists s; split; [left | done] | by left |].
        right. exists s'. split; [by right | done].
      * intros [?|(s' & [->|Hs']%elem_of_cons & Hid)]; [left; by right | left; by left |].
        right. by exists s'.
    + intros a b. rewrite He. unfold has_edge. by rewrite get_edge_data_add_node.
Qed.

(** X21.  [_update_adjacency_after_merge] rebuilds the graph from the spaces:
    its nodes are exactly the ids of the spaces, and two ids are joined
    exactly when they belong to two spaces of the list, one before the
    other, such that a space the first stands for was joined in the old
    graph to a space the second stands for.  The list of spaces is not
    changed. *)
Theorem update_adjacency_after_merge_exact (self : Detector) :
  det_spaces (update_adjacency_after_merge self) = det_spaces self
  ∧ (∀ x, x ∈ nodes (space_adjacency (update_adjacency_after_merge self))
          ↔ ∃ s, s ∈ det_spaces self ∧ space_id s = x)
  ∧ ∀ a b, has_edge (space_adjacency (update_adjacency_after_merge self)) a b = true
           ↔ ∃ s1 s2 x y,
               ordered_pair (det_spaces self) s1 s2
               ∧ ((a = space_id s1 ∧ b = space_id s2) ∨ (a = space_id s2 ∧ b = space_id s1))
               ∧ x ∈ sources s1 ∧ y ∈ sources s2
               ∧ has_edge (space_adjacency self) x y = true.
Proof.
  unfold update_adjacency_after_merge. cbn [det_spaces space_adjacency].
  split; [done|].
  destruct (adjacency_pairs_spec (space_adjacency self) (det_spaces self)
              (fold_left (λ g space, add_node g (space_id space)) (det_spaces self)
                         empty_graph)) as [Hn He].
  destruct (add_nodes_spec (det_spaces self) empty_graph) as [Hn0 He0]. split.
  - intros x. rewrite Hn, Hn0. fold (known (det_spaces self) x). split.
    + intros [[?%elem_of_nil|?]|(s1 & s2 & Ho & _ & Hx)]; [done | done |].
      apply ordered_pair_elem in Ho as [H1 H2].
      destruct Hx as [->| ->]; [by exists s1 | by exists s2].
    + intros H. left. by right.
  - intros a b. rewrite He, He0. split.
    + intros [?|(s1 & s2 & Ho & (x & y & Hx & Hy & Hxy)%adjacent_after_spec & Hj)]; [done|].
      by exists s1, s2, x, y.
    + intros (s1 & s2 & x & y & Ho & Hj & Hx & Hy & Hxy). right. exists s1, s2.
      split; [done|]. split; [|done]. apply adjacent_after_spec. by exists x, y.
Qed.

End DetectorAdjacency.

Module ConfigSharing.
Import Nx ConfigStore PyFacts BuiltinFacts NxFacts.

(** A store the program can be in: [DEFAULT_CONFIG] is there and every
    section address is that of a dictionary. *)
Definition wf_store (st : Store) : Prop :=
  is_Some (tops st !! DEFAULT_CONFIG)
  ∧ ∀ t top s a, tops st !! t = Some top → assoc s top = Some a →
                 (a < length (sections st))%nat.

Lemma wf_loaded : wf_store loaded.
Proof.
  split; [by eexists|]. intros t top s a Ht Hs.
  destruct t as [|t]; [|done]. injection Ht as <-.
  cbn in Hs. repeat (destruct (String.eqb s _); [injection Hs as <-; cbn; lia|]). done.
Qed.

Lemma Config_init_Ok st st' c :
  Config_init st = Ok (st', c) →
  c = length (tops st)
  ∧ tops st' = tops st ++ [default [] (tops st !! DEFAULT_CONFIG)]
  ∧ sections st' = sections st.
Proof.
  unfold Config_init. intros H. apply bind_Ok in H as (u & _ & [= <- <-]). done.
Qed.

(** A new instance reads what [DEFAULT_CONFIG] holds at that time. *)
Lemma Config_init_get st st' c section key :
  wf_store st → Config_init st = Ok (st', c) →
  get st' c section key = get st DEFAULT_CONFIG section key
  ∧ get st' DEFAULT_CONFIG section key = get st DEFAULT_CONFIG section key.
Proof.
  intros [[top Htop] _] (-> & Ht & Hs)%Config_init_Ok. unfold get. rewrite Ht, Hs.
  rewrite lookup_app_r, Nat.sub_diag by lia. cbn [lookup list_lookup default from_option id].
  rewrite lookup_app_l by (by apply lookup_lt_Some in Htop). done.
Qed.

Lemma wf_Config_init st st' c :
  wf_store st → Config_init st = Ok (st', c) → wf_store st' ∧ (c < length (tops st'))%nat.
Proof.
  intros [[top Htop] Hwf] (-> & Ht & Hs)%Config_init_Ok. split; [split|].
  - rewrite Ht, lookup_app_l by (by apply lookup_lt_Some in Htop). by exists top.
  - intros t top' s a. rewrite Ht, Hs. intros Hl Ha.
    apply lookup_app_Some in Hl as [Hl|[_ Hl]]; [by apply (Hwf t top' s)|].
    destruct (t - length (tops st))%nat; [|done]. injection Hl as <-.
    rewrite Htop in Ha. by apply (Hwf DEFAULT_CONFIG top s).
  - rewrite Ht, length_app. simpl. lia.
Qed.

(** [set] through one instance, read through another instance that
    holds the section at the same address. *)
Lemma get_set_shared st c1 c2 section key value a :
  wf_store st →
  assoc section (default [] (tops st !! c1)) = Some a →
  assoc section (default [] (tops st !! c2)) = Some a →
  get (set st c1 section key value) c2 section (Some key) = Some (Item value).
Proof.
  intros [_ Hwf] H1 H2. unfold set, get. rewrite H1. cbn [tops sections]. rewrite H2.
  assert (a < length (sections st))%nat as Ha.
  { destruct (tops st !! c1) as [top|] eqn:E; [|done]. by apply (Hwf c1 top section). }
  rewrite list_lookup_insert_eq by done. cbn [default from_option id].
  by rewrite assoc_dict_set_eq.
Qed.

(** The two instances made one after the other from a store, and
    [DEFAULT_CONFIG], hold every section of [DEFAULT_CONFIG] at the same
    address. *)
Lemma two_instances st st1 c1 st2 c2 section :
  wf_store st → Config_init st = Ok (st1, c1) → Config_init st1 = Ok (st2, c2) →
  c1 ≠ c2 ∧ c1 ≠ DEFAULT_CONFIG ∧ c2 ≠ DEFAULT_CONFIG ∧ wf_store st2
  ∧ (c1 < length (tops st2))%nat
  ∧ assoc section (default [] (tops st2 !! c1))
    = assoc section (default [] (tops st !! DEFAULT_CONFIG))
  ∧ assoc section (default [] (tops st2 !! c2))
    = assoc section (default [] (tops st !! DEFAULT_CONFIG))
  ∧ assoc section (default [] (tops st2 !! DEFAULT_CONFIG))
    = assoc section (default [] (tops st !! DEFAULT_CONFIG)).
Proof.
  intros Hwf H1 H2.
  destruct (wf_Config_init _ _ _ Hwf H1) as [Hwf1 Hc1].
  destruct (wf_Config_init _ _ _ Hwf1 H2) as [Hwf2 Hc2].
  destruct Hwf as [[top Htop] Hwf].
  pose proof (lookup_lt_Some _ _ _ Htop) as Hlen.
  apply Config_init_Ok in H1 as (-> & Ht1 & Hs1).
  apply Config_init_Ok in H2 as (-> & Ht2 & Hs2).
  assert (tops st1 !! DEFAULT_CONFIG = Some top) as Htop1
    by (rewrite Ht1, lookup_app_l by done; done).
  assert (length (tops st1) = S (length (tops st))) as Hlen1
    by (rewrite Ht1, length_app; simpl; lia).
  rewrite Htop1 in Ht2. rewrite Htop in Ht1. cbn [default from_option id] in *.
  rewrite Hlen1. unfold DEFAULT_CONFIG in *.
  split; [lia|]. split; [lia|]. split; [lia|]. split; [done|].
  split; [rewrite Ht2, length_app; simpl; lia|].
  rewrite Ht2, Htop. cbn [default from_option id].
  split; [|split].
  - rewrite lookup_app_l by lia. rewrite Ht1.
    rewrite lookup_app_r, Nat.sub_diag by lia. done.
  - rewrite lookup_app_r by lia. rewrite Hlen1, Nat.sub_diag. done.
  - rewrite lookup_app_l by lia. by rewrite Htop1.
Qed.

(** X22.  The section dictionaries of [DEFAULT_CONFIG] are shared by every
    instance.  Of two instances made one after the other, an item set
    through the first is read back through it; when its section is one
    of [DEFAULT_CONFIG], it is read through the second instance and
    through [DEFAULT_CONFIG] too, and so by every instance made later;
    when the section is new, the second instance and [DEFAULT_CONFIG] do
    not have it. *)
Theorem config_set_is_shared st st1 c1 st2 c2 section key value :
  wf_store st →
  Config_init st = Ok (st1, c1) → Config_init st1 = Ok (st2, c2) →
  let st3 := set st2 c1 section key value in
  get st3 c1 section (Some key) = Some (Item value)
  ∧ (is_Some (get st DEFAULT_CONFIG section None) →
     get st3 c2 section (Some key) = Some (Item value)
     ∧ get st3 DEFAULT_CONFIG section (Some key) = Some (Item value)
     ∧ ∀ st4 c3, Config_init st3 = Ok (st4, c3) →
                 get st4 c3 section (Some key) = Some (Item value))
  ∧ (get st DEFAULT_CONFIG section None = None →
     get st3 c2 section (Some key) = None
     ∧ get st3 DEFAULT_CONFIG section (Some key) = None).
Proof.
  intros Hwf H1 H2 st3.
  destruct (two_instances st st1 c1 st2 c2 section Hwf H1 H2)
    as (H12 & H10 & H20 & Hwf2 & Hlt & Hs1 & Hs2 & Hs0).
  destruct (assoc section (default [] (tops st !! DEFAULT_CONFIG))) as [a|] eqn:Ea.
  - assert (wf_store st3) as Hwf3.
    { subst st3. unfold set. rewrite Hs1. destruct Hwf2 as [Hd Hw]. split; [done|].
      cbn [tops sections]. intros t top s a' Ht Ha'. rewrite length_insert. by apply (Hw t top s). }
    split; [by apply (get_set_shared st2 c1 c1 section key value a)|]. split.
    + intros _. split; [by apply (get_set_shared st2 c1 c2 section key value a)|].
      split; [by apply (get_set_shared st2 c1 DEFAULT_CONFIG section key value a)|].
      intros st4 c3 H3. rewrite (proj1 (Config_init_get _ _ _ section (Some key) Hwf3 H3)).
      by apply (get_set_shared st2 c1 DEFAULT_CONFIG section key value a).
    + unfold get at 1. by rewrite Ea.
  - split; [|split].
    + subst st3. unfold set, get. rewrite Hs1. cbn [tops sections].
      rewrite list_lookup_insert_eq by done. cbn [default from_option id].
      rewrite assoc_dict_set_eq.
      rewrite lookup_app_r, Nat.sub_diag by lia.
      cbn [lookup list_lookup default from_option id assoc]. by destruct (String.eqb_spec key key).
    + unfold get at 1. rewrite Ea. by intros [??].
    + intros _. subst st3. unfold set, get. rewrite Hs1. cbn [tops sections].
      rewrite !list_lookup_insert_ne by done. by rewrite Hs2, Hs0.
Qed.

(** Two instances made after the module is loaded. *)
Definition first_instance : Store * nat :=
  match Config_init loaded with Ok r => r | Raise _ => (loaded, DEFAULT_CONFIG) end.

Definition second_instance : Store * nat :=
  match Config_init (fst first_instance) with
  | Ok r => r
  | Raise _ => (loaded, DEFAULT_CONFIG)
  end.

Lemma config_set_is_shared_witness :
  Config_init loaded = Ok first_instance
  ∧ Config_init (fst first_instance) = Ok second_instance
  ∧ get (fst second_instance) (snd second_instance) "ventilation" (Some "high_ach_rate")
    = Some (Item (VFloat 10))
  ∧ get (set (fst second_instance) (snd first_instance) "ventilation" "high_ach_rate"
             (VFloat 12))
        (snd second_instance) "ventilation" (Some "high_ach_rate")
    = Some (Item (VFloat 12)).
Proof.
  split; [reflexivity|]. split; [reflexivity|]. split; [reflexivity|].
  pose proof (config_set_is_shared loaded (fst first_instance) (snd first_instance)
                (fst second_instance) (snd second_instance) "ventilation" "high_ach_rate"
                (VFloat 12) wf_loaded eq_refl eq_refl) as (_ & Hshared & _).
  destruct Hshared as (H & _); [by eexists|]. exact H.
Defined.

(** *** Directories *)

Definition check_dir (u : unit) (kv : string * Value) : Result unit :=
  if endswith (fst kv) "_dir"
  then match snd kv with VStr _ => Ok tt | _ => Raise TypeError end
  else Ok tt.

Lemma check_dirs_dict_set key value : ∀ d,
  for_each check_dir d tt = Ok tt →
  check_dir tt (key, value) = Raise TypeError →
  for_each check_dir (dict_set key value d) tt = Raise TypeError.
Proof.
  induction d as [|[k v] d IH]; intros Hd Hbad; cbn [dict_set for_each].
  - by rewrite Hbad.
  - destruct (String.eqb key k); cbn [for_each]; [by rewrite Hbad|].
    cbn [for_each] in Hd. destruct (check_dir tt (k, v)) as [[]|] eqn:E; [|done].
    cbn in Hd |- *. by apply IH.
Qed.

(** X23.  Setting a directory item of the section [paths] to anything but a
    string, through any instance, makes every later [Config()] raise
    [TypeError]: the item lands in the dictionary that [DEFAULT_CONFIG]
    holds, and [_ensure_directories] hands it to [os.makedirs]. *)
Theorem config_set_breaks_init st st1 c1 key value :
  wf_store st → Config_init st = Ok (st1, c1) →
  endswith key "_dir" = true → (∀ s, value ≠ VStr s) →
  Config_init (set st1 c1 "paths" key value) = Raise TypeError.
Proof.
  intros Hwf H1 Hkey Hval.
  destruct (wf_Config_init _ _ _ Hwf H1) as [Hwf1 Hc1].
  pose proof H1 as Hinit. unfold Config_init in Hinit.
  apply bind_Ok in Hinit as ([] & Hdirs & _).
  destruct Hwf as [[top Htop] Hwf].
  pose proof (lookup_lt_Some _ _ _ Htop) as Hlen.
  apply Config_init_Ok in H1 as (-> & Ht1 & Hs1). rewrite Htop in Ht1, Hdirs.
  cbn [default from_option id] in Ht1, Hdirs.
  unfold ensure_directories in Hdirs. cbn [tops sections] in Hdirs.
  rewrite lookup_app_r, Nat.sub_diag in Hdirs by lia.
  cbn [lookup list_lookup default from_option id] in Hdirs.
  destruct (assoc "paths" top) as [a|] eqn:Ea; [|done].
  fold check_dir in Hdirs.
  assert (a < length (sections st))%nat as Ha by (by apply (Hwf DEFAULT_CONFIG top "paths")).
  unfold set. rewrite Ht1. rewrite lookup_app_r, Nat.sub_diag by lia.
  cbn [lookup list_lookup default from_option id]. rewrite Ea.
  unfold Config_init. cbn [tops sections].
  rewrite lookup_app_l by done. rewrite Htop. cbn [default from_option id].
  unfold ensure_directories. cbn [tops sections].
  rewrite lookup_app_r by (rewrite length_app; simpl; lia).
  rewrite length_app. cbn [length].
  replace (length (tops st) + 1 - (length (tops st) + 1))%nat with 0%nat by lia.
  cbn [lookup list_lookup default from_option id]. rewrite Ea.
  rewrite list_lookup_insert_eq by (rewrite Hs1; done).
  cbn [default from_option id]. fold check_dir. rewrite Hs1.
  rewrite check_dirs_dict_set; [done | done |].
  unfold check_dir. cbn [fst snd]. rewrite Hkey.
  destruct value; try done. by destruct (Hval s).
Qed.

Lemma config_set_breaks_init_witness :
  Config_init loaded = Ok first_instance
  ∧ Config_init (set (fst first_instance) (snd first_instance) "paths" "cache_dir" (VInt 0))
    = Raise TypeError.
Proof.
  split; [reflexivity|].
  apply (config_set_breaks_init loaded (fst first_instance) (snd first_instance)
           "cache_dir" (VInt 0) wf_loaded eq_refl eq_refl).
  intros s. discriminate.
Defined.

End ConfigSharing.

(** ** A worked example: a cabin of three spaces *)
Module Cabin.
Import Nx TopologyBuilder AchCalculator PyFacts NxFacts.

(** Two rooms joined by a door, a window in the first, and a locker of
    unknown volume that nothing opens into. *)
Definition cabin_spaces : list Space :=
  [ mkSpace "space_000" (Some 60%Q) (Some "unknown");
    mkSpace "space_001" (Some 40%Q) (Some "unknown");
    mkSpace "space_002" None (Some "unknown") ].

Definition cabin_openings : list Opening :=
  [ mkOpening "opening_000" "standard_door" (Some ["space_000"; "space_001"])
              (Some 2%Q) None;
    mkOpening "opening_001" "window" (Some ["space_000"]) (Some 1%Q) None ].

(** Scores for that graph, standing in for the library: [space_000]
    lies between [space_001] and the exterior. *)
Definition cabin_betweenness : Graph → list (Node * Q) :=
  λ _, [("space_000", (1 # 3)%Q); ("space_001", 0%Q); ("space_002", 0%Q);
        ("space_exterior", 0%Q)].

Definition cabin_closeness : Graph → list (Node * Q) :=
  λ _, [("space_000", (8 # 9)%Q); ("space_001", (2 # 3)%Q); ("space_002", 0%Q);
        ("space_exterior", (8 # 15)%Q)].

(** The graph [build_topology] makes of the cabin. *)
Definition cabin_graph : Graph :=
  let g := fold_left add_node
             ["space_000"; "space_001"; "space_002"; "space_exterior"] empty_graph in
  let g := add_edge g "space_000" "space_001"
             (mkEdgeData (Some ["opening_000"]) (Some 1%nat) (Some (1 / 2)%Q)
                         (Some ["standard_door"]) None) in
  add_edge g "space_000" "space_exterior"
    (mkEdgeData (Some ["opening_001"]) (Some 1%nat) (Some (1 / 1)%Q)
                (Some ["window"]) None).

Definition cabin_builder : Builder :=
  mkBuilder cabin_graph ["space_exterior"] []
            [("space_000", (3 # 5)%Q); ("space_001", (2 # 5)%Q); ("space_002", 0%Q);
             ("space_exterior", (1 # 2)%Q)].

Lemma cabin_graph_wf : wf_graph cabin_graph.
Proof.
  unfold cabin_graph. cbn [fold_left].
  repeat (apply wf_add_edge || apply wf_add_node). apply wf_empty.
Qed.


End Cabin.

Module CabinAch.
Import Nx TopologyBuilder AchCalculator PyFacts NxFacts Cabin AchCalculatorSpec.
Import AchErrors AchPrimary SpaceDataGenerator.



Lemma primary_path_is_lightest_witness :
  ∃ self primary count,
    calculate_ach_rates default_config linear cabin_spaces cabin_graph ["space_exterior"]
    = Ok self
    ∧ ps_ventilationInfo
        (process_space (ach_rates self) (ventilation_paths self)
                       (mkSpace "space_001" (Some 40%Q) (Some "unknown")))
      = Some (primary, count)
    ∧ ∃ paths p,
        ventilation_paths self !! "space_001" = Some paths
        ∧ count = length paths
        ∧ p ∈ paths
        ∧ pp_route primary = route p ∧ pp_via primary = via p
        ∧ pp_length primary = path_length p
        ∧ ∀ q, q ∈ paths → (weight p <= weight q)%Q.
Proof.
  eexists _, _, _. split; [vm_compute; reflexivity|]. split; [vm_compute; reflexivity|].
  apply (primary_path_is_lightest default_config linear cabin_spaces cabin_graph
           ["space_exterior"] _ (mkSpace "space_001" (Some 40%Q) (Some "unknown"))).
  - vm_compute. reflexivity.
  - right. left.
  - vm_compute. reflexivity.
Defined.

End CabinAch.

Module CabinTopology.
Import Nx TopologyBuilder PyFacts NxFacts Cabin.
Import TopologyEdges TopologyOpenings TopologyIsolated TopologyImportant TopologyStatus
       TopologyResilience TopologyConnectivity NxEdges.

Lemma build_topology_edges_consistent_witness :
  ∃ r self d,
    build_topology cabin_betweenness cabin_closeness new_builder cabin_spaces cabin_openings
    = Ok (r, self)
    ∧ get_edge_data (r_space_graph r) "space_000" "space_001" = Some d
    ∧ get_edge_data (r_space_graph r) "space_001" "space_000" = Some d
    ∧ ∃ os ts w,
        e_openings d = Some os ∧ os ≠ []
        ∧ e_count d = Some (length os)
        ∧ e_opening_types d = Some ts ∧ length ts = length os
        ∧ e_weight d = Some w ∧ (0 < w)%Q.
Proof.
  eexists _, _, _. split; [vm_compute; reflexivity|]. split; [vm_compute; reflexivity|].
  apply (build_topology_edges_consistent cabin_betweenness cabin_closeness new_builder
           cabin_spaces cabin_openings _ _ ltac:(vm_compute; reflexivity)
           "space_000" "space_001").
  vm_compute. reflexivity.
Defined.

Lemma build_topology_records_openings_witness :
  ∃ r self d os w,
    build_topology cabin_betweenness cabin_closeness new_builder cabin_spaces cabin_openings
    = Ok (r, self)
    ∧ get_edge_data (r_space_graph r) "space_000" "space_exterior" = Some d
    ∧ e_openings d = Some os ∧ "opening_001" ∈ os
    ∧ e_weight d = Some w
    ∧ (w <= opening_weight (mkOpening "opening_001" "window" (Some ["space_000"])
                                     (Some 1%Q) None))%Q.
Proof.
  assert (∃ r self,
            build_topology cabin_betweenness cabin_closeness new_builder cabin_spaces
              cabin_openings = Ok (r, self)) as (r & self & Hrun)
    by (eexists _, _; vm_compute; reflexivity).
  destruct (build_topology_records_openings cabin_betweenness cabin_closeness
              cabin_spaces cabin_openings r self
              (mkOpening "opening_001" "window" (Some ["space_000"]) (Some 1%Q) None)
              "space_000" "space_exterior" Hrun)
    as (d & os & w & H); [right; left | right; by split | left; left | by right |].
  by exists r, self, d, os, w.
Defined.

Lemma build_topology_isolated_exact_witness :
  ∃ r self,
    build_topology cabin_betweenness cabin_closeness new_builder cabin_spaces cabin_openings
    = Ok (r, self)
    ∧ ("space_002" ∈ r_isolated_spaces r
       ↔ "space_002" ∈ nodes (r_space_graph r) ∧ "space_002" ≠ exterior_id
         ∧ ¬ reachable (r_space_graph r) "space_002" exterior_id).
Proof.
  eexists _, _. split; [vm_compute; reflexivity|].
  eapply (build_topology_isolated_exact cabin_betweenness cabin_closeness cabin_spaces
            cabin_openings _ _ "space_002").
  vm_compute. reflexivity.
Defined.

Lemma find_important_spaces_top_witness :
  let important := find_important_spaces cabin_builder in
  length important ≤ 5
  ∧ NoDup important
  ∧ (∀ n, n ∈ important →
          n ∈ nodes (space_graph cabin_builder) ∧ n ∉ exterior_nodes cabin_builder)
  ∧ StronglySorted (λ a b, (score cabin_builder b <= score cabin_builder a)%Q) important
  ∧ (∀ n m, n ∈ important →
            m ∈ nodes (space_graph cabin_builder) → m ∉ exterior_nodes cabin_builder →
            m ∉ important →
            (score cabin_builder m <= score cabin_builder n)%Q)
  ∧ (length important < 5 →
     ∀ m, m ∈ nodes (space_graph cabin_builder) → m ∉ exterior_nodes cabin_builder →
          m ∈ important).
Proof.
  apply (find_important_spaces_top cabin_builder).
  apply (bool_decide_unpack _). vm_compute. exact I.
Defined.

Definition cabin_states : gmap string string := {[ "opening_000" := "closed" ]}.

Lemma status_graph_scales_closed_witness :
  ∃ r self status_graph,
    build_topology cabin_betweenness cabin_closeness new_builder cabin_spaces cabin_openings
    = Ok (r, self)
    ∧ get_opening_status_graph self cabin_states = Ok status_graph
    ∧ nodes status_graph = nodes (r_space_graph r)
    ∧ (∀ u v, has_edge status_graph u v = has_edge (r_space_graph r) u v)
    ∧ ∀ u v d, get_edge_data (r_space_graph r) u v = Some d →
        ∃ d' w w',
          get_edge_data status_graph u v = Some d'
          ∧ e_openings d' = e_openings d ∧ e_count d' = e_count d
          ∧ e_opening_types d' = e_opening_types d
          ∧ e_weight d = Some w ∧ e_weight d' = Some w'
          ∧ (w' == w * 10 ^ Z.of_nat (closed_count cabin_states d))%Q.
Proof.
  assert (∃ r self,
            build_topology cabin_betweenness cabin_closeness new_builder cabin_spaces
              cabin_openings = Ok (r, self)) as (r & self & Hrun)
    by (eexists _, _; vm_compute; reflexivity).
  destruct (status_graph_scales_closed cabin_betweenness cabin_closeness cabin_spaces
              cabin_openings r self cabin_states Hrun) as (status_graph & H).
  by exists r, self, status_graph.
Defined.

(** Stand-ins for the library on the cabin graph, which is not
    connected: the door carries the most shortest paths, and the path
    length and the diameter are not defined. *)
Definition cabin_edge_betweenness : Graph → list ((Node * Node) * Q) :=
  λ _, [(("space_000", "space_001"), (1 # 3)%Q);
        (("space_000", "space_exterior"), (1 # 3)%Q)].

Definition cabin_path_length : Graph → Outcome Q := λ _, NetworkXError.
Definition cabin_clustering : Graph → Outcome Q := λ _, Returns 0%Q.
Definition cabin_diameter : Graph → Outcome Q := λ _, NetworkXError.

Lemma evaluate_topology_resilience_erases_witness :
  ∃ res self',
    evaluate_topology_resilience cabin_edge_betweenness cabin_path_length
      cabin_clustering cabin_diameter cabin_builder = Returns (res, self')
    ∧ (0 < resilience_score res <= 1)%Q
    ∧ nodes (space_graph self') = nodes (space_graph cabin_builder)
    ∧ (∀ x y, has_edge (space_graph self') x y = has_edge (space_graph cabin_builder) x y)
    ∧ (∀ u v, (u, v) ∈ probed cabin_edge_betweenness cabin_builder →
              get_edge_data (space_graph self') u v = Some no_attrs
              ∧ get_edge_data (space_graph self') v u = Some no_attrs)
    ∧ (∀ x y, (∀ u v, (u, v) ∈ probed cabin_edge_betweenness cabin_builder →
                      touches x y (u, v) = false) →
              get_edge_data (space_graph self') x y
              = get_edge_data (space_graph cabin_builder) x y).
Proof.
  apply (evaluate_topology_resilience_erases cabin_edge_betweenness cabin_path_length
           cabin_clustering cabin_diameter cabin_builder Inf 0%Q Inf).
  - apply cabin_graph_wf.
  - intros u v Huv. apply list_elem_of_In in Huv. vm_compute in Huv.
    destruct Huv as [[= <- <-]|[[= <- <-]|[]]]; by vm_compute.
  - reflexivity.
  - reflexivity.
  - reflexivity.
Defined.

(** The shortest paths of the cabin, standing in for the library. *)
Definition cabin_shortest_paths : Graph → Node → Node → option (list (list Node)) :=
  λ _ source _,
    if String.eqb source "space_000" then Some [["space_000"; "space_exterior"]]
    else if String.eqb source "space_001"
         then Some [["space_001"; "space_000"; "space_exterior"]]
         else None.

Lemma calculate_space_connectivity_entries_witness :
  ∃ result,
    calculate_space_connectivity cabin_shortest_paths cabin_builder = Ok result
    ∧ (∀ node, is_Some (assoc node result)
               ↔ node ∈ nodes (space_graph cabin_builder)
                 ∧ node ∉ exterior_nodes cabin_builder)
    ∧ ∀ node c, assoc node result = Some c →
        num_paths c = length (paths c)
        ∧ num_paths c ≤ 3 * length (exterior_nodes cabin_builder)
        ∧ (has_path_to_exterior c = true ↔ paths c ≠ [])
        ∧ StronglySorted (λ p q, (ep_weight p <= ep_weight q)%Q) (paths c)
        ∧ (∀ p, p ∈ paths c →
                ep_exterior p ∈ exterior_nodes cabin_builder
                ∧ ep_length p = (Z.of_nat (length (ep_route p)) - 1)%Z)
        ∧ (paths c = [] → min_weight c = Inf ∧ avg_layers c = Inf)
        ∧ (paths c ≠ [] →
           ∃ p, p ∈ paths c ∧ min_weight c = Finite (ep_weight p)
                ∧ ∀ q, q ∈ paths c → (ep_weight p <= ep_weight q)%Q).
Proof.
  apply (calculate_space_connectivity_entries cabin_shortest_paths cabin_builder).
  - intros e He. apply list_elem_of_singleton in He as ->. apply mem_true. by vm_compute.
  - intros s t ps p Hps Hp. unfold cabin_shortest_paths in Hps.
    destruct (String.eqb s "space_000");
      [|destruct (String.eqb s "space_001"); [|discriminate]];
      injection Hps as <-; apply list_elem_of_singleton in Hp as ->; by vm_compute.
Defined.

End CabinTopology.

Module CabinSpaces.
Import Nx SpaceDetector SpaceDataGenerator PyFacts NxFacts AchReports.
Import GeneratorPaths DetectorIds DetectorFlood DetectorMerge.
Import AchCalculator (VentPath, route, via, weight).

Lemma process_ventilation_paths_shares_witness :
  ∃ processed,
    process_ventilation_paths {[ "space_001" := two_routes ]} = Ok processed
    ∧ (∀ space_id paths,
         ({[ "space_001" := two_routes ]} : gmap string (list VentPath)) !! space_id
         = Some paths → paths ≠ [] →
         ∃ entry, (space_id, entry) ∈ processed)
    ∧ (∀ space_id entry, (space_id, entry) ∈ processed →
         ∃ paths,
           ({[ "space_001" := two_routes ]} : gmap string (list VentPath)) !! space_id
           = Some paths ∧ paths ≠ []
           ∧ map pr_route entry = map route paths
           ∧ map pr_via entry = map via paths
           ∧ (∀ c, c ∈ map pr_contribution entry → (0 < c)%Q)
           ∧ (py_sum (map pr_contribution entry) == 1)%Q).
Proof.
  apply (process_ventilation_paths_shares {[ "space_001" := two_routes ]}).
  intros space_id paths p Hget Hp. apply lookup_singleton_Some in Hget as [_ <-].
  by apply two_routes_weights.
Defined.

(** A closed hull of 7 x 3 x 3 voxels with a bulkhead in the middle:
    two compartments of two voxels each. *)
Definition twin_hull : Grid :=
  mkGrid (7, 3, 3)%Z
         (list_to_set ((3, 1, 1)%Z
                       :: List.filter (on_boundary (7, 3, 3)%Z) (box (7, 3, 3)%Z))).

Lemma detect_spaces_ids_witness :
  ∃ spaces,
    detect_spaces 2 5000 [] twin_hull 1 = Ok spaces
    ∧ map space_id spaces = map space_name (seq 0 (length spaces))
    ∧ NoDup (map space_id spaces)
    ∧ ∀ sp, sp ∈ spaces →
        (2 <= space_volume sp)%Q
        ∧ space_volume sp = (inject_Z (Z.of_nat (voxel_count sp)) * 1 ^ 3)%Q
        ∧ voxel_count sp = length (voxel_indices sp)
        ∧ space_type sp = "unknown" ∧ merged_from sp = None.
Proof.
  eexists. split; [vm_compute; reflexivity|].
  apply (detect_spaces_ids 2 5000 [] twin_hull 1).
  vm_compute. reflexivity.
Defined.

(** The empty cells of a hull with a hatch: the hatch and the cell
    behind it open to the outside, a third cell is shut in. *)
Definition hatch : Grid :=
  mkGrid (5, 3, 3)%Z (list_to_set [(0, 1, 1)%Z; (1, 1, 1)%Z; (3, 1, 1)%Z]).

Lemma exterior_removal_exact_witness :
  ∃ filled,
    remove_external_space 5000 [] hatch = Ok filled
    ∧ shape filled = shape hatch
    ∧ ∀ w, w ∈ cells filled
           ↔ w ∈ cells hatch
             ∧ ∀ b, on_boundary (shape hatch) b = true →
                    ¬ joined (shape hatch) (cells hatch) b w.
Proof.
  apply (exterior_removal_exact 5000 [] hatch).
  - cbn. lia.
  - intros v Hv. apply elem_of_list_to_set in Hv.
    repeat (apply elem_of_cons in Hv as [->|Hv]; [reflexivity|]).
    by apply elem_of_nil in Hv.
  - vm_compute. lia.
Defined.

(** Three spaces, the first two touching; every pair counts as close. *)
Definition berths : Detector :=
  mkDetector
    [ mkDetected "space_000" 2 2 [(1, 1, 1)%Z; (2, 1, 1)%Z] "unknown" None;
      mkDetected "space_001" 1 1 [(3, 1, 1)%Z] "unknown" None;
      mkDetected "space_002" 4 4 [(7, 1, 1)%Z; (8, 1, 1)%Z; (7, 2, 1)%Z; (8, 2, 1)%Z]
                 "unknown" None ]
    (add_edge (fold_left add_node ["space_000"; "space_001"; "space_002"] empty_graph)
              "space_000" "space_001" no_attrs).

Definition touching : DetectedSpace → DetectedSpace → Q := λ _ _, 0%Q.

Lemma merge_fragmented_spaces_conserves_witness :
  ∃ self',
    merge_fragmented_spaces 1 touching ["3f2b8c1d9e4a4f6b8a7c5d2e1f0a9b8c"] berths
    = Some self'
    ∧ map space_type (det_spaces self') = ["unknown"; "merged"]
    ∧ (total space_volume (det_spaces self') == total space_volume (det_spaces berths))%Q
    ∧ (length (det_spaces self') ≤ length (det_spaces berths))%nat.
Proof.
  eexists. split; [vm_compute; reflexivity|]. split; [reflexivity|].
  pose proof (merge_fragmented_spaces_conserves 1 touching
                ["3f2b8c1d9e4a4f6b8a7c5d2e1f0a9b8c"] berths _
                ltac:(vm_compute; reflexivity)) as (Hv & Hl & _).
  split; [exact Hv | exact Hl].
Defined.

Lemma merge_fragmented_spaces_groups_witness :
  ∃ self' m from,
    merge_fragmented_spaces 1 touching ["3f2b8c1d9e4a4f6b8a7c5d2e1f0a9b8c"] berths
    = Some self'
    ∧ m ∈ det_spaces self' ∧ space_type m = "merged"
    ∧ merged_from m = Some from ∧ "space_000" ∈ from ∧ "space_001" ∈ from.
Proof.
  assert (∃ self',
            merge_fragmented_spaces 1 touching ["3f2b8c1d9e4a4f6b8a7c5d2e1f0a9b8c"] berths
            = Some self') as (self' & Hrun) by (eexists; vm_compute; reflexivity).
  destruct (proj1 (merge_fragmented_spaces_groups 1 touching
                     ["3f2b8c1d9e4a4f6b8a7c5d2e1f0a9b8c"] berths self' Hrun)
                  ("space_000", "space_001")) as (m & from & H).
  - cbn. lia.
  - vm_compute. left.
  - eexists _, _. split; [vm_compute; reflexivity|]. split; [vm_compute; reflexivity|].
    reflexivity.
  - done.
  - by exists self', m, from.
Defined.

End CabinSpaces.
